(** * The inliner of the Intercept middle end ([src/codegen/opt/inline.c])

    The SSA intermediate representation is embedded with explicit
    handles: an [IRInstruction*], [IRBlock*] or [IRFunction*] of the C
    code is a natural number, and the objects they point to live in
    finite maps.  Storage is split by owning function: every function
    carries the instructions and blocks that were allocated for it, so
    an operand reference is resolved in the function it occurs in.
    The doubly linked lists of the C code are sequences of handles in
    forward ([next]) order, the order in which [list_foreach] meets the
    elements.  The pointer [last] that a list stores is kept beside the
    sequence: the inliner writes the links of a list without bringing
    [last] up to date (lines 379-384 and 397-415) and reads it later
    (line 309), so it need not name the end of the sequence. *)

From Stdlib Require Import ZArith String Lia.
From stdpp Require Import base option list gmap pretty.

Local Open Scope Z_scope.
Local Open Scope nat_scope.

(** ** Outcomes

    A C function either returns, stops the compiler ([ASSERT], [ICE],
    [UNREACHABLE], or a memory access that the embedding does not
    describe, such as a NULL or dangling dereference), or keeps looping. *)

Inductive result (A : Type) : Type :=
| Ok (a : A)
| Abort
| Diverge.
Arguments Ok {A} a.
Arguments Abort {A}.
Arguments Diverge {A}.

Definition bind {A B : Type} (m : result A) (k : A -> result B) : result B :=
  match m with
  | Ok a => k a
  | Abort => Abort
  | Diverge => Diverge
  end.

Notation "'do' x <- m ; k" := (bind m (fun x => k))
  (at level 10, x pattern, m at level 100, k at level 200,
   format "'[v' 'do'  x  <-  m ;  '/' k ']'").

Definition of_option {A : Type} (o : option A) : result A :=
  match o with
  | Some a => Ok a
  | None => Abort
  end.

Fixpoint mapM {A B : Type} (f : A -> result B) (l : list A) : result (list B) :=
  match l with
  | [] => Ok []
  | x :: l' => do y <- f x; do ys <- mapM f l'; Ok (y :: ys)
  end.

Fixpoint foldM {A S : Type} (f : S -> A -> result S) (s : S) (l : list A) : result S :=
  match l with
  | [] => Ok s
  | x :: l' => do s' <- f s x; foldM f s' l'
  end.

(** ** Instructions *)

Abbreviation inst_ref := nat (only parsing).
Abbreviation block_ref := nat (only parsing).
Abbreviation func_ref := nat (only parsing).

(** The 39 instruction kinds ([STATIC_ASSERT(IR_COUNT == 39)]). *)
Inductive IRType : Set :=
| IR_IMMEDIATE | IR_CALL | IR_INTRINSIC | IR_STATIC_REF | IR_FUNC_REF
| IR_UNREACHABLE | IR_ALLOCA
| IR_LOAD | IR_COPY | IR_ZERO_EXTEND | IR_SIGN_EXTEND | IR_TRUNCATE
| IR_BITCAST | IR_NOT
| IR_ADD | IR_SUB | IR_MUL | IR_DIV | IR_MOD | IR_SHL | IR_SAR | IR_SHR
| IR_AND | IR_OR | IR_LT | IR_LE | IR_GT | IR_GE | IR_EQ | IR_NE
| IR_STORE | IR_BRANCH | IR_BRANCH_CONDITIONAL | IR_PHI | IR_RETURN
| IR_PARAMETER | IR_LIT_INTEGER | IR_LIT_STRING | IR_REGISTER.

Global Instance IRType_eq_dec : EqDecision IRType.
Proof. solve_decision. Defined.

(** The cases of the [switch] of the copy loop group the kinds by the
    union member they use. *)
Inductive kind_class : Set :=
| KUncopyable      (* IR_LIT_INTEGER, IR_LIT_STRING, IR_REGISTER, IR_PARAMETER *)
| KImmediate | KStaticRef | KFuncRef | KUnreachable | KAlloca
| KIntrinsic | KCall
| KUnary           (* IR_LOAD .. IR_NOT: [operand] *)
| KBinary          (* IR_ADD .. IR_NE: [lhs], [rhs] *)
| KStore | KBranch | KCondBranch | KPhi | KReturn.

Definition classify (k : IRType) : kind_class :=
  match k with
  | IR_LIT_INTEGER | IR_LIT_STRING | IR_REGISTER | IR_PARAMETER => KUncopyable
  | IR_IMMEDIATE => KImmediate
  | IR_STATIC_REF => KStaticRef
  | IR_FUNC_REF => KFuncRef
  | IR_UNREACHABLE => KUnreachable
  | IR_ALLOCA => KAlloca
  | IR_INTRINSIC => KIntrinsic
  | IR_CALL => KCall
  | IR_LOAD | IR_COPY | IR_ZERO_EXTEND | IR_SIGN_EXTEND | IR_TRUNCATE
  | IR_BITCAST | IR_NOT => KUnary
  | IR_ADD | IR_SUB | IR_MUL | IR_DIV | IR_MOD | IR_SHL | IR_SAR | IR_SHR
  | IR_AND | IR_OR | IR_LT | IR_LE | IR_GT | IR_GE | IR_EQ | IR_NE => KBinary
  | IR_STORE => KStore
  | IR_BRANCH => KBranch
  | IR_BRANCH_CONDITIONAL => KCondBranch
  | IR_PHI => KPhi
  | IR_RETURN => KReturn
  end.

(** [call.is_indirect] selects the member of the callee union. *)
Inductive IRCallee : Set :=
| callee_function (f : func_ref)
| callee_instruction (i : inst_ref).

(** The payload union of an instruction.  [NoData] is the zeroed union
    left by [calloc]. *)
Inductive IRData : Set :=
| NoData
| Imm (imm : Z)
| StaticRef (static_ref : nat)
| FunctionRef (function_ref : func_ref)
| Alloca (alloca : nat)
| Call (intrinsic : nat) (callee : IRCallee) (arguments : list inst_ref)
       (tail_call : bool)
| Operand (operand : option inst_ref)
| BinOp (lhs rhs : inst_ref)
| Store (value addr : inst_ref)
| Branch (destination_block : block_ref)
| CondBr (condition : inst_ref) (then_ else_ : block_ref)
| Phi (phi_args : list (block_ref * inst_ref)).

Record IRInstruction : Set := mkInstruction {
  kind : IRType;
  type : nat;
  backend_flags : nat;
  data : IRData;
  id : nat;
  parent_block : option block_ref;
  users : list inst_ref;
}.

Record IRBlock : Set := mkBlock {
  instructions : list inst_ref;
  instructions_last : option inst_ref;   (* [instructions.last] as stored *)
  function : option func_ref;
  block_id : nat;
}.

Record IRFunction : Type := mkFunction {
  name : string;
  blocks : list block_ref;
  blocks_last : option block_ref;        (* [blocks.last] as stored *)
  parameters : list inst_ref;
  is_extern : bool;
  attr_forceinline : bool;
  insts : gmap nat IRInstruction;
  blks : gmap nat IRBlock;
}.

Record diagnostic : Set := mkDiagnostic {
  diag_message : string;
  diag_arguments : list string;
}.

(** [fresh] is the allocator: [calloc] and [ir_block_create] hand out
    handles that were never used before. *)
Record CodegenContext : Type := mkContext {
  functions : list func_ref;
  funcs : gmap nat IRFunction;
  diagnostics : list diagnostic;
  fresh : nat;
}.

(** ** Access to the stores *)

Definition get_func (ctx : CodegenContext) (f : func_ref) : result IRFunction :=
  of_option (funcs ctx !! f).

Definition get_inst (f : IRFunction) (i : inst_ref) : result IRInstruction :=
  of_option (insts f !! i).

Definition get_block (f : IRFunction) (b : block_ref) : result IRBlock :=
  of_option (blks f !! b).

Definition with_insts (f : IRFunction) (m : gmap nat IRInstruction) : IRFunction :=
  mkFunction (name f) (blocks f) (blocks_last f) (parameters f) (is_extern f)
             (attr_forceinline f) m (blks f).

Definition with_blks (f : IRFunction) (m : gmap nat IRBlock) : IRFunction :=
  mkFunction (name f) (blocks f) (blocks_last f) (parameters f) (is_extern f)
             (attr_forceinline f) (insts f) m.

(** A write to the [next] links of the blocks: the stored [blocks.last]
    stays as it is. *)
Definition with_blocks (f : IRFunction) (l : list block_ref) : IRFunction :=
  mkFunction (name f) l (blocks_last f) (parameters f) (is_extern f)
             (attr_forceinline f) (insts f) (blks f).

Definition with_funcs (ctx : CodegenContext) (m : gmap nat IRFunction) : CodegenContext :=
  mkContext (functions ctx) m (diagnostics ctx) (fresh ctx).

Definition with_fresh (ctx : CodegenContext) (n : nat) : CodegenContext :=
  mkContext (functions ctx) (funcs ctx) (diagnostics ctx) n.

Definition set_func (ctx : CodegenContext) (fr : func_ref) (f : IRFunction) : CodegenContext :=
  with_funcs ctx (<[fr := f]> (funcs ctx)).

Definition set_kind (k : IRType) (i : IRInstruction) : IRInstruction :=
  mkInstruction k (type i) (backend_flags i) (data i) (id i) (parent_block i) (users i).

Definition set_type (t : nat) (i : IRInstruction) : IRInstruction :=
  mkInstruction (kind i) t (backend_flags i) (data i) (id i) (parent_block i) (users i).

Definition set_backend_flags (fl : nat) (i : IRInstruction) : IRInstruction :=
  mkInstruction (kind i) (type i) fl (data i) (id i) (parent_block i) (users i).

Definition set_data (d : IRData) (i : IRInstruction) : IRInstruction :=
  mkInstruction (kind i) (type i) (backend_flags i) d (id i) (parent_block i) (users i).

Definition set_id (n : nat) (i : IRInstruction) : IRInstruction :=
  mkInstruction (kind i) (type i) (backend_flags i) (data i) n (parent_block i) (users i).

Definition set_parent_block (b : option block_ref) (i : IRInstruction) : IRInstruction :=
  mkInstruction (kind i) (type i) (backend_flags i) (data i) (id i) b (users i).

Definition set_users (u : list inst_ref) (i : IRInstruction) : IRInstruction :=
  mkInstruction (kind i) (type i) (backend_flags i) (data i) (id i) (parent_block i) u.

(** A write to the [next] links of the instructions of a block: the
    stored [instructions.last] stays as it is. *)
Definition set_instructions (l : list inst_ref) (b : IRBlock) : IRBlock :=
  mkBlock l (instructions_last b) (function b) (block_id b).

Definition set_instructions_last (o : option inst_ref) (b : IRBlock) : IRBlock :=
  mkBlock (instructions b) o (function b) (block_id b).

Definition set_block_id (n : nat) (b : IRBlock) : IRBlock :=
  mkBlock (instructions b) (instructions_last b) (function b) n.

(** An update through a pointer to an instruction or a block. *)
Definition update_inst (f : IRFunction) (i : inst_ref)
    (g : IRInstruction -> IRInstruction) : IRFunction :=
  with_insts f (alter g i (insts f)).

Definition update_block (f : IRFunction) (b : block_ref)
    (g : IRBlock -> IRBlock) : IRFunction :=
  with_blks f (alter g b (blks f)).

(** [calloc(1, sizeof(IRInstruction))]: every field is zero; the kind
    with enumerator 0 is taken to be [IR_IMMEDIATE]. *)
Definition zeroed_instruction : IRInstruction :=
  mkInstruction IR_IMMEDIATE 0 0 NoData 0 None [].

Definition zeroed_block : IRBlock := mkBlock [] None None 0.

(** ** Operands *)

Definition callee_operands (c : IRCallee) : list inst_ref :=
  match c with
  | callee_function _ => []
  | callee_instruction i => [i]
  end.

(** The instructions an instruction names as operands. *)
Definition operands (d : IRData) : list inst_ref :=
  match d with
  | NoData | Imm _ | StaticRef _ | FunctionRef _ | Alloca _ | Branch _ => []
  | Call _ c args _ => callee_operands c ++ args
  | Operand o => option_list o
  | BinOp l r => [l; r]
  | Store v a => [v; a]
  | CondBr c _ _ => [c]
  | Phi args => args.*2
  end.

Definition subst_ref (old new : inst_ref) (x : inst_ref) : inst_ref :=
  if decide (x = old) then new else x.

Definition subst_callee (old new : inst_ref) (c : IRCallee) : IRCallee :=
  match c with
  | callee_function f => callee_function f
  | callee_instruction i => callee_instruction (subst_ref old new i)
  end.

(** Every operand slot holding [old] is made to hold [new]. *)
Definition subst_data (old new : inst_ref) (d : IRData) : IRData :=
  match d with
  | NoData | Imm _ | StaticRef _ | FunctionRef _ | Alloca _ | Branch _ => d
  | Call n c args t => Call n (subst_callee old new c) (subst_ref old new <$> args) t
  | Operand o => Operand (subst_ref old new <$> o)
  | BinOp l r => BinOp (subst_ref old new l) (subst_ref old new r)
  | Store v a => Store (subst_ref old new v) (subst_ref old new a)
  | CondBr c t e => CondBr (subst_ref old new c) t e
  | Phi args => Phi (prod_map Datatypes.id (subst_ref old new) <$> args)
  end.

(** ** IR helpers used by the inliner

    The helpers below are declared in [codegen/intermediate_representation.h];
    their bodies are not part of the sources at hand. *)

(** Modelled from the spec: [mark_used(usee, user)] is missing; the
    users of a value form a set, and every operand write "updates both
    directions": [user] is added to the users of [usee]. *)
Definition mark_used (f : IRFunction) (usee user : inst_ref) : IRFunction :=
  update_inst f usee
    (fun i => if decide (user ∈ users i) then i else set_users (users i ++ [user]) i).

(** Modelled from the spec: [ir_remove_use(usee, user)] is missing; it
    is the inverse of [mark_used] on the users set of [usee]. *)
Definition ir_remove_use (f : IRFunction) (usee user : inst_ref) : IRFunction :=
  update_inst f usee (fun i => set_users (filter (fun u => u ≠ user) (users i)) i).

(** Modelled from the spec: [ir_unmark_usees(i)] is missing; it
    "detaches all operand uses" of [i]: [i] leaves the users set of each
    of its operands. *)
Definition ir_unmark_usees (f : IRFunction) (i : inst_ref) : IRFunction :=
  match insts f !! i with
  | Some r => foldl (fun f' usee => ir_remove_use f' usee i) f (operands (data r))
  | None => f
  end.

(** Modelled from the spec: [ir_replace_uses(old, new)] is missing;
    "RAUW updates the users set of the old value and the new": every
    user of [old] names [new] instead and becomes a user of [new]. *)
Definition ir_replace_uses (f : IRFunction) (old new : inst_ref) : IRFunction :=
  if decide (old = new) then f else
  match insts f !! old with
  | Some r =>
      let f1 := foldl (fun f' u =>
                  mark_used (update_inst f' u (fun i => set_data (subst_data old new (data i)) i))
                            new u) f (users r) in
      update_inst f1 old (set_users [])
  | None => f
  end.

(** [i->prev] for an instruction of the list [l]. *)
Fixpoint prev_of (i : inst_ref) (l : list inst_ref) : option inst_ref :=
  match l with
  | x :: l' =>
      match l' with
      | y :: _ => if decide (y = i) then Some x else prev_of i l'
      | [] => None
      end
  | [] => None
  end.

(** Unlinking from a doubly linked list: the stored [last] moves to the
    predecessor when it named the element. *)
Definition unlink (i : inst_ref) (blk : IRBlock) : IRBlock :=
  set_instructions_last
    (if decide (instructions_last blk = Some i) then prev_of i (instructions blk)
     else instructions_last blk)
    (set_instructions (filter (fun x => x ≠ i) (instructions blk)) blk).

(** Modelled from the spec: [ir_remove(i)] is missing; "deletion
    unlinks from the owning block, detaches all operand uses, and asserts
    no remaining users".  The storage of [i] is released. *)
Definition ir_remove (f : IRFunction) (i : inst_ref) : result IRFunction :=
  do r <- get_inst f i;
  match users r with
  | [] =>
      let f1 := ir_unmark_usees f i in
      let f2 := match parent_block r with
                | Some b => update_block f1 b (unlink i)
                | None => f1
                end in
      Ok (with_insts f2 (delete i (insts f2)))
  | _ :: _ => Abort
  end.

(** Modelled from the spec: [ir_force_insert_into_block(block, i)] is
    missing; it appends [i] to the instruction list of [block], where it
    becomes the last instruction, and sets the parent of [i].  An
    instruction has one pair of list links, so one that is already linked
    into a block cannot be described as appended to a second sequence:
    the embedding stops there. *)
Definition ir_force_insert_into_block (f : IRFunction) (b : block_ref) (i : inst_ref)
    : result IRFunction :=
  do r <- get_inst f i;
  do blk <- get_block f b;
  match parent_block r with
  | Some _ => Abort
  | None =>
      let f1 := update_inst f i (set_parent_block (Some b)) in
      Ok (update_block f1 b
            (fun blk' => set_instructions_last (Some i)
                           (set_instructions (instructions blk ++ [i]) blk')))
  end.

(** The last instruction of a block and whether it is a terminator
    ([ir_is_closed]). *)
Definition is_terminator (k : IRType) : bool :=
  match k with
  | IR_BRANCH | IR_BRANCH_CONDITIONAL | IR_RETURN | IR_UNREACHABLE => true
  | _ => false
  end.

Definition ir_is_closed (f : IRFunction) (blk : IRBlock) : bool :=
  match last (instructions blk) with
  | Some i => match insts f !! i with
              | Some r => is_terminator (kind r)
              | None => false
              end
  | None => false
  end.

(** Modelled from the spec: [ir_insert_into_block(block, i)] is missing;
    "after closing, emits are rejected": it is the forced insertion with
    an assertion that [block] is not closed. *)
Definition ir_insert_into_block (f : IRFunction) (b : block_ref) (i : inst_ref)
    : result IRFunction :=
  do blk <- get_block f b;
  if ir_is_closed f blk then Abort else ir_force_insert_into_block f b i.

(** [FOREACH_INSTRUCTION_IN_FUNCTION]: the blocks in order and, in each,
    its instructions in order. *)
Definition function_instructions (f : IRFunction) : result (list (block_ref * inst_ref)) :=
  do ls <- mapM (fun b => do blk <- get_block f b; Ok (pair b <$> instructions blk))
                (blocks f);
  Ok (concat ls).

(** ** [instruction_count] (lines 16-23) *)

Definition instruction_count (f : IRFunction) (include_parameters : bool) : result nat :=
  do l <- function_instructions f;
  do rs <- mapM (fun p => get_inst f p.2) l;
  Ok (length (filter (fun r => include_parameters = true ∨ kind r ≠ IR_PARAMETER) rs)).

(** ** The inlining context (lines 3-14) *)

Record history_entry : Set := mkEntry {
  call : inst_ref;
  callee : option func_ref;
  inlined_via : option nat;
}.

(** [(usz) -1] marks a root entry; no index into the history has that
    value. *)
Definition ROOT_INLINE_ENTRY : option nat := None.

Record InlineContext : Set := mkInlineContext {
  history : list history_entry;
  not_inlinable : list inst_ref;
  threshold : Z;
  may_fail : bool;
}.

Definition with_history (ictx : InlineContext) (h : list history_entry) : InlineContext :=
  mkInlineContext h (not_inlinable ictx) (threshold ictx) (may_fail ictx).

Definition with_not_inlinable (ictx : InlineContext) (l : list inst_ref) : InlineContext :=
  mkInlineContext (history ictx) l (threshold ictx) (may_fail ictx).

(** Lines 63-69: the loop over the history keeps the last index whose
    entry is for [c]. *)
Fixpoint history_find (h : list history_entry) (c : inst_ref) (i : nat)
    (found : option nat) : option nat :=
  match h with
  | [] => found
  | e :: h' => history_find h' c (S i) (if decide (call e = c) then Some i else found)
  end.

(** Lines 75-97: the walk to the root.  Every iteration reads one
    entry; a walk that reads more entries than the history holds has
    entered a cycle of [inlined_via] links and never ends. *)
Fixpoint history_walk (fuel : nat) (h : list history_entry) (i : nat)
    (f : func_ref) : result bool :=
  match fuel with
  | O => Diverge
  | S fuel' =>
      do e <- of_option (h !! i);
      if decide (callee e = Some f) then Ok true
      else match inlined_via e with
           | None => Ok false
           | Some j => history_walk fuel' h j f
           end
  end.

(** ** The pieces of [ir_inline_call] (lines 39-428) *)

(** [call_prev] and [call_next]: the instructions before and after the
    call in its block. *)
Fixpoint split_at (c : inst_ref) (l : list inst_ref)
    : option (list inst_ref * list inst_ref) :=
  match l with
  | [] => None
  | x :: l' =>
      if decide (x = c) then Some ([], l')
      else match split_at c l' with
           | Some (p, s) => Some (x :: p, s)
           | None => None
           end
  end.

(** Lines 158-167: blocks and non-parameter instructions of the callee
    are numbered in order. *)
Fixpoint enumerate_instructions (F : IRFunction) (n : nat) (l : list inst_ref)
    : result (IRFunction * nat) :=
  match l with
  | [] => Ok (F, n)
  | i :: l' =>
      do r <- get_inst F i;
      if decide (kind r = IR_PARAMETER) then enumerate_instructions F n l'
      else enumerate_instructions (update_inst F i (set_id n)) (S n) l'
  end.

Fixpoint enumerate_blocks (F : IRFunction) (bid n : nat) (bs : list block_ref)
    : result IRFunction :=
  match bs with
  | [] => Ok F
  | b :: bs' =>
      do blk <- get_block F b;
      do (F1, n') <- enumerate_instructions (update_block F b (set_block_id bid)) n
                        (instructions blk);
      enumerate_blocks F1 (S bid) n' bs'
  end.

(** Line 173: [(u32) ((usz) count - callee->parameters.size + param)]. *)
Definition mapped_index (count psize param : nat) : nat :=
  Z.to_nat (((Z.of_nat count - Z.of_nat psize + Z.of_nat param) mod 2 ^ 64) mod 2 ^ 32)%Z.

(** Lines 172-176: the slot of every parameter is overwritten with the
    argument of the call. *)
Fixpoint map_parameters (F : IRFunction) (table : list inst_ref) (args : list inst_ref)
    (count psize param : nat) (ps : list inst_ref)
    : result (IRFunction * list inst_ref) :=
  match ps with
  | [] => Ok (F, table)
  | p :: ps' =>
      let mi := mapped_index count psize param in
      do _ <- get_inst F p;
      do a <- of_option (args !! param);
      if decide (mi < length table)
      then map_parameters (update_inst F p (set_id mi)) (<[mi := a]> table) args
             count psize (S param) ps'
      else Abort
  end.

(** Lines 179-180. *)
Definition MAP (F : IRFunction) (table : list inst_ref) (i : inst_ref) : result inst_ref :=
  do r <- get_inst F i; of_option (table !! id r).

Definition MAP_BLOCK (F : IRFunction) (bvec : list block_ref) (b : block_ref)
    : result block_ref :=
  do blk <- get_block F b; of_option (bvec !! block_id blk).

Definition map_callee (F : IRFunction) (table : list inst_ref) (c : IRCallee)
    : result IRCallee :=
  match c with
  | callee_function f => Ok (callee_function f)
  | callee_instruction i => do i' <- MAP F table i; Ok (callee_instruction i')
  end.

(** Lines 201-291: the instruction-specific data of every kind but
    [IR_RETURN].  A payload that is not the union member of the kind is
    not described. *)
Definition copy_data (F : IRFunction) (table : list inst_ref) (bvec : list block_ref)
    (k : IRType) (d : IRData) : result IRData :=
  match classify k, d with
  | KImmediate, Imm v => Ok (Imm v)
  | KStaticRef, StaticRef s => Ok (StaticRef s)
  | KFuncRef, FunctionRef f => Ok (FunctionRef f)
  | KUnreachable, _ => Ok NoData
  | KAlloca, Alloca a => Ok (Alloca a)
  | KIntrinsic, Call n c args t =>
      do c' <- map_callee F table c;
      do args' <- mapM (MAP F table) args;
      Ok (Call n c' args' t)
  | KCall, Call _ c args t =>
      do c' <- map_callee F table c;
      do args' <- mapM (MAP F table) args;
      Ok (Call 0 c' args' t)
  | KUnary, Operand (Some o) => do o' <- MAP F table o; Ok (Operand (Some o'))
  | KBinary, BinOp l r =>
      do l' <- MAP F table l; do r' <- MAP F table r; Ok (BinOp l' r')
  | KStore, Store v a =>
      do v' <- MAP F table v; do a' <- MAP F table a; Ok (Store v' a')
  | KBranch, Branch b => do b' <- MAP_BLOCK F bvec b; Ok (Branch b')
  | KCondBranch, CondBr c t e =>
      do c' <- MAP F table c;
      do t' <- MAP_BLOCK F bvec t;
      do e' <- MAP_BLOCK F bvec e;
      Ok (CondBr c' t' e')
  | KPhi, Phi args =>
      do args' <- mapM (fun a : block_ref * inst_ref =>
                          do v' <- MAP F table a.2;
                          do b' <- MAP_BLOCK F bvec a.1;
                          Ok (b', v')) args;
      Ok (Phi args')
  | _, _ => Abort
  end.

(** The variables of [ir_inline_call] that the copy loop changes: the
    caller, the vector [instructions], [return_value], [return_block],
    the history and the allocator. *)
Record copy_state : Type := mkCopyState {
  cs_caller : IRFunction;
  cs_table : list inst_ref;
  cs_return_value : option inst_ref;
  cs_return_block : option block_ref;
  cs_history : list history_entry;
  cs_fresh : nat;
}.

Definition cs_with_caller (cs : copy_state) (g : IRFunction) : copy_state :=
  mkCopyState g (cs_table cs) (cs_return_value cs) (cs_return_block cs)
              (cs_history cs) (cs_fresh cs).

(** Lines 319-327: the first [Return] that cannot be dropped makes the
    return block and, when it returns a value, the PHI in it. *)
Definition create_return_block (cs : copy_state) (has_operand : bool) : result copy_state :=
  let rb := cs_fresh cs in
  let g := with_blks (cs_caller cs) (<[rb := zeroed_block]> (blks (cs_caller cs))) in
  if has_operand then
    let phi := S rb in
    let g1 := with_insts g (<[phi := set_data (Phi []) (set_kind IR_PHI zeroed_instruction)]>
                              (insts g)) in
    do g2 <- ir_insert_into_block g1 rb phi;
    Ok (mkCopyState g2 (cs_table cs) (Some phi) (Some rb) (cs_history cs) (S (S rb)))
  else
    Ok (mkCopyState g (cs_table cs) (cs_return_value cs) (Some rb) (cs_history cs) (S rb)).

(** Lines 329-342: the copy of a [Return] becomes a branch to the return
    block; a returned value is added to the PHI, with the block being
    iterated ([new->block = block]) as its predecessor, and the slot of
    the [Return] in the vector is given to the call. *)
Definition add_to_phi_and_branch (F : IRFunction) (call_ref : inst_ref)
    (b : block_ref) (inst : IRInstruction) (o : option inst_ref) (copy : inst_ref)
    (cs : copy_state) : result copy_state :=
  do rb <- of_option (cs_return_block cs);
  let g := update_inst (cs_caller cs) copy
             (fun r => set_data (Branch rb) (set_kind IR_BRANCH r)) in
  match o with
  | None => Ok (cs_with_caller cs g)
  | Some v =>
      do phi <- of_option (cs_return_value cs);
      do v' <- MAP F (cs_table cs) v;
      do pr <- get_inst g phi;
      match data pr with
      | Phi args =>
          let g1 := update_inst g phi (set_data (Phi (args ++ [(b, v')]))) in
          Ok (mkCopyState g1 (<[id inst := call_ref]> (cs_table cs))
                (cs_return_value cs) (cs_return_block cs) (cs_history cs) (cs_fresh cs))
      | _ => Abort
      end
  end.

(** Lines 298-342.  The result tells whether the copy is inserted
    ([break]) or dropped ([continue]).  Line 309 compares with the stored
    [callee->blocks.last] and [block->instructions.last]. *)
Definition copy_return (F : IRFunction) (call_ref : inst_ref) (is_tail_call : bool)
    (b : block_ref) (blk : IRBlock) (ih : inst_ref) (inst : IRInstruction)
    (copy : inst_ref) (cs : copy_state) : result (copy_state * bool) :=
  match data inst with
  | Operand o =>
      if is_tail_call then
        match o with
        | Some v =>
            do v' <- MAP F (cs_table cs) v;
            Ok (cs_with_caller cs
                  (update_inst (cs_caller cs) copy (set_data (Operand (Some v')))), true)
        | None => Abort
        end
      else
        match cs_return_block cs with
        | None =>
            if decide (blocks_last F = Some b ∧ instructions_last blk = Some ih) then
              match o with
              | Some v =>
                  do v' <- MAP F (cs_table cs) v;
                  Ok (mkCopyState (cs_caller cs) (<[id inst := call_ref]> (cs_table cs))
                        (Some v') (cs_return_block cs) (cs_history cs) (cs_fresh cs),
                      false)
              | None => Ok (cs, false)
              end
            else
              do cs1 <- create_return_block cs (bool_decide (is_Some o));
              do cs2 <- add_to_phi_and_branch F call_ref b inst o copy cs1;
              Ok (cs2, true)
        | Some _ =>
            do cs2 <- add_to_phi_and_branch F call_ref b inst o copy cs;
            Ok (cs2, true)
        end
  | _ => Abort
  end.

(** Lines 226-236: a copied [IR_CALL] is recorded in the history. *)
Definition record_origin (inst : IRInstruction) (copy : inst_ref)
    (call_history_index : nat) (h : list history_entry) : list history_entry :=
  if decide (kind inst = IR_CALL) then
    match data inst with
    | Call _ (callee_function f) _ _ => h ++ [mkEntry copy (Some f) (Some call_history_index)]
    | _ => h ++ [mkEntry copy None (Some call_history_index)]
    end
  else h.

(** Lines 189-347: one iteration of the inner loop, for the instruction
    [ih] of the block [b] of the callee [F]. *)
Definition copy_instruction (F : IRFunction) (bvec : list block_ref)
    (call_ref : inst_ref) (is_tail_call : bool) (call_history_index : nat)
    (b : block_ref) (blk : IRBlock) (cs : copy_state) (ih : inst_ref)
    : result copy_state :=
  do inst <- get_inst F ih;
  if decide (kind inst = IR_PARAMETER) then Ok cs else
  do copy <- MAP F (cs_table cs) ih;
  do _ <- get_inst (cs_caller cs) copy;
  let cs0 := cs_with_caller cs
               (update_inst (cs_caller cs) copy
                  (fun r => set_backend_flags (backend_flags inst)
                              (set_type (type inst) (set_kind (kind inst) r)))) in
  do (cs1, insert) <-
     match classify (kind inst) with
     | KReturn => copy_return F call_ref is_tail_call b blk ih inst copy cs0
     | _ =>
         do d <- copy_data F (cs_table cs0) bvec (kind inst) (data inst);
         Ok (mkCopyState (update_inst (cs_caller cs0) copy (set_data d)) (cs_table cs0)
               (cs_return_value cs0) (cs_return_block cs0)
               (record_origin inst copy call_history_index (cs_history cs0))
               (cs_fresh cs0), true)
     end;
  if insert : bool then
    do dest <- MAP_BLOCK F bvec b;
    do g <- ir_force_insert_into_block (cs_caller cs1) dest copy;
    Ok (cs_with_caller cs1 g)
  else Ok cs1.

Definition copy_block (F : IRFunction) (bvec : list block_ref)
    (call_ref : inst_ref) (is_tail_call : bool) (call_history_index : nat)
    (cs : copy_state) (b : block_ref) : result copy_state :=
  do blk <- get_block F b;
  foldM (copy_instruction F bvec call_ref is_tail_call call_history_index b blk)
        cs (instructions blk).

Definition copy_instructions (F : IRFunction) (bvec : list block_ref)
    (call_ref : inst_ref) (is_tail_call : bool) (call_history_index : nat)
    (cs : copy_state) : result copy_state :=
  foldM (copy_block F bvec call_ref is_tail_call call_history_index) cs (blocks F).

(** Lines 350-355: for every instruction of the callee and every user
    of it, the copy of the user is marked as a user of the copy. *)
Definition fix_up_uses (F : IRFunction) (table : list inst_ref) (g : IRFunction)
    : result IRFunction :=
  do l <- function_instructions F;
  foldM (fun g1 (p : block_ref * inst_ref) =>
           do r <- get_inst F p.2;
           do copy <- MAP F table p.2;
           foldM (fun g2 u => do mu <- MAP F table u; Ok (mark_used g2 copy mu))
                 g1 (users r))
        g l.

(** Lines 386-395: every instruction after a tail call is removed. *)
Definition remove_after_call (g : IRFunction) (call_next : list inst_ref)
    : result IRFunction :=
  foldM (fun g1 next => ir_remove (ir_unmark_usees g1 next) next) g call_next.

(** Lines 397-415 write [last->next] and, for [1 <= i < block_count],
    [blocks[i-1]->next]; the vector [blocks] holds the block of the call,
    the [block_count - 1] new blocks and, behind them, the return block
    if there is one.  What can be reached from the first block of the
    caller by [next] afterwards is computed here: the return block is
    behind index [block_count - 1] and no [next] is made to point to it,
    and the last new block in front of it keeps the NULL [next] of
    [calloc]. *)
Definition connect_blocks (chain : list block_ref) (call_block : block_ref)
    (new_blocks : list block_ref) (return_block : option block_ref) : list block_ref :=
  match split_at call_block chain with
  | Some (before, after) =>
      before ++ [call_block] ++ new_blocks ++
        match return_block, new_blocks with
        | Some _, _ :: _ => []
        | _, _ => after
        end
  | None => chain
  end.

(** [last_in_last_block->next = call_next] (line 382): what followed the
    instruction [x] in the list is replaced by [suffix]. *)
Fixpoint link_after (x : inst_ref) (suffix l : list inst_ref) : list inst_ref :=
  match l with
  | [] => []
  | y :: l' => if decide (y = x) then y :: suffix else y :: link_after x suffix l'
  end.

(** Lines 417-420: every instruction of the vector that is in no block
    is freed.  The vector holds the call itself in the slot of every
    [Return] that gave a value (lines 312 and 340), and line 365 has
    removed the call by then (line 7: the call of a history entry "may
    point to freed memory"), so for that entry line 419 reads the field
    [parent_block] of a removed instruction.  Modelled from the spec: what
    [ir_remove] leaves of an instruction is missing; "individual
    instruction removal returns storage to the arena or a free list", and
    nothing is allocated between the two lines: the field is taken to
    hold the block of the call still, so that nothing is freed for this
    entry.  Any other entry without storage is a dangling handle, at
    which the embedding stops. *)
Definition free_unused (g : IRFunction) (call_ref : inst_ref) (table : list inst_ref)
    : result IRFunction :=
  foldM (fun g1 i =>
           match insts g1 !! i with
           | Some r => match parent_block r with
                       | None => Ok (with_insts g1 (delete i (insts g1)))
                       | Some _ => Ok g1
                       end
           | None => if decide (i = call_ref) then Ok g1 else Abort
           end) g table.

(** Lines 141-156: [count] zeroed instructions and [block_count - 1]
    blocks of the caller are allocated. *)
Definition allocate_skeleton (g : IRFunction) (first : nat) (count : nat)
    (new_blocks : nat) (fn : option func_ref) : IRFunction :=
  let g1 := foldl (fun g' i => with_insts g' (<[i := zeroed_instruction]> (insts g')))
                  g (seq first count) in
  foldl (fun g' b => with_blks g' (<[b := mkBlock [] None fn 0]> (blks g')))
        g1 (seq (first + count) new_blocks).

(** Lines 116-428: the transplantation proper, once the call has passed
    the checks of the history.  Lines 121-127 cut the list of the block
    at the call and store [call_prev] as its [last]; lines 379-384 link
    [call_next] behind the stored [last] of the last block of the vector
    and leave that [last] where it is; lines 397-415 write the [next]
    links of the blocks and leave [blocks.last] of the caller where it
    is. *)
Definition transplant (ctx : CodegenContext) (ictx : InlineContext) (fr : func_ref)
    (g : IRFunction) (call_ref : inst_ref) (c : IRInstruction)
    (callee_ref : func_ref) (F : IRFunction) (args : list inst_ref)
    (is_tail_call : bool) (count : nat) (hist : list history_entry)
    (call_history_index : nat) : result (CodegenContext * InlineContext * bool) :=
  do call_block <- of_option (parent_block c);
  do cb <- get_block g call_block;
  do (before, call_next) <- of_option (split_at call_ref (instructions cb));
  let g1 := update_block g call_block
              (fun blk => set_instructions_last (last before) (set_instructions before blk)) in
  let block_count := length (blocks F) in
  let g2 := allocate_skeleton g1 (fresh ctx) count (block_count - 1) (function cb) in
  let table := seq (fresh ctx) count in
  let new_blocks := seq (fresh ctx + count) (block_count - 1) in
  let bvec := call_block :: new_blocks in
  do F1 <- enumerate_blocks F 0 0 (blocks F);
  do (F2, table1) <- map_parameters F1 table args count (length (parameters F)) 0
                       (parameters F);
  do cs <- copy_instructions F2 bvec call_ref is_tail_call call_history_index
             (mkCopyState g2 table1 None None hist
                (fresh ctx + count + (block_count - 1)));
  do g3 <- fix_up_uses F2 (cs_table cs) (cs_caller cs);
  let g4 := match cs_return_value cs with
            | Some rv => ir_replace_uses (ir_remove_use g3 rv call_ref) call_ref rv
            | None => g3
            end in
  do g5 <- ir_remove g4 call_ref;
  let bvec1 := bvec ++ option_list (cs_return_block cs) in
  do last_block <- of_option (last bvec1);
  do lb <- get_block g5 last_block;
  let g6 := match instructions_last lb with
            | Some last_in_last_block =>
                if is_tail_call then g5
                else update_block g5 last_block
                       (fun blk => set_instructions
                                     (link_after last_in_last_block call_next
                                                 (instructions blk)) blk)
            | None => g5
            end in
  do g7 <- (if is_tail_call then remove_after_call g6 call_next else Ok g6);
  let g8 := if decide (last_block ≠ call_block ∧ is_tail_call = false)
            then foldl (fun g' i => update_inst g' i (set_parent_block (Some last_block)))
                       g7 call_next
            else g7 in
  let g9 := with_blocks g8
              (connect_blocks (blocks g8) call_block new_blocks (cs_return_block cs)) in
  do g10 <- free_unused g9 call_ref (cs_table cs);
  Ok (mkContext (functions ctx) (<[fr := g10]> (<[callee_ref := F2]> (funcs ctx)))
                (diagnostics ctx) (cs_fresh cs),
      with_history ictx (cs_history cs), true).

Definition infinite_loop_diagnostic (callee_name caller_name : string) : diagnostic :=
  mkDiagnostic "Failed to inline function %S into %S: Infinite loop detected"
               [callee_name; caller_name].

Definition issue_diagnostic (ctx : CodegenContext) (d : diagnostic) : CodegenContext :=
  mkContext (functions ctx) (funcs ctx) (diagnostics ctx ++ [d]) (fresh ctx).

(** [ir_inline_call] (lines 39-428) for the call [call_ref] that is
    stored with the function [fr].  Its only caller passes direct calls
    to a function other than [fr] (lines 452 and 467); the other calls
    are not described. *)
Definition ir_inline_call (ctx : CodegenContext) (ictx : InlineContext) (fr : func_ref)
    (call_ref : inst_ref) : result (CodegenContext * InlineContext * bool) :=
  do g <- get_func ctx fr;
  do c <- get_inst g call_ref;
  match data c with
  | Call _ (callee_function callee_ref) args is_tail_call =>
      if decide (callee_ref = fr) then Abort else
      do F <- get_func ctx callee_ref;
      do count <- instruction_count F true;
      if decide (count = 0) then
        match users c with
        | [] => do g' <- ir_remove g call_ref; Ok (set_func ctx fr g', ictx, true)
        | _ :: _ => Abort
        end
      else
        match history_find (history ictx) call_ref 0 None with
        | Some i =>
            do e <- of_option (history ictx !! i);
            match inlined_via e with
            | None => Abort
            | Some j =>
                do cycle <- history_walk (length (history ictx)) (history ictx) j callee_ref;
                if cycle : bool then
                  Ok (if may_fail ictx then ctx
                      else issue_diagnostic ctx (infinite_loop_diagnostic (name F) (name g)),
                      ictx, false)
                else transplant ctx ictx fr g call_ref c callee_ref F args is_tail_call
                       count (history ictx) i
            end
        | None =>
            transplant ctx ictx fr g call_ref c callee_ref F args is_tail_call count
              (history ictx ++ [mkEntry call_ref (Some callee_ref) ROOT_INLINE_ENTRY])
              (length (history ictx))
        end
  | _ => Abort
  end.

(** ** The driving pass (lines 432-537) *)

Record inline_result : Set := mkResult {
  changed : bool;
  failed : bool;
}.

(** The instruction behind [i] in a list of instructions. *)
Fixpoint next_of (i : inst_ref) (l : list inst_ref) : option inst_ref :=
  match l with
  | [] => None
  | x :: l' => if decide (x = i) then head l' else next_of i l'
  end.

Definition is_return_of (g : IRFunction) (u : inst_ref) (v : option inst_ref) : bool :=
  match insts g !! u with
  | Some r => match kind r, data r with
              | IR_RETURN, Operand o => bool_decide (o = v)
              | _, _ => false
              end
  | None => false
  end.

Definition set_tail_call (i : IRInstruction) : IRInstruction :=
  match data i with
  | Call n c args _ => set_data (Call n c args true) i
  | _ => i
  end.

(** Modelled from the spec: [opt_try_convert_to_tail_call] is missing;
    tail-call conversion is to "mark a Call whose only user is a Return
    of the same value (or which immediately precedes a Return in a void
    context) as tail_call".  The result tells whether the call was
    marked. *)
Definition opt_try_convert_to_tail_call (g : IRFunction) (i : inst_ref)
    : result (IRFunction * bool) :=
  do r <- get_inst g i;
  let only_user_returns_it :=
    match users r with
    | [u] => is_return_of g u (Some i)
    | _ => false
    end in
  let precedes_void_return :=
    match parent_block r with
    | Some b => match blks g !! b with
                | Some blk => match next_of i (instructions blk) with
                              | Some n => is_return_of g n None
                              | None => false
                              end
                | None => false
                end
    | None => false
    end in
  if only_user_returns_it || precedes_void_return
  then Ok (update_inst g i set_tail_call, true)
  else Ok (g, false).

Definition non_tail_recursive_diagnostic : diagnostic :=
  mkDiagnostic "Sorry, could not inline non-tail-recursive call" [].

(** Line 462. *)
Definition must_inline (ictx : InlineContext) (callee_f : IRFunction) : bool :=
  attr_forceinline callee_f || (threshold ictx =? 0)%Z.

(** Line 465: [must_inline || ictx->threshold >= instruction_count(callee, false)]. *)
Definition inline_requested (ictx : InlineContext) (callee_f : IRFunction) : result bool :=
  if must_inline ictx callee_f then Ok true
  else do n <- instruction_count callee_f false;
       Ok (threshold ictx >=? Z.of_nat n)%Z.

Definition set_failed (res : inline_result) : inline_result := mkResult (changed res) true.
Definition set_changed (res : inline_result) : inline_result := mkResult true (failed res).

(** Lines 466-488: a call of the function [fr] to itself.  Control
    always continues with the next instruction. *)
Definition self_recursive_call (ctx : CodegenContext) (ictx : InlineContext)
    (res : inline_result) (fr : func_ref) (f : IRFunction) (inst : inst_ref)
    (tail : bool) : result (CodegenContext * InlineContext * inline_result) :=
  if tail then Ok (ctx, ictx, res)
  else if must_inline ictx f then
    do (f', converted) <- opt_try_convert_to_tail_call f inst;
    if converted : bool then Ok (set_func ctx fr f', ictx, res)
    else
      Ok (if may_fail ictx then ctx else issue_diagnostic ctx non_tail_recursive_diagnostic,
          with_not_inlinable ictx (not_inlinable ictx ++ [inst]),
          set_failed res)
  else Ok (ctx, ictx, res).

(** Lines 450-501: the body of the inner loop for one instruction.  The
    boolean tells whether line 491 is reached, that is, whether
    [ir_inline_call] is to be called on [inst]. *)
Definition consider_instruction (ctx : CodegenContext) (ictx : InlineContext)
    (res : inline_result) (fr : func_ref) (inst : inst_ref)
    : result (CodegenContext * InlineContext * inline_result * bool) :=
  do f <- get_func ctx fr;
  do r <- get_inst f inst;
  if decide (kind r ≠ IR_CALL) then Ok (ctx, ictx, res, false) else
  match data r with
  | Call _ (callee_instruction _) _ _ => Ok (ctx, ictx, res, false)
  | Call _ (callee_function callee_ref) _ tail =>
      do callee_f <- get_func ctx callee_ref;
      if is_extern callee_f then Ok (ctx, ictx, res, false) else
      if decide (inst ∈ not_inlinable ictx) then Ok (ctx, ictx, res, false) else
      do requested <- inline_requested ictx callee_f;
      if requested : bool then
        if decide (fr = callee_ref) then
          do s <- self_recursive_call ctx ictx res fr f inst tail;
          Ok (s, false)
        else Ok (ctx, ictx, res, true)
      else Ok (ctx, ictx, res, false)
  | _ => Abort
  end.

(** [list_foreach (inst, block->instructions)] up to the first [goto]. *)
Fixpoint scan_instructions (ctx : CodegenContext) (ictx : InlineContext)
    (res : inline_result) (fr : func_ref) (l : list inst_ref)
    : result (CodegenContext * InlineContext * inline_result * option inst_ref) :=
  match l with
  | [] => Ok (ctx, ictx, res, None)
  | i :: l' =>
      do (s, go) <- consider_instruction ctx ictx res fr i;
      if go : bool then Ok (s, Some i)
      else scan_instructions s.1.1 s.1.2 s.2 fr l'
  end.

(** [for (; block; block = block->next)] up to the first [goto]. *)
Fixpoint scan_blocks (ctx : CodegenContext) (ictx : InlineContext)
    (res : inline_result) (fr : func_ref) (bs : list block_ref)
    : result (CodegenContext * InlineContext * inline_result
              * option (block_ref * inst_ref)) :=
  match bs with
  | [] => Ok (ctx, ictx, res, None)
  | b :: bs' =>
      do f <- get_func ctx fr;
      do blk <- get_block f b;
      do (s, found) <- scan_instructions ctx ictx res fr (instructions blk);
      match found with
      | Some i => Ok (s, Some (b, i))
      | None => scan_blocks s.1.1 s.1.2 s.2 fr bs'
      end
  end.

(** The blocks reached from [block] by [next]. *)
Fixpoint blocks_from (block : block_ref) (chain : list block_ref) : list block_ref :=
  match chain with
  | [] => []
  | b :: chain' => if decide (b = block) then chain else blocks_from block chain'
  end.

(** The label [again] (line 447) with the current value of [block]; one
    unit of fuel is spent on every [goto again]. *)
Fixpoint inline_calls_again (fuel : nat) (ctx : CodegenContext) (ictx : InlineContext)
    (res : inline_result) (fr : func_ref) (block : option block_ref)
    : result (CodegenContext * InlineContext * inline_result) :=
  match fuel with
  | O => Diverge
  | S fuel' =>
      do f <- get_func ctx fr;
      do (s, found) <- scan_blocks ctx ictx res fr
                         (match block with
                          | Some b => blocks_from b (blocks f)
                          | None => []
                          end);
      match found with
      | None => Ok s
      | Some (b, inst) =>
          do (s', inlined) <- ir_inline_call s.1.1 s.1.2 fr inst;
          if inlined : bool
          then inline_calls_again fuel' s'.1 s'.2 (set_changed s.2) fr (Some b)
          else inline_calls_again fuel' s'.1
                 (with_not_inlinable s'.2 (not_inlinable s'.2 ++ [inst]))
                 (set_failed s.2) fr (Some b)
      end
  end.

(** [inline_calls_in_function] (lines 438-506). *)
Definition inline_calls_in_function (fuel : nat) (ctx : CodegenContext)
    (ictx : InlineContext) (fr : func_ref)
    : result (CodegenContext * InlineContext * inline_result) :=
  do f <- get_func ctx fr;
  inline_calls_again fuel ctx (with_history ictx []) (mkResult false false) fr
    (head (blocks f)).

(** [run_inliner] (lines 509-529). *)
Definition run_inliner (fuel : nat) (ctx : CodegenContext) (threshold : Z)
    (may_fail : bool) : result (CodegenContext * inline_result) :=
  do s <- foldM (fun (s : CodegenContext * InlineContext * inline_result) fr =>
                   do s' <- inline_calls_in_function fuel s.1.1 s.1.2 fr;
                   Ok (s'.1.1, s'.1.2,
                       mkResult (changed s'.2 || changed s.2) (failed s'.2 || failed s.2)))
                (ctx, mkInlineContext [] [] threshold may_fail, mkResult false false)
                (functions ctx);
  Ok (s.1.1, s.2).

(** Lines 531-537. *)
Definition opt_inline (fuel : nat) (ctx : CodegenContext) (threshold : Z)
    : result (CodegenContext * bool) :=
  do r <- run_inliner fuel ctx threshold true; Ok (r.1, changed r.2).

Definition codegen_process_inline_calls (fuel : nat) (ctx : CodegenContext)
    : result (CodegenContext * bool) :=
  do r <- run_inliner fuel ctx (-1) false; Ok (r.1, negb (failed r.2)).

(** ** The ancestry of a call in the history *)

(** [ancestor h j a]: the entry [a] is met when the [inlined_via] links
    are followed from the entry at index [j] on. *)
Inductive ancestor (h : list history_entry) : nat -> history_entry -> Prop :=
| ancestor_here j e :
    h !! j = Some e -> ancestor h j e
| ancestor_up j e k a :
    h !! j = Some e -> inlined_via e = Some k -> ancestor h k a -> ancestor h j a.

(** [reaches h f j p]: [p] is the list of the indices read by the walk
    of lines 75-97 that starts at index [j] and ends at the first entry
    whose callee is [f]. *)
Inductive reaches (h : list history_entry) (f : func_ref) : nat -> list nat -> Prop :=
| reaches_here j e :
    h !! j = Some e -> callee e = Some f -> reaches h f j [j]
| reaches_next j e k p :
    h !! j = Some e -> callee e <> Some f -> inlined_via e = Some k ->
    reaches h f k p -> reaches h f j (j :: p).

(** ** Example modules *)

Definition inst (k : IRType) (d : IRData) (b : block_ref) (us : list inst_ref)
    : IRInstruction :=
  mkInstruction k 0 0 d 0 (Some b) us.

(** A block whose stored [last] names the end of its list. *)
Definition block (l : list inst_ref) (f : func_ref) : IRBlock :=
  mkBlock l (last l) (Some f) 0.

(** Scenario "multi-return" of the specification:
    [f(x) { if x then return 1 else return 2 }] and
    [g() { %c = Call f(0); Return %c }]. *)
Module MultiReturn.

Definition f : IRFunction :=
  mkFunction "f" [100; 101; 102] (Some 102) [10] false false
    (list_to_map
       [ (10, inst IR_PARAMETER (Imm 0) 100 [11]);
         (11, inst IR_BRANCH_CONDITIONAL (CondBr 10 101 102) 100 []);
         (12, inst IR_IMMEDIATE (Imm 1) 101 [13]);
         (13, inst IR_RETURN (Operand (Some 12)) 101 []);
         (14, inst IR_IMMEDIATE (Imm 2) 102 [15]);
         (15, inst IR_RETURN (Operand (Some 14)) 102 []) ])
    (list_to_map
       [ (100, block [10; 11] 1); (101, block [12; 13] 1); (102, block [14; 15] 1) ]).

Definition g : IRFunction :=
  mkFunction "g" [200] (Some 200) [] false false
    (list_to_map
       [ (20, inst IR_IMMEDIATE (Imm 0) 200 [21]);
         (21, inst IR_CALL (Call 0 (callee_function 1) [20] false) 200 [22]);
         (22, inst IR_RETURN (Operand (Some 21)) 200 []) ])
    (list_to_map [ (200, block [20; 21; 22] 2) ]).

Definition ctx : CodegenContext :=
  mkContext [1; 2] (list_to_map [ (1, f); (2, g) ]) [] 1000.

Definition ictx : InlineContext := mkInlineContext [] [] 0 true.

End MultiReturn.

(** A function whose only call is a tail call to itself:
    [f() { %c = tail Call f(); Return %c }]. *)
Module TailRecursion.

Definition f : IRFunction :=
  mkFunction "f" [100] (Some 100) [] false false
    (list_to_map
       [ (10, inst IR_CALL (Call 0 (callee_function 1) [] true) 100 [11]);
         (11, inst IR_RETURN (Operand (Some 10)) 100 []) ])
    (list_to_map [ (100, block [10; 11] 1) ]).

Definition ctx : CodegenContext := mkContext [1] (list_to_map [ (1, f) ]) [] 1000.

Definition ictx : InlineContext := mkInlineContext [] [] 0 true.

End TailRecursion.

(** [g() { Call g(); Return }] is called by [f() { Call g(); Return }]:
    every run of the pass unrolls [g] into [f] once more. *)
Module Unrolling.

Definition f : IRFunction :=
  mkFunction "f" [100] (Some 100) [] false false
    (list_to_map
       [ (10, inst IR_CALL (Call 0 (callee_function 2) [] false) 100 []);
         (11, inst IR_RETURN (Operand None) 100 []) ])
    (list_to_map [ (100, block [10; 11] 1) ]).

Definition g : IRFunction :=
  mkFunction "g" [200] (Some 200) [] false false
    (list_to_map
       [ (20, inst IR_CALL (Call 0 (callee_function 2) [] false) 200 []);
         (21, inst IR_IMMEDIATE (Imm 7) 200 []);
         (22, inst IR_RETURN (Operand None) 200 []) ])
    (list_to_map [ (200, block [20; 21; 22] 2) ]).

Definition ctx : CodegenContext :=
  mkContext [1; 2] (list_to_map [ (1, f); (2, g) ]) [] 1000.

End Unrolling.

(** The state of the pass over [f] in the module above once the call to
    [g] has been inlined: the copy 1000 of the call of [g] to itself was
    inlined via the root entry of the history, which is for [g].  The
    stored [last] of the block is the last copy, 1001. *)
Module Cycle.

Definition f : IRFunction :=
  mkFunction "f" [100] (Some 100) [] false false
    (list_to_map
       [ (1000, inst IR_CALL (Call 0 (callee_function 2) [] false) 100 []);
         (1001, inst IR_IMMEDIATE (Imm 7) 100 []);
         (11, inst IR_RETURN (Operand None) 100 []) ])
    (list_to_map [ (100, mkBlock [1000; 1001; 11] (Some 1001) (Some 1) 0) ]).

Definition ctx : CodegenContext :=
  mkContext [1; 2] (list_to_map [ (1, f); (2, Unrolling.g) ]) [] 1003.

Definition ictx : InlineContext :=
  mkInlineContext [ mkEntry 10 (Some 2) ROOT_INLINE_ENTRY; mkEntry 1000 (Some 2) (Some 0) ]
                  [] 0 false.

End Cycle.

(** Scenario "single-return" of the specification: [f() { return 42 }]
    and [g() { %c = Call f; Return %c }]. *)
Module SingleReturn.

Definition f : IRFunction :=
  mkFunction "f" [100] (Some 100) [] false false
    (list_to_map
       [ (10, inst IR_IMMEDIATE (Imm 42) 100 [11]);
         (11, inst IR_RETURN (Operand (Some 10)) 100 []) ])
    (list_to_map [ (100, block [10; 11] 1) ]).

Definition g : IRFunction :=
  mkFunction "g" [200] (Some 200) [] false false
    (list_to_map
       [ (20, inst IR_CALL (Call 0 (callee_function 1) [] false) 200 [21]);
         (21, inst IR_RETURN (Operand (Some 20)) 200 []) ])
    (list_to_map [ (200, block [20; 21] 2) ]).

Definition ctx : CodegenContext :=
  mkContext [1; 2] (list_to_map [ (1, f); (2, g) ]) [] 1000.

Definition ictx : InlineContext := mkInlineContext [] [] 0 true.

End SingleReturn.

(** Scenario "tail call": [f() { return 42 }] and
    [g() { tail Call f; Return }], the result of the call unused. *)
Module TailCall.

Definition f : IRFunction :=
  mkFunction "f" [100] (Some 100) [] false false
    (list_to_map
       [ (10, inst IR_IMMEDIATE (Imm 42) 100 [11]);
         (11, inst IR_RETURN (Operand (Some 10)) 100 []) ])
    (list_to_map [ (100, block [10; 11] 1) ]).

Definition g : IRFunction :=
  mkFunction "g" [200] (Some 200) [] false false
    (list_to_map
       [ (20, inst IR_CALL (Call 0 (callee_function 1) [] true) 200 []);
         (21, inst IR_RETURN (Operand None) 200 []) ])
    (list_to_map [ (200, block [20; 21] 2) ]).

Definition ctx : CodegenContext :=
  mkContext [1; 2] (list_to_map [ (1, f); (2, g) ]) [] 1000.

Definition ictx : InlineContext := mkInlineContext [] [] 0 true.

End TailCall.

(** A tail call whose value is returned, the shape that tail-call
    conversion marks: [h() { return 7 }] and
    [g() { %c = tail Call h(); Return %c }]. *)
Module TailValue.

Definition h : IRFunction :=
  mkFunction "h" [100] (Some 100) [] false false
    (list_to_map
       [ (10, inst IR_IMMEDIATE (Imm 7) 100 [11]);
         (11, inst IR_RETURN (Operand (Some 10)) 100 []) ])
    (list_to_map [ (100, block [10; 11] 1) ]).

Definition g : IRFunction :=
  mkFunction "g" [200] (Some 200) [] false false
    (list_to_map
       [ (20, inst IR_CALL (Call 0 (callee_function 1) [] true) 200 [21]);
         (21, inst IR_RETURN (Operand (Some 20)) 200 []) ])
    (list_to_map [ (200, block [20; 21] 2) ]).

Definition ctx : CodegenContext :=
  mkContext [1; 2] (list_to_map [ (1, h); (2, g) ]) [] 1000.

Definition ictx : InlineContext := mkInlineContext [] [] 0 true.

End TailValue.

(** A tail call in a void context: [h() { %x = 7; Return }] and
    [g() { tail Call h(); Return }]. *)
Module TailVoid.

Definition h : IRFunction :=
  mkFunction "h" [100] (Some 100) [] false false
    (list_to_map
       [ (10, inst IR_IMMEDIATE (Imm 7) 100 []);
         (11, inst IR_RETURN (Operand None) 100 []) ])
    (list_to_map [ (100, block [10; 11] 1) ]).

Definition g : IRFunction :=
  mkFunction "g" [200] (Some 200) [] false false
    (list_to_map
       [ (20, inst IR_CALL (Call 0 (callee_function 1) [] true) 200 []);
         (21, inst IR_RETURN (Operand None) 200 []) ])
    (list_to_map [ (200, block [20; 21] 2) ]).

Definition ctx : CodegenContext :=
  mkContext [1; 2] (list_to_map [ (1, h); (2, g) ]) [] 1000.

Definition ictx : InlineContext := mkInlineContext [] [] 0 true.

End TailVoid.

(** A chain of calls, the functions in the order of their definition:
    [g() { return 7 }], [f() { %c = Call g(); Return %c }] and
    [l() { %d = Call f(); Return %d }]. *)
Module Chain.

Definition g : IRFunction :=
  mkFunction "g" [100] (Some 100) [] false false
    (list_to_map
       [ (10, inst IR_IMMEDIATE (Imm 7) 100 [11]);
         (11, inst IR_RETURN (Operand (Some 10)) 100 []) ])
    (list_to_map [ (100, block [10; 11] 1) ]).

Definition f : IRFunction :=
  mkFunction "f" [200] (Some 200) [] false false
    (list_to_map
       [ (20, inst IR_CALL (Call 0 (callee_function 1) [] false) 200 [21]);
         (21, inst IR_RETURN (Operand (Some 20)) 200 []) ])
    (list_to_map [ (200, block [20; 21] 2) ]).

Definition l : IRFunction :=
  mkFunction "l" [300] (Some 300) [] false false
    (list_to_map
       [ (30, inst IR_CALL (Call 0 (callee_function 2) [] false) 300 [31]);
         (31, inst IR_RETURN (Operand (Some 30)) 300 []) ])
    (list_to_map [ (300, block [30; 31] 3) ]).

Definition ctx : CodegenContext :=
  mkContext [1; 2; 3] (list_to_map [ (1, g); (2, f); (3, l) ]) [] 1000.

Definition ictx : InlineContext := mkInlineContext [] [] 0 true.

End Chain.

(** The same chain without values: [g() { 7; return }],
    [f() { Call g(); Return }] and [l() { Call f(); Return }]. *)
Module ChainVoid.

Definition g : IRFunction :=
  mkFunction "g" [100] (Some 100) [] false false
    (list_to_map
       [ (10, inst IR_IMMEDIATE (Imm 7) 100 []);
         (11, inst IR_RETURN (Operand None) 100 []) ])
    (list_to_map [ (100, block [10; 11] 1) ]).

Definition f : IRFunction :=
  mkFunction "f" [200] (Some 200) [] false false
    (list_to_map
       [ (20, inst IR_CALL (Call 0 (callee_function 1) [] false) 200 []);
         (21, inst IR_RETURN (Operand None) 200 []) ])
    (list_to_map [ (200, block [20; 21] 2) ]).

Definition l : IRFunction :=
  mkFunction "l" [300] (Some 300) [] false false
    (list_to_map
       [ (30, inst IR_CALL (Call 0 (callee_function 2) [] false) 300 []);
         (31, inst IR_RETURN (Operand None) 300 []) ])
    (list_to_map [ (300, block [30; 31] 3) ]).

Definition ctx : CodegenContext :=
  mkContext [1; 2; 3] (list_to_map [ (1, g); (2, f); (3, l) ]) [] 1000.

End ChainVoid.

(** * Glint: equality of types ([src/lib/glint/ast.cc], lines 312-385) *)

Module Glint.

Module Kind.
Inductive t : Set :=
| Builtin | FFIType | Named | Enum | Pointer | Reference | Array
| DynamicArray | Function | Struct | Integer.

#[global] Instance eq_dec : EqDecision t.
Proof. solve_decision. Defined.
End Kind.

(** Modelled from the spec: the declarations of the type classes are
    missing; a type is one of "[IntN(bits, signedness)], [Pointer(T)],
    [Array(T, len)], [Function(return, params[], ...)],
    [Struct(fields[], ...)]" and of the further kinds [Type::Equal]
    switches over, with the fields its accessors read.  An object is
    known by its address [addr]: [a == b] on pointers to types is the
    equality of the addresses.  [size] of an array is the value of its
    size expression once the type has been checked ([ok()]), and
    [decl] tells whether a struct has a declaration, that is, a
    name. *)
#[warnings="-register-all"]
Inductive Ty : Set :=
| BuiltinType (addr : nat) (builtin_kind : nat)
| FFITy (addr : nat) (ffi_kind : nat)
| NamedType (addr : nat) (name : string)
| EnumType (addr : nat)
| PointerType (addr : nat) (elem : Ty)
| ReferenceType (addr : nat) (elem : Ty)
| ArrayType (addr : nat) (elem : Ty) (size : option nat)
| DynamicArrayType (addr : nat) (elem : Ty)
| FuncType (addr : nat) (return_type : Ty) (params : list Ty)
| StructType (addr : nat) (decl : bool) (members : list Ty)
| IntegerType (addr : nat) (bit_width : nat) (is_signed : bool).

Definition addr (a : Ty) : nat :=
  match a with
  | BuiltinType p _ | FFITy p _ | NamedType p _ | EnumType p
  | PointerType p _ | ReferenceType p _ | ArrayType p _ _
  | DynamicArrayType p _ | FuncType p _ _ | StructType p _ _
  | IntegerType p _ _ => p
  end.

Definition kind (a : Ty) : Kind.t :=
  match a with
  | BuiltinType _ _ => Kind.Builtin
  | FFITy _ _ => Kind.FFIType
  | NamedType _ _ => Kind.Named
  | EnumType _ => Kind.Enum
  | PointerType _ _ => Kind.Pointer
  | ReferenceType _ _ => Kind.Reference
  | ArrayType _ _ _ => Kind.Array
  | DynamicArrayType _ _ => Kind.DynamicArray
  | FuncType _ _ _ => Kind.Function
  | StructType _ _ _ => Kind.Struct
  | IntegerType _ _ _ => Kind.Integer
  end.

(** [ArrayType::dimension] (lines 382-385): asserts that the type has
    been checked. *)
Definition dimension (size : option nat) : result nat := of_option size.

(** The loops of lines 359-361 and 375-377 over two vectors of the
    same size: the first pair that is not equal ends them. *)
Fixpoint all_equal (Equal : Ty -> Ty -> result bool) (la lb : list Ty) : result bool :=
  match la, lb with
  | x :: la', y :: lb' =>
      do e <- Equal x y;
      if e : bool then all_equal Equal la' lb' else Ok false
  | _, _ => Ok true
  end.

(** [Type::Equal] (lines 312-380). *)
Fixpoint Equal (a b : Ty) {struct a} : result bool :=
  if decide (addr a = addr b) then Ok true else
  if decide (kind a ≠ kind b) then Ok false else
  match a, b with
  | BuiltinType _ ka, BuiltinType _ kb => Ok (bool_decide (ka = kb))
  | FFITy _ ka, FFITy _ kb => Ok (bool_decide (ka = kb))
  | NamedType pa _, NamedType pb _ => Ok (bool_decide (pa = pb))
  | EnumType pa, EnumType pb => Ok (bool_decide (pa = pb))
  | PointerType _ ea, PointerType _ eb => Equal ea eb
  | ReferenceType _ ea, ReferenceType _ eb => Equal ea eb
  | ArrayType _ ea sa, ArrayType _ eb sb =>
      do da <- dimension sa;
      do db <- dimension sb;
      if decide (da = db) then Equal ea eb else Ok false
  | DynamicArrayType _ ea, DynamicArrayType _ eb => Equal ea eb
  | FuncType _ ra pa, FuncType _ rb pb =>
      if decide (length pa ≠ length pb) then Ok false else
      do same <- (fix params_equal (la lb : list Ty) : result bool :=
                    match la, lb with
                    | x :: la', y :: lb' =>
                        do e <- Equal x y;
                        if e : bool then params_equal la' lb' else Ok false
                    | _, _ => Ok true
                    end) pa pb;
      if same : bool then Equal ra rb else Ok false
  | StructType _ da ma, StructType _ db mb =>
      if da || db then Ok false else
      if decide (length ma ≠ length mb) then Ok false else
      (fix members_equal (la lb : list Ty) : result bool :=
         match la, lb with
         | x :: la', y :: lb' =>
             do e <- Equal x y;
             if e : bool then members_equal la' lb' else Ok false
         | _, _ => Ok true
         end) ma mb
  | IntegerType _ wa sa, IntegerType _ wb sb =>
      Ok (bool_decide (wa = wb) && bool_decide (sa = sb))
  | _, _ => Abort
  end.

End Glint.

(** * The code generator of the Intercept front end ([src/src/codegen.c]) *)

Module Codegen.

Abbreviation node_ref := nat (only parsing).

(** The token types that [codegen_expr] and [codegen_lvalue] test. *)
Inductive TokenType : Set :=
| TK_NUMBER | TK_STRING | TK_LBRACK | TK_COLON_EQ
| TK_LT | TK_LE | TK_GT | TK_GE | TK_EQ | TK_NE
| TK_PLUS | TK_MINUS | TK_STAR | TK_SLASH | TK_PERCENT
| TK_SHL | TK_SHR | TK_AMPERSAND | TK_PIPE | TK_AT | TK_TILDE
| TK_OTHER (t : nat).

#[global] Instance TokenType_eq_dec : EqDecision TokenType.
Proof. solve_decision. Defined.

(** Modelled from the spec: the declaration of [Type] is missing; the
    kinds are those the code generator tests, with the members it
    reads ([primitive.is_signed], [pointer.to], [array.of]). *)
Inductive CType : Set :=
| TYPE_PRIMITIVE (is_signed : bool) (size : nat)
| TYPE_POINTER (to_ : CType)
| TYPE_ARRAY (of_ : CType) (count : nat)
| TYPE_FUNCTION
| TYPE_STRUCT (size : nat).

#[global] Instance CType_eq_dec : EqDecision CType.
Proof. solve_decision. Defined.

Definition t_integer : CType := TYPE_PRIMITIVE true 8.

Definition type_is_array (t : CType) : bool :=
  match t with TYPE_ARRAY _ _ => true | _ => false end.

Definition type_is_pointer (t : CType) : bool :=
  match t with TYPE_POINTER _ => true | _ => false end.

Definition ast_make_type_pointer (t : CType) : CType := TYPE_POINTER t.

(** The member of the union of a literal node. *)
Inductive Literal : Set :=
| LitNumber (integer : Z)
| LitString (string_index : nat)
| LitArray (compound : list node_ref)
| LitOther (t : TokenType).

Definition literal_type (l : Literal) : TokenType :=
  match l with
  | LitNumber _ => TK_NUMBER
  | LitString _ => TK_STRING
  | LitArray _ => TK_LBRACK
  | LitOther t => t
  end.

(** The kinds of nodes with the members of the union that the code
    generator reads.  [NODE_VARIABLE_REFERENCE] holds the node of the
    declaration, [var->val.node]; [NODE_MEMBER_ACCESS] the offset and
    type of the member; [NODE_OTHER] stands for a kind without a
    case. *)
Inductive NodeData : Set :=
| NODE_FUNCTION (function_ir : func_ref)
| NODE_ROOT (children : list node_ref)
| NODE_DECLARATION (static_ : bool) (name : string) (init : option node_ref)
| NODE_MEMBER_ACCESS (struct_ : node_ref) (byte_offset : Z) (member_type : CType)
| NODE_VARIABLE_REFERENCE (var : node_ref)
| NODE_STRUCTURE_DECLARATION
| NODE_IF (condition then_ : node_ref) (else_ : option node_ref)
| NODE_WHILE (condition body : node_ref)
| NODE_BLOCK (children : list node_ref)
| NODE_CALL (callee : node_ref) (arguments : list node_ref)
| NODE_CAST (value : node_ref)
| NODE_BINARY (op : TokenType) (lhs rhs : node_ref)
| NODE_UNARY (op : TokenType) (postfix : bool) (value : node_ref)
| NODE_LITERAL (literal : Literal)
| NODE_FOR (init condition iterator body : node_ref)
| NODE_FUNCTION_REFERENCE
| NODE_OTHER (k : nat).

Record Node : Set := mkNode {
  node_data : NodeData;
  node_type : CType;
  emitted : bool;
  ir : option inst_ref;
  address : option inst_ref;
}.

(** Modelled from the spec: the IR builder is missing.  An instruction
    it creates has a kind, operands, block operands, an immediate, a
    type and, once inserted, the block it is in. *)
Record Instr : Set := mkInstr {
  i_kind : IRType;
  i_operands : list (option inst_ref);
  i_blocks : list block_ref;
  i_imm : Z;
  i_callee : option func_ref;
  i_type : option CType;
  i_init : option inst_ref;
  i_parent : option block_ref;
}.

(** The state of the translation: the nodes of the AST, the
    instructions and blocks created so far, [ctx->block], the
    allocator, the static variables with the node that declares them,
    the strings of the AST, the diagnostics and the counter of string
    literals (a [static] local of [codegen_expr]). *)
Record State : Type := mkState {
  nodes : gmap nat Node;
  code : gmap nat Instr;
  block_code : gmap nat (list inst_ref);
  block : block_ref;
  next : nat;
  static_vars : list (string * inst_ref * node_ref);
  strings : list string;
  diags : list string;
  string_literal_count : nat;
}.

(** ** The monad of the translation *)

Definition M (A : Type) : Type := State -> result (A * State).

Definition ret {A} (a : A) : M A := fun s => Ok (a, s).

Definition bindM {A B} (c : M A) (k : A -> M B) : M B :=
  fun s => match c s with
           | Ok (a, s') => k a s'
           | Abort => Abort
           | Diverge => Diverge
           end.

(** [ICE], [TODO], [UNREACHABLE], a failed [ASSERT] and the use of a
    null pointer. *)
Definition ice {A} : M A := fun _ => Abort.

Definition out_of_fuel {A} : M A := fun _ => Diverge.

Definition some {A} (o : option A) : M A :=
  match o with
  | Some a => ret a
  | None => ice
  end.

Definition get : M State := fun s => Ok (s, s).

Definition modify (f : State -> State) : M unit := fun s => Ok (tt, f s).

Notation "'let*' x ':=' c 'in' k" := (bindM c (fun x => k))
  (at level 10, x pattern, c at level 100, k at level 200).

(** [foreach_ptr (Node *, x, l)] with a body that runs to its end or
    [continue]s. *)
Fixpoint foreach {A} (l : list A) (body : A -> M unit) : M unit :=
  match l with
  | [] => ret tt
  | x :: l' => let* _ := body x in foreach l' body
  end.

(** ** The nodes *)

Definition node (n : node_ref) : M Node :=
  let* s := get in some (nodes s !! n).

Definition with_nodes (s : State) (m : gmap nat Node) : State :=
  mkState m (code s) (block_code s) (block s) (next s) (static_vars s) (strings s)
          (diags s) (string_literal_count s).

Definition update_node (n : node_ref) (f : Node -> Node) : M unit :=
  modify (fun s => with_nodes s (alter f n (nodes s))).

(** [expr->emitted = true]. *)
Definition set_emitted (n : node_ref) : M unit :=
  update_node n (fun x => mkNode (node_data x) (node_type x) true (ir x) (address x)).

(** [expr->ir = v]. *)
Definition set_ir (n : node_ref) (v : option inst_ref) : M unit :=
  update_node n (fun x => mkNode (node_data x) (node_type x) (emitted x) v (address x)).

(** [lval->address = v]. *)
Definition set_address (n : node_ref) (v : option inst_ref) : M unit :=
  update_node n (fun x => mkNode (node_data x) (node_type x) (emitted x) (ir x) v).

(** ** The IR builder *)

Definition with_ir (s : State) (c : gmap nat Instr) (b : gmap nat (list inst_ref))
    (cur : block_ref) (nx : nat) : State :=
  mkState (nodes s) c b cur nx (static_vars s) (strings s) (diags s)
          (string_literal_count s).

Definition is_terminator (k : IRType) : bool :=
  match k with
  | IR_BRANCH | IR_BRANCH_CONDITIONAL | IR_RETURN | IR_UNREACHABLE => true
  | _ => false
  end.

(** Modelled from the spec: [ir_is_closed] is missing; "closes_block(b)
    returns true iff b ends in a terminator". *)
Definition ir_is_closed (s : State) (b : block_ref) : bool :=
  match last (default [] (block_code s !! b)) with
  | Some i => match code s !! i with
              | Some x => is_terminator (i_kind x)
              | None => false
              end
  | None => false
  end.

(** [INSTRUCTION(i, kind)]: a new instruction that is in no block. *)
Definition create (x : Instr) : M inst_ref :=
  fun s => Ok (next s, with_ir s (<[next s := x]> (code s)) (block_code s) (block s)
                         (S (next s))).

(** Modelled from the spec: [ir_insert] is missing; "After closing,
    emits are rejected until a new block is attached". *)
Definition ir_insert (i : inst_ref) : M unit :=
  fun s =>
    if ir_is_closed s (block s) then Abort else
    match code s !! i with
    | None => Abort
    | Some x =>
        Ok (tt, with_ir s
                  (<[i := mkInstr (i_kind x) (i_operands x) (i_blocks x) (i_imm x)
                                  (i_callee x) (i_type x) (i_init x) (Some (block s))]>
                     (code s))
                  (<[block s := default [] (block_code s !! block s) ++ [i]]>
                     (block_code s))
                  (block s) (next s))
    end.

(** Modelled from the spec: the [emit_*] functions of the builder
    create an instruction and insert it at the end of the current
    block. *)
Definition emit (k : IRType) (ops : list (option inst_ref)) (bs : list block_ref)
    (imm : Z) (callee : option func_ref) (t : option CType) : M inst_ref :=
  let* i := create (mkInstr k ops bs imm callee t None None) in
  let* _ := ir_insert i in
  ret i.

Definition set_instruction_type (i : inst_ref) (t : CType) : M unit :=
  fun s =>
    match code s !! i with
    | None => Abort
    | Some x =>
        Ok (tt, with_ir s
                  (<[i := mkInstr (i_kind x) (i_operands x) (i_blocks x) (i_imm x)
                                  (i_callee x) (Some t) (i_init x) (i_parent x)]>
                     (code s))
                  (block_code s) (block s) (next s))
    end.

(** [address->static_ref->init = i]. *)
Definition set_static_init (a : inst_ref) (v : inst_ref) : M unit :=
  fun s =>
    match code s !! a with
    | None => Abort
    | Some x =>
        Ok (tt, with_ir s
                  (<[a := mkInstr (i_kind x) (i_operands x) (i_blocks x) (i_imm x)
                                  (i_callee x) (i_type x) (Some v) (i_parent x)]>
                     (code s))
                  (block_code s) (block s) (next s))
    end.

Definition instruction (i : inst_ref) : M Instr :=
  let* s := get in some (code s !! i).

Definition ir_block_create : M block_ref :=
  fun s => Ok (next s, with_ir s (code s) (<[next s := []]> (block_code s)) (block s)
                         (S (next s))).

Definition ir_block_attach (b : block_ref) : M unit :=
  modify (fun s => with_ir s (code s) (block_code s) b (next s)).

Definition current_block : M block_ref := let* s := get in ret (block s).

Definition is_closed : M bool := let* s := get in ret (ir_is_closed s (block s)).

Definition ir_immediate (t : CType) (v : Z) : M inst_ref :=
  emit IR_IMMEDIATE [] [] v None (Some t).
Definition ir_load (a : option inst_ref) : M inst_ref :=
  let* a' := some a in emit IR_LOAD [Some a'] [] 0 None None.
Definition ir_store (v a : option inst_ref) : M inst_ref :=
  emit IR_STORE [v; a] [] 0 None None.
Definition ir_binary (k : IRType) (l r : option inst_ref) : M inst_ref :=
  emit k [l; r] [] 0 None None.
Definition ir_unary (k : IRType) (t : option CType) (v : option inst_ref) : M inst_ref :=
  emit k [v] [] 0 None t.
Definition ir_branch (b : block_ref) : M inst_ref :=
  emit IR_BRANCH [] [b] 0 None None.
Definition ir_branch_conditional (c : option inst_ref) (t e : block_ref) : M inst_ref :=
  emit IR_BRANCH_CONDITIONAL [c] [t; e] 0 None None.
Definition ir_return (v : option inst_ref) : M inst_ref :=
  emit IR_RETURN [v] [] 0 None None.
Definition ir_phi (t : CType) : M inst_ref :=
  emit IR_PHI [] [] 0 None (Some t).
Definition ir_funcref (f : func_ref) : M inst_ref :=
  emit IR_FUNC_REF [] [] 0 (Some f) None.
Definition ir_stack_allocate (t : CType) : M inst_ref :=
  emit IR_ALLOCA [] [] 0 None (Some (ast_make_type_pointer t)).

(** [ir_phi_argument (phi, block, value)]. *)
Definition ir_phi_argument (phi : inst_ref) (b : block_ref) (v : option inst_ref)
    : M unit :=
  fun s =>
    match code s !! phi with
    | None => Abort
    | Some x =>
        Ok (tt, with_ir s
                  (<[phi := mkInstr (i_kind x) (i_operands x ++ [v]) (i_blocks x ++ [b])
                                    (i_imm x) (i_callee x) (i_type x) (i_init x)
                                    (i_parent x)]> (code s))
                  (block_code s) (block s) (next s))
    end.

(** [ir_add_function_call_argument (ctx, call, value)]. *)
Definition ir_add_function_call_argument (call : inst_ref) (v : option inst_ref)
    : M unit :=
  fun s =>
    match code s !! call with
    | None => Abort
    | Some x =>
        Ok (tt, with_ir s
                  (<[call := mkInstr (i_kind x) (i_operands x ++ [v]) (i_blocks x)
                                     (i_imm x) (i_callee x) (i_type x) (i_init x)
                                     (i_parent x)]> (code s))
                  (block_code s) (block s) (next s))
    end.

(** [ir_create_static]: a new static variable for the node [decl] and
    a reference to it in the current block. *)
Definition ir_create_static (decl : node_ref) (t : CType) (name : string) : M inst_ref :=
  let* r := emit IR_STATIC_REF [] [] 0 None (Some (ast_make_type_pointer t)) in
  let* _ := modify (fun s => mkState (nodes s) (code s) (block_code s) (block s) (next s)
                               (static_vars s ++ [(name, r, decl)]) (strings s)
                               (diags s) (string_literal_count s)) in
  ret r.

(** [issue_diagnostic] of the macros [ERR] and [DIAG]; the [return]
    of the macros is written where they are used.  A diagnostic is
    recorded by its format string; its arguments are not formatted. *)
Definition issue_diagnostic (msg : string) : M unit :=
  modify (fun s => mkState (nodes s) (code s) (block_code s) (block s) (next s)
                     (static_vars s) (strings s) (diags s ++ [msg])
                     (string_literal_count s)).

(** [string_literal_count++]. *)
Definition next_string_literal : M nat :=
  fun s => Ok (string_literal_count s,
               mkState (nodes s) (code s) (block_code s) (block s) (next s)
                 (static_vars s) (strings s) (diags s) (S (string_literal_count s))).

(** ** [codegen_lvalue] and [codegen_expr] (lines 140-694) *)

Section Translation.

(** The functions of the AST that are not in the sources. *)
Variable type_is_void : CType -> bool.
Variable type_sizeof : CType -> nat.
Variable is_lvalue : NodeData -> bool.

Section Bodies.

(** The recursive calls: [ce] is [codegen_expr] and [cl] is
    [codegen_lvalue]. *)
Variable ce : node_ref -> M unit.
Variable cl : node_ref -> M unit.

Definition unless_closed (c : M inst_ref) : M unit :=
  let* closed := is_closed in
  if closed : bool then ret tt else let* _ := c in ret tt.

(** Lines 142-207: the [switch] of [codegen_lvalue]. *)
Definition lvalue_body (lval : node_ref) (nd : Node) : M unit :=
  match node_data nd with
  | NODE_DECLARATION static_ name init =>
      let* a := (if static_ : bool
                 then ir_create_static lval (node_type nd) name
                 else ir_stack_allocate (node_type nd)) in
      let* _ := set_address lval (Some a) in
      match init with
      | None => ret tt
      | Some i =>
          let* ind := node i in
          match static_, node_data ind with
          | true, NODE_LITERAL (LitNumber z) =>
              let* v := create (mkInstr IR_LIT_INTEGER [] [] z None None None None) in
              set_static_init a v
          | true, NODE_LITERAL (LitString idx) =>
              let* v := create (mkInstr IR_LIT_STRING [] [] (Z.of_nat idx) None None
                                        None None) in
              set_static_init a v
          | true, NODE_LITERAL (LitOther _) => ice
          | _, _ =>
              let* _ := ce i in
              let* ind' := node i in
              let* _ := ir_store (ir ind') (Some a) in
              ret tt
          end
      end
  | NODE_MEMBER_ACCESS struct_ byte_offset member_type =>
      let* _ := cl struct_ in
      let* sn := node struct_ in
      let* off := ir_immediate t_integer byte_offset in
      let* a := ir_binary IR_ADD (address sn) (Some off) in
      let* _ := set_address lval (Some a) in
      set_instruction_type a (ast_make_type_pointer member_type)
  | NODE_IF _ _ _ => ice
  | NODE_UNARY op postfix value =>
      if negb postfix && bool_decide (op = TK_AT) then
        let* _ := ce value in
        let* vn := node value in
        set_address lval (ir vn)
      else ice
  | NODE_VARIABLE_REFERENCE var =>
      let* vn := node var in
      let* a := some (address vn) in
      set_address lval (Some a)
  | _ => ice
  end.

(** Lines 452-520: the subscript operator. *)
Definition subscript (expr lhs rhs : node_ref) : M unit :=
  let* ln := node lhs in
  let* rn := node rhs in
  if negb (type_is_array (node_type ln)) && negb (type_is_pointer (node_type ln)) then
    issue_diagnostic
      "Subscript operator may only operate on arrays and pointers, which type %T is not"
  else
  (* [subs_lhs], or nothing where the function has returned *)
  let* subs_lhs :=
    match node_data ln with
    | NODE_VARIABLE_REFERENCE var =>
        let* vn := node var in
        let* var_decl := some (address vn) in
        let* vi := instruction var_decl in
        if bool_decide (i_kind vi = IR_STATIC_REF) || bool_decide (i_kind vi = IR_ALLOCA)
        then
          match i_type vi with
          | Some (TYPE_POINTER (TYPE_POINTER _)) =>
              let* l := ir_load (Some var_decl) in ret (Some (Some l))
          | Some _ => ret (Some (Some var_decl))
          | None => ice
          end
        else
          let* _ := issue_diagnostic
                      "Unhandled variable reference IR instruction kind %i aka %s" in
          ret None
    | d =>
        if is_lvalue d then
          let* _ := cl lhs in
          let* ln' := node lhs in
          ret (Some (address ln'))
        else
          match d with
          | NODE_LITERAL (LitString idx) =>
              let* _ := ce lhs in
              let* ln' := node lhs in
              match node_data rn with
              | NODE_LITERAL (LitNumber z) =>
                  let* s := get in
                  let* str := some (strings s !! idx) in
                  if (z >=? Z.of_nat (String.length str))%Z then
                    let* _ := issue_diagnostic
                                "Out of bounds: subscript %U too large for string literal." in
                    ret None
                  else if (z =? 0)%Z then
                    let* _ := set_ir expr (ir ln') in ret None
                  else
                    let* imm := ir_immediate t_integer z in
                    let* a := ir_binary IR_ADD (ir ln') (Some imm) in
                    let* _ := set_ir expr (Some a) in
                    ret None
              | _ => ret (Some (ir ln'))
              end
          | _ =>
              let* _ := issue_diagnostic "LHS of subscript operator has invalid kind %i" in
              ret None
          end
    end in
  match subs_lhs with
  | None => ret tt
  | Some subs_lhs =>
      let* l := some subs_lhs in
      let* li := instruction l in
      let* subs_lhs :=
        match i_type li with
        | Some (TYPE_POINTER (TYPE_ARRAY of_ _)) =>
            let* c := create (mkInstr IR_COPY [Some l] [] 0 None (i_type li) None None) in
            let* _ := set_instruction_type c (ast_make_type_pointer of_) in
            let* _ := ir_insert c in
            ret c
        | Some _ => ret l
        | None => ice
        end in
      match node_data rn with
      | NODE_LITERAL (LitNumber 0) => set_ir expr (Some subs_lhs)
      | _ =>
          let* _ := ce rhs in
          let* rn' := node rhs in
          let* scaled_rhs :=
            match node_type ln with
            | TYPE_ARRAY of_ _ =>
                let* imm := ir_immediate t_integer (Z.of_nat (type_sizeof of_)) in
                let* m := ir_binary IR_MUL (ir rn') (Some imm) in ret (Some m)
            | TYPE_POINTER to_ =>
                let* imm := ir_immediate t_integer (Z.of_nat (type_sizeof to_)) in
                let* m := ir_binary IR_MUL (ir rn') (Some imm) in ret (Some m)
            | _ => ret None
            end in
          let* a := ir_binary IR_ADD (Some subs_lhs) scaled_rhs in
          set_ir expr (Some a)
      end
  end.

(** Lines 526-544: the kind of the instruction of a binary
    operator. *)
Definition binary_kind (op : TokenType) : option IRType :=
  match op with
  | TK_LT => Some IR_LT | TK_LE => Some IR_LE | TK_GT => Some IR_GT
  | TK_GE => Some IR_GE | TK_EQ => Some IR_EQ | TK_NE => Some IR_NE
  | TK_PLUS => Some IR_ADD | TK_MINUS => Some IR_SUB | TK_STAR => Some IR_MUL
  | TK_SLASH => Some IR_DIV | TK_PERCENT => Some IR_MOD | TK_SHL => Some IR_SHL
  | TK_SHR => Some IR_SAR | TK_AMPERSAND => Some IR_AND | TK_PIPE => Some IR_OR
  | _ => None
  end.

(** Lines 613-621: the stores of an array literal; the loop is left
    behind the store of the element at [size - 1]. *)
Fixpoint store_elements (t : CType) (size : nat) (address : inst_ref) (index : nat)
    (l : list node_ref) : M unit :=
  match l with
  | [] => ret tt
  | n :: l' =>
      let* _ := ce n in
      let* nn := node n in
      let* _ := ir_store (ir nn) (Some address) in
      if decide (index = size - 1) then ret tt else
      let* element_byte_size := ir_immediate t_integer (Z.of_nat (type_sizeof t)) in
      let* address' := ir_binary IR_ADD (Some address) (Some element_byte_size) in
      store_elements t size address' (S index) l'
  end.

(** The children of a block (lines 379-384): [last] is the last
    child that is not a function. *)
Fixpoint block_children (last : option node_ref) (l : list node_ref)
    : M (option node_ref) :=
  match l with
  | [] => ret last
  | child :: l' =>
      let* cn := node child in
      match node_data cn with
      | NODE_FUNCTION _ => block_children last l'
      | _ => let* _ := ce child in block_children (Some child) l'
      end
  end.

(** Lines 219-691: the [switch] of [codegen_expr]. *)
Definition expr_body (expr : node_ref) (nd : Node) : M unit :=
  match node_data nd with
  | NODE_FUNCTION function_ir =>
      let* i := ir_funcref function_ir in set_ir expr (Some i)
  | NODE_ROOT children =>
      let* _ := foreach children
                  (fun child =>
                     let* cn := node child in
                     match node_data cn with
                     | NODE_FUNCTION _ => ret tt
                     | _ => ce child
                     end) in
      let* closed := is_closed in
      if closed : bool then ret tt else
      let* back := some (last children) in
      let* bn := node back in
      let* _ := ir_return (ir bn) in
      ret tt
  | NODE_DECLARATION _ _ _ => cl expr
  | NODE_MEMBER_ACCESS _ _ _ | NODE_VARIABLE_REFERENCE _ =>
      let* _ := cl expr in
      let* en := node expr in
      let* l := ir_load (address en) in
      set_ir expr (Some l)
  | NODE_STRUCTURE_DECLARATION => ret tt
  | NODE_IF condition then_ else_ =>
      let* _ := ce condition in
      let* then_block := ir_block_create in
      let* else_block := ir_block_create in
      let* join_block := ir_block_create in
      let* cn := node condition in
      let* _ := ir_branch_conditional (ir cn) then_block else_block in
      let* _ := ir_block_attach then_block in
      let* _ := ce then_ in
      let* last_then_block := current_block in
      let* _ := unless_closed (ir_branch join_block) in
      let* _ := ir_block_attach else_block in
      let* last_else_block :=
        match else_ with
        | Some e => let* _ := ce e in current_block
        | None => ret else_block
        end in
      let* _ := unless_closed (ir_branch join_block) in
      let* _ := ir_block_attach join_block in
      if type_is_void (node_type nd) then ret tt else
      let* phi := ir_phi (node_type nd) in
      let* tn := node then_ in
      let* _ := ir_phi_argument phi last_then_block (ir tn) in
      let* e := some else_ in
      let* en := node e in
      let* _ := ir_phi_argument phi last_else_block (ir en) in
      set_ir expr (Some phi)
  | NODE_WHILE condition body =>
      let* while_cond_block := ir_block_create in
      let* join_block := ir_block_create in
      let* _ := ir_branch while_cond_block in
      let* _ := ir_block_attach while_cond_block in
      let* _ := ce condition in
      let* cn := node condition in
      let* bn := node body in
      match node_data bn with
      | NODE_BLOCK [] =>
          let* _ := ir_branch_conditional (ir cn) while_cond_block join_block in
          ir_block_attach join_block
      | NODE_BLOCK (_ :: _) =>
          let* while_body_block := ir_block_create in
          let* _ := ir_branch_conditional (ir cn) while_body_block join_block in
          let* _ := ir_block_attach while_body_block in
          let* _ := ce body in
          let* _ := unless_closed (ir_branch while_cond_block) in
          ir_block_attach join_block
      | _ => ice
      end
  | NODE_BLOCK children =>
      let* last := block_children None children in
      if type_is_void (node_type nd) then ret tt else
      let* l := some last in
      let* ln := node l in
      let* v := some (ir ln) in
      set_ir expr (Some v)
  | NODE_CALL callee arguments =>
      let* cn := node callee in
      let* call :=
        match node_data cn with
        | NODE_FUNCTION function_ir =>
            create (mkInstr IR_CALL [] [] 0 (Some function_ir) None None None)
        | _ =>
            let* _ := ce callee in
            let* cn' := node callee in
            create (mkInstr IR_CALL [ir cn'] [] 0 None None None None)
        end in
      let* _ := foreach arguments
                  (fun arg =>
                     let* _ := ce arg in
                     let* an := node arg in
                     ir_add_function_call_argument call (ir an)) in
      let* _ := ir_insert call in
      set_ir expr (Some call)
  | NODE_CAST value =>
      let t_to := node_type nd in
      let* vn := node value in
      let t_from := node_type vn in
      let to_sz := type_sizeof t_to in
      let from_sz := type_sizeof t_from in
      let from_signed := match t_from with
                         | TYPE_PRIMITIVE is_signed _ => is_signed
                         | _ => false
                         end in
      let* _ := ce value in
      let* vn' := node value in
      let* i := ir_unary (if decide (from_sz = to_sz) then IR_BITCAST
                          else if decide (from_sz < to_sz)
                               then if from_signed then IR_SIGN_EXTEND else IR_ZERO_EXTEND
                               else IR_TRUNCATE)
                         (Some t_to) (ir vn') in
      set_ir expr (Some i)
  | NODE_BINARY op lhs rhs =>
      if decide (op = TK_COLON_EQ) then
        let* _ := ce rhs in
        let* _ := cl lhs in
        let* rn := node rhs in
        let* ln := node lhs in
        let* i := ir_store (ir rn) (address ln) in
        set_ir expr (Some i)
      else if decide (op = TK_LBRACK) then subscript expr lhs rhs
      else
        let* _ := ce lhs in
        let* _ := ce rhs in
        let* k := some (binary_kind op) in
        let* ln := node lhs in
        let* rn := node rhs in
        let* i := ir_binary k (ir ln) (ir rn) in
        set_ir expr (Some i)
  | NODE_UNARY op postfix value =>
      if bool_decide (op = TK_AMPERSAND) && negb postfix then
        (* [expr->literal.type] is read from a unary node: the
           member at the place of [unary.op] *)
        if decide (op = TK_STRING) then ice else
        let* _ := cl value in
        let* vn := node value in
        set_ir expr (address vn)
      else
        let* _ := ce value in
        let* vn := node value in
        if postfix then ice else
        match op with
        | TK_AT =>
            match node_type vn with
            | TYPE_POINTER TYPE_FUNCTION => set_ir expr (ir vn)
            | _ => let* l := ir_load (ir vn) in set_ir expr (Some l)
            end
        | TK_TILDE => let* i := ir_unary IR_NOT None (ir vn) in set_ir expr (Some i)
        | _ => ice
        end
  | NODE_LITERAL (LitNumber integer) =>
      let* i := ir_immediate (node_type nd) integer in set_ir expr (Some i)
  | NODE_LITERAL (LitString string_index) =>
      let* n := next_string_literal in
      let* r := ir_create_static expr (node_type nd) ("__str_lit" ++ pretty n) in
      let* _ := set_ir expr (Some r) in
      let* v := create (mkInstr IR_LIT_STRING [] [] (Z.of_nat string_index) None None
                                None None) in
      set_static_init r v
  | NODE_LITERAL (LitArray compound) =>
      let* a := ir_stack_allocate (node_type nd) in
      let* _ := set_ir expr (Some a) in
      let* address := create (mkInstr IR_COPY [Some a] [] 0 None None None None) in
      match node_type nd with
      | TYPE_ARRAY of_ _ =>
          let* _ := set_instruction_type address (ast_make_type_pointer of_) in
          let* _ := ir_insert address in
          let* _ := store_elements of_ (length compound) address 0 compound in
          let* l := ir_load (Some a) in
          set_ir expr (Some l)
      | _ => ice
      end
  | NODE_LITERAL (LitOther _) =>
      issue_diagnostic "Emitting literals of type %T not supported"
  | NODE_FOR init condition iterator body =>
      let* cond_block := ir_block_create in
      let* body_block := ir_block_create in
      let* join_block := ir_block_create in
      let* _ := ce init in
      let* _ := ir_branch cond_block in
      let* _ := ir_block_attach cond_block in
      let* _ := ce condition in
      let* cn := node condition in
      let* _ := ir_branch_conditional (ir cn) body_block join_block in
      let* _ := ir_block_attach body_block in
      let* _ := ce body in
      let* _ := ce iterator in
      let* _ := ir_branch cond_block in
      ir_block_attach join_block
  | NODE_FUNCTION_REFERENCE => ice
  | NODE_OTHER _ => ice
  end.

End Bodies.

(** [codegen_expr] (lines 210-694) and [codegen_lvalue] (lines
    141-208); a unit of fuel is spent on every call. *)
Fixpoint codegen_expr (fuel : nat) (expr : node_ref) {struct fuel} : M unit :=
  match fuel with
  | O => out_of_fuel
  | S fuel' =>
      let* nd := node expr in
      if emitted nd then ret tt else
      let* _ := set_emitted expr in
      expr_body (codegen_expr fuel') (codegen_lvalue fuel') expr nd
  end
with codegen_lvalue (fuel : nat) (lval : node_ref) {struct fuel} : M unit :=
  match fuel with
  | O => out_of_fuel
  | S fuel' =>
      let* nd := node lval in
      match address nd with
      | Some _ => ret tt
      | None => lvalue_body (codegen_expr fuel') (codegen_lvalue fuel') lval nd
      end
  end.

End Translation.

End Codegen.

(** A function without a body is called: [f() { }] and
    [g() { Call f(); Return }]. *)
Module EmptyCallee.

Definition f : IRFunction := mkFunction "f" [] None [] false false ∅ ∅.

Definition g : IRFunction :=
  mkFunction "g" [200] (Some 200) [] false false
    (list_to_map
       [ (20, inst IR_CALL (Call 0 (callee_function 1) [] false) 200 []);
         (21, inst IR_RETURN (Operand None) 200 []) ])
    (list_to_map [ (200, block [20; 21] 2) ]).

Definition ctx : CodegenContext :=
  mkContext [1; 2] (list_to_map [ (1, f); (2, g) ]) [] 1000.

Definition ictx : InlineContext := mkInlineContext [] [] 0 true.

End EmptyCallee.

(** A function marked [forceinline] whose call to itself cannot become
    a tail call: [g() { Call g(); %i = 7; Return }]. *)
Module ForcedRecursion.

Definition g : IRFunction :=
  mkFunction "g" [200] (Some 200) [] false true
    (list_to_map
       [ (20, inst IR_CALL (Call 0 (callee_function 1) [] false) 200 []);
         (21, inst IR_IMMEDIATE (Imm 7) 200 []);
         (22, inst IR_RETURN (Operand None) 200 []) ])
    (list_to_map [ (200, block [20; 21; 22] 1) ]).

Definition ctx : CodegenContext := mkContext [1] (list_to_map [ (1, g) ]) [] 1000.

End ForcedRecursion.

(** * Glint: queries on types ([src/lib/glint/ast.cc], lines 134-310 and 395) *)

Module GlintQueries.

Import Glint.

(** Modelled from the spec: the enumerations [BuiltinType::BuiltinKind]
    and [FFIType::FFIKind] are declared in [glint/ast.hh], which is
    missing; their enumerators are the ones the switches of [ast.cc]
    name. *)
Inductive BuiltinKind : Set :=
| Unknown | Bool | Byte | Int | UInt | Void | OverloadSet.

Inductive FFIKind : Set :=
| CChar | CSChar | CUChar | CShort | CUShort | CInt | CUInt
| CLong | CULong | CLongLong | CULongLong.

#[global] Instance BuiltinKind_eq_dec : EqDecision BuiltinKind.
Proof. solve_decision. Defined.

#[global] Instance FFIKind_eq_dec : EqDecision FFIKind.
Proof. solve_decision. Defined.

Section Queries.

(** The enumerator that a stored [builtin_kind] or [ffi_kind]
    stands for, if it is one of the enumeration, and
    [ctx->target()->ffi.char_is_signed]. *)
Variable builtin : nat -> option BuiltinKind.
Variable ffi : nat -> option FFIKind.
Variable char_is_signed : bool.

(** [is_builtin] (lines 157-160). *)
Definition is_builtin (t : Ty) (k : BuiltinKind) : bool :=
  match t with
  | BuiltinType _ n => bool_decide (builtin n = Some k)
  | _ => false
  end.

Definition is_unknown (t : Ty) : bool := is_builtin t Unknown.
Definition is_void (t : Ty) : bool := is_builtin t Void.




End Queries.

(** [Type::elem] (lines 134-154) on the kinds that hold their element
    type; the underlying type of an enumeration is no part of [Ty],
    and the other kinds stop the compiler. *)
Definition elem (t : Ty) : result Ty :=
  match t with
  | PointerType _ e | ReferenceType _ e | ArrayType _ e _ | DynamicArrayType _ e => Ok e
  | _ => Abort
  end.

(** [Type::strip_references] (lines 305-310). *)
Definition strip_references (t : Ty) : result Ty :=
  do ty <- (if decide (kind t = Kind.Reference) then elem t else Ok t);
  if decide (kind ty = Kind.Reference) then Abort else Ok ty.

(** The loop of line 301: [while (is<PointerType>(ty)) ty = ty->elem()]. *)
Fixpoint strip_pointers (ty : Ty) : Ty :=
  match ty with
  | PointerType _ e => strip_pointers e
  | _ => ty
  end.

(** [Type::strip_pointers_and_references] (lines 299-303). *)
Definition strip_pointers_and_references (t : Ty) : result Ty :=
  do ty <- strip_references t;
  Ok (strip_pointers ty).

(** The loop of line 395 in [CallExpr::callee_type]:
    [while (is<PointerType, ReferenceType>(ty)) ty = ty->elem()]. *)
Fixpoint strip_indirections (ty : Ty) : Ty :=
  match ty with
  | PointerType _ e | ReferenceType _ e => strip_indirections e
  | _ => ty
  end.

(** The types that a type is made of, the type itself first. *)
Fixpoint parts (t : Ty) : list Ty :=
  t :: match t with
       | PointerType _ e | ReferenceType _ e | ArrayType _ e _
       | DynamicArrayType _ e => parts e
       | FuncType _ r ps => parts r ++ flat_map parts ps
       | StructType _ _ ms => flat_map parts ms
       | _ => []
       end.

(** An address stands for one object: two of the types with the same
    address are the same type. *)
Definition one_object_per_address (l : list Ty) : Prop :=
  forall x y, x ∈ l -> y ∈ l -> addr x = addr y -> x = y.

End GlintQueries.

(** * The vocabulary of the statements *)

(** The fields of the context that a step of the scan may change. *)
Definition ictx_extends (ictx ictx' : InlineContext) : Prop :=
  history ictx' = history ictx /\ threshold ictx' = threshold ictx /\
  may_fail ictx' = may_fail ictx /\
  exists l, not_inlinable ictx' = not_inlinable ictx ++ l.

Definition same_but_ids (F F' : IRFunction) : Prop :=
  name F' = name F /\ blocks F' = blocks F /\ parameters F' = parameters F /\
  is_extern F' = is_extern F /\ attr_forceinline F' = attr_forceinline F /\
  (forall h, set_id 0 <$> insts F' !! h = set_id 0 <$> insts F !! h) /\
  (forall b, set_block_id 0 <$> blks F' !! b = set_block_id 0 <$> blks F !! b) /\
  blocks_last F' = blocks_last F.

(** Everything in an instruction but its users. *)
Definition core (r : IRInstruction) : IRType * nat * nat * IRData * nat * option nat :=
  (kind r, type r, backend_flags r, data r, id r, parent_block r).

Definition users_only (f f' : IRFunction) : Prop :=
  blks f' = blks f /\ blocks f' = blocks f /\
  forall h, core <$> insts f' !! h = core <$> insts f !! h.

(** The fields every copy receives (lines 194-197). *)
Definition copy_common (inst : IRInstruction) (r : IRInstruction) : IRInstruction :=
  set_backend_flags (backend_flags inst) (set_type (type inst) (set_kind (kind inst) r)).

(** The four ways in which an iteration for an instruction that is not
    a parameter ends. *)
Inductive copy_outcome (F : IRFunction) (bvec : list block_ref) (call_ref : inst_ref)
    (is_tail_call : bool) (call_history_index : nat) (b : block_ref) (blk : IRBlock)
    (cs : copy_state) (ih : inst_ref) (inst : IRInstruction) (copy : inst_ref)
    (cs' : copy_state) : Prop :=
| copied_plain d dest g2 :
    classify (kind inst) <> KReturn ->
    copy_data F (cs_table cs) bvec (kind inst) (data inst) = Ok d ->
    MAP_BLOCK F bvec b = Ok dest ->
    ir_force_insert_into_block
      (update_inst (update_inst (cs_caller cs) copy (copy_common inst)) copy (set_data d))
      dest copy = Ok g2 ->
    cs' = mkCopyState g2 (cs_table cs) (cs_return_value cs) (cs_return_block cs)
            (record_origin inst copy call_history_index (cs_history cs)) (cs_fresh cs) ->
    copy_outcome F bvec call_ref is_tail_call call_history_index b blk cs ih inst copy cs'
| copied_tail_return v v' dest g2 :
    classify (kind inst) = KReturn -> is_tail_call = true ->
    data inst = Operand (Some v) ->
    MAP F (cs_table cs) v = Ok v' ->
    MAP_BLOCK F bvec b = Ok dest ->
    ir_force_insert_into_block
      (update_inst (update_inst (cs_caller cs) copy (copy_common inst)) copy
         (set_data (Operand (Some v'))))
      dest copy = Ok g2 ->
    cs' = cs_with_caller cs g2 ->
    copy_outcome F bvec call_ref is_tail_call call_history_index b blk cs ih inst copy cs'
| dropped_return o :
    classify (kind inst) = KReturn -> is_tail_call = false ->
    cs_return_block cs = None ->
    blocks_last F = Some b -> instructions_last blk = Some ih ->
    data inst = Operand o ->
    match o with
    | Some v =>
        exists v', MAP F (cs_table cs) v = Ok v' /\
          cs' = mkCopyState (update_inst (cs_caller cs) copy (copy_common inst))
                  (<[id inst := call_ref]> (cs_table cs)) (Some v') None
                  (cs_history cs) (cs_fresh cs)
    | None => cs' = cs_with_caller cs (update_inst (cs_caller cs) copy (copy_common inst))
    end ->
    copy_outcome F bvec call_ref is_tail_call call_history_index b blk cs ih inst copy cs'
| branched_return o cs1 cs2 dest g2 :
    classify (kind inst) = KReturn -> is_tail_call = false ->
    data inst = Operand o ->
    (cs_return_block cs = None /\
     ~ (blocks_last F = Some b /\ instructions_last blk = Some ih) /\
     create_return_block
       (cs_with_caller cs (update_inst (cs_caller cs) copy (copy_common inst)))
       (bool_decide (is_Some o)) = Ok cs1
     \/
     is_Some (cs_return_block cs) /\
     cs1 = cs_with_caller cs (update_inst (cs_caller cs) copy (copy_common inst))) ->
    add_to_phi_and_branch F call_ref b inst o copy cs1 = Ok cs2 ->
    MAP_BLOCK F bvec b = Ok dest ->
    ir_force_insert_into_block (cs_caller cs2) dest copy = Ok g2 ->
    cs' = cs_with_caller cs2 g2 ->
    copy_outcome F bvec call_ref is_tail_call call_history_index b blk cs ih inst copy cs'.

Definition copy_step (F : IRFunction) (bvec : list block_ref) (call_ref : inst_ref)
    (is_tail_call : bool) (idx : nat) (cs : copy_state) (p : block_ref * inst_ref)
    : result copy_state :=
  do blk <- get_block F p.1;
  copy_instruction F bvec call_ref is_tail_call idx p.1 blk cs p.2.

(** An instruction that an iteration cannot reach: it is not the call,
    the vector does not hold it, it is not [return_value], and it was
    allocated before. *)
Definition untouched (call_ref : inst_ref) (cs : copy_state) (u : inst_ref) : Prop :=
  u <> call_ref /\ (u ∉ cs_table cs) /\ cs_return_value cs <> Some u /\ u < cs_fresh cs.

(** The caller after the suffix has been linked behind the last block
    (lines 379-384). *)
Definition reattach (g5 : IRFunction) (last_block : block_ref) (lb : IRBlock)
    (is_tail_call : bool) (call_next : list inst_ref) : IRFunction :=
  match instructions_last lb with
  | Some last_in_last_block =>
      if is_tail_call then g5
      else update_block g5 last_block
             (fun blk => set_instructions
                           (link_after last_in_last_block call_next (instructions blk)) blk)
  | None => g5
  end.

(** The caller after the instructions of the suffix were given their
    new parent (lines 399-409). *)
Definition reparent (g7 : IRFunction) (last_block call_block : block_ref)
    (is_tail_call : bool) (call_next : list inst_ref) : IRFunction :=
  if decide (last_block <> call_block /\ is_tail_call = false)
  then foldl (fun g' i => update_inst g' i (set_parent_block (Some last_block))) g7 call_next
  else g7.

Inductive transplanted (ctx : CodegenContext) (ictx : InlineContext) (fr : func_ref)
    (g : IRFunction) (call_ref : inst_ref) (c : IRInstruction) (callee_ref : func_ref)
    (F : IRFunction) (args : list inst_ref) (is_tail_call : bool) (count : nat)
    (hist : list history_entry) (idx : nat) (ctx' : CodegenContext)
    (ictx' : InlineContext) : Prop :=
| mkTransplanted
    (tp_call_block : block_ref)
    (tp_cb : IRBlock)
    (tp_before : list inst_ref)
    (tp_call_next : list inst_ref)
    (tp_F1 : IRFunction)
    (tp_F2 : IRFunction)
    (tp_table : list inst_ref)
    (tp_cs : copy_state)
    (tp_g3 : IRFunction)
    (tp_g5 : IRFunction)
    (tp_last_block : block_ref)
    (tp_lb : IRBlock)
    (tp_g7 : IRFunction)
    (tp_g10 : IRFunction)
    (tp_parent : parent_block c = Some tp_call_block)
    (tp_block : blks g !! tp_call_block = Some tp_cb)
    (tp_split : split_at call_ref (instructions tp_cb) = Some (tp_before, tp_call_next))
    (tp_enumerate : enumerate_blocks F 0 0 (blocks F) = Ok tp_F1)
    (tp_parameters :
    map_parameters tp_F1 (seq (fresh ctx) count) args count (length (parameters F)) 0
      (parameters F) = Ok (tp_F2, tp_table))
    (tp_copy :
    copy_instructions tp_F2
      (tp_call_block :: seq (fresh ctx + count) (length (blocks F) - 1))
      call_ref is_tail_call idx
      (mkCopyState
         (allocate_skeleton
            (update_block g tp_call_block
               (fun blk => set_instructions_last (last tp_before)
                             (set_instructions tp_before blk)))
            (fresh ctx) count (length (blocks F) - 1) (function tp_cb))
         tp_table None None hist (fresh ctx + count + (length (blocks F) - 1)))
    = Ok tp_cs)
    (tp_fix_up : fix_up_uses tp_F2 (cs_table tp_cs) (cs_caller tp_cs) = Ok tp_g3)
    (tp_remove :
    ir_remove
      match cs_return_value tp_cs with
      | Some rv => ir_replace_uses (ir_remove_use tp_g3 rv call_ref) call_ref rv
      | None => tp_g3
      end call_ref = Ok tp_g5)
    (tp_last :
    last ((tp_call_block :: seq (fresh ctx + count) (length (blocks F) - 1))
          ++ option_list (cs_return_block tp_cs)) = Some tp_last_block)
    (tp_last_lookup : blks tp_g5 !! tp_last_block = Some tp_lb)
    (tp_after :
    (if is_tail_call
     then remove_after_call (reattach tp_g5 tp_last_block tp_lb is_tail_call tp_call_next)
            tp_call_next
     else Ok (reattach tp_g5 tp_last_block tp_lb is_tail_call tp_call_next)) = Ok tp_g7)
    (tp_free :
    free_unused
      (with_blocks
         (reparent tp_g7 tp_last_block tp_call_block is_tail_call tp_call_next)
         (connect_blocks
            (blocks (reparent tp_g7 tp_last_block tp_call_block is_tail_call tp_call_next))
            tp_call_block
            (seq (fresh ctx + count) (length (blocks F) - 1))
            (cs_return_block tp_cs)))
      call_ref (cs_table tp_cs) = Ok tp_g10)
    (tp_ctx :
    ctx' = mkContext (functions ctx)
             (<[fr := tp_g10]> (<[callee_ref := tp_F2]> (funcs ctx)))
             (diagnostics ctx) (cs_fresh tp_cs))
    (tp_ictx : ictx' = with_history ictx (cs_history tp_cs)).

(** Kind, data and parent of an instruction. *)
Definition shape (r : IRInstruction) : IRType * IRData * option block_ref :=
  (kind r, data r, parent_block r).

(** The blocks of the caller only gain instructions during an
    iteration. *)
Definition blocks_grow (g g' : IRFunction) : Prop :=
  forall x blk, blks g !! x = Some blk ->
    exists blk' l, blks g' !! x = Some blk' /\ instructions blk' = instructions blk ++ l.

(** Nothing is added: an instruction of [f'] is one of [f] with at most
    its users, a block of [f'] is one of [f] with at most its
    instructions. *)
Definition shrinks (f f' : IRFunction) : Prop :=
  (forall x rx', insts f' !! x = Some rx' ->
     exists rx, insts f !! x = Some rx /\ core rx' = core rx /\
                forall y, y ∈ users rx' -> y ∈ users rx) /\
  (forall b blk', blks f' !! b = Some blk' ->
     exists blk, blks f !! b = Some blk /\
                 forall y, y ∈ instructions blk' -> y ∈ instructions blk) /\
  blocks f' = blocks f.

(** Nothing but [removed] is taken away. *)
Definition keeps (removed : list inst_ref) (f f' : IRFunction) : Prop :=
  (forall h r, insts f !! h = Some r -> h ∉ removed ->
     exists r', insts f' !! h = Some r' /\ core r' = core r) /\
  (forall b blk y, blks f !! b = Some blk -> y ∈ instructions blk -> y ∉ removed ->
     exists blk', blks f' !! b = Some blk' /\ y ∈ instructions blk').

(** What a block and an instruction of a function are seen to hold. *)
Definition block_view (f : IRFunction) (b : block_ref)
    : option (list inst_ref * option inst_ref) :=
  (fun blk => (instructions blk, instructions_last blk)) <$> blks f !! b.

Definition inst_view (f : IRFunction) (i : inst_ref) : option (IRType * IRData) :=
  (fun r => (kind r, data r)) <$> insts f !! i.

(** The call with its [tail_call] flag cleared. *)
Definition without_tail_flag (g : IRFunction) (i : inst_ref) : IRFunction :=
  update_inst g i
    (fun r => match data r with
              | Call n c args _ => set_data (Call n c args false) r
              | _ => r
              end).

(** The test of [opt_try_convert_to_tail_call]. *)
Definition convertible (g : IRFunction) (i : inst_ref) (r : IRInstruction) : bool :=
  match users r with
  | [u] => is_return_of g u (Some i)
  | _ => false
  end
  || match parent_block r with
     | Some b => match blks g !! b with
                 | Some blk => match next_of i (instructions blk) with
                               | Some n => is_return_of g n None
                               | None => false
                               end
                 | None => false
                 end
     | None => false
     end.

(** [marked f1 f2]: [f2] is [f1] with some more of its convertible
    calls marked as tail calls. *)
Definition marked (f1 f2 : IRFunction) : Prop :=
  name f2 = name f1 /\
  (blocks f2 = blocks f1 /\ blocks_last f2 = blocks_last f1) /\
  parameters f2 = parameters f1 /\
  is_extern f2 = is_extern f1 /\ attr_forceinline f2 = attr_forceinline f1 /\
  blks f2 = blks f1 /\
  forall i,
    insts f2 !! i = insts f1 !! i \/
    exists r, insts f1 !! i = Some r /\ insts f2 !! i = Some (set_tail_call r) /\
              convertible f1 i r = true.

Definition marked_ctx (c d : CodegenContext) : Prop :=
  functions d = functions c /\
  forall fr, option_Forall2 marked (funcs c !! fr) (funcs d !! fr).

(** The step of [run_inliner] for one function. *)
Definition run_step (fuel : nat) (s : CodegenContext * InlineContext * inline_result)
    (fr : func_ref) : result (CodegenContext * InlineContext * inline_result) :=
  do s' <- inline_calls_in_function fuel s.1.1 s.1.2 fr;
  Ok (s'.1.1, s'.1.2, mkResult (changed s'.2 || changed s.2) (failed s'.2 || failed s.2)).

(** The function a direct call calls. *)
Definition callee_of (r : IRInstruction) : option func_ref :=
  match data r with
  | Call _ (callee_function f) _ _ => Some f
  | _ => None
  end.

(** The entries met from index [i] on by following [inlined_via]. *)
Fixpoint chain (fuel : nat) (h : list history_entry) (i : nat) : list history_entry :=
  match fuel with
  | O => []
  | S fuel' =>
      match h !! i with
      | None => []
      | Some e => e :: match inlined_via e with
                       | None => []
                       | Some j => chain fuel' h j
                       end
      end
  end.

Definition ancestry (h : list history_entry) (i : nat) : list history_entry :=
  chain (S i) h i.

(** Every entry was inlined via an earlier one. *)
Definition ordered (h : list history_entry) : Prop :=
  forall i e j, h !! i = Some e -> inlined_via e = Some j -> j < i.

(** The number of entries between the entry of the call [x] and its
    root; a call without an entry will be given a root entry. *)
Definition dep (h : list history_entry) (x : inst_ref) : nat :=
  match history_find h x 0 None with
  | Some i => length (ancestry h i)
  | None => 1
  end.

(** [B M r] bounds the number of calls that a call of rank [r] can
    bring about when every inlining adds at most [M] calls. *)
Fixpoint B (M r : nat) : nat :=
  match r with
  | O => 1
  | S r' => 1 + M * B M r'
  end.

Definition weight (N M : nat) (g : IRFunction) (ictx : InlineContext) (x : inst_ref) : nat :=
  match insts g !! x with
  | Some r =>
      if decide (kind r = IR_CALL /\ x ∉ not_inlinable ictx)
      then B M (S N - dep (history ictx) x)
      else 0
  | None => 0
  end.

Definition potential (N M : nat) (g : IRFunction) (ictx : InlineContext) (bound : nat) : nat :=
  sum_list_with (weight N M g ictx) (seq 0 bound).

(** The number of iterations of the copy loop for a callee. *)
Definition cost (F : IRFunction) : nat :=
  match function_instructions F with
  | Ok l => length l
  | _ => 0
  end.

(** [sub g g']: every instruction of [g'] is one of [g], of the same
    kind and with the same callee. *)
Definition sub (g g' : IRFunction) : Prop :=
  forall x r', insts g' !! x = Some r' ->
    exists r, insts g !! x = Some r /\ kind r' = kind r /\ callee_of r' = callee_of r.

(** [tracked n g g']: every call of [g'] is a call of [g] with the same
    callee, and the instructions that are new were allocated below
    [n]. *)
Definition tracked (n : nat) (g g' : IRFunction) : Prop :=
  forall x r', insts g' !! x = Some r' ->
    (insts g !! x = None -> x < n) /\
    (kind r' = IR_CALL ->
     exists r, insts g !! x = Some r /\ kind r = IR_CALL /\ callee_of r = callee_of r').

(** One iteration of the copy loop. *)
Definition step_tracked (idx : nat) (cs cs' : copy_state) : Prop :=
  cs_fresh cs <= cs_fresh cs' /\
  ((cs_history cs' = cs_history cs /\
    tracked (cs_fresh cs') (cs_caller cs) (cs_caller cs')) \/
   (exists copy f,
       cs_history cs' = cs_history cs ++ [mkEntry copy f (Some idx)] /\
       forall x r', insts (cs_caller cs') !! x = Some r' ->
         (insts (cs_caller cs) !! x = None -> x < cs_fresh cs') /\
         (kind r' = IR_CALL ->
          (x = copy /\ callee_of r' = f) \/
          (x <> copy /\
           exists r, insts (cs_caller cs) !! x = Some r /\ kind r = IR_CALL /\
                     callee_of r = callee_of r')))).

(** The calls of [g] after some iterations that appended [l] to the
    history [h0], which held for [g0]: a call is in the history with
    its callee, or it was a call of [g0]. *)
Definition recorded (idx n : nat) (h0 : list history_entry) (g0 : IRFunction)
    (l : list history_entry) (g : IRFunction) : Prop :=
  (forall e, e ∈ l -> inlined_via e = Some idx) /\
  forall x r', insts g !! x = Some r' ->
    (insts g0 !! x = None -> x < n) /\
    (kind r' = IR_CALL ->
     match history_find l x (length h0) None with
     | Some j => exists e, l !! (j - length h0) = Some e /\ callee e = callee_of r'
     | None => exists r, insts g0 !! x = Some r /\ kind r = IR_CALL /\
                         callee_of r = callee_of r'
     end).

Definition valid (ctx : CodegenContext) (c : option func_ref) : Prop :=
  exists F, c = Some F /\ is_Some (funcs ctx !! F).

(** The entries from [j] to the root are for different functions of
    the module. *)
Definition good (ctx : CodegenContext) (h : list history_entry) (j : nat) : Prop :=
  NoDup (callee <$> ancestry h j) /\
  forall c, c ∈ callee <$> ancestry h j -> valid ctx c.

(** The allocator is above every instruction. *)
Definition fresh_ok (ctx : CodegenContext) : Prop :=
  forall f g k, funcs ctx !! f = Some g -> is_Some (insts g !! k) -> k < fresh ctx.

Record pass_inv (N M : nat) (fr : func_ref) (ctx : CodegenContext) (ictx : InlineContext)
    : Prop := mkPassInv {
  pi_fresh : fresh_ok ctx;
  pi_count : forall l : list (option func_ref),
      NoDup l -> (forall c, c ∈ l -> valid ctx c) -> length l <= N;
  pi_cost : forall F Fn, funcs ctx !! F = Some Fn -> F <> fr -> cost Fn <= M;
  pi_ordered : ordered (history ictx);
  pi_good : forall i e j,
      history ictx !! i = Some e -> inlined_via e = Some j -> good ctx (history ictx) j;
  pi_callee : forall g x r i e,
      funcs ctx !! fr = Some g -> insts g !! x = Some r -> kind r = IR_CALL ->
      history_find (history ictx) x 0 None = Some i -> history ictx !! i = Some e ->
      callee e = callee_of r;
}.

Definition pot (N M : nat) (fr : func_ref) (ctx : CodegenContext) (ictx : InlineContext)
    : nat :=
  match funcs ctx !! fr with
  | Some g => potential N M g ictx (fresh ctx)
  | None => 0
  end.

Definition ends {A} (m : result A) : Prop := m <> Diverge.

(** The numbers of the invariant for a module. *)
Definition module_size (ctx : CodegenContext) : nat := size (funcs ctx).

Definition module_cost (ctx : CodegenContext) : nat :=
  sum_list_with (fun p : nat * IRFunction => cost p.2) (map_to_list (funcs ctx)).

(** [emitted_kept x s s']: a node that is marked as emitted in [s] is
    marked in [s'], and with the same [ir] unless it is [x]. *)
Definition emitted_kept (x : option nat) (s s' : Codegen.State) : Prop :=
  forall m nd,
    Codegen.nodes s !! m = Some nd -> Codegen.emitted nd = true ->
    exists nd',
      Codegen.nodes s' !! m = Some nd' /\ Codegen.emitted nd' = true /\
      (Some m <> x -> Codegen.ir nd' = Codegen.ir nd).

(** [stable x c]: every run of [c] stable the emitted nodes. *)
Definition stable {A} (x : option nat) (c : Codegen.M A) : Prop :=
  forall s a s', c s = Ok (a, s') -> emitted_kept x s s'.

(** An operation of the builder does not touch the nodes. *)
Definition builder {A} (c : Codegen.M A) : Prop :=
  forall s a s', c s = Ok (a, s') -> Codegen.nodes s' = Codegen.nodes s.

(** [x + x] with both operands the same node: the literal is emitted
    once. *)
Module SharedOperand.

Definition literal : Codegen.Node :=
  Codegen.mkNode (Codegen.NODE_LITERAL (Codegen.LitNumber 34)) Codegen.t_integer
                 false None None.

Definition sum : Codegen.Node :=
  Codegen.mkNode (Codegen.NODE_BINARY Codegen.TK_PLUS 1 1) Codegen.t_integer
                 false None None.

Definition state : Codegen.State :=
  Codegen.mkState (list_to_map [ (1, literal); (2, sum) ]) ∅ (list_to_map [ (0, []) ])
                  0 100 [] [] [] 0.

Definition type_is_void (t : Codegen.CType) : bool := false.
Definition type_sizeof (t : Codegen.CType) : nat := 8.
Definition is_lvalue (d : Codegen.NodeData) : bool := false.

End SharedOperand.

(** The scan of [fr] passes no instruction on and changes nothing. *)
Definition idle (ctx : CodegenContext) (ictx : InlineContext) (fr : func_ref) : Prop :=
  forall res inst s go,
    consider_instruction ctx ictx res fr inst = Ok (s, go) ->
    go = false /\ s = (ctx, ictx, res).

(** What a function is known by: its name, its parameters and its
    attributes. *)
Definition header (f : IRFunction) : string * list inst_ref * bool * bool :=
  (name f, parameters f, is_extern f, attr_forceinline f).

(** The variables of [inline_calls_in_function]: the module, the
    inlining context and the result. *)
Definition pass_state : Type := CodegenContext * InlineContext * inline_result.

(** What the pass does to the diagnostics and to [failed]: diagnostics
    are only added, never in permissive mode, and in strict mode
    [failed] is raised exactly when one is added. *)
Definition reports (a b : pass_state) : Prop :=
  may_fail b.1.2 = may_fail a.1.2 /\
  exists l,
    diagnostics b.1.1 = diagnostics a.1.1 ++ l /\
    (failed a.2 = true -> failed b.2 = true) /\
    (may_fail a.1.2 = true -> l = []) /\
    (may_fail a.1.2 = false ->
     (l <> [] -> failed b.2 = true) /\ (failed b.2 = true -> failed a.2 = true \/ l <> [])).

(** What the pass over the function [fr] does to the functions: none
    is added or removed, [fr] keeps its header, and the others change
    in [id] fields only. *)
Definition keeps_functions (fr : func_ref) (a b : pass_state) : Prop :=
  functions b.1.1 = functions a.1.1 /\
  (forall fr', fr' <> fr ->
     option_Forall2 same_but_ids (funcs a.1.1 !! fr') (funcs b.1.1 !! fr')) /\
  option_Forall2 (fun g g' => header g' = header g) (funcs a.1.1 !! fr) (funcs b.1.1 !! fr).

(** The relation of the modules before and after a run. *)
Definition same_interface (ctx ctx' : CodegenContext) : Prop :=
  functions ctx' = functions ctx /\
  forall fr, option_Forall2 (fun f f' => header f' = header f)
               (funcs ctx !! fr) (funcs ctx' !! fr).

(** [only_self_calls c d]: an instruction that the module [d] holds
    with another record than [c] is, in [c], a direct call of its
    function to itself that is not marked as a tail call, and [d] holds
    the same call marked. *)
Definition only_self_calls (c d : CodegenContext) : Prop :=
  forall fr f1 f2 i r1 r2,
    funcs c !! fr = Some f1 -> funcs d !! fr = Some f2 ->
    insts f1 !! i = Some r1 -> insts f2 !! i = Some r2 -> r2 <> r1 ->
    kind r1 = IR_CALL /\
    exists n args,
      data r1 = Call n (callee_function fr) args false /\
      r2 = set_data (Call n (callee_function fr) args true) r1.

(** The pass over a function, as long as it reports no change. *)
Definition quiet (a b : pass_state) : Prop :=
  changed b.2 = false ->
  changed a.2 = false /\ marked_ctx a.1.1 b.1.1 /\ only_self_calls a.1.1 b.1.1.

(** The instructions of [f] can be counted: its blocks and the
    instructions in them exist. *)
Definition countable (f : IRFunction) : Prop :=
  forall b, b ∈ blocks f ->
    exists blk, blks f !! b = Some blk /\
                forall i, i ∈ instructions blk -> is_Some (insts f !! i).

(** Every handle that the scan of the module follows names an object:
    the functions of the module, their blocks and instructions, and the
    callee of every direct call; an instruction of kind [IR_CALL] holds
    the data of a call, and a callee that is not extern can be
    counted. *)
Definition scannable (ctx : CodegenContext) : Prop :=
  forall fr, fr ∈ functions ctx ->
    exists f, funcs ctx !! fr = Some f /\ countable f /\
      forall b blk i r,
        b ∈ blocks f -> blks f !! b = Some blk -> i ∈ instructions blk ->
        insts f !! i = Some r -> kind r = IR_CALL ->
        exists n c args tail,
          data r = Call n c args tail /\
          forall callee_ref, c = callee_function callee_ref ->
            exists F, funcs ctx !! callee_ref = Some F /\
                      (is_extern F = false -> countable F).

(** [tree_kept s s']: the two states have the same nodes, and a node
    has the kind, the children and the type it had. *)
Definition tree_kept (s s' : Codegen.State) : Prop :=
  forall m,
    option_Forall2
      (fun nd nd' => Codegen.node_data nd' = Codegen.node_data nd /\
                     Codegen.node_type nd' = Codegen.node_type nd)
      (Codegen.nodes s !! m) (Codegen.nodes s' !! m).

Definition keeps_tree {A} (c : Codegen.M A) : Prop :=
  forall s a s', c s = Ok (a, s') -> tree_kept s s'.

(** * Properties of the inliner *)

(** ** The outcome monad *)

Lemma bind_Ok {A B : Type} (m : result A) (k : A -> result B) (b : B) :
  bind m k = Ok b -> exists a, m = Ok a /\ k a = Ok b.
Proof. destruct m; simpl; intros H; try discriminate. eauto. Qed.

Lemma of_option_Ok {A : Type} (o : option A) (a : A) :
  of_option o = Ok a -> o = Some a.
Proof. destruct o; simpl; congruence. Qed.

(** Inversion of a successful run: splits binds and lookups. *)
Ltac inv_ok H :=
  repeat match type of H with
  | bind ?m ?k = Ok _ =>
      let a := fresh "a" in
      let Ha := fresh "Hm" in
      apply bind_Ok in H; destruct H as (a & Ha & H)
  | (let (_, _) := ?p in _) = Ok _ => is_var p; destruct p
  | (match ?p with pair _ _ => _ end) = Ok _ => is_var p; destruct p
  end.

Ltac destr_in H :=
  match type of H with
  | context [match ?x with _ => _ end] =>
      let E := fresh "E" in destruct x eqn:E
  end.

Lemma foldM_app {A S : Type} (f : S -> A -> result S) (s : S) (l1 l2 : list A) :
  foldM f s (l1 ++ l2) = bind (foldM f s l1) (fun s' => foldM f s' l2).
Proof.
  revert s. induction l1 as [|x l1 IH]; intros s; simpl; [reflexivity|].
  destruct (f s x); simpl; auto.
Qed.

(** An invariant of the steps of a successful [foldM] holds at its end. *)
Lemma foldM_invariant {A S : Type} (P : S -> Prop) (f : S -> A -> result S)
    (l : list A) (s s' : S) :
  (forall s0 x s1, x ∈ l -> P s0 -> f s0 x = Ok s1 -> P s1) ->
  P s -> foldM f s l = Ok s' -> P s'.
Proof.
  revert s. induction l as [|x l IH]; simpl; intros s Hstep Hs H.
  - congruence.
  - apply bind_Ok in H as (s1 & H1 & H2).
    eapply IH; [| |exact H2].
    + intros; eapply Hstep; eauto. by right.
    + eapply Hstep; eauto. by left.
Qed.

Lemma mapM_length {A B : Type} (f : A -> result B) (l : list A) (l' : list B) :
  mapM f l = Ok l' -> length l' = length l.
Proof.
  revert l'. induction l as [|x l IH]; simpl; intros l' H.
  - by inversion H.
  - apply bind_Ok in H as (y & _ & H). apply bind_Ok in H as (ys & Hys & H).
    inversion H; subst; simpl. f_equal; auto.
Qed.

(** ** Lookups after updates *)

Lemma lookup_update_inst (f : IRFunction) (i j : inst_ref)
    (g : IRInstruction -> IRInstruction) :
  insts (update_inst f i g) !! j
  = if decide (i = j) then g <$> insts f !! j else insts f !! j.
Proof.
  unfold update_inst; simpl. destruct (decide (i = j)) as [->|Hne].
  - by rewrite lookup_alter_eq.
  - by rewrite lookup_alter_ne.
Qed.

Lemma blks_update_inst f i g : blks (update_inst f i g) = blks f.
Proof. reflexivity. Qed.

Lemma blocks_update_inst f i g : blocks (update_inst f i g) = blocks f.
Proof. reflexivity. Qed.

Lemma lookup_update_block (f : IRFunction) (b c : block_ref) (g : IRBlock -> IRBlock) :
  blks (update_block f b g) !! c
  = if decide (b = c) then g <$> blks f !! c else blks f !! c.
Proof.
  unfold update_block; simpl. destruct (decide (b = c)) as [->|Hne].
  - by rewrite lookup_alter_eq.
  - by rewrite lookup_alter_ne.
Qed.

Lemma insts_update_block f b g : insts (update_block f b g) = insts f.
Proof. reflexivity. Qed.

Lemma blocks_update_block f b g : blocks (update_block f b g) = blocks f.
Proof. reflexivity. Qed.

(** ** The decision of the driving pass *)

Lemma get_func_Some ctx fr f : funcs ctx !! fr = Some f -> get_func ctx fr = Ok f.
Proof. unfold get_func. by intros ->. Qed.

Lemma get_inst_Some f i r : insts f !! i = Some r -> get_inst f i = Ok r.
Proof. unfold get_inst. by intros ->. Qed.

Lemma get_block_Some f b blk : blks f !! b = Some blk -> get_block f b = Ok blk.
Proof. unfold get_block. by intros ->. Qed.

(** [ir_inline_call] only answers [false] on the path of lines 78-91:
    the walk through the ancestors of the call has met its callee. *)
Lemma ir_inline_call_false ctx ictx fr inst ctx' ictx' :
  ir_inline_call ctx ictx fr inst = Ok (ctx', ictx', false) ->
  exists i e j g c n callee_ref args tail,
    funcs ctx !! fr = Some g /\ insts g !! inst = Some c /\
    data c = Call n (callee_function callee_ref) args tail /\
    history_find (history ictx) inst 0 None = Some i /\
    history ictx !! i = Some e /\ inlined_via e = Some j /\
    history_walk (length (history ictx)) (history ictx) j callee_ref = Ok true.
Proof.
  unfold ir_inline_call. intros H.
  apply bind_Ok in H as (g & Hg & H). apply of_option_Ok in Hg.
  apply bind_Ok in H as (c & Hc & H). apply of_option_Ok in Hc.
  destruct (data c) as [| | | | |n [callee_ref|] args tail| | | | | |] eqn:Hd;
    try discriminate.
  destruct (decide (callee_ref = fr)); [discriminate|].
  apply bind_Ok in H as (F & HF & H).
  apply bind_Ok in H as (count & Hcount & H).
  destruct (decide (count = 0)).
  { destruct (users c); [|discriminate].
    apply bind_Ok in H as (g' & _ & H). inversion H. }
  destruct (history_find (history ictx) inst 0 None) as [i|] eqn:Hfind.
  - apply bind_Ok in H as (e & He & H). apply of_option_Ok in He.
    destruct (inlined_via e) as [j|] eqn:Hvia; [|discriminate].
    apply bind_Ok in H as (cycle & Hwalk & H).
    destruct cycle.
    + exists i, e, j, g, c, n, callee_ref, args, tail. by repeat split.
    + unfold transplant in H. inv_ok H. inversion H.
  - unfold transplant in H. inv_ok H. inversion H.
Qed.

(** C1 (as amended).  A direct call to a callee that is not extern and
    is not the function containing the call, and that is not recorded
    as not-inlinable, is passed to [ir_inline_call] if the callee is
    [forceinline] or the threshold is 0, and otherwise exactly when the
    threshold is at least the number of instructions of the callee,
    parameters excluded; [ir_inline_call] then refuses only when the walk
    through the history meets the callee.  A call of the function to
    itself is never passed to [ir_inline_call], whatever the threshold
    and the attributes are, and the scan goes on behind it whenever the
    instructions of the function can be counted.  Indirect calls and
    calls to extern functions are never passed. *)
Theorem inline_decision :
  forall ctx ictx res fr inst f r n c args tail,
    funcs ctx !! fr = Some f ->
    insts f !! inst = Some r ->
    kind r = IR_CALL ->
    data r = Call n c args tail ->
    (forall callee_ref callee_f,
        c = callee_function callee_ref ->
        funcs ctx !! callee_ref = Some callee_f ->
        is_extern callee_f = false ->
        inst ∉ not_inlinable ictx ->
        callee_ref <> fr ->
        (attr_forceinline callee_f = true \/ threshold ictx = 0%Z ->
         consider_instruction ctx ictx res fr inst = Ok (ctx, ictx, res, true)) /\
        (forall count,
            attr_forceinline callee_f = false -> threshold ictx <> 0%Z ->
            instruction_count callee_f false = Ok count ->
            consider_instruction ctx ictx res fr inst
            = Ok (ctx, ictx, res, bool_decide (threshold ictx >= Z.of_nat count)%Z)) /\
        (forall ctx' ictx',
            ir_inline_call ctx ictx fr inst = Ok (ctx', ictx', false) ->
            exists i e j,
              history_find (history ictx) inst 0 None = Some i /\
              history ictx !! i = Some e /\ inlined_via e = Some j /\
              history_walk (length (history ictx)) (history ictx) j callee_ref = Ok true)) /\
    (c = callee_function fr ->
     (forall s, consider_instruction ctx ictx res fr inst <> Ok (s, true)) /\
     (forall requested, inline_requested ictx f = Ok requested ->
        exists s, consider_instruction ctx ictx res fr inst = Ok (s, false))) /\
    (forall i, c = callee_instruction i ->
               consider_instruction ctx ictx res fr inst = Ok (ctx, ictx, res, false)) /\
    (forall callee_ref callee_f,
        c = callee_function callee_ref ->
        funcs ctx !! callee_ref = Some callee_f ->
        is_extern callee_f = true ->
        consider_instruction ctx ictx res fr inst = Ok (ctx, ictx, res, false)).
Proof.
  intros ctx ictx res fr inst f r n c args tail Hf Hr Hk Hd.
  assert (Hstart : forall k,
             (do f0 <- get_func ctx fr; do r0 <- get_inst f0 inst; k f0 r0)
             = k f r :> result (CodegenContext * InlineContext * inline_result * bool)).
  { intros k. rewrite (get_func_Some _ _ _ Hf). simpl.
    rewrite (get_inst_Some _ _ _ Hr). reflexivity. }
  split; [|split; [|split]].
  - intros callee_ref callee_f -> Hcallee Hext Hnot Hne.
    assert (Hhead : forall requested,
               inline_requested ictx callee_f = Ok requested ->
               consider_instruction ctx ictx res fr inst = Ok (ctx, ictx, res, requested)).
    { intros requested Hreq. unfold consider_instruction. rewrite Hstart.
      destruct (decide (kind r <> IR_CALL)) as [Hn|_]; [congruence|].
      rewrite Hd, (get_func_Some _ _ _ Hcallee). simpl. rewrite Hext.
      destruct (decide (inst ∈ not_inlinable ictx)); [contradiction|].
      rewrite Hreq. simpl. destruct requested; [|reflexivity].
      destruct (decide (fr = callee_ref)); [congruence|reflexivity]. }
    split; [|split].
    + intros Hmust. apply Hhead. unfold inline_requested, must_inline.
      destruct Hmust as [-> | ->]; [reflexivity|].
      by rewrite orb_true_r.
    + intros count Hforce Ht Hcount. apply Hhead.
      unfold inline_requested, must_inline. rewrite Hforce. simpl.
      destruct (Z.eqb_spec (threshold ictx) 0); [contradiction|].
      rewrite Hcount. simpl. f_equal.
      destruct (Z.geb_spec (threshold ictx) (Z.of_nat count)).
      * symmetry. apply bool_decide_eq_true. lia.
      * symmetry. apply bool_decide_eq_false. lia.
    + intros ctx' ictx' Hcall.
      destruct (ir_inline_call_false _ _ _ _ _ _ Hcall)
        as (i & e & j & g & c' & n' & cr & args' & tail' & Hg & Hc & Hd' & Hfind & He & Hvia & Hwalk).
      assert (g = f) by congruence. subst g.
      assert (c' = r) by congruence. subst c'.
      assert (cr = callee_ref) by congruence. subst cr.
      eauto 10.
  - intros ->.
    assert (Hself : forall t, exists s,
               self_recursive_call ctx ictx res fr f inst t = Ok s).
    { intros t. unfold self_recursive_call, opt_try_convert_to_tail_call.
      rewrite (get_inst_Some _ _ _ Hr). simpl.
      destruct t; [eauto|]. destruct (must_inline ictx f); [|eauto].
      destruct (_ || _); eauto. }
    unfold consider_instruction. rewrite Hstart.
    destruct (decide (kind r <> IR_CALL)) as [Hn|_]; [congruence|].
    rewrite Hd, (get_func_Some _ _ _ Hf). simpl.
    destruct (is_extern f); [split; [discriminate|eauto]|].
    destruct (decide (inst ∈ not_inlinable ictx)); [split; [discriminate|eauto]|].
    destruct (decide (fr = fr)) as [_|Hne]; [|contradiction].
    destruct (Hself tail) as [s0 Hs0]. split.
    + intros s. destruct (inline_requested ictx f) as [[|]| |]; simpl;
        [rewrite Hs0; simpl|..]; discriminate.
    + intros requested ->. simpl. destruct requested; [|eauto].
      rewrite Hs0. simpl. eauto.
  - intros i ->. unfold consider_instruction. rewrite Hstart.
    destruct (decide (kind r <> IR_CALL)) as [Hn|_]; [congruence|].
    by rewrite Hd.
  - intros callee_ref callee_f -> Hcallee Hext. unfold consider_instruction.
    rewrite Hstart.
    destruct (decide (kind r <> IR_CALL)) as [Hn|_]; [congruence|].
    rewrite Hd, (get_func_Some _ _ _ Hcallee). simpl. by rewrite Hext.
Qed.

Lemma inline_decision_witness :
  consider_instruction MultiReturn.ctx MultiReturn.ictx (mkResult false false) 2 21
  = Ok (MultiReturn.ctx, MultiReturn.ictx, mkResult false false, true).
Proof.
  refine (proj1 (proj1 (inline_decision MultiReturn.ctx MultiReturn.ictx
                   (mkResult false false) 2 21 MultiReturn.g
                   (inst IR_CALL (Call 0 (callee_function 1) [20] false) 200 [22])
                   0 (callee_function 1) [20] false _ _ _ _)
                   1 MultiReturn.f _ _ _ _ _) _).
  - reflexivity.
  - reflexivity.
  - reflexivity.
  - reflexivity.
  - reflexivity.
  - reflexivity.
  - reflexivity.
  - simpl. apply not_elem_of_nil.
  - lia.
  - right. reflexivity.
Defined.

(** C1, counterexample: with threshold 0 the pass must inline every
    direct call to a function that is not extern, yet the call of the
    function [f] to itself is still there when the pass ends, and the
    pass reports no change. *)
Lemma forced_call_not_inlined :
  is_extern TailRecursion.f = false /\
  must_inline TailRecursion.ictx TailRecursion.f = true /\
  consider_instruction TailRecursion.ctx TailRecursion.ictx (mkResult false false) 1 10
  = Ok (TailRecursion.ctx, TailRecursion.ictx, mkResult false false, false) /\
  run_inliner 1 TailRecursion.ctx 0 true
  = Ok (TailRecursion.ctx, mkResult false false).
Proof. repeat split; vm_compute; reflexivity. Qed.




(** ** The return block of a callee with several returns *)

(** C4, evaluated on the multi-return scenario of the specification.
    Inlining [Call f(0)] into [g] allocates the blocks 1006 and 1007 as
    the copies of the blocks 101 and 102 of [f], the return block 1008
    and the PHI 1009.  Both inlined returns are branches to 1008, and the
    remaining use of the call names the PHI; but the PHI names the blocks
    101 and 102 of the callee, which are no blocks of [g], instead of
    their copies, and the return block is not among the blocks reached
    from the first block of [g]. *)
Theorem multi_return_phi_names_callee_blocks :
  exists ctx' ictx' g',
    ir_inline_call MultiReturn.ctx MultiReturn.ictx 2 21 = Ok (ctx', ictx', true) /\
    funcs ctx' !! 2 = Some g' /\
    blocks g' = [200; 1006; 1007] /\
    (instructions <$> blks g' !! 1006) = Some [1001; 1002] /\
    (instructions <$> blks g' !! 1007) = Some [1003; 1004] /\
    (instructions <$> blks g' !! 1008) = Some [1009; 22] /\
    (data <$> insts g' !! 1002) = Some (Branch 1008) /\
    (data <$> insts g' !! 1004) = Some (Branch 1008) /\
    (data <$> insts g' !! 22) = Some (Operand (Some 1009)) /\
    (kind <$> insts g' !! 1009) = Some IR_PHI /\
    (data <$> insts g' !! 1009) = Some (Phi [(101, 1001); (102, 1003)]) /\
    blks g' !! 101 = None /\ blks g' !! 102 = None /\
    101 ∈ blocks MultiReturn.f /\ 102 ∈ blocks MultiReturn.f /\
    1008 ∉ blocks g'.
Proof.
  destruct (ir_inline_call MultiReturn.ctx MultiReturn.ictx 2 21)
    as [[[ctx' ictx'] b]| |] eqn:E; vm_compute in E; try discriminate.
  injection E as <- <- <-.
  eexists _, _, _. split; [reflexivity|]. split; [vm_compute; reflexivity|].
  repeat split; try (vm_compute; reflexivity).
  - apply list_elem_of_In; simpl; tauto.
  - apply list_elem_of_In; simpl; tauto.
  - intros H%list_elem_of_In. simpl in H. intuition discriminate.
Qed.

(** ** Cycles in the history *)


Lemma reaches_head h f j p : reaches h f j p -> exists p', p = j :: p'.
Proof. destruct 1; eauto. Qed.








(** ** What one step of the scan can do *)

Lemma opt_try_convert_to_tail_call_inv f inst f' b :
  opt_try_convert_to_tail_call f inst = Ok (f', b) ->
  (b = true /\ f' = update_inst f inst set_tail_call) \/ (b = false /\ f' = f).
Proof.
  unfold opt_try_convert_to_tail_call. intros H.
  apply bind_Ok in H as (r & _ & H).
  destruct (_ || _) in H; inversion H; auto.
Qed.

Lemma consider_instruction_inv ctx ictx res fr inst s go :
  consider_instruction ctx ictx res fr inst = Ok (s, go) ->
  exists f r,
    funcs ctx !! fr = Some f /\ insts f !! inst = Some r /\
    ((go = false /\ s = (ctx, ictx, res)) \/
     (go = false /\
      exists n args,
        kind r = IR_CALL /\ data r = Call n (callee_function fr) args false /\
        (inst ∉ not_inlinable ictx) /\ must_inline ictx f = true /\
        ((opt_try_convert_to_tail_call f inst = Ok (update_inst f inst set_tail_call, true) /\
          s = (set_func ctx fr (update_inst f inst set_tail_call), ictx, res)) \/
         (opt_try_convert_to_tail_call f inst = Ok (f, false) /\
          s = (if may_fail ictx then ctx
               else issue_diagnostic ctx non_tail_recursive_diagnostic,
               with_not_inlinable ictx (not_inlinable ictx ++ [inst]),
               set_failed res)))) \/
     (go = true /\ s = (ctx, ictx, res) /\
      exists n callee_ref args tail callee_f,
        kind r = IR_CALL /\ data r = Call n (callee_function callee_ref) args tail /\
        callee_ref <> fr /\ funcs ctx !! callee_ref = Some callee_f /\
        is_extern callee_f = false /\ (inst ∉ not_inlinable ictx) /\
        inline_requested ictx callee_f = Ok true)).
Proof.
  unfold consider_instruction. intros H.
  apply bind_Ok in H as (f & Hf & H). apply of_option_Ok in Hf.
  apply bind_Ok in H as (r & Hr & H). apply of_option_Ok in Hr.
  exists f, r. split; [done|]. split; [done|].
  destruct (decide (kind r <> IR_CALL)) as [|Hk%dec_stable].
  { inversion H; auto. }
  destruct (data r) as [| | | | |n [callee_ref|] args tail| | | | | |] eqn:Hd;
    try discriminate; [|inversion H; auto].
  apply bind_Ok in H as (callee_f & Hcallee & H). apply of_option_Ok in Hcallee.
  destruct (is_extern callee_f) eqn:Hext; [inversion H; auto|].
  destruct (decide (inst ∈ not_inlinable ictx)) as [|Hnot]; [inversion H; auto|].
  apply bind_Ok in H as (requested & Hreq & H).
  destruct requested; [|inversion H; auto].
  destruct (decide (fr = callee_ref)) as [<-|Hne].
  - assert (callee_f = f) by congruence. subst callee_f.
    apply bind_Ok in H as (s' & Hself & H). inversion H; subst s' go. clear H.
    unfold self_recursive_call in Hself.
    destruct tail; [inversion Hself; auto|].
    destruct (must_inline ictx f) eqn:Hmust; [|inversion Hself; auto].
    apply bind_Ok in Hself as ([f' converted] & Hconv & Hself).
    right; left. split; [done|]. exists n, args.
    do 4 (split; [done|]).
    destruct (opt_try_convert_to_tail_call_inv _ _ _ _ Hconv) as [[-> ->]|[-> ->]];
      inversion Hself; subst; auto.
  - inversion H; subst. right; right. repeat split; try done.
    exists n, callee_ref, args, tail, callee_f. repeat split; try done.
Qed.


Lemma ictx_extends_refl ictx : ictx_extends ictx ictx.
Proof. repeat split. exists []. by rewrite app_nil_r. Qed.

Lemma ictx_extends_trans a b c : ictx_extends a b -> ictx_extends b c -> ictx_extends a c.
Proof.
  intros (H1 & H2 & H3 & l & H4) (H1' & H2' & H3' & l' & H4').
  repeat split; try congruence. exists (l ++ l'). rewrite H4', H4. by rewrite app_assoc.
Qed.

Lemma consider_instruction_extends ctx ictx res fr inst s go :
  consider_instruction ctx ictx res fr inst = Ok (s, go) -> ictx_extends ictx s.1.2.
Proof.
  intros H.
  destruct (consider_instruction_inv _ _ _ _ _ _ _ H) as (f & r & _ & _ & Hcases).
  destruct Hcases as [[_ ->]|[(_ & n & args & _ & _ & _ & _ & [[_ ->]|[_ ->]])|(_ & -> & _)]];
    simpl; try apply ictx_extends_refl.
  repeat split. by exists [inst].
Qed.

Lemma scan_instructions_extends ctx ictx res fr l s found :
  scan_instructions ctx ictx res fr l = Ok (s, found) -> ictx_extends ictx s.1.2.
Proof.
  revert ctx ictx res. induction l as [|i l IH]; simpl; intros ctx ictx res H.
  - inversion H. apply ictx_extends_refl.
  - apply bind_Ok in H as ([s1 go] & H1 & H).
    pose proof (consider_instruction_extends _ _ _ _ _ _ _ H1) as E1.
    destruct go.
    + by inversion H; subst.
    + eapply ictx_extends_trans; [exact E1|]. by eapply IH.
Qed.

Lemma scan_blocks_extends ctx ictx res fr bs s found :
  scan_blocks ctx ictx res fr bs = Ok (s, found) -> ictx_extends ictx s.1.2.
Proof.
  revert ctx ictx res. induction bs as [|b bs IH]; simpl; intros ctx ictx res H.
  - inversion H. apply ictx_extends_refl.
  - apply bind_Ok in H as (f & _ & H). apply bind_Ok in H as (blk & _ & H).
    apply bind_Ok in H as ([s1 o] & H1 & H).
    pose proof (scan_instructions_extends _ _ _ _ _ _ _ H1) as E1.
    destruct o.
    + by inversion H; subst.
    + eapply ictx_extends_trans; [exact E1|]. by eapply IH.
Qed.

Lemma transplant_context ctx ictx fr g call_ref c callee_ref F args tail count hist i
    ctx' ictx' b :
  transplant ctx ictx fr g call_ref c callee_ref F args tail count hist i
  = Ok (ctx', ictx', b) ->
  b = true /\ not_inlinable ictx' = not_inlinable ictx /\
  threshold ictx' = threshold ictx /\ may_fail ictx' = may_fail ictx /\
  functions ctx' = functions ctx /\ diagnostics ctx' = diagnostics ctx.
Proof.
  unfold transplant. intros H. inv_ok H. inversion H; subst. by repeat split.
Qed.

Lemma ir_inline_call_context ctx ictx fr inst ctx' ictx' b :
  ir_inline_call ctx ictx fr inst = Ok (ctx', ictx', b) ->
  not_inlinable ictx' = not_inlinable ictx /\
  threshold ictx' = threshold ictx /\ may_fail ictx' = may_fail ictx /\
  functions ctx' = functions ctx.
Proof.
  unfold ir_inline_call. intros H.
  apply bind_Ok in H as (g & Hg & H). apply bind_Ok in H as (c & Hc & H).
  destruct (data c) as [| | | | |n [callee_ref|] args tail| | | | | |]; try discriminate.
  destruct (decide (callee_ref = fr)); [discriminate|].
  apply bind_Ok in H as (F & HF & H). apply bind_Ok in H as (count & Hcount & H).
  destruct (decide (count = 0)).
  { destruct (users c); [|discriminate].
    apply bind_Ok in H as (g' & _ & H). by inversion H. }
  destruct (history_find (history ictx) inst 0 None) as [i|].
  - apply bind_Ok in H as (e & He & H).
    destruct (inlined_via e) as [j|]; [|discriminate].
    apply bind_Ok in H as (cycle & Hwalk & H). destruct cycle.
    + inversion H; subst. by destruct (may_fail ictx').
    + apply transplant_context in H. tauto.
  - apply transplant_context in H. tauto.
Qed.




(** ** The numbering of the callee changes nothing but [id] fields *)

Lemma same_but_ids_refl F : same_but_ids F F.
Proof. by repeat split. Qed.

Lemma same_but_ids_trans F1 F2 F3 :
  same_but_ids F1 F2 -> same_but_ids F2 F3 -> same_but_ids F1 F3.
Proof.
  intros (?&?&?&?&?&Hi&Hb&?) (?&?&?&?&?&Hi'&Hb'&?).
  repeat split; try congruence.
Qed.

Lemma same_but_ids_set_id F i n : same_but_ids F (update_inst F i (set_id n)).
Proof.
  repeat split; try done. intros h. rewrite lookup_update_inst.
  destruct (decide (i = h)) as [->|]; [|done].
  by destruct (insts F !! h).
Qed.

Lemma same_but_ids_set_block_id F b n : same_but_ids F (update_block F b (set_block_id n)).
Proof.
  repeat split; try done. intros h. rewrite lookup_update_block.
  destruct (decide (b = h)) as [->|]; [|done].
  by destruct (blks F !! h).
Qed.

Lemma same_but_ids_inst F F' h r' :
  same_but_ids F F' -> insts F' !! h = Some r' ->
  exists r, insts F !! h = Some r /\ r = set_id (id r) r'.
Proof.
  intros (_&_&_&_&_&Hi&_) Hr'. specialize (Hi h). rewrite Hr' in Hi.
  destruct (insts F !! h) as [r|]; [|discriminate].
  exists r. split; [done|]. simpl in Hi. inversion Hi.
  destruct r, r'; unfold set_id in *; simpl in *. congruence.
Qed.

Lemma same_but_ids_inst_rev F F' h r :
  same_but_ids F F' -> insts F !! h = Some r ->
  exists r', insts F' !! h = Some r' /\ r = set_id (id r) r'.
Proof.
  intros (_&_&_&_&_&Hi&_) Hr. specialize (Hi h). rewrite Hr in Hi.
  destruct (insts F' !! h) as [r'|]; [|discriminate].
  exists r'. split; [done|]. simpl in Hi. inversion Hi.
  destruct r, r'; unfold set_id in *; simpl in *. congruence.
Qed.

Lemma same_but_ids_block F F' b blk' :
  same_but_ids F F' -> blks F' !! b = Some blk' ->
  exists blk, blks F !! b = Some blk /\ instructions blk = instructions blk'.
Proof.
  intros (_&_&_&_&_&_&Hb&_) Hblk'. specialize (Hb b). rewrite Hblk' in Hb.
  destruct (blks F !! b) as [blk|]; [|discriminate].
  exists blk. split; [done|]. simpl in Hb. inversion Hb. done.
Qed.

Lemma same_but_ids_block_last F F' b blk blk' :
  same_but_ids F F' -> blks F !! b = Some blk -> blks F' !! b = Some blk' ->
  instructions blk' = instructions blk /\
  instructions_last blk' = instructions_last blk.
Proof.
  intros (_&_&_&_&_&_&Hb&_) Hblk Hblk'. specialize (Hb b).
  rewrite Hblk, Hblk' in Hb. simpl in Hb. inversion Hb. done.
Qed.

Lemma same_but_ids_block_rev F F' b blk :
  same_but_ids F F' -> blks F !! b = Some blk ->
  exists blk', blks F' !! b = Some blk' /\ instructions blk' = instructions blk.
Proof.
  intros (_&_&_&_&_&_&Hb&_) Hblk. specialize (Hb b). rewrite Hblk in Hb.
  destruct (blks F' !! b) as [blk'|]; [|discriminate].
  exists blk'. split; [done|]. simpl in Hb. inversion Hb. done.
Qed.

Lemma enumerate_instructions_same F n l F' n' :
  enumerate_instructions F n l = Ok (F', n') -> same_but_ids F F'.
Proof.
  revert F n. induction l as [|i l IH]; simpl; intros F n H.
  - inversion H. apply same_but_ids_refl.
  - apply bind_Ok in H as (r & _ & H).
    destruct (decide (kind r = IR_PARAMETER)); [by eapply IH|].
    eapply same_but_ids_trans; [apply (same_but_ids_set_id F i n)|by eapply IH].
Qed.

Lemma enumerate_blocks_same F bid n bs F' :
  enumerate_blocks F bid n bs = Ok F' -> same_but_ids F F'.
Proof.
  revert F bid n. induction bs as [|b bs IH]; simpl; intros F bid n H.
  - inversion H. apply same_but_ids_refl.
  - apply bind_Ok in H as (blk & _ & H).
    apply bind_Ok in H as ([F1 n1] & H1 & H).
    eapply same_but_ids_trans; [apply (same_but_ids_set_block_id F b bid)|].
    eapply same_but_ids_trans; [by eapply enumerate_instructions_same|by eapply IH].
Qed.

Lemma map_parameters_same F table args count psize param ps F' table' :
  map_parameters F table args count psize param ps = Ok (F', table') ->
  same_but_ids F F' /\ length table' = length table.
Proof.
  revert F table param. induction ps as [|p ps IH]; simpl; intros F table param H.
  - inversion H. split; [apply same_but_ids_refl|done].
  - apply bind_Ok in H as (r & _ & H). apply bind_Ok in H as (a & _ & H).
    destruct (decide _); [|discriminate].
    apply IH in H as [Hs Hl]. split.
    + eapply same_but_ids_trans; [apply same_but_ids_set_id|exact Hs].
    + by rewrite Hl, length_insert.
Qed.

Lemma same_but_ids_kind F F' h r r' :
  same_but_ids F F' -> insts F !! h = Some r -> insts F' !! h = Some r' ->
  kind r' = kind r /\ data r' = data r /\ users r' = users r /\
  parent_block r' = parent_block r /\ type r' = type r /\
  backend_flags r' = backend_flags r.
Proof.
  intros Hs Hr Hr'. destruct (same_but_ids_inst _ _ _ _ Hs Hr') as (r0 & Hr0 & Heq).
  assert (r0 = r) by congruence. subst r0. rewrite Heq. by destruct r'.
Qed.

(** ** Updates that only touch users sets *)

Lemma users_only_refl f : users_only f f.
Proof. by repeat split. Qed.

Lemma users_only_trans f1 f2 f3 : users_only f1 f2 -> users_only f2 f3 -> users_only f1 f3.
Proof.
  intros (?&?&H) (?&?&H'). repeat split; congruence.
Qed.

Lemma users_only_update f i (g : IRInstruction -> IRInstruction) :
  (forall r, core (g r) = core r) -> users_only f (update_inst f i g).
Proof.
  intros Hg. repeat split; try done. intros h. rewrite lookup_update_inst.
  destruct (decide (i = h)) as [->|]; [|done].
  destruct (insts f !! h); simpl; [|done]. by rewrite Hg.
Qed.

Lemma users_only_mark_used f a b : users_only f (mark_used f a b).
Proof. apply users_only_update. intros r. by destruct (decide _). Qed.

Lemma users_only_ir_remove_use f a b : users_only f (ir_remove_use f a b).
Proof. by apply users_only_update. Qed.

Lemma users_only_foldl {A} (step : IRFunction -> A -> IRFunction) (l : list A) f :
  (forall f0 x, users_only f0 (step f0 x)) -> users_only f (foldl step f l).
Proof.
  intros Hstep. revert f. induction l as [|x l IH]; simpl; intros f.
  - apply users_only_refl.
  - eapply users_only_trans; [apply Hstep|apply IH].
Qed.

Lemma users_only_ir_unmark_usees f i : users_only f (ir_unmark_usees f i).
Proof.
  unfold ir_unmark_usees. destruct (insts f !! i); [|apply users_only_refl].
  apply users_only_foldl. intros. apply users_only_ir_remove_use.
Qed.

Lemma users_only_foldM {A} (step : IRFunction -> A -> result IRFunction) (l : list A) f f' :
  (forall f0 x f1, step f0 x = Ok f1 -> users_only f0 f1) ->
  foldM step f l = Ok f' -> users_only f f'.
Proof.
  intros Hstep. revert f. induction l as [|x l IH]; simpl; intros f H.
  - inversion H. apply users_only_refl.
  - apply bind_Ok in H as (f1 & H1 & H).
    eapply users_only_trans; [by eapply Hstep|by apply IH].
Qed.

Lemma users_only_fix_up_uses F table g g' :
  fix_up_uses F table g = Ok g' -> users_only g g'.
Proof.
  unfold fix_up_uses. intros H. apply bind_Ok in H as (l & _ & H).
  eapply users_only_foldM; [|exact H].
  intros f0 p f1 H1. apply bind_Ok in H1 as (r & _ & H1).
  apply bind_Ok in H1 as (copy & _ & H1).
  eapply users_only_foldM; [|exact H1].
  intros f2 u f3 H3. apply bind_Ok in H3 as (mu & _ & H3). inversion H3.
  apply users_only_mark_used.
Qed.

Lemma users_only_lookup f f' h r' :
  users_only f f' -> insts f' !! h = Some r' ->
  exists r, insts f !! h = Some r /\ core r' = core r.
Proof.
  intros (_&_&H) Hr'. specialize (H h). rewrite Hr' in H.
  destruct (insts f !! h) as [r|]; [|simpl in H; discriminate].
  exists r. split; [done|]. simpl in H. congruence.
Qed.

Lemma users_only_lookup_rev f f' h r :
  users_only f f' -> insts f !! h = Some r ->
  exists r', insts f' !! h = Some r' /\ core r' = core r.
Proof.
  intros (_&_&H) Hr. specialize (H h). rewrite Hr in H.
  destruct (insts f' !! h) as [r'|]; [|simpl in H; discriminate].
  exists r'. split; [done|]. simpl in H. congruence.
Qed.

Lemma users_only_lookup_None f f' h :
  users_only f f' -> insts f !! h = None -> insts f' !! h = None.
Proof.
  intros (_&_&H) Hr. specialize (H h). rewrite Hr in H.
  destruct (insts f' !! h); [simpl in H; discriminate|done].
Qed.

(** ** Removal of an instruction *)

Lemma ir_remove_lookup f i f' :
  ir_remove f i = Ok f' ->
  insts f' !! i = None /\
  (forall h, h <> i -> core <$> insts f' !! h = core <$> insts f !! h) /\
  blocks f' = blocks f /\
  (forall b, exists l, instructions <$> blks f' !! b = l /\
     match blks f !! b with
     | Some blk => l = Some (instructions blk) \/
                   l = Some (filter (fun x => x <> i) (instructions blk))
     | None => l = None
     end).
Proof.
  unfold ir_remove. intros H. apply bind_Ok in H as (r & Hr & H).
  destruct (users r); [|discriminate]. inversion H; subst f'; clear H.
  pose proof (users_only_ir_unmark_usees f i) as (Hb & Hbs & Hc).
  set (f1 := ir_unmark_usees f i) in *.
  split; [|split; [|split]].
  - simpl. destruct (parent_block r); simpl; apply lookup_delete_eq.
  - intros h Hh. simpl.
    destruct (parent_block r); simpl; rewrite lookup_delete_ne by done; apply Hc.
  - by destruct (parent_block r).
  - intros b. eexists. split; [reflexivity|].
    destruct (parent_block r) as [pb|]; simpl.
    + rewrite lookup_alter. rewrite Hb.
      destruct (decide (pb = b)) as [->|]; destruct (blks f !! b); simpl; auto.
    + rewrite Hb. destruct (blks f !! b); auto.
Qed.

(** ** One iteration of the copy loop *)

Lemma ir_force_insert_into_block_inv f b i f' :
  ir_force_insert_into_block f b i = Ok f' ->
  exists r blk,
    insts f !! i = Some r /\ parent_block r = None /\ blks f !! b = Some blk /\
    f' = update_block (update_inst f i (set_parent_block (Some b))) b
           (fun blk' => set_instructions_last (Some i)
                          (set_instructions (instructions blk ++ [i]) blk')).
Proof.
  unfold ir_force_insert_into_block. intros H.
  apply bind_Ok in H as (r & Hr%of_option_Ok & H).
  apply bind_Ok in H as (blk & Hblk%of_option_Ok & H).
  destruct (parent_block r) eqn:Hp; [discriminate|]. inversion H.
  by exists r, blk.
Qed.

Lemma ir_insert_into_block_inv f b i f' :
  ir_insert_into_block f b i = Ok f' -> ir_force_insert_into_block f b i = Ok f'.
Proof.
  unfold ir_insert_into_block. intros H. apply bind_Ok in H as (blk & _ & H).
  by destruct (ir_is_closed f blk).
Qed.

Lemma copy_instruction_inv F bvec call_ref tail idx b blk cs ih cs' :
  copy_instruction F bvec call_ref tail idx b blk cs ih = Ok cs' ->
  exists inst,
    insts F !! ih = Some inst /\
    ((kind inst = IR_PARAMETER /\ cs' = cs) \/
     (kind inst <> IR_PARAMETER /\
      exists copy rc,
        cs_table cs !! id inst = Some copy /\
        insts (cs_caller cs) !! copy = Some rc /\
        copy_outcome F bvec call_ref tail idx b blk cs ih inst copy cs')).
Proof.
  unfold copy_instruction. intros H.
  apply bind_Ok in H as (inst & Hinst%of_option_Ok & H).
  exists inst. split; [done|].
  destruct (decide (kind inst = IR_PARAMETER)) as [Hk|Hk]; [left; by inversion H|].
  right. split; [done|].
  apply bind_Ok in H as (copy & Hcopy & H).
  unfold MAP in Hcopy. rewrite (get_inst_Some _ _ _ Hinst) in Hcopy. simpl in Hcopy.
  apply of_option_Ok in Hcopy.
  apply bind_Ok in H as (rc & Hrc%of_option_Ok & H).
  exists copy, rc. split; [done|]. split; [done|].
  apply bind_Ok in H as ([cs1 insert] & Hsw & H).
  fold (copy_common inst) in Hsw.
  assert (Hplain : classify (kind inst) <> KReturn ->
            (do d <- copy_data F (cs_table cs) bvec (kind inst) (data inst);
             Ok (mkCopyState
                   (update_inst (update_inst (cs_caller cs) copy (copy_common inst))
                      copy (set_data d))
                   (cs_table cs) (cs_return_value cs) (cs_return_block cs)
                   (record_origin inst copy idx (cs_history cs)) (cs_fresh cs), true))
            = Ok (cs1, insert) ->
            copy_outcome F bvec call_ref tail idx b blk cs ih inst copy cs').
  { intros Hncl Hsw'. apply bind_Ok in Hsw' as (d & Hd & Hsw').
    inversion Hsw'; subst cs1 insert; clear Hsw'. cbv beta iota in H.
    apply bind_Ok in H as (dest & Hdest & H). apply bind_Ok in H as (g2 & Hg2 & H).
    inversion H; subst cs'; clear H. by eapply copied_plain. }
  destruct (classify (kind inst)) eqn:Hcl; try (apply Hplain; [discriminate|exact Hsw]).
  clear Hplain.
  (* KReturn *)
  unfold copy_return in Hsw.
  destruct (data inst) as [| | | | | |o| | | | |] eqn:Hd; try discriminate.
  destruct tail.
  - destruct o as [v|]; [|discriminate].
    apply bind_Ok in Hsw as (v' & Hv' & Hsw). inversion Hsw; subst cs1 insert; clear Hsw.
    cbv beta iota in H.
    apply bind_Ok in H as (dest & Hdest & H). apply bind_Ok in H as (g2 & Hg2 & H).
    inversion H; subst cs'. eapply copied_tail_return; eauto.
  - simpl in Hsw. destruct (cs_return_block cs) as [rb|] eqn:Hrb.
    + apply bind_Ok in Hsw as (cs2 & Hadd & Hsw). inversion Hsw; subst cs1 insert; clear Hsw.
      cbv beta iota in H.
      apply bind_Ok in H as (dest & Hdest & H). apply bind_Ok in H as (g2 & Hg2 & H).
      inversion H; subst cs'. eapply branched_return; eauto.
    + destruct (decide _) as [[Hlb Hli]|Hnot].
      * eapply dropped_return; eauto.
        destruct o as [v|].
        -- apply bind_Ok in Hsw as (v' & Hv' & Hsw). inversion Hsw; subst cs1 insert.
           inversion H; subst cs'. by exists v'.
        -- inversion Hsw; subst cs1 insert. by inversion H.
      * apply bind_Ok in Hsw as (cs1' & Hcr & Hsw).
        apply bind_Ok in Hsw as (cs2 & Hadd & Hsw). inversion Hsw; subst cs1 insert; clear Hsw.
        cbv beta iota in H.
        apply bind_Ok in H as (dest & Hdest & H). apply bind_Ok in H as (g2 & Hg2 & H).
        inversion H; subst cs'. eapply branched_return; eauto.
Qed.

(** ** The copy loop as one loop over the instructions of the callee *)

Lemma mapM_ext {A B} (f g : A -> result B) (l : list A) :
  (forall x, x ∈ l -> f x = g x) -> mapM f l = mapM g l.
Proof.
  induction l as [|x l IH]; simpl; intros H; [done|].
  rewrite (H x) by (by left). rewrite IH; [done|]. intros y Hy. apply H. by right.
Qed.

Lemma function_instructions_same F F' :
  same_but_ids F F' -> function_instructions F' = function_instructions F.
Proof.
  intros Hs. unfold function_instructions.
  destruct Hs as (_ & Hbs & _ & _ & _ & _ & Hb & _). rewrite Hbs.
  erewrite mapM_ext; [reflexivity|].
  intros b _. unfold get_block. specialize (Hb b).
  destruct (blks F' !! b) as [blk'|], (blks F !! b) as [blk|]; simpl in *; try done.
  inversion Hb. by rewrite H0.
Qed.

Lemma foldM_fmap {A B S} (f : S -> B -> result S) (h : A -> B) (l : list A) (s : S) :
  foldM f s (h <$> l) = foldM (fun s x => f s (h x)) s l.
Proof.
  revert s. induction l as [|x l IH]; simpl; intros s; [done|].
  destruct (f s (h x)); simpl; auto.
Qed.

Lemma foldM_ext {A S} (f g : S -> A -> result S) (l : list A) (s : S) :
  (forall s0 x, f s0 x = g s0 x) -> foldM f s l = foldM g s l.
Proof.
  intros H. revert s. induction l as [|x l IH]; simpl; intros s; [done|].
  rewrite H. destruct (g s x); simpl; auto.
Qed.

Lemma copy_blocks_flat F bvec call_ref tail idx bs cs cs' :
  foldM (copy_block F bvec call_ref tail idx) cs bs = Ok cs' ->
  exists ls,
    mapM (fun b => do blk <- get_block F b; Ok (pair b <$> instructions blk)) bs = Ok ls /\
    foldM (copy_step F bvec call_ref tail idx) cs (concat ls) = Ok cs'.
Proof.
  revert cs. induction bs as [|b bs IH]; simpl; intros cs H.
  - exists []. by inversion H.
  - apply bind_Ok in H as (cs1 & H1 & H).
    unfold copy_block in H1. apply bind_Ok in H1 as (blk & Hblk & H1).
    destruct (IH _ H) as (ls & Hls & Hfold).
    exists ((pair b <$> instructions blk) :: ls). rewrite Hblk. simpl. rewrite Hls. simpl.
    split; [done|]. rewrite foldM_app.
    assert (foldM (copy_step F bvec call_ref tail idx) cs (pair b <$> instructions blk)
            = Ok cs1) as ->; [|done].
    rewrite foldM_fmap. rewrite <- H1. apply foldM_ext. intros s x.
    unfold copy_step. simpl. by rewrite Hblk.
Qed.

Lemma copy_instructions_flat F bvec call_ref tail idx cs cs' :
  copy_instructions F bvec call_ref tail idx cs = Ok cs' ->
  exists l, function_instructions F = Ok l /\
            foldM (copy_step F bvec call_ref tail idx) cs l = Ok cs'.
Proof.
  intros H. apply copy_blocks_flat in H as (ls & Hls & H).
  exists (concat ls). unfold function_instructions. by rewrite Hls.
Qed.

(** Every pair produced by the traversal is an instruction of a block
    of the function. *)
Lemma function_instructions_elem F l b i :
  function_instructions F = Ok l -> (b, i) ∈ l ->
  b ∈ blocks F /\ exists blk, blks F !! b = Some blk /\ i ∈ instructions blk.
Proof.
  unfold function_instructions. intros H Hin.
  apply bind_Ok in H as (ls & Hls & H). inversion H; subst l; clear H.
  revert ls Hls Hin. induction (blocks F) as [|b0 bs IH]; simpl; intros ls Hls Hin.
  - inversion Hls; subst. simpl in Hin. by apply elem_of_nil in Hin.
  - apply bind_Ok in Hls as (l0 & Hl0 & Hls). apply bind_Ok in Hls as (ls' & Hls' & Hls).
    inversion Hls; subst ls; clear Hls. simpl in Hin.
    apply elem_of_app in Hin as [Hin|Hin].
    + apply bind_Ok in Hl0 as (blk & Hblk%of_option_Ok & Hl0). inversion Hl0; subst l0.
      apply list_elem_of_fmap in Hin as (i' & Heq & Hi'). inversion Heq; subst.
      split; [by left|]. eauto.
    + destruct (IH _ Hls' Hin) as [Hb Hex]. split; [by right|done].
Qed.

(** ** What an iteration leaves alone *)

Lemma elem_of_insert_inv {A} (l : list A) (i : nat) (x y : A) :
  x ∈ <[i := y]> l -> x = y \/ x ∈ l.
Proof.
  revert i. induction l as [|z l IH]; intros i H; simpl in H.
  - by right.
  - destruct i as [|i]; simpl in H.
    + apply elem_of_cons in H as [->|H]; [by left|]. right. by right.
    + apply elem_of_cons in H as [->|H]; [right; by left|].
      destruct (IH _ H); [by left|]. right. by right.
Qed.

Lemma MAP_elem F table x y : MAP F table x = Ok y -> y ∈ table.
Proof.
  unfold MAP. intros H. apply bind_Ok in H as (r & _ & H%of_option_Ok).
  by eapply list_elem_of_lookup_2.
Qed.

Lemma classify_return k : classify k = KReturn -> k = IR_RETURN.
Proof. by destruct k. Qed.

Lemma ir_force_insert_lookup f b i f' u :
  ir_force_insert_into_block f b i = Ok f' -> u <> i -> insts f' !! u = insts f !! u.
Proof.
  intros H Hu. apply ir_force_insert_into_block_inv in H as (r & blk & _ & _ & _ & ->).
  rewrite insts_update_block, lookup_update_inst. by destruct (decide (i = u)); [subst|].
Qed.

Ltac simpl_cs :=
  cbn [cs_caller cs_table cs_return_value cs_return_block cs_history cs_fresh
       cs_with_caller] in *.

Lemma create_return_block_frame call_ref cs h cs1 u :
  create_return_block cs h = Ok cs1 -> untouched call_ref cs u ->
  insts (cs_caller cs1) !! u = insts (cs_caller cs) !! u /\ untouched call_ref cs1 u /\
  cs_table cs1 = cs_table cs.
Proof.
  unfold create_return_block. intros H (Hc & Ht & Hrv & Hfr).
  destruct h.
  - apply bind_Ok in H as (g2 & Hg2 & H). inversion H; subst cs1; clear H. simpl_cs.
    apply ir_insert_into_block_inv in Hg2.
    rewrite (ir_force_insert_lookup _ _ _ _ u Hg2) by lia. simpl.
    rewrite lookup_insert_ne by lia.
    repeat split; simpl_cs; try done; try lia. intros [=]. lia.
  - inversion H; subst cs1; clear H. simpl. repeat split; simpl_cs; try done; lia.
Qed.

Lemma add_to_phi_and_branch_frame F call_ref b inst o copy cs cs2 u :
  add_to_phi_and_branch F call_ref b inst o copy cs = Ok cs2 ->
  untouched call_ref cs u -> u <> copy ->
  insts (cs_caller cs2) !! u = insts (cs_caller cs) !! u /\ untouched call_ref cs2 u.
Proof.
  unfold add_to_phi_and_branch. intros H (Hc & Ht & Hrv & Hfr) Hcopy.
  apply bind_Ok in H as (rb & _ & H).
  destruct o as [v|].
  - apply bind_Ok in H as (phi & Hphi%of_option_Ok & H).
    apply bind_Ok in H as (v' & _ & H). apply bind_Ok in H as (pr & _ & H).
    destruct (data pr); try discriminate. inversion H; subst cs2; clear H. simpl_cs.
    rewrite !lookup_update_inst.
    destruct (decide (phi = u)) as [->|]; [congruence|].
    destruct (decide (copy = u)); [congruence|].
    repeat split; try done.
    intros Hin. apply elem_of_insert_inv in Hin as [?|?]; auto.
  - inversion H; subst cs2; clear H. simpl_cs. rewrite lookup_update_inst.
    destruct (decide (copy = u)); [congruence|]. by repeat split.
Qed.

Lemma copy_instruction_frame F bvec call_ref tail idx b blk cs ih cs' u :
  copy_instruction F bvec call_ref tail idx b blk cs ih = Ok cs' ->
  untouched call_ref cs u ->
  insts (cs_caller cs') !! u = insts (cs_caller cs) !! u /\ untouched call_ref cs' u.
Proof.
  intros H Hu. pose proof Hu as (Hc & Ht & Hrv & Hfr).
  apply copy_instruction_inv in H as (inst & Hinst & [[_ ->]|(Hk & copy & rc & Hcopy & Hrc & Hout)]);
    [done|].
  assert (Hne : u <> copy).
  { intros ->. apply Ht. by eapply list_elem_of_lookup_2. }
  assert (Hcommon : forall g0, insts (update_inst (cs_caller cs) copy g0) !! u
                               = insts (cs_caller cs) !! u).
  { intros g0. rewrite lookup_update_inst. by destruct (decide (copy = u)); [congruence|]. }
  destruct Hout as [d dest g2 _ _ _ Hins -> | v v' dest g2 _ _ _ _ _ Hins ->
                   | o _ _ _ _ _ _ Ho | o cs1 cs2 dest g2 _ _ _ Hcr Hadd _ Hins ->]; simpl_cs.
  - rewrite (ir_force_insert_lookup _ _ _ _ u Hins) by done.
    rewrite lookup_update_inst. destruct (decide (copy = u)); [congruence|].
    by rewrite Hcommon.
  - rewrite (ir_force_insert_lookup _ _ _ _ u Hins) by done.
    rewrite lookup_update_inst. destruct (decide (copy = u)); [congruence|].
    by rewrite Hcommon.
  - destruct o as [v|].
    + destruct Ho as (v' & Hv' & ->). simpl_cs. rewrite Hcommon.
      repeat split; try done.
      * intros Hin. apply elem_of_insert_inv in Hin as [?|?]; auto.
      * intros [= ->]. apply Ht. by eapply MAP_elem.
    + subst cs'. simpl_cs. by rewrite Hcommon.
  - rewrite (ir_force_insert_lookup _ _ _ _ u Hins) by done.
    assert (Hu0 : untouched call_ref
                    (cs_with_caller cs (update_inst (cs_caller cs) copy (copy_common inst))) u)
      by done.
    destruct Hcr as [(_ & _ & Hcr)|(_ & ->)].
    + destruct (create_return_block_frame _ _ _ _ _ Hcr Hu0) as (E1 & Hu1 & _).
      destruct (add_to_phi_and_branch_frame _ _ _ _ _ _ _ _ _ Hadd Hu1 Hne) as (E2 & Hu2).
      rewrite E2, E1. simpl_cs. by rewrite Hcommon.
    + destruct (add_to_phi_and_branch_frame _ _ _ _ _ _ _ _ _ Hadd Hu0 Hne) as (E2 & Hu2).
      rewrite E2. simpl_cs. by rewrite Hcommon.
Qed.

Lemma copy_loop_frame F bvec call_ref tail idx l cs cs' u :
  foldM (copy_step F bvec call_ref tail idx) cs l = Ok cs' ->
  untouched call_ref cs u ->
  insts (cs_caller cs') !! u = insts (cs_caller cs) !! u /\ untouched call_ref cs' u.
Proof.
  revert cs. induction l as [|p l IH]; simpl; intros cs H Hu.
  - by inversion H; subst.
  - apply bind_Ok in H as (cs1 & H1 & H).
    unfold copy_step in H1. apply bind_Ok in H1 as (blk & _ & H1).
    destruct (copy_instruction_frame _ _ _ _ _ _ _ _ _ _ _ H1 Hu) as (E1 & Hu1).
    destruct (IH _ H Hu1) as (E2 & Hu2). split; [congruence|done].
Qed.

(** ** The phases of a successful transplantation *)

Lemma transplant_inv ctx ictx fr g call_ref c callee_ref F args tail count hist idx
    ctx' ictx' b :
  transplant ctx ictx fr g call_ref c callee_ref F args tail count hist idx
  = Ok (ctx', ictx', b) ->
  b = true /\
  transplanted ctx ictx fr g call_ref c callee_ref F args tail count hist idx ctx' ictx'.
Proof.
  unfold transplant. intros H.
  apply bind_Ok in H as (call_block & Hp%of_option_Ok & H).
  apply bind_Ok in H as (cb & Hcb%of_option_Ok & H).
  apply bind_Ok in H as ([before call_next] & Hsplit%of_option_Ok & H).
  apply bind_Ok in H as (F1 & HF1 & H).
  apply bind_Ok in H as ([F2 table1] & HF2 & H).
  apply bind_Ok in H as (cs & Hcs & H).
  apply bind_Ok in H as (g3 & Hg3 & H).
  apply bind_Ok in H as (g5 & Hg5 & H).
  apply bind_Ok in H as (last_block & Hlast%of_option_Ok & H).
  apply bind_Ok in H as (lb & Hlb%of_option_Ok & H).
  apply bind_Ok in H as (g7 & Hg7 & H).
  apply bind_Ok in H as (g10 & Hg10 & H).
  inversion H; subst ctx' ictx' b; clear H.
  split; [done|].
  by eapply (mkTransplanted _ _ _ _ _ _ _ _ _ _ _ _ _ _ _
               call_block cb before call_next F1 F2 table1 cs g3 g5 last_block lb g7 g10).
Qed.

(** A call that [ir_inline_call] inlines into a callee with
    instructions has gone through the transplantation. *)
Lemma ir_inline_call_inv ctx ictx fr call_ref ctx' ictx' g c n callee_ref args tail F count :
  funcs ctx !! fr = Some g ->
  insts g !! call_ref = Some c ->
  data c = Call n (callee_function callee_ref) args tail ->
  funcs ctx !! callee_ref = Some F ->
  instruction_count F true = Ok (S count) ->
  ir_inline_call ctx ictx fr call_ref = Ok (ctx', ictx', true) ->
  callee_ref <> fr /\
  exists hist idx,
    transplanted ctx ictx fr g call_ref c callee_ref F args tail (S count) hist idx
      ctx' ictx' /\
    ((history_find (history ictx) call_ref 0 None = Some idx /\ hist = history ictx) \/
     (history_find (history ictx) call_ref 0 None = None /\ idx = length (history ictx) /\
      hist = history ictx ++ [mkEntry call_ref (Some callee_ref) ROOT_INLINE_ENTRY])).
Proof.
  intros Hg Hc Hd HF Hcount. unfold ir_inline_call.
  rewrite (get_func_Some _ _ _ Hg). simpl. rewrite (get_inst_Some _ _ _ Hc). simpl.
  rewrite Hd. destruct (decide (callee_ref = fr)); [discriminate|].
  rewrite (get_func_Some _ _ _ HF). simpl. rewrite Hcount. simpl.
  intros H. split; [done|].
  destruct (history_find (history ictx) call_ref 0 None) as [i|] eqn:Hfind.
  - apply bind_Ok in H as (e & He & H).
    destruct (inlined_via e) as [j|]; [|discriminate].
    apply bind_Ok in H as (cycle & Hwalk & H). destruct cycle; [discriminate|].
    apply transplant_inv in H as [_ H]. exists (history ictx), i. split; [done|]. auto.
  - apply transplant_inv in H as [_ H]. eexists _, _. split; [exact H|]. auto.
Qed.

(** ** Lookups in the skeleton and after the release of unused slots *)

Lemma allocate_skeleton_insts g first count nb fn u :
  insts (allocate_skeleton g first count nb fn) !! u
  = if decide (first <= u < first + count) then Some zeroed_instruction else insts g !! u.
Proof.
  unfold allocate_skeleton.
  set (step_b := fun (g' : IRFunction) (b : nat) =>
                   with_blks g' (<[b := mkBlock [] None fn 0]> (blks g'))).
  set (step_i := fun (g' : IRFunction) (i : nat) =>
                   with_insts g' (<[i := zeroed_instruction]> (insts g'))).
  assert (Hb : forall l g0, insts (foldl step_b g0 l) = insts g0).
  { induction l as [|x l IH]; intros g0; simpl; [reflexivity|]. rewrite IH. reflexivity. }
  rewrite Hb. clear Hb. revert g first.
  induction count as [|count IH]; intros g first.
  - simpl. destruct (decide _); [lia|reflexivity].
  - change (foldl step_i g (seq first (S count)))
      with (foldl step_i (step_i g first) (seq (S first) count)).
    rewrite IH.
    assert (E : insts (step_i g first) !! u
                = if decide (first = u) then Some zeroed_instruction else insts g !! u).
    { unfold step_i. simpl. destruct (decide (first = u)) as [->|].
      - by rewrite lookup_insert_eq.
      - by rewrite lookup_insert_ne. }
    rewrite E. repeat case_decide; try lia; reflexivity.
Qed.

Lemma allocate_skeleton_blks g first count nb fn x :
  blks (allocate_skeleton g first count nb fn) !! x
  = if decide (first + count <= x < first + count + nb) then Some (mkBlock [] None fn 0)
    else blks g !! x.
Proof.
  unfold allocate_skeleton.
  set (step_b := fun (g' : IRFunction) (b : nat) =>
                   with_blks g' (<[b := mkBlock [] None fn 0]> (blks g'))).
  set (step_i := fun (g' : IRFunction) (i : nat) =>
                   with_insts g' (<[i := zeroed_instruction]> (insts g'))).
  assert (Hi : forall l g0, blks (foldl step_i g0 l) = blks g0).
  { induction l as [|y l IH]; intros g0; simpl; [reflexivity|]. rewrite IH. reflexivity. }
  rewrite <- (Hi (seq first count) g). clear Hi.
  generalize (foldl step_i g (seq first count)). generalize (first + count).
  intros start g0. revert g0 start.
  induction nb as [|nb IH]; intros g0 start.
  - simpl. destruct (decide _); [lia|reflexivity].
  - change (foldl step_b g0 (seq start (S nb)))
      with (foldl step_b (step_b g0 start) (seq (S start) nb)).
    rewrite IH.
    assert (E : blks (step_b g0 start) !! x
                = if decide (start = x) then Some (mkBlock [] None fn 0) else blks g0 !! x).
    { unfold step_b. simpl. destruct (decide (start = x)) as [->|].
      - by rewrite lookup_insert_eq.
      - by rewrite lookup_insert_ne. }
    rewrite E. repeat case_decide; try lia; reflexivity.
Qed.

Lemma allocate_skeleton_blocks g first count nb fn :
  blocks (allocate_skeleton g first count nb fn) = blocks g.
Proof.
  unfold allocate_skeleton.
  assert (H : forall (A : Type) (step : IRFunction -> A -> IRFunction) l g0,
             (forall g1 x, blocks (step g1 x) = blocks g1) ->
             blocks (foldl step g0 l) = blocks g0).
  { intros A step l. induction l as [|x l IH]; intros g0 Hs; simpl; [done|].
    rewrite IH by done. apply Hs. }
  rewrite H by done. by rewrite H.
Qed.

(** One round of the loop of lines 418-420 either keeps the function or
    releases the entry, which was in no block. *)
Lemma free_unused_step g call_ref i g1 :
  match insts g !! i with
  | Some r => match parent_block r with
              | None => Ok (with_insts g (delete i (insts g)))
              | Some _ => Ok g
              end
  | None => if decide (i = call_ref) then Ok g else Abort
  end = Ok g1 ->
  g1 = g \/
  (exists r, insts g !! i = Some r /\ parent_block r = None /\
             g1 = with_insts g (delete i (insts g))).
Proof.
  destruct (insts g !! i) as [r|] eqn:Hi.
  - destruct (parent_block r) eqn:Hp; intros H; inversion H; [by left|].
    right. by exists r.
  - destruct (decide _); [|discriminate]. intros H; inversion H. by left.
Qed.

Lemma free_unused_lookup g call_ref table g' u :
  free_unused g call_ref table = Ok g' -> u ∉ table -> insts g' !! u = insts g !! u.
Proof.
  unfold free_unused. revert g. induction table as [|i table IH]; intros g H Hu; simpl in H.
  - by inversion H.
  - apply bind_Ok in H as (g1 & H1 & H). apply not_elem_of_cons in Hu as [Hne Hu].
    rewrite (IH _ H Hu).
    apply free_unused_step in H1 as [->|(r & _ & _ & ->)]; [done|].
    simpl. by rewrite lookup_delete_ne.
Qed.

Lemma free_unused_blks g call_ref table g' :
  free_unused g call_ref table = Ok g' -> blks g' = blks g.
Proof.
  unfold free_unused. apply (foldM_invariant (fun g0 => blks g0 = blks g)); [|done].
  intros g0 i g1 _ H0 H1. by apply free_unused_step in H1 as [->|(r & _ & _ & ->)].
Qed.

Lemma free_unused_blocks g call_ref table g' :
  free_unused g call_ref table = Ok g' -> blocks g' = blocks g.
Proof.
  unfold free_unused. apply (foldM_invariant (fun g0 => blocks g0 = blocks g)); [|done].
  intros g0 i g1 _ H0 H1. by apply free_unused_step in H1 as [->|(r & _ & _ & ->)].
Qed.

(** An instruction that is linked into a block is not released. *)
Lemma free_unused_linked g call_ref table g' u r :
  free_unused g call_ref table = Ok g' ->
  insts g !! u = Some r -> parent_block r <> None ->
  insts g' !! u = Some r.
Proof.
  unfold free_unused. intros H Hr Hp. revert H.
  apply (foldM_invariant (fun g0 => insts g0 !! u = Some r)); [|done].
  intros g0 i g1 _ H0 H1.
  apply free_unused_step in H1 as [->|(ri & Hi & Hpi & ->)]; [done|].
  simpl. rewrite lookup_delete_ne; [done|]. intros ->. congruence.
Qed.

Lemma free_unused_lookup_Some g call_ref table g' u r :
  free_unused g call_ref table = Ok g' ->
  insts g' !! u = Some r -> insts g !! u = Some r.
Proof.
  unfold free_unused. revert g. induction table as [|i table IH]; intros g H Hu; simpl in H.
  - inversion H; by subst.
  - apply bind_Ok in H as (g1 & H1 & H). apply (IH _ H) in Hu.
    apply free_unused_step in H1 as [->|(ri & _ & _ & ->)]; [done|].
    simpl in Hu. apply lookup_delete_Some in Hu. tauto.
Qed.

(** ** Replacement of the uses of an instruction *)

Lemma subst_ref_idem old new x :
  subst_ref old new (subst_ref old new x) = subst_ref old new x.
Proof.
  unfold subst_ref. destruct (decide (x = old)) as [->|]; [|by destruct (decide (x = old))].
  by destruct (decide (new = old)).
Qed.

Lemma subst_callee_idem old new c :
  subst_callee old new (subst_callee old new c) = subst_callee old new c.
Proof. destruct c; simpl; [done|]. by rewrite subst_ref_idem. Qed.

Lemma subst_data_idem old new d :
  subst_data old new (subst_data old new d) = subst_data old new d.
Proof.
  destruct d as [| | | | |n c args t|o|l r|v a|b|c t e|args]; simpl; try done.
  - rewrite subst_callee_idem. f_equal. rewrite <- list_fmap_compose.
    apply list_fmap_ext. intros i x _. simpl. apply subst_ref_idem.
  - destruct o; simpl; [|done]. by rewrite subst_ref_idem.
  - by rewrite !subst_ref_idem.
  - by rewrite !subst_ref_idem.
  - by rewrite subst_ref_idem.
  - f_equal. rewrite <- list_fmap_compose.
    apply list_fmap_ext. intros i [b x] _. simpl. by rewrite subst_ref_idem.
Qed.

Lemma ir_replace_uses_lookup f old new r u ru :
  old <> new -> insts f !! old = Some r -> insts f !! u = Some ru -> u <> old ->
  exists ru',
    insts (ir_replace_uses f old new) !! u = Some ru' /\
    kind ru' = kind ru /\ parent_block ru' = parent_block ru /\
    data ru' = if decide (u ∈ users r) then subst_data old new (data ru) else data ru.
Proof.
  intros Hne Hr Hu Huold. unfold ir_replace_uses.
  destruct (decide (old = new)); [done|]. rewrite Hr.
  set (step := fun (f' : IRFunction) (x : nat) =>
                 mark_used (update_inst f' x
                              (fun i => set_data (subst_data old new (data i)) i)) new x).
  assert (Haux : forall l f0 ru0,
             insts f0 !! u = Some ru0 ->
             exists ru',
               insts (foldl step f0 l) !! u = Some ru' /\
               kind ru' = kind ru0 /\ parent_block ru' = parent_block ru0 /\
               data ru' = if decide (u ∈ l) then subst_data old new (data ru0)
                          else data ru0).
  { induction l as [|x l IH]; intros f0 ru0 H0; simpl.
    - exists ru0. by repeat split.
    - assert (exists ru1, insts (step f0 x) !! u = Some ru1 /\ kind ru1 = kind ru0 /\
                          parent_block ru1 = parent_block ru0 /\
                          data ru1 = if decide (x = u) then subst_data old new (data ru0)
                                     else data ru0) as (ru1 & H1 & Hk1 & Hp1 & Hd1).
      { unfold step.
        set (f1 := update_inst f0 x (fun i => set_data (subst_data old new (data i)) i)).
        assert (exists ru1, insts f1 !! u = Some ru1 /\ kind ru1 = kind ru0 /\
                            parent_block ru1 = parent_block ru0 /\
                            data ru1 = if decide (x = u) then subst_data old new (data ru0)
                                       else data ru0) as (ru1 & H1 & Hk1 & Hp1 & Hd1).
        { unfold f1. rewrite lookup_update_inst.
          destruct (decide (x = u)) as [->|Hx]; rewrite H0; simpl; eauto. }
        destruct (users_only_lookup_rev _ _ _ _ (users_only_mark_used f1 new x) H1)
          as (ru2 & H2 & Hcore).
        exists ru2. split; [done|]. unfold core in Hcore. inversion Hcore.
        repeat split; congruence. }
      destruct (IH _ _ H1) as (ru' & H' & Hk' & Hp' & Hd').
      exists ru'. split; [done|]. split; [congruence|]. split; [congruence|].
      rewrite Hd', Hd1.
      destruct (decide (x = u)) as [->|Hx].
      + destruct (decide (u ∈ u :: l)) as [_|Hn]; [|exfalso; apply Hn; by left].
        destruct (decide (u ∈ l)); [apply subst_data_idem|done].
      + destruct (decide (u ∈ l)) as [Hin|Hnin].
        * destruct (decide (u ∈ x :: l)) as [_|Hn]; [done|exfalso; apply Hn; by right].
        * destruct (decide (u ∈ x :: l)) as [Hin|_]; [|done].
          apply elem_of_cons in Hin as [->|?]; done. }
  destruct (Haux (users r) f ru Hu) as (ru' & H' & Hk' & Hp' & Hd').
  exists ru'. rewrite lookup_update_inst. destruct (decide (old = u)); [congruence|].
  by repeat split.
Qed.

Lemma subst_ref_same old x : subst_ref old old x = x.
Proof. unfold subst_ref. by destruct (decide (x = old)) as [->|]. Qed.

Lemma subst_data_same old d : subst_data old old d = d.
Proof.
  destruct d as [| | | | |n c args t|o|l r|v a|b|c t e|args]; simpl; try done.
  - f_equal.
    + destruct c; simpl; [done|]. by rewrite subst_ref_same.
    + rewrite <- (list_fmap_id args) at 2. apply list_fmap_ext. intros; apply subst_ref_same.
  - destruct o; simpl; [|done]. by rewrite subst_ref_same.
  - by rewrite !subst_ref_same.
  - by rewrite !subst_ref_same.
  - by rewrite subst_ref_same.
  - f_equal. rewrite <- (list_fmap_id args) at 2. apply list_fmap_ext.
    intros i [b x] _. simpl. by rewrite subst_ref_same.
Qed.

(** ** Users sets only grow while the callee is copied *)

Lemma mark_used_users f a b h r x :
  insts f !! h = Some r -> x ∈ users r ->
  exists r', insts (mark_used f a b) !! h = Some r' /\ x ∈ users r'.
Proof.
  intros Hr Hx. unfold mark_used. rewrite lookup_update_inst.
  destruct (decide (a = h)) as [->|]; [|eauto]. rewrite Hr. simpl.
  destruct (decide _); eexists; (split; [reflexivity|]); [done|].
  simpl. apply elem_of_app. by left.
Qed.

Lemma fix_up_uses_users F table g g' h r x :
  fix_up_uses F table g = Ok g' -> insts g !! h = Some r -> x ∈ users r ->
  exists r', insts g' !! h = Some r' /\ x ∈ users r'.
Proof.
  unfold fix_up_uses. intros H. apply bind_Ok in H as (l & _ & H).
  intros Hr Hx. revert g H r Hr Hx.
  induction l as [|p l IH]; simpl; intros g H r Hr Hx.
  - inversion H; subst. eauto.
  - apply bind_Ok in H as (g1 & H1 & H).
    apply bind_Ok in H1 as (rp & _ & H1). apply bind_Ok in H1 as (copy & _ & H1).
    assert (exists r1, insts g1 !! h = Some r1 /\ x ∈ users r1) as (r1 & Hr1 & Hx1).
    { clear H. revert g H1 r Hr Hx. induction (users rp) as [|u us IHu]; simpl;
        intros g H1 r Hr Hx.
      - inversion H1; subst. eauto.
      - apply bind_Ok in H1 as (g2 & H2 & H1). apply bind_Ok in H2 as (mu & _ & H2).
        inversion H2; subst g2.
        destruct (mark_used_users g copy mu h r x Hr Hx) as (r2 & Hr2 & Hx2).
        by eapply IHu. }
    by eapply IH.
Qed.

Lemma update_inst_users f i (g : IRInstruction -> IRInstruction) h :
  (forall r, users (g r) = users r) ->
  users <$> insts (update_inst f i g) !! h = users <$> insts f !! h.
Proof.
  intros Hg. rewrite lookup_update_inst. destruct (decide (i = h)) as [->|]; [|done].
  destruct (insts f !! h); simpl; [|done]. by rewrite Hg.
Qed.

Lemma ir_force_insert_users f b i f' h :
  ir_force_insert_into_block f b i = Ok f' ->
  users <$> insts f' !! h = users <$> insts f !! h.
Proof.
  intros H. apply ir_force_insert_into_block_inv in H as (r & blk & _ & _ & _ & ->).
  rewrite insts_update_block. by apply update_inst_users.
Qed.

Lemma copy_instruction_users F bvec call_ref tail idx b blk cs ih cs' h :
  copy_instruction F bvec call_ref tail idx b blk cs ih = Ok cs' ->
  h < cs_fresh cs ->
  users <$> insts (cs_caller cs') !! h = users <$> insts (cs_caller cs) !! h /\
  cs_fresh cs <= cs_fresh cs'.
Proof.
  intros H Hh.
  apply copy_instruction_inv in H as (inst & Hinst & [[_ ->]|(Hk & copy & rc & Hcopy & Hrc & Hout)]);
    [done|].
  assert (Hcommon : users <$> insts (update_inst (cs_caller cs) copy (copy_common inst)) !! h
                    = users <$> insts (cs_caller cs) !! h)
    by (by apply update_inst_users).
  destruct Hout as [d dest g2 _ _ _ Hins -> | v v' dest g2 _ _ _ _ _ Hins ->
                   | o _ _ _ _ _ _ Ho | o cs1 cs2 dest g2 _ _ _ Hcr Hadd _ Hins ->]; simpl_cs.
  - rewrite (ir_force_insert_users _ _ _ _ h Hins).
    rewrite update_inst_users by done. by rewrite Hcommon.
  - rewrite (ir_force_insert_users _ _ _ _ h Hins).
    rewrite update_inst_users by done. by rewrite Hcommon.
  - destruct o as [v|]; [destruct Ho as (v' & _ & ->)|subst cs']; simpl_cs; by rewrite Hcommon.
  - rewrite (ir_force_insert_users _ _ _ _ h Hins).
    assert (Hadd' : forall cs1, add_to_phi_and_branch F call_ref b inst o copy cs1 = Ok cs2 ->
              users <$> insts (cs_caller cs2) !! h = users <$> insts (cs_caller cs1) !! h /\
              cs_fresh cs2 = cs_fresh cs1).
    { clear. unfold add_to_phi_and_branch. intros cs1 H.
      apply bind_Ok in H as (rb & _ & H). destruct o as [v|].
      - apply bind_Ok in H as (phi & _ & H). apply bind_Ok in H as (v' & _ & H).
        apply bind_Ok in H as (pr & _ & H). destruct (data pr); try discriminate.
        inversion H; subst cs2. simpl_cs. by rewrite !update_inst_users.
      - inversion H; subst cs2. simpl_cs. by rewrite update_inst_users. }
    destruct (Hadd' _ Hadd) as (E2 & Efr). rewrite E2, Efr.
    destruct Hcr as [(_ & _ & Hcr)|(_ & ->)]; simpl_cs; [|by rewrite Hcommon].
    unfold create_return_block in Hcr. destruct (bool_decide _).
    + apply bind_Ok in Hcr as (g2' & Hg2' & Hcr). inversion Hcr; subst cs1. simpl_cs.
      apply ir_insert_into_block_inv in Hg2'.
      rewrite (ir_force_insert_users _ _ _ _ h Hg2'). simpl.
      rewrite lookup_insert_ne by lia. split; [|lia].
      change (users <$> insts (update_inst (cs_caller cs) copy (copy_common inst)) !! h
              = users <$> insts (cs_caller cs) !! h). exact Hcommon.
    + inversion Hcr; subst cs1. simpl_cs. simpl. split; [|lia]. exact Hcommon.
Qed.

Lemma copy_loop_users F bvec call_ref tail idx l cs cs' h :
  foldM (copy_step F bvec call_ref tail idx) cs l = Ok cs' ->
  h < cs_fresh cs ->
  users <$> insts (cs_caller cs') !! h = users <$> insts (cs_caller cs) !! h /\
  cs_fresh cs <= cs_fresh cs'.
Proof.
  revert cs. induction l as [|p l IH]; simpl; intros cs H Hh.
  - by inversion H; subst.
  - apply bind_Ok in H as (cs1 & H1 & H).
    unfold copy_step in H1. apply bind_Ok in H1 as (blk & _ & H1).
    destruct (copy_instruction_users _ _ _ _ _ _ _ _ _ _ h H1 Hh) as (E1 & Hf1).
    destruct (IH _ H ltac:(lia)) as (E2 & Hf2). split; [congruence|lia].
Qed.

(** ** Instructions other than [Return] leave the return state alone *)

Lemma copy_instruction_no_return F bvec call_ref tail idx b blk cs ih cs' inst :
  copy_instruction F bvec call_ref tail idx b blk cs ih = Ok cs' ->
  insts F !! ih = Some inst -> kind inst <> IR_RETURN ->
  cs_return_block cs' = cs_return_block cs /\ cs_return_value cs' = cs_return_value cs /\
  cs_fresh cs' = cs_fresh cs /\ cs_table cs' = cs_table cs.
Proof.
  intros H Hinst Hk.
  apply copy_instruction_inv in H as (inst' & Hinst' & [[_ ->]|(_ & copy & rc & _ & _ & Hout)]);
    [done|].
  assert (inst' = inst) by congruence. subst inst'.
  destruct Hout as [d dest g2 _ _ _ _ -> | v v' dest g2 Hc | o Hc | o cs1 cs2 dest g2 Hc];
    try (apply classify_return in Hc; contradiction).
  done.
Qed.

Lemma copy_loop_no_return F bvec call_ref tail idx l cs cs' :
  foldM (copy_step F bvec call_ref tail idx) cs l = Ok cs' ->
  (forall p inst, p ∈ l -> insts F !! p.2 = Some inst -> kind inst <> IR_RETURN) ->
  cs_return_block cs' = cs_return_block cs /\ cs_return_value cs' = cs_return_value cs /\
  cs_fresh cs' = cs_fresh cs /\ cs_table cs' = cs_table cs.
Proof.
  revert cs. induction l as [|p l IH]; simpl; intros cs H Hl.
  - by inversion H; subst.
  - apply bind_Ok in H as (cs1 & H1 & H).
    unfold copy_step in H1. apply bind_Ok in H1 as (blk & _ & H1).
    pose proof H1 as H1'.
    apply copy_instruction_inv in H1' as (inst & Hinst & _).
    destruct (copy_instruction_no_return _ _ _ _ _ _ _ _ _ _ _ H1 Hinst) as (E1 & E2 & E3 & E4).
    { eapply Hl; [by left|done]. }
    destruct (IH _ H) as (E1' & E2' & E3' & E4').
    { intros q inst' Hq. apply Hl. by right. }
    repeat split; congruence.
Qed.

(** ** The [Return] at the end of the callee is dropped *)

Lemma copy_instruction_drops F bvec call_ref idx b blk cs r cs' ri o :
  copy_instruction F bvec call_ref false idx b blk cs r = Ok cs' ->
  insts F !! r = Some ri -> kind ri = IR_RETURN -> data ri = Operand o ->
  blocks_last F = Some b -> instructions_last blk = Some r ->
  cs_return_block cs = None ->
  blks (cs_caller cs') = blks (cs_caller cs) /\ cs_fresh cs' = cs_fresh cs /\
  cs_return_block cs' = None /\
  match o with
  | Some v => exists v', MAP F (cs_table cs) v = Ok v' /\ cs_return_value cs' = Some v'
  | None => cs_return_value cs' = cs_return_value cs
  end.
Proof.
  intros H Hri Hk Hd Hlb Hli Hrb.
  apply copy_instruction_inv in H as (inst & Hinst & [[Hp _]|(_ & copy & rc & _ & _ & Hout)]).
  { congruence. }
  assert (inst = ri) by congruence. subst inst.
  destruct Hout as [d dest g2 Hc | v v' dest g2 _ Ht | o' _ _ _ _ _ Ho' Hcs
                   | o' cs1 cs2 dest g2 _ _ _ Hcr].
  - rewrite Hk in Hc. by simpl in Hc.
  - discriminate.
  - assert (o' = o) by congruence. subst o'.
    destruct o as [v|].
    + destruct Hcs as (v' & Hv' & ->). simpl_cs. repeat split; try done. eauto.
    + subst cs'. by simpl_cs.
  - destruct Hcr as [(_ & Hn & _)|([rb Hrb'] & _)]; [|congruence].
    exfalso. by apply Hn.
Qed.

Lemma map_parameters_elem F table args count psize param ps F' table' x :
  map_parameters F table args count psize param ps = Ok (F', table') ->
  x ∈ table' -> x ∈ table \/ x ∈ args.
Proof.
  revert F table param. induction ps as [|p ps IH]; simpl; intros F table param H Hx.
  - inversion H; subst. by left.
  - apply bind_Ok in H as (r & _ & H). apply bind_Ok in H as (a & Ha%of_option_Ok & H).
    destruct (decide _); [|discriminate].
    destruct (IH _ _ _ H Hx) as [Hin|Hin]; [|by right].
    apply elem_of_insert_inv in Hin as [->|Hin]; [|by left].
    right. by eapply list_elem_of_lookup_2.
Qed.

Lemma ir_remove_use_users f a b h r x :
  insts f !! h = Some r -> x ∈ users r -> x <> b ->
  exists r', insts (ir_remove_use f a b) !! h = Some r' /\ x ∈ users r'.
Proof.
  intros Hr Hx Hne. unfold ir_remove_use. rewrite lookup_update_inst.
  destruct (decide (a = h)) as [->|]; [|eauto]. rewrite Hr. simpl.
  eexists. split; [reflexivity|]. simpl. apply list_elem_of_filter. by split.
Qed.

Lemma reparent_lookup g last_block call_block tail call_next u ru :
  insts g !! u = Some ru ->
  exists ru', insts (reparent g last_block call_block tail call_next) !! u = Some ru' /\
              kind ru' = kind ru /\ data ru' = data ru /\ users ru' = users ru /\
              (parent_block ru <> None -> parent_block ru' <> None).
Proof.
  unfold reparent. destruct (decide _); [|eauto 10].
  revert g ru. induction call_next as [|i l IH]; simpl; intros g ru Hu; [eauto 10|].
  assert (exists ru1, insts (update_inst g i (set_parent_block (Some last_block))) !! u
                      = Some ru1 /\ kind ru1 = kind ru /\ data ru1 = data ru /\
                      users ru1 = users ru /\
                      (parent_block ru <> None -> parent_block ru1 <> None))
    as (ru1 & H1 & Hk & Hd & Hus & Hp).
  { rewrite lookup_update_inst. destruct (decide (i = u)) as [->|]; [|eauto 10].
    rewrite Hu. simpl. eexists. split; [reflexivity|]. by repeat split. }
  destruct (IH _ _ H1) as (ru' & H' & Hk' & Hd' & Hus' & Hp').
  exists ru'. repeat split; try congruence. auto.
Qed.

Lemma reparent_lookup_None g last_block call_block tail call_next u :
  insts g !! u = None ->
  insts (reparent g last_block call_block tail call_next) !! u = None.
Proof.
  unfold reparent. destruct (decide _); [|done].
  revert g. induction call_next as [|i l IH]; simpl; intros g Hu; [done|].
  apply IH. rewrite lookup_update_inst. destruct (decide (i = u)) as [->|]; [|done].
  by rewrite Hu.
Qed.

Lemma reparent_blks g last_block call_block tail call_next :
  blks (reparent g last_block call_block tail call_next) = blks g /\
  blocks (reparent g last_block call_block tail call_next) = blocks g.
Proof.
  unfold reparent. destruct (decide _); [|done].
  revert g. induction call_next as [|i l IH]; simpl; intros g; [done|].
  destruct (IH (update_inst g i (set_parent_block (Some last_block)))) as [-> ->]. done.
Qed.

Lemma free_unused_lookup_None g call_ref table g' u :
  free_unused g call_ref table = Ok g' ->
  insts g !! u = None -> insts g' !! u = None.
Proof.
  intros Hf H. destruct (insts g' !! u) eqn:E; [|done].
  apply (free_unused_lookup_Some _ _ _ _ _ _ Hf) in E. congruence.
Qed.

Lemma reattach_insts g5 last_block lb tail call_next :
  insts (reattach g5 last_block lb tail call_next) = insts g5 /\
  blocks (reattach g5 last_block lb tail call_next) = blocks g5.
Proof. unfold reattach. destruct (instructions_last lb); [|done]. by destruct tail. Qed.

(** ** A callee with a single return at its end *)

(** A call that is not a tail call is inlined, the only [Return] of the
    callee ends its last block, and the stored [last] of the block list
    and of that block name the block and the [Return] (line 309).
    Then nothing but the skeleton is allocated (no return block, no PHI:
    the allocator stands where the skeleton ends), the iteration of the
    copy loop for the [Return] inserts nothing into any block, the call
    is removed, and, if the [Return] carries a value [v], every user of
    the call names [MAP(v)] wherever it named the call ([MAP] is the
    mapping table built from the numbering of the callee and the
    arguments of the call). *)
Theorem single_return_is_substituted :
  forall ctx ictx fr call_ref ctx' ictx' g c n callee_ref args F count init b blk r ri o,
    funcs ctx !! fr = Some g ->
    insts g !! call_ref = Some c ->
    data c = Call n (callee_function callee_ref) args false ->
    funcs ctx !! callee_ref = Some F ->
    instruction_count F true = Ok (S count) ->
    function_instructions F = Ok (init ++ [(b, r)]) ->
    (forall p inst, p ∈ init -> insts F !! p.2 = Some inst -> kind inst <> IR_RETURN) ->
    blocks_last F = Some b ->
    blks F !! b = Some blk ->
    instructions_last blk = Some r ->
    insts F !! r = Some ri ->
    kind ri = IR_RETURN ->
    data ri = Operand o ->
    (forall k, is_Some (insts g !! k) -> k < fresh ctx) ->
    ir_inline_call ctx ictx fr call_ref = Ok (ctx', ictx', true) ->
    exists g' F1 F2 table,
      funcs ctx' !! fr = Some g' /\
      enumerate_blocks F 0 0 (blocks F) = Ok F1 /\
      map_parameters F1 (seq (fresh ctx) (S count)) args (S count)
        (length (parameters F)) 0 (parameters F) = Ok (F2, table) /\
      fresh ctx' = fresh ctx + S count + (length (blocks F) - 1) /\
      (forall blk2 bvec idx cs cs1,
          blks F2 !! b = Some blk2 ->
          cs_return_block cs = None ->
          copy_instruction F2 bvec call_ref false idx b blk2 cs r = Ok cs1 ->
          blks (cs_caller cs1) = blks (cs_caller cs) /\
          cs_fresh cs1 = cs_fresh cs /\ cs_return_block cs1 = None) /\
      insts g' !! call_ref = None /\
      match o with
      | Some v =>
          exists v',
            MAP F2 table v = Ok v' /\
            forall u ru,
              u ∈ users c -> u <> call_ref -> u ∉ args -> insts g !! u = Some ru ->
              exists ru',
                insts g' !! u = Some ru' /\ kind ru' = kind ru /\
                data ru' = subst_data call_ref v' (data ru)
      | None => users c = []
      end.
Proof.
  intros ctx ictx fr call_ref ctx' ictx' g c n callee_ref args F count init b blk r ri o
    Hg Hc Hd HF Hcount Htrav Hinit Hlb Hblk Hli Hri Hk Hdo Hfresh Hcall.
  destruct (ir_inline_call_inv _ _ _ _ _ _ _ _ _ _ _ _ _ _ Hg Hc Hd HF Hcount Hcall)
    as (Hne & hist & idx & Htp & _).
  destruct Htp as [call_block cb before call_next F1 F2 table cs g3 g5 last_block lb g7 g10
                     Hparent Hcb Hsplit HF1 HF2 Hcopy Hfix Hremove Hlast Hlbk Hafter Hfree
                     -> ->].
  simpl in Hafter. inversion Hafter; subst g7; clear Hafter.
  (* the numbered callee *)
  assert (Hsame : same_but_ids F F2).
  { eapply same_but_ids_trans; [by eapply enumerate_blocks_same|].
    by eapply map_parameters_same. }
  destruct (same_but_ids_inst_rev _ _ _ _ Hsame Hri) as (ri2 & Hri2 & _).
  destruct (same_but_ids_kind _ _ _ _ _ Hsame Hri Hri2) as (Hk2 & Hd2 & _).
  assert (Hlb2 : blocks_last F2 = Some b).
  { destruct Hsame as (_ & _ & _ & _ & _ & _ & _ & ->). done. }
  assert (Hdrop : forall blk2 bvec idx0 cs0 cs1,
             blks F2 !! b = Some blk2 -> cs_return_block cs0 = None ->
             copy_instruction F2 bvec call_ref false idx0 b blk2 cs0 r = Ok cs1 ->
             blks (cs_caller cs1) = blks (cs_caller cs0) /\ cs_fresh cs1 = cs_fresh cs0 /\
             cs_return_block cs1 = None /\
             match o with
             | Some v => exists v', MAP F2 (cs_table cs0) v = Ok v' /\
                                    cs_return_value cs1 = Some v'
             | None => cs_return_value cs1 = cs_return_value cs0
             end).
  { intros blk2 bvec idx0 cs0 cs1 Hblk2 Hrb Hstep.
    destruct (same_but_ids_block_last _ _ _ _ _ Hsame Hblk Hblk2) as (_ & Hins).
    eapply copy_instruction_drops; eauto; try congruence. }
  (* the copy loop *)
  apply copy_instructions_flat in Hcopy as (l & Hl & Hfold).
  rewrite (function_instructions_same _ _ Hsame), Htrav in Hl.
  inversion Hl; subst l; clear Hl.
  rewrite foldM_app in Hfold. apply bind_Ok in Hfold as (cs1 & Hinit1 & Hlaststep).
  simpl in Hlaststep. apply bind_Ok in Hlaststep as (cs2 & Hlaststep & Hcs2).
  inversion Hcs2; subst cs2; clear Hcs2.
  destruct (copy_loop_no_return _ _ _ _ _ _ _ _ Hinit1) as (Erb & Erv & Efr & Etab).
  { intros p inst2 Hp Hinst2.
    destruct (same_but_ids_inst _ _ _ _ Hsame Hinst2) as (inst & Hinst & _).
    destruct (same_but_ids_kind _ _ _ _ _ Hsame Hinst Hinst2) as (-> & _).
    by eapply Hinit. }
  simpl_cs.
  unfold copy_step in Hlaststep. apply bind_Ok in Hlaststep as (blk2 & Hblk2%of_option_Ok & Hlaststep).
  simpl in Hblk2, Hlaststep.
  destruct (Hdrop _ _ _ _ _ Hblk2 Erb Hlaststep) as (_ & Efr' & Erb' & Hrv').
  rewrite Etab in Hrv'. rewrite Erv in Hrv'.
  eexists _, F1, F2, table.
  split; [simpl; apply lookup_insert_eq|].
  split; [done|]. split; [done|].
  split; [simpl; congruence|].
  split.
  { intros blk3 bvec idx0 cs0 cs3 Hb3 Hrb3 Hstep3.
    destruct (Hdrop _ _ _ _ _ Hb3 Hrb3 Hstep3) as (? & ? & ? & _). done. }
  (* the call is gone *)
  pose proof (ir_remove_lookup _ _ _ Hremove) as (Hgone & Hcore5 & _).
  split.
  { apply (free_unused_lookup_None _ _ _ _ _ Hfree). simpl. apply reparent_lookup_None.
    destruct (reattach_insts g5 last_block lb false call_next) as [-> _]. done. }
  (* the record of the call up to the replacement of its uses *)
  assert (Hcall_lt : call_ref < fresh ctx) by (apply Hfresh; eauto).
  set (cs0 := mkCopyState
                (allocate_skeleton
                   (update_block g call_block
                      (fun blk0 => set_instructions_last (last before)
                                     (set_instructions before blk0)))
                   (fresh ctx) (S count) (length (blocks F) - 1) (function cb))
                table None None hist (fresh ctx + S count + (length (blocks F) - 1))) in *.
  assert (Halloc : forall h, h < fresh ctx ->
               insts (cs_caller cs0) !! h = insts g !! h).
  { intros h Hh. unfold cs0. simpl_cs. rewrite allocate_skeleton_insts.
    destruct (decide _); [lia|]. by rewrite insts_update_block. }
  assert (Hloop : foldM (copy_step F2 (call_block :: seq (fresh ctx + S count)
                                          (length (blocks F) - 1)) call_ref false idx)
                        cs0 (init ++ [(b, r)]) = Ok cs).
  { rewrite foldM_app, Hinit1. simpl. unfold copy_step. simpl.
    rewrite (get_block_Some _ _ _ Hblk2). simpl. by rewrite Hlaststep. }
  assert (Husers_call : forall x, x ∈ users c ->
              exists c3, insts g3 !! call_ref = Some c3 /\ x ∈ users c3).
  { intros x Hx.
    destruct (copy_loop_users _ _ _ _ _ _ _ _ call_ref Hloop) as (E & _);
      [unfold cs0; simpl; lia|].
    rewrite Halloc, Hc in E by done. simpl in E.
    destruct (insts (cs_caller cs) !! call_ref) as [c2|] eqn:Hc2; [|discriminate].
    simpl in E. inversion E as [E'].
    eapply fix_up_uses_users; [exact Hfix|exact Hc2|]. by rewrite E'. }
  destruct o as [v|].
  - destruct Hrv' as (v' & Hv' & Hrv). exists v'. split; [done|].
    intros u ru Hu Hucall Huargs Hru.
    assert (Hu_lt : u < fresh ctx) by (apply Hfresh; eauto).
    assert (Hunt : untouched call_ref cs0 u).
    { split; [done|]. split; [|split; [done|unfold cs0; simpl; lia]].
      unfold cs0; simpl. intros Hin.
      destruct (map_parameters_elem _ _ _ _ _ _ _ _ _ _ HF2 Hin) as [Hs|Ha]; [|done].
      apply elem_of_seq in Hs. lia. }
    destruct (copy_loop_frame _ _ _ _ _ _ _ _ _ Hloop Hunt) as (Eu & Hunt').
    rewrite Halloc in Eu by done. rewrite Hru in Eu.
    destruct (users_only_lookup_rev _ _ _ _ (users_only_fix_up_uses _ _ _ _ Hfix) Eu)
      as (ru3 & Hru3 & Hcore3).
    destruct (Husers_call u Hu) as (c3 & Hc3 & Hu3).
    rewrite Hrv in Hremove.
    set (g4 := ir_remove_use g3 v' call_ref) in *.
    clear Hcore5. pose proof (ir_remove_lookup _ _ _ Hremove) as (_ & Hcore5 & _).
    destruct (users_only_lookup_rev _ _ _ _ (users_only_ir_remove_use g3 v' call_ref) Hru3)
      as (ru4 & Hru4 & Hcore4).
    destruct (ir_remove_use_users g3 v' call_ref call_ref c3 u Hc3 Hu3 Hucall)
      as (c4 & Hc4 & Hu4).
    fold g4 in Hru4, Hc4.
    assert (exists ru5, insts (ir_replace_uses g4 call_ref v') !! u = Some ru5 /\
                        kind ru5 = kind ru /\
                        data ru5 = subst_data call_ref v' (data ru))
      as (ru5 & Hru5 & Hk5 & Hd5).
    { unfold core in Hcore3, Hcore4. inversion Hcore3. inversion Hcore4.
      destruct (decide (call_ref = v')) as [<-|Hnv].
      - exists ru4. unfold ir_replace_uses. destruct (decide _); [|done].
        split; [done|]. split; [congruence|]. rewrite subst_data_same. congruence.
      - destruct (ir_replace_uses_lookup g4 call_ref v' c4 u ru4 Hnv Hc4 Hru4 Hucall)
          as (ru5 & Hru5 & Hk5 & _ & Hd5).
        exists ru5. split; [done|]. split; [congruence|].
        rewrite Hd5. destruct (decide (u ∈ users c4)); [congruence|contradiction]. }
    specialize (Hcore5 u Hucall). rewrite Hru5 in Hcore5.
    destruct (insts g5 !! u) as [ru6|] eqn:Hru6; [|discriminate].
    simpl in Hcore5. unfold core in Hcore5. inversion Hcore5.
    destruct (reparent_lookup (reattach g5 last_block lb false call_next)
                last_block call_block false call_next u ru6)
      as (ru7 & Hru7 & Hk7 & Hd7 & _).
    { destruct (reattach_insts g5 last_block lb false call_next) as [-> _]. done. }
    exists ru7. split.
    + rewrite (free_unused_lookup _ _ _ _ _ Hfree); [exact Hru7|].
      by destruct Hunt' as (_ & ? & _).
    + split; congruence.
  - (* a call without value has no users when it is removed *)
    rewrite Hrv' in Hremove. simpl in Hremove.
    destruct (users c) as [|x us] eqn:Hus; [done|].
    destruct (Husers_call x) as (c3 & Hc3 & Hx3); [by left|].
    unfold ir_remove in Hremove. rewrite (get_inst_Some _ _ _ Hc3) in Hremove.
    simpl in Hremove. destruct (users c3); [by apply elem_of_nil in Hx3|discriminate].
Qed.

Lemma single_return_is_substituted_witness :
  exists ctx' ictx',
    ir_inline_call SingleReturn.ctx SingleReturn.ictx 2 20 = Ok (ctx', ictx', true) /\
    exists g' F1 F2 table,
      funcs ctx' !! 2 = Some g' /\
      enumerate_blocks SingleReturn.f 0 0 (blocks SingleReturn.f) = Ok F1 /\
      map_parameters F1 (seq (fresh SingleReturn.ctx) 2) [] 2
        (length (parameters SingleReturn.f)) 0 (parameters SingleReturn.f) = Ok (F2, table) /\
      fresh ctx' = fresh SingleReturn.ctx + 2 + (length (blocks SingleReturn.f) - 1) /\
      (forall blk2 bvec idx cs cs1,
          blks F2 !! 100 = Some blk2 ->
          cs_return_block cs = None ->
          copy_instruction F2 bvec 20 false idx 100 blk2 cs 11 = Ok cs1 ->
          blks (cs_caller cs1) = blks (cs_caller cs) /\
          cs_fresh cs1 = cs_fresh cs /\ cs_return_block cs1 = None) /\
      insts g' !! 20 = None /\
      exists v',
        MAP F2 table 10 = Ok v' /\
        forall u ru,
          u ∈ users (inst IR_CALL (Call 0 (callee_function 1) [] false) 200 [21]) ->
          u <> 20 -> u ∉ ([] : list nat) -> insts SingleReturn.g !! u = Some ru ->
          exists ru',
            insts g' !! u = Some ru' /\ kind ru' = kind ru /\
            data ru' = subst_data 20 v' (data ru).
Proof.
  destruct (ir_inline_call SingleReturn.ctx SingleReturn.ictx 2 20)
    as [[[ctx' ictx'] inlined]| |] eqn:E; vm_compute in E; try discriminate.
  injection E as Ectx Eictx Einl. subst inlined.
  exists ctx', ictx'. split; [reflexivity|].
  refine (single_return_is_substituted SingleReturn.ctx SingleReturn.ictx 2 20 ctx' ictx'
            SingleReturn.g (inst IR_CALL (Call 0 (callee_function 1) [] false) 200 [21])
            0 1 [] SingleReturn.f 1 [(100, 10)] 100 (block [10; 11] 1) 11
            (inst IR_RETURN (Operand (Some 10)) 100 []) (Some 10)
            _ _ _ _ _ _ _ _ _ _ _ _ _ _ _).
  - reflexivity.
  - reflexivity.
  - reflexivity.
  - reflexivity.
  - vm_compute. reflexivity.
  - vm_compute. reflexivity.
  - intros p i Hp%list_elem_of_singleton Hi. subst p. simpl in Hi.
    vm_compute in Hi. injection Hi as <-. discriminate.
  - reflexivity.
  - reflexivity.
  - reflexivity.
  - reflexivity.
  - reflexivity.
  - reflexivity.
  - intros k [x Hx]. apply elem_of_list_to_map_2 in Hx.
    repeat (apply elem_of_cons in Hx as [Hx|Hx]; [injection Hx as -> _; simpl; lia|]).
    by apply elem_of_nil in Hx.
  - subst ctx' ictx'. vm_compute. reflexivity.
Defined.

(** ** Copying the callee for a tail call *)

(** What a successful insertion does. *)
Lemma ir_force_insert_spec f b i f' :
  ir_force_insert_into_block f b i = Ok f' ->
  exists r blk,
    insts f !! i = Some r /\ parent_block r = None /\ blks f !! b = Some blk /\
    insts f' !! i = Some (set_parent_block (Some b) r) /\
    (forall h, h <> i -> insts f' !! h = insts f !! h) /\
    blks f' !! b = Some (set_instructions_last (Some i)
                           (set_instructions (instructions blk ++ [i]) blk)) /\
    (forall x, x <> b -> blks f' !! x = blks f !! x) /\
    blocks f' = blocks f.
Proof.
  intros H. apply ir_force_insert_into_block_inv in H as (r & blk & Hr & Hp & Hblk & ->).
  exists r, blk. split; [done|]. split; [done|]. split; [done|].
  split. { rewrite insts_update_block, lookup_update_inst.
           destruct (decide (i = i)); [|done]. by rewrite Hr. }
  split. { intros h Hh. rewrite insts_update_block, lookup_update_inst.
           by destruct (decide (i = h)); [subst|]. }
  split. { rewrite lookup_update_block. destruct (decide (b = b)); [|done].
           rewrite blks_update_inst, Hblk. done. }
  split; [|done].
  intros x Hx. rewrite lookup_update_block. by destruct (decide (b = x)); [subst|].
Qed.

Lemma blocks_grow_refl g : blocks_grow g g.
Proof. intros x blk H. exists blk, []. by rewrite app_nil_r. Qed.

Lemma blocks_grow_trans g1 g2 g3 : blocks_grow g1 g2 -> blocks_grow g2 g3 -> blocks_grow g1 g3.
Proof.
  intros H12 H23 x blk H. destruct (H12 _ _ H) as (blk2 & l2 & H2 & E2).
  destruct (H23 _ _ H2) as (blk3 & l3 & H3 & E3).
  exists blk3, (l2 ++ l3). split; [done|]. by rewrite E3, E2, app_assoc.
Qed.

Lemma blocks_grow_same g g' : blks g' = blks g -> blocks_grow g g'.
Proof. intros E x blk H. exists blk, []. by rewrite E, app_nil_r. Qed.

Lemma blocks_grow_insert f b i f' :
  ir_force_insert_into_block f b i = Ok f' -> blocks_grow f f'.
Proof.
  intros H. destruct (ir_force_insert_spec _ _ _ _ H)
    as (r & blk & _ & _ & Hblk & _ & _ & Hb & Hother & _).
  intros x blkx Hx. destruct (decide (x = b)) as [->|Hne].
  - assert (blkx = blk) by congruence. subst. eexists _, [i]. split; [exact Hb|done].
  - exists blkx, []. rewrite Hother by done. by rewrite app_nil_r.
Qed.

(** In the copy for a tail call nothing of the return state changes,
    and an instruction that is linked into a block stays as it is. *)
Lemma copy_instruction_tail F bvec call_ref idx b blk cs ih cs' :
  copy_instruction F bvec call_ref true idx b blk cs ih = Ok cs' ->
  (forall h r0, insts (cs_caller cs) !! h = Some r0 -> parent_block r0 <> None ->
                insts (cs_caller cs') !! h = Some r0) /\
  blocks_grow (cs_caller cs) (cs_caller cs') /\
  cs_table cs' = cs_table cs /\ cs_return_value cs' = cs_return_value cs /\
  cs_return_block cs' = cs_return_block cs /\ cs_fresh cs' = cs_fresh cs.
Proof.
  intros H.
  apply copy_instruction_inv in H as (inst & Hinst & [[_ ->]|(Hk & copy & rc & Hcopy & Hrc & Hout)]).
  { split; [done|]. split; [apply blocks_grow_refl|done]. }
  assert (Hgen : forall d dest g2,
             ir_force_insert_into_block
               (update_inst (update_inst (cs_caller cs) copy (copy_common inst)) copy
                  (set_data d)) dest copy = Ok g2 ->
             (forall h r0, insts (cs_caller cs) !! h = Some r0 -> parent_block r0 <> None ->
                           insts g2 !! h = Some r0) /\
             blocks_grow (cs_caller cs) g2).
  { intros d dest g2 Hins. split.
    - intros h r0 Hr0 Hp0.
      destruct (ir_force_insert_spec _ _ _ _ Hins) as (r & _ & Hr & Hp & _ & _ & Hoth & _).
      rewrite !lookup_update_inst in Hr. destruct (decide (copy = copy)); [|done].
      rewrite Hrc in Hr. simpl in Hr. inversion Hr; subst r. simpl in Hp.
      assert (h <> copy) by (intros ->; congruence).
      rewrite Hoth by done. rewrite !lookup_update_inst.
      by destruct (decide (copy = h)); [congruence|].
    - eapply blocks_grow_trans; [|by eapply blocks_grow_insert].
      by apply blocks_grow_same. }
  destruct Hout as [d dest g2 _ _ _ Hins -> | v v' dest g2 _ _ _ _ _ Hins ->
                   | o _ Ht | o cs1 cs2 dest g2 _ Ht]; try discriminate; simpl_cs.
  - destruct (Hgen _ _ _ Hins). by repeat split.
  - destruct (Hgen _ _ _ Hins). by repeat split.
Qed.

Lemma copy_loop_tail F bvec call_ref idx l cs cs' :
  foldM (copy_step F bvec call_ref true idx) cs l = Ok cs' ->
  (forall h r0, insts (cs_caller cs) !! h = Some r0 -> parent_block r0 <> None ->
                insts (cs_caller cs') !! h = Some r0) /\
  blocks_grow (cs_caller cs) (cs_caller cs') /\
  cs_table cs' = cs_table cs /\ cs_return_value cs' = cs_return_value cs /\
  cs_return_block cs' = cs_return_block cs /\ cs_fresh cs' = cs_fresh cs.
Proof.
  revert cs. induction l as [|p l IH]; simpl; intros cs H.
  - inversion H; subst. split; [done|]. split; [apply blocks_grow_refl|done].
  - apply bind_Ok in H as (cs1 & H1 & H).
    unfold copy_step in H1. apply bind_Ok in H1 as (blk & _ & H1).
    destruct (copy_instruction_tail _ _ _ _ _ _ _ _ _ H1) as (L1 & G1 & T1 & V1 & B1 & F1).
    destruct (IH _ H) as (L2 & G2 & T2 & V2 & B2 & F2).
    split; [eauto|]. split; [by eapply blocks_grow_trans|]. repeat split; congruence.
Qed.

(** The copy of a [Return] for a tail call: a [Return] of the mapped
    value, linked into the copy of the block of the [Return]. *)
Lemma copy_instruction_tail_return F bvec call_ref idx b blk cs r cs' rr o :
  copy_instruction F bvec call_ref true idx b blk cs r = Ok cs' ->
  insts F !! r = Some rr -> kind rr = IR_RETURN -> data rr = Operand o ->
  exists v copy v' dest rc blk',
    o = Some v /\ MAP F (cs_table cs) r = Ok copy /\ MAP F (cs_table cs) v = Ok v' /\
    MAP_BLOCK F bvec b = Ok dest /\
    insts (cs_caller cs') !! copy = Some rc /\ kind rc = IR_RETURN /\
    data rc = Operand (Some v') /\ parent_block rc = Some dest /\
    blks (cs_caller cs') !! dest = Some blk' /\ copy ∈ instructions blk' /\
    (exists rc0, insts (cs_caller cs) !! copy = Some rc0 /\ parent_block rc0 = None).
Proof.
  intros H Hrr Hk Hd.
  apply copy_instruction_inv in H as (inst & Hinst & [[Hp _]|(_ & copy & rc & Hcopy & Hrc & Hout)]).
  { congruence. }
  assert (inst = rr) by congruence. subst inst.
  destruct Hout as [d dest g2 Hc | v v' dest g2 _ _ Hdv Hv' Hdest Hins ->
                   | o' _ Ht | o' cs1 cs2 dest g2 _ Ht]; try discriminate.
  { rewrite Hk in Hc. by simpl in Hc. }
  destruct (ir_force_insert_spec _ _ _ _ Hins)
    as (r0 & blk0 & Hr0 & Hp0 & _ & Hcopy' & _ & Hblk' & _ & _).
  rewrite !lookup_update_inst in Hr0. destruct (decide (copy = copy)); [|done].
  rewrite Hrc in Hr0. simpl in Hr0. inversion Hr0; subst r0. simpl in Hp0.
  exists v, copy, v', dest. eexists _, _.
  split; [congruence|]. split.
  { unfold MAP. rewrite (get_inst_Some _ _ _ Hrr). simpl. by rewrite Hcopy. }
  split; [done|]. split; [done|]. simpl_cs.
  split; [exact Hcopy'|]. split; [simpl; congruence|]. split; [done|]. split; [done|].
  split; [exact Hblk'|]. split.
  { simpl. apply elem_of_app. right. by left. }
  eauto.
Qed.

(** ** Removing the instructions behind a tail call *)

Lemma shrinks_refl f : shrinks f f.
Proof. split; [|split]; eauto. Qed.

Lemma shrinks_trans f1 f2 f3 : shrinks f1 f2 -> shrinks f2 f3 -> shrinks f1 f3.
Proof.
  intros (I12 & B12 & E12) (I23 & B23 & E23). split; [|split; [|congruence]].
  - intros x r3 H3. destruct (I23 _ _ H3) as (r2 & H2 & C2 & U2).
    destruct (I12 _ _ H2) as (r1 & H1 & C1 & U1).
    exists r1. split; [done|]. split; [congruence|]. auto.
  - intros b k3 H3. destruct (B23 _ _ H3) as (k2 & H2 & U2).
    destruct (B12 _ _ H2) as (k1 & H1 & U1). exists k1. split; [done|]. auto.
Qed.

Lemma shrinks_ir_remove_use f a b : shrinks f (ir_remove_use f a b).
Proof.
  split; [|split; [|done]]; [|eauto].
  intros x rx'. unfold ir_remove_use. rewrite lookup_update_inst.
  destruct (decide (a = x)) as [->|]; [|eauto].
  destruct (insts f !! x) as [rx|]; simpl; [|done]. intros [= <-].
  exists rx. split; [done|]. split; [done|]. simpl.
  intros y Hy%list_elem_of_filter. tauto.
Qed.

Lemma shrinks_foldl {A} (step : IRFunction -> A -> IRFunction) (l : list A) f :
  (forall f0 x, shrinks f0 (step f0 x)) -> shrinks f (foldl step f l).
Proof.
  intros Hstep. revert f. induction l as [|x l IH]; simpl; intros f.
  - apply shrinks_refl.
  - eapply shrinks_trans; [apply Hstep|apply IH].
Qed.

Lemma shrinks_ir_unmark_usees f i : shrinks f (ir_unmark_usees f i).
Proof.
  unfold ir_unmark_usees. destruct (insts f !! i); [|apply shrinks_refl].
  apply shrinks_foldl. intros. apply shrinks_ir_remove_use.
Qed.

(** After [ir_unmark_usees(i)] no operand of [i] has [i] as a user. *)
Lemma ir_unmark_usees_spec f i r x rx' :
  insts f !! i = Some r -> x ∈ operands (data r) ->
  insts (ir_unmark_usees f i) !! x = Some rx' -> i ∉ users rx'.
Proof.
  intros Hr. unfold ir_unmark_usees. rewrite Hr. clear Hr.
  revert f. induction (operands (data r)) as [|a l IH]; simpl; intros f Hx Hrx'.
  - by apply elem_of_nil in Hx.
  - apply elem_of_cons in Hx as [->|Hx]; [|by eapply IH].
    pose proof (shrinks_foldl (fun f' usee => ir_remove_use f' usee i) l
                  (ir_remove_use f a i) (fun f0 y => shrinks_ir_remove_use f0 y i))
      as (Hs & _).
    destruct (Hs _ _ Hrx') as (rx & Hrx & _ & Hsub).
    unfold ir_remove_use in Hrx. rewrite lookup_update_inst in Hrx.
    destruct (decide (a = a)); [|done].
    destruct (insts f !! a) as [ra|]; simpl in Hrx; [|done]. inversion Hrx; subst rx.
    intros Hin. apply Hsub in Hin. simpl in Hin.
    apply list_elem_of_filter in Hin. tauto.
Qed.

Lemma ir_remove_spec f i f' :
  ir_remove f i = Ok f' ->
  shrinks f f' /\ keeps [i] f f' /\ insts f' !! i = None /\
  exists r,
    insts f !! i = Some r /\
    (forall x rx', x ∈ operands (data r) -> insts f' !! x = Some rx' -> i ∉ users rx') /\
    (forall pb blk', parent_block r = Some pb -> blks f' !! pb = Some blk' ->
                     i ∉ instructions blk').
Proof.
  unfold ir_remove. intros H. apply bind_Ok in H as (r & Hr%of_option_Ok & H).
  destruct (users r); [|discriminate]. inversion H; subst f'; clear H.
  pose proof (shrinks_ir_unmark_usees f i) as (Hs1 & Hs2 & Hs3).
  pose proof (users_only_ir_unmark_usees f i) as (Hb & Hbs & Hc).
  set (f1 := ir_unmark_usees f i) in *.
  set (f2 := match parent_block r with
             | Some b => update_block f1 b (unlink i)
             | None => f1
             end).
  assert (Hi2 : insts f2 = insts f1) by (unfold f2; by destruct (parent_block r)).
  assert (Hbl2 : blocks f2 = blocks f1) by (unfold f2; by destruct (parent_block r)).
  assert (Hb2 : forall b, blks f2 !! b
                = if decide (parent_block r = Some b)
                  then unlink i <$> blks f !! b
                  else blks f !! b).
  { intros b. unfold f2. destruct (parent_block r) as [pb|].
    - rewrite lookup_update_block, Hb.
      destruct (decide (pb = b)) as [->|]; destruct (decide _); congruence.
    - rewrite Hb. by destruct (decide _). }
  split; [|split; [|split]].
  - split; [|split].
    + intros x rx' Hx. simpl in Hx. apply lookup_delete_Some in Hx as [_ Hx].
      rewrite Hi2 in Hx. eauto.
    + intros b blk' Hblk'. simpl in Hblk'. rewrite Hb2 in Hblk'.
      destruct (decide _); [|eauto].
      destruct (blks f !! b) as [blk|]; simpl in Hblk'; [|done]. inversion Hblk'.
      exists blk. split; [done|]. simpl. intros y Hy%list_elem_of_filter. tauto.
    + simpl. congruence.
  - split.
    + intros h rh Hh Hni. simpl. rewrite lookup_delete_ne.
      2:{ intros ->. apply Hni. by left. }
      rewrite Hi2. specialize (Hc h). rewrite Hh in Hc.
      destruct (insts f1 !! h) as [rh'|]; [|simpl in Hc; discriminate].
      exists rh'. split; [done|]. simpl in Hc. congruence.
    + intros b blk y Hblk Hy Hni. simpl. rewrite Hb2, Hblk.
      destruct (decide _); simpl; eexists; (split; [reflexivity|]); [|done].
      simpl. apply list_elem_of_filter. split; [|done]. intros ->. apply Hni. by left.
  - simpl. apply lookup_delete_eq.
  - exists r. split; [done|]. split.
    + intros x rx' Hx Hrx'. simpl in Hrx'. apply lookup_delete_Some in Hrx' as [_ Hrx'].
      rewrite Hi2 in Hrx'. by eapply ir_unmark_usees_spec.
    + intros pb blk' Hp Hblk'. simpl in Hblk'. rewrite Hb2 in Hblk'.
      destruct (decide _); [|congruence].
      destruct (blks f !! pb) as [blk|]; simpl in Hblk'; [|done]. inversion Hblk'. simpl.
      intros Hin%list_elem_of_filter. tauto.
Qed.

Lemma shrinks_lookup_None f f' x : shrinks f f' -> insts f !! x = None -> insts f' !! x = None.
Proof.
  intros (Hs & _) H. destruct (insts f' !! x) as [r|] eqn:E; [|done].
  destruct (Hs _ _ E) as (r0 & Hr0 & _). congruence.
Qed.

Lemma remove_after_call_spec g l g' :
  remove_after_call g l = Ok g' ->
  shrinks g g' /\ keeps l g g' /\
  forall s, s ∈ l ->
    insts g' !! s = None /\
    exists rs,
      insts g !! s = Some rs /\
      (forall x rx', x ∈ operands (data rs) -> insts g' !! x = Some rx' -> s ∉ users rx') /\
      (forall pb blk', parent_block rs = Some pb -> blks g' !! pb = Some blk' ->
                       s ∉ instructions blk').
Proof.
  unfold remove_after_call. revert g. induction l as [|s0 l IH]; simpl; intros g H.
  - inversion H; subst. split; [apply shrinks_refl|]. split.
    + split; eauto.
    + intros s Hs. by apply elem_of_nil in Hs.
  - apply bind_Ok in H as (g2 & H2 & H).
    destruct (IH _ H) as (S2 & K2 & P2). clear IH.
    pose proof (shrinks_ir_unmark_usees g s0) as S0.
    pose proof (users_only_ir_unmark_usees g s0) as U0.
    set (g1 := ir_unmark_usees g s0) in *.
    destruct (ir_remove_spec _ _ _ H2) as (S1 & K1 & N1 & r1 & Hr1 & Hu1 & Hb1).
    assert (S02 : shrinks g g2) by (by eapply shrinks_trans).
    split; [by eapply shrinks_trans|]. split.
    { destruct K1 as (K1i & K1b), K2 as (K2i & K2b). split.
      - intros h r Hh Hni. apply not_elem_of_cons in Hni as [Hne Hni].
        destruct (users_only_lookup_rev _ _ _ _ U0 Hh) as (ra & Hra & Ca).
        destruct (K1i _ _ Hra) as (rb & Hrb & Cb).
        { intros Hin%list_elem_of_singleton. done. }
        destruct (K2i _ _ Hrb Hni) as (rc & Hrc & Cc).
        exists rc. split; [done|]. congruence.
      - intros b blk y Hblk Hy Hni. apply not_elem_of_cons in Hni as [Hne Hni].
        destruct U0 as (Eb & _ & _).
        destruct (K1b b blk y) as (blk1 & Hblk1 & Hy1); [by rewrite Eb|done| |].
        { intros Hin%list_elem_of_singleton. done. }
        by eapply K2b. }
    intros s Hs. apply elem_of_cons in Hs as [->|Hs].
    + split; [by eapply shrinks_lookup_None|].
      destruct (users_only_lookup _ _ _ _ U0 Hr1) as (rs & Hrs & Cs).
      unfold core in Cs. inversion Cs as [[Ek Et Ef Ed Ei Ep]].
      exists rs. split; [done|]. destruct S2 as (S2i & S2b & _). split.
      * intros x rx' Hx Hrx'. destruct (S2i _ _ Hrx') as (rx2 & Hrx2 & _ & Hsub).
        intros Hin. apply Hsub in Hin. revert Hin. eapply Hu1; [|exact Hrx2]. congruence.
      * intros pb blk' Hp Hblk'. destruct (S2b _ _ Hblk') as (blk2 & Hblk2 & Hsub).
        intros Hin. apply Hsub in Hin. revert Hin. eapply Hb1; [|exact Hblk2]. congruence.
    + destruct (P2 s Hs) as (Hn & rs2 & Hrs2 & Hu2 & Hb2). split; [done|].
      destruct S02 as (S02i & _). destruct (S02i _ _ Hrs2) as (rs & Hrs & Cs & _).
      unfold core in Cs. inversion Cs as [[Ek Et Ef Ed Ei Ep]].
      exists rs. split; [done|]. split.
      * intros x rx' Hx. apply Hu2. congruence.
      * intros pb blk' Hp. apply Hb2. congruence.
Qed.

Lemma reattach_tail g5 last_block lb call_next :
  reattach g5 last_block lb true call_next = g5.
Proof. unfold reattach. by destruct (instructions_last lb). Qed.

Lemma reparent_tail g7 last_block call_block call_next :
  reparent g7 last_block call_block true call_next = g7.
Proof. unfold reparent. destruct (decide _) as [[_ ?]|]; [discriminate|done]. Qed.

(** The inlining of a tail call has returned.  Then every [Return] of
    the callee carries a value and is copied as a [Return] of the mapped
    value, linked into the copy of its block; every instruction behind
    the call in the block of the call is removed: its storage is
    released, none of its operands has it as a user any more, and the
    block of the call does not hold it; and the call had no user: the
    inlining of a tail call whose value is used, or whose callee returns
    no value, does not return. *)
Theorem tail_call_keeps_returns :
  forall ctx ictx fr call_ref ctx' ictx' g c n callee_ref args F count
         call_block cb before call_next,
    funcs ctx !! fr = Some g ->
    insts g !! call_ref = Some c ->
    data c = Call n (callee_function callee_ref) args true ->
    funcs ctx !! callee_ref = Some F ->
    instruction_count F true = Ok (S count) ->
    parent_block c = Some call_block ->
    blks g !! call_block = Some cb ->
    split_at call_ref (instructions cb) = Some (before, call_next) ->
    (forall s, s ∈ call_next ->
       exists rs, insts g !! s = Some rs /\ parent_block rs = Some call_block) ->
    (forall k, is_Some (insts g !! k) -> k < fresh ctx) ->
    ir_inline_call ctx ictx fr call_ref = Ok (ctx', ictx', true) ->
    exists g' F1 F2 table,
      funcs ctx' !! fr = Some g' /\
      enumerate_blocks F 0 0 (blocks F) = Ok F1 /\
      map_parameters F1 (seq (fresh ctx) (S count)) args (S count)
        (length (parameters F)) 0 (parameters F) = Ok (F2, table) /\
      (forall l b r rr o,
          function_instructions F = Ok l -> (b, r) ∈ l ->
          insts F !! r = Some rr -> kind rr = IR_RETURN -> data rr = Operand o ->
          exists v copy v' dest rc blk',
            o = Some v /\ MAP F2 table r = Ok copy /\ MAP F2 table v = Ok v' /\
            MAP_BLOCK F2 (call_block :: seq (fresh ctx + S count) (length (blocks F) - 1)) b
            = Ok dest /\
            insts g' !! copy = Some rc /\ kind rc = IR_RETURN /\
            data rc = Operand (Some v') /\
            blks g' !! dest = Some blk' /\ copy ∈ instructions blk') /\
      (forall s, s ∈ call_next ->
          insts g' !! s = None /\
          (forall rs x rx',
              insts g !! s = Some rs -> x ∈ operands (data rs) ->
              insts g' !! x = Some rx' -> s ∉ users rx') /\
          (forall cb', blks g' !! call_block = Some cb' -> s ∉ instructions cb')) /\
      users c = [].
Proof.
  intros ctx ictx fr call_ref ctx' ictx' g c n callee_ref args F count
    call_block cb before call_next Hg Hc Hd HF Hcount Hpar Hcb Hsplit Hsuffix Hfresh Hcall.
  destruct (ir_inline_call_inv _ _ _ _ _ _ _ _ _ _ _ _ _ _ Hg Hc Hd HF Hcount Hcall)
    as (Hne & hist & idx & Htp & _).
  destruct Htp as [call_block' cb' before' call_next' F1 F2 table cs g3 g5 last_block lb g7
                     g' Hparent' Hcb' Hsplit' HF1 HF2 Hcopy Hfix Hremove Hlast Hlbk Hafter
                     Hfree -> ->].
  assert (call_block' = call_block) by congruence. subst call_block'.
  assert (cb' = cb) by congruence. subst cb'.
  assert (before' = before /\ call_next' = call_next) as [-> ->] by (split; congruence).
  simpl in Hafter. rewrite reattach_tail in Hafter.
  assert (Hsame : same_but_ids F F2).
  { eapply same_but_ids_trans; [by eapply enumerate_blocks_same|].
    by eapply map_parameters_same. }
  set (bvec := call_block :: seq (fresh ctx + S count) (length (blocks F) - 1)) in *.
  set (cs0 := mkCopyState
                (allocate_skeleton
                   (update_block g call_block
                      (fun blk0 => set_instructions_last (last before)
                                     (set_instructions before blk0)))
                   (fresh ctx) (S count) (length (blocks F) - 1) (function cb))
                table None None hist (fresh ctx + S count + (length (blocks F) - 1))) in *.
  assert (Halloc : forall h, h < fresh ctx -> insts (cs_caller cs0) !! h = insts g !! h).
  { intros h Hh. unfold cs0. simpl_cs. rewrite allocate_skeleton_insts.
    destruct (decide _); [lia|]. by rewrite insts_update_block. }
  apply copy_instructions_flat in Hcopy as (l & Hl & Hfold).
  rewrite (function_instructions_same _ _ Hsame) in Hl.
  destruct (copy_loop_tail _ _ _ _ _ _ _ Hfold) as (Hlinked & Hgrow & Etab & Erv & Erb & Efr).
  simpl in Erv. rewrite Erv in Hremove.
  pose proof (users_only_fix_up_uses _ _ _ _ Hfix) as Hfix_only.
  destruct (ir_remove_spec _ _ _ Hremove) as (S35 & K35 & N5 & _).
  destruct (remove_after_call_spec _ _ _ Hafter) as (S57 & K57 & P57).
  assert (Hg'_blks : blks g' = blks g7).
  { rewrite (free_unused_blks _ _ _ _ Hfree). simpl. by rewrite reparent_tail. }
  assert (Hg'_some : forall x rx, insts g' !! x = Some rx -> insts g7 !! x = Some rx).
  { intros x rx Hx. apply (free_unused_lookup_Some _ _ _ _ _ _ Hfree) in Hx. simpl in Hx.
    by rewrite reparent_tail in Hx. }
  (* the instructions behind the call, as they reach their removal *)
  assert (Hsfx : forall s, s ∈ call_next ->
             exists rs rs5, insts g !! s = Some rs /\ parent_block rs = Some call_block /\
                            insts (cs_caller cs) !! s = Some rs /\
                            insts g5 !! s = Some rs5 /\ core rs5 = core rs).
  { intros s Hs. destruct (Hsuffix s Hs) as (rs & Hrs & Hprs).
    assert (s < fresh ctx) by (apply Hfresh; eauto).
    assert (Hcs : insts (cs_caller cs) !! s = Some rs).
    { apply Hlinked; [by rewrite Halloc|congruence]. }
    destruct (P57 s Hs) as (_ & rs5 & Hrs5 & _).
    destruct S35 as (S35i & _). destruct (S35i _ _ Hrs5) as (rs3 & Hrs3 & C3 & _).
    destruct (users_only_lookup _ _ _ _ Hfix_only Hrs3) as (rs' & Hrs' & C').
    assert (rs' = rs) by congruence. subst rs'.
    exists rs, rs5. repeat split; try done. congruence. }
  assert (Hunused : users c = []).
  { destruct (users c) as [|x us] eqn:Hus; [done|]. exfalso.
    assert (Hcall_lt : call_ref < fresh ctx) by (apply Hfresh; eauto).
    destruct (copy_loop_users _ _ _ _ _ _ _ _ call_ref Hfold) as (E & _);
      [unfold cs0; simpl; lia|].
    rewrite Halloc, Hc in E by done. simpl in E.
    destruct (insts (cs_caller cs) !! call_ref) as [c2|] eqn:Hc2; [|discriminate].
    simpl in E. inversion E as [E'].
    destruct (fix_up_uses_users _ _ _ _ call_ref c2 x Hfix Hc2) as (c3 & Hc3 & Hx3).
    { rewrite E', Hus. by left. }
    unfold ir_remove in Hremove. rewrite (get_inst_Some _ _ _ Hc3) in Hremove.
    simpl in Hremove. destruct (users c3); [by apply elem_of_nil in Hx3|discriminate]. }
  exists g', F1, F2, table.
  split; [simpl; apply lookup_insert_eq|]. split; [done|]. split; [done|].
  split; [|split; [|exact Hunused]].
  - (* the returns *)
    intros l0 b r rr o Hl0 Hin Hrr Hk Hdo.
    assert (l0 = l) by congruence. subst l0.
    apply list_elem_of_split in Hin as (l1 & l2 & ->).
    rewrite foldM_app in Hfold. apply bind_Ok in Hfold as (cs_a & Ha & Hfold).
    simpl in Hfold. apply bind_Ok in Hfold as (cs_b & Hstep & Hrest).
    unfold copy_step in Hstep. apply bind_Ok in Hstep as (blk2 & _ & Hstep).
    simpl in Hstep.
    destruct (copy_loop_tail _ _ _ _ _ _ _ Ha) as (Hlinked_a & _ & Etab_a & _).
    destruct (copy_loop_tail _ _ _ _ _ _ _ Hrest) as (Hlinked_r & Hgrow_r & _).
    destruct (same_but_ids_inst_rev _ _ _ _ Hsame Hrr) as (rr2 & Hrr2 & _).
    destruct (same_but_ids_kind _ _ _ _ _ Hsame Hrr Hrr2) as (Hk2 & Hd2 & _).
    destruct (copy_instruction_tail_return _ _ _ _ _ _ _ _ _ rr2 o Hstep Hrr2)
      as (v & copy & v' & dest & rc & blkd & -> & Hmap & Hmapv & Hdest & Hrc & Hkc & Hdc
          & Hpc & Hblkd & Hcopyin & rc0 & Hrc0 & Hp0); [congruence|congruence|].
    rewrite Etab_a in Hmap, Hmapv. simpl in Hmap, Hmapv.
    (* the copy is neither the call nor behind it *)
    assert (Hnew : forall h rh, insts g !! h = Some rh -> parent_block rh <> None ->
                      copy <> h).
    { intros h rh Hh Hph ->.
      assert (insts (cs_caller cs_a) !! h = Some rh).
      { apply Hlinked_a; [|done]. rewrite Halloc; [done|]. apply Hfresh. eauto. }
      congruence. }
    assert (Hcs_copy : insts (cs_caller cs) !! copy = Some rc).
    { apply Hlinked_r; [done|congruence]. }
    destruct (Hgrow_r _ _ Hblkd) as (blkd' & ld & Hblkd' & Eld).
    destruct (users_only_lookup_rev _ _ _ _ Hfix_only Hcs_copy) as (rc3 & Hrc3 & C3).
    destruct K35 as (K35i & K35b). destruct K57 as (K57i & K57b).
    destruct (K35i _ _ Hrc3) as (rc5 & Hrc5 & C5).
    { intros Hin%list_elem_of_singleton. eapply (Hnew call_ref); [exact Hc| |done]. congruence. }
    assert (Hnot_sfx : copy ∉ call_next).
    { intros Hin. destruct (Hsuffix _ Hin) as (rs & Hrs & Hprs).
      eapply (Hnew copy); [exact Hrs| |done]. congruence. }
    destruct (K57i _ _ Hrc5 Hnot_sfx) as (rc7 & Hrc7 & C7).
    assert (Hcore : core rc7 = core rc) by congruence.
    unfold core in Hcore. inversion Hcore as [[Ek Et Ef Ed Ei Ep]].
    destruct (K35b dest blkd' copy) as (blk5 & Hblk5 & Hin5).
    { destruct Hfix_only as (-> & _). done. }
    { rewrite Eld. apply elem_of_app. by left. }
    { intros Hin%list_elem_of_singleton. eapply (Hnew call_ref); [exact Hc| |done]. congruence. }
    destruct (K57b _ _ _ Hblk5 Hin5 Hnot_sfx) as (blk7 & Hblk7 & Hin7).
    exists v, copy, v', dest, rc7, blk7.
    split; [done|]. split; [done|]. split; [done|]. split; [done|].
    split.
    { apply (free_unused_linked _ _ _ _ _ _ Hfree); [simpl; by rewrite reparent_tail|].
      congruence. }
    split; [congruence|]. split; [congruence|]. split; [by rewrite Hg'_blks|done].
  - (* the instructions behind the call *)
    intros s Hs. destruct (Hsfx s Hs) as (rs & rs5 & Hrs & Hprs & _ & Hrs5 & C5).
    destruct (P57 s Hs) as (Hn7 & rs5' & Hrs5' & Hu7 & Hb7).
    assert (rs5' = rs5) by congruence. subst rs5'.
    unfold core in C5. inversion C5 as [[Ek Et Ef Ed Ei Ep]].
    split.
    { apply (free_unused_lookup_None _ _ _ _ _ Hfree). simpl. by rewrite reparent_tail. }
    split.
    + intros rs0 x rx' Hrs0 Hx Hrx'. assert (rs0 = rs) by congruence. subst rs0.
      eapply Hu7; [|by apply Hg'_some]. congruence.
    + intros cb1 Hcb1. rewrite Hg'_blks in Hcb1. eapply Hb7; [|exact Hcb1]. congruence.
Qed.

Lemma tail_call_keeps_returns_witness :
  exists ctx' ictx' g' F2 table,
    ir_inline_call TailCall.ctx TailCall.ictx 2 20 = Ok (ctx', ictx', true) /\
    funcs ctx' !! 2 = Some g' /\
    (exists copy v' dest rc blk',
        MAP F2 table 11 = Ok copy /\ MAP F2 table 10 = Ok v' /\
        MAP_BLOCK F2 (200 :: seq (fresh TailCall.ctx + 2) (length (blocks TailCall.f) - 1)) 100
        = Ok dest /\
        insts g' !! copy = Some rc /\ kind rc = IR_RETURN /\
        data rc = Operand (Some v') /\
        blks g' !! dest = Some blk' /\ copy ∈ instructions blk') /\
    insts g' !! 21 = None /\
    (forall cb', blks g' !! 200 = Some cb' -> 21 ∉ instructions cb').
Proof.
  destruct (ir_inline_call TailCall.ctx TailCall.ictx 2 20)
    as [[[ctx' ictx'] inlined]| |] eqn:E; vm_compute in E; try discriminate.
  injection E as Ectx Eictx Einl. subst inlined.
  destruct (tail_call_keeps_returns TailCall.ctx TailCall.ictx 2 20 ctx' ictx'
              TailCall.g (inst IR_CALL (Call 0 (callee_function 1) [] true) 200 [])
              0 1 [] TailCall.f 1 200 (block [20; 21] 2) [] [21])
    as (g' & F1 & F2 & table & Hg' & _ & _ & Hret & Hsfx & _).
  - reflexivity.
  - reflexivity.
  - reflexivity.
  - reflexivity.
  - vm_compute. reflexivity.
  - reflexivity.
  - reflexivity.
  - vm_compute. reflexivity.
  - intros s Hs%list_elem_of_singleton. subst s.
    exists (inst IR_RETURN (Operand None) 200 []). split; reflexivity.
  - intros k [x Hx]. apply elem_of_list_to_map_2 in Hx.
    repeat (apply elem_of_cons in Hx as [Hx|Hx]; [injection Hx as -> _; simpl; lia|]).
    by apply elem_of_nil in Hx.
  - subst ctx' ictx'. vm_compute. reflexivity.
  - exists ctx', ictx', g', F2, table.
    split; [reflexivity|]. split; [exact Hg'|].
    destruct (Hret [(100, 10); (100, 11)] 100 11
                (inst IR_RETURN (Operand (Some 10)) 100 []) (Some 10))
      as (v & copy & v' & dest & rc & blk' & Ev & H1 & H2 & H3 & H4 & H5 & H6 & H7 & H8).
    + vm_compute. reflexivity.
    + apply elem_of_cons. right. apply elem_of_cons. by left.
    + reflexivity.
    + reflexivity.
    + reflexivity.
    + injection Ev as <-.
      destruct (Hsfx 21) as (Hn & _ & Hb); [by apply list_elem_of_singleton|].
      split; [by exists copy, v', dest, rc, blk'|]. split; [exact Hn|exact Hb].
Defined.

(** ** A callee that received an inlining before *)

Lemma chain_evaluated :
  (do s1 <- ir_inline_call Chain.ctx Chain.ictx 2 20;
   do f1 <- of_option (funcs s1.1.1 !! 2);
   do s2 <- ir_inline_call s1.1.1 Chain.ictx 3 30;
   do l2 <- of_option (funcs s2.1.1 !! 3);
   do r <- run_inliner 2 Chain.ctx 0 true;
   do lr <- of_option (funcs r.1 !! 3);
   do s3 <- ir_inline_call
              (set_func s1.1.1 2 (update_block f1 200 (set_instructions_last (Some 21))))
              Chain.ictx 3 30;
   do l3 <- of_option (funcs s3.1.1 !! 3);
   Ok (s1.2, (blocks f1, blocks_last f1, function_instructions f1),
       (inst_view f1 1000, inst_view f1 21, block_view f1 200),
       (s2.2, fresh s2.1.1, block_view l2 300, block_view l2 1004),
       (inst_view l2 1003, inst_view l2 1005, inst_view l2 31),
       (r.2, fresh r.1, block_view lr 300, block_view lr 1004),
       (inst_view lr 1003, inst_view lr 1005, inst_view lr 31),
       (s3.2, fresh s3.1.1, block_view l3 300, block_view l3 1004, inst_view l3 31)))
  = Ok (true, ([200], Some 200, Ok [(200, 1000); (200, 21)]),
        (Some (IR_IMMEDIATE, Imm 7), Some (IR_RETURN, Operand (Some 1000)),
         Some ([1000; 21], Some 1000)),
        (true, 1006, Some ([1002; 1003], Some 1003), Some ([1005; 31], Some 1005)),
        (Some (IR_BRANCH, Branch 1004), Some (IR_PHI, Phi [(200, 1002)]),
         Some (IR_RETURN, Operand (Some 1005))),
        (mkResult true false, 1006, Some ([1002; 1003], Some 1003),
         Some ([1005; 31], Some 1005)),
        (Some (IR_BRANCH, Branch 1004), Some (IR_PHI, Phi [(200, 1002)]),
         Some (IR_RETURN, Operand (Some 1005))),
        (true, 1004, Some ([1002; 31], Some 1002), None,
         Some (IR_RETURN, Operand (Some 1002)))).
Proof. vm_compute. reflexivity. Qed.

(** C5, evaluated on a chain of three functions, [l] calling [f] and [f]
    calling [g], each ending in its only [Return].  The pass over [f]
    inlines the call to [g] by substitution, and leaves the stored
    [last] of the block of [f] at the copy 1000 although the [Return] 21
    follows it (lines 379-384).  When the pass over [l] then inlines the
    call to [f], whose only [Return] is the last instruction of its last
    block, line 309 compares with the stored [last]: the [Return] is not
    dropped but copied as the branch 1003 to a return block 1004 with
    the PHI 1005, and the use of the call names the PHI instead of the
    copy 1002 of the returned value.  The whole run leaves [l] in this
    state.  With the stored [last] of the block of [f] brought up to
    date, the same call is inlined by substitution. *)
Theorem stale_last_makes_return_block :
  exists ctx1 ictx1 f1 ctx2 ictx2 l2 ctx' l' ctx3 ictx3 l3,
    ir_inline_call Chain.ctx Chain.ictx 2 20 = Ok (ctx1, ictx1, true) /\
    funcs ctx1 !! 2 = Some f1 /\
    blocks f1 = [200] /\ blocks_last f1 = Some 200 /\
    function_instructions f1 = Ok [(200, 1000); (200, 21)] /\
    inst_view f1 1000 = Some (IR_IMMEDIATE, Imm 7) /\
    inst_view f1 21 = Some (IR_RETURN, Operand (Some 1000)) /\
    block_view f1 200 = Some ([1000; 21], Some 1000) /\
    ir_inline_call ctx1 Chain.ictx 3 30 = Ok (ctx2, ictx2, true) /\
    funcs ctx2 !! 3 = Some l2 /\
    fresh ctx2 = 1006 /\
    block_view l2 300 = Some ([1002; 1003], Some 1003) /\
    block_view l2 1004 = Some ([1005; 31], Some 1005) /\
    inst_view l2 1003 = Some (IR_BRANCH, Branch 1004) /\
    inst_view l2 1005 = Some (IR_PHI, Phi [(200, 1002)]) /\
    inst_view l2 31 = Some (IR_RETURN, Operand (Some 1005)) /\
    run_inliner 2 Chain.ctx 0 true = Ok (ctx', mkResult true false) /\
    funcs ctx' !! 3 = Some l' /\
    fresh ctx' = 1006 /\
    block_view l' 300 = Some ([1002; 1003], Some 1003) /\
    block_view l' 1004 = Some ([1005; 31], Some 1005) /\
    inst_view l' 1003 = Some (IR_BRANCH, Branch 1004) /\
    inst_view l' 1005 = Some (IR_PHI, Phi [(200, 1002)]) /\
    inst_view l' 31 = Some (IR_RETURN, Operand (Some 1005)) /\
    ir_inline_call
      (set_func ctx1 2 (update_block f1 200 (set_instructions_last (Some 21))))
      Chain.ictx 3 30 = Ok (ctx3, ictx3, true) /\
    funcs ctx3 !! 3 = Some l3 /\
    fresh ctx3 = 1004 /\
    block_view l3 300 = Some ([1002; 31], Some 1002) /\
    block_view l3 1004 = None /\
    inst_view l3 31 = Some (IR_RETURN, Operand (Some 1002)).
Proof.
  pose proof chain_evaluated as H.
  apply bind_Ok in H as ([[ctx1 ictx1] b1] & E1 & H). cbn [fst snd] in H.
  apply bind_Ok in H as (f1 & Ef1%of_option_Ok & H).
  apply bind_Ok in H as ([[ctx2 ictx2] b2] & E2 & H). cbn [fst snd] in H.
  apply bind_Ok in H as (l2 & El2%of_option_Ok & H).
  apply bind_Ok in H as ([ctx' res] & Er & H). cbn [fst snd] in H.
  apply bind_Ok in H as (l' & El'%of_option_Ok & H).
  apply bind_Ok in H as ([[ctx3 ictx3] b3] & E3 & H). cbn [fst snd] in H.
  apply bind_Ok in H as (l3 & El3%of_option_Ok & H).
  injection H as -> ? ? ? ? ? ? -> ? ? ? ? ? ? -> ? ? ? ? ? ? -> ? ? ? ?.
  exists ctx1, ictx1, f1, ctx2, ictx2, l2, ctx', l', ctx3, ictx3, l3.
  repeat split; assumption.
Qed.

Lemma void_chain_evaluated :
  (do r <- run_inliner 2 ChainVoid.ctx 0 true;
   do f' <- of_option (funcs r.1 !! 2);
   do l' <- of_option (funcs r.1 !! 3);
   Ok (r.2, fresh r.1, block_view f' 200,
       (blocks l', function_instructions l', block_view l' 300, block_view l' 1004),
       (inst_view l' 1003, inst_view l' 31, parent_block <$> insts l' !! 31)))
  = Ok (mkResult true false, 1005, Some ([1000; 21], Some 1000),
        ([300], Ok [(300, 1002); (300, 1003)], Some ([1002; 1003], Some 1003),
         Some ([], None)),
        (Some (IR_BRANCH, Branch 1004), Some (IR_RETURN, Operand None),
         Some (Some 1004))).
Proof. vm_compute. reflexivity. Qed.

(** The same chain of three functions without values.  The pass over [f]
    leaves the stored [last] of its block at the copy 1000, and the pass
    over [l] copies the only [Return] of [f] as the branch 1003 to a
    return block 1004, which stays empty.  An empty last block has no
    last instruction to link the rest of the caller to (lines 379-384):
    the [Return] 31 of [l] names the return block as its parent (lines
    405-408), but is in the list of no block, and the instructions of
    [l] end with the branch. *)
Theorem stale_last_loses_return :
  exists ctx' f' l',
    run_inliner 2 ChainVoid.ctx 0 true = Ok (ctx', mkResult true false) /\
    funcs ctx' !! 2 = Some f' /\
    funcs ctx' !! 3 = Some l' /\
    fresh ctx' = 1005 /\
    block_view f' 200 = Some ([1000; 21], Some 1000) /\
    blocks l' = [300] /\
    function_instructions l' = Ok [(300, 1002); (300, 1003)] /\
    block_view l' 300 = Some ([1002; 1003], Some 1003) /\
    block_view l' 1004 = Some ([], None) /\
    inst_view l' 1003 = Some (IR_BRANCH, Branch 1004) /\
    inst_view l' 31 = Some (IR_RETURN, Operand None) /\
    parent_block <$> insts l' !! 31 = Some (Some 1004).
Proof.
  pose proof void_chain_evaluated as H.
  apply bind_Ok in H as ([ctx' res] & Er & H). cbn [fst snd] in H.
  apply bind_Ok in H as (f' & Ef%of_option_Ok & H).
  apply bind_Ok in H as (l' & El%of_option_Ok & H).
  injection H as -> ? ? ? ? ? ? ? ? ?.
  exists ctx', f', l'.
  repeat split; assumption.
Qed.

(** ** Tail calls *)

(** C6, evaluated on the two shapes of a tail call.  In a void context
    the [Return] of the callee has no operand, and line 301 maps it
    without the test that the other branch makes (lines 310, 322, 332):
    the inlining stops there.  When the value of the call is returned,
    the [Return] behind the call still uses the call when line 365
    removes it, the instructions behind the call being removed only
    afterwards (lines 387-394): the inlining stops at the assertion of
    [ir_remove].  No [Return] is copied and nothing behind the call is
    removed, where the same calls without the flag are inlined. *)
Theorem tail_call_inlining_stops :
  ir_inline_call TailVoid.ctx TailVoid.ictx 2 20 = Abort /\
  ir_inline_call TailValue.ctx TailValue.ictx 2 20 = Abort /\
  (exists ctx' ictx',
      ir_inline_call (set_func TailVoid.ctx 2 (without_tail_flag TailVoid.g 20))
        TailVoid.ictx 2 20 = Ok (ctx', ictx', true)) /\
  (exists ctx' ictx',
      ir_inline_call (set_func TailValue.ctx 2 (without_tail_flag TailValue.g 20))
        TailValue.ictx 2 20 = Ok (ctx', ictx', true)).
Proof.
  split; [vm_compute; reflexivity|]. split; [vm_compute; reflexivity|]. split.
  - destruct (ir_inline_call _ TailVoid.ictx 2 20) as [[[ctx' ictx'] b]| |] eqn:E;
      vm_compute in E; try discriminate.
    injection E as <- <- <-. eexists _, _. reflexivity.
  - destruct (ir_inline_call _ TailValue.ictx 2 20) as [[[ctx' ictx'] b]| |] eqn:E;
      vm_compute in E; try discriminate.
    injection E as <- <- <-. eexists _, _. reflexivity.
Qed.

(** C7, evaluated on the same modules, whose only call the pass must
    inline: the run reaches the inlining of the tail call and stops
    with it, at line 301 or at the assertion of [ir_remove] for line
    365.  Whatever fuel the run is given, [run_inliner] does not return
    for them, in strict and in permissive mode. *)
Theorem inliner_stops_on_tail_call :
  forall fuel mf,
    run_inliner (S fuel) TailVoid.ctx 0 mf = Abort /\
    run_inliner (S fuel) TailValue.ctx 0 mf = Abort /\
    (forall r, run_inliner fuel TailVoid.ctx 0 mf <> Ok r) /\
    (forall r, run_inliner fuel TailValue.ctx 0 mf <> Ok r).
Proof.
  intros fuel mf.
  assert (H1 : forall k, run_inliner (S k) TailVoid.ctx 0 mf = Abort).
  { intros k. destruct mf; vm_compute; reflexivity. }
  assert (H2 : forall k, run_inliner (S k) TailValue.ctx 0 mf = Abort).
  { intros k. destruct mf; vm_compute; reflexivity. }
  split; [apply H1|]. split; [apply H2|]. split; intros r.
  - destruct fuel as [|k]; [vm_compute; discriminate|]. rewrite H1. discriminate.
  - destruct fuel as [|k]; [vm_compute; discriminate|]. rewrite H2. discriminate.
Qed.

(** ** A second run of the pass *)

Lemma opt_try_convert_to_tail_call_eq g i :
  opt_try_convert_to_tail_call g i
  = do r <- get_inst g i;
    if convertible g i r then Ok (update_inst g i set_tail_call, true) else Ok (g, false).
Proof. reflexivity. Qed.

Lemma set_tail_call_fields r :
  kind (set_tail_call r) = kind r /\ users (set_tail_call r) = users r /\
  parent_block (set_tail_call r) = parent_block r /\
  (forall o, data r = Operand o -> set_tail_call r = r) /\
  (forall o, data (set_tail_call r) = Operand o -> set_tail_call r = r) /\
  set_tail_call (set_tail_call r) = set_tail_call r.
Proof.
  unfold set_tail_call. destruct r as [k t bf d i p us]; simpl.
  destruct d; simpl; repeat split; try done; intros; discriminate.
Qed.

Lemma marked_lookup f1 f2 i :
  marked f1 f2 ->
  match insts f1 !! i, insts f2 !! i with
  | Some r1, Some r2 => r2 = r1 \/ (r2 = set_tail_call r1 /\ convertible f1 i r1 = true)
  | None, None => True
  | _, _ => False
  end.
Proof.
  intros (_ & _ & _ & _ & _ & _ & H). destruct (H i) as [E|(r & E1 & E2 & C)].
  - rewrite E. destruct (insts f1 !! i); auto.
  - rewrite E1, E2. auto.
Qed.

Lemma is_return_of_marked f1 f2 u v :
  marked f1 f2 -> is_return_of f2 u v = is_return_of f1 u v.
Proof.
  intros M. pose proof (marked_lookup _ _ u M) as H. unfold is_return_of.
  destruct (insts f1 !! u) as [r1|], (insts f2 !! u) as [r2|]; try done.
  destruct H as [->|[-> _]]; [done|].
  destruct (set_tail_call_fields r1) as (Ek & _ & _ & E1 & E2 & _).
  rewrite Ek. destruct (kind r1); try done.
  destruct (data r1) eqn:D1.
  all: try (unfold set_tail_call; rewrite D1; simpl; rewrite ?D1; done).
Qed.

Lemma convertible_marked f1 f2 i r1 r2 :
  marked f1 f2 -> users r2 = users r1 -> parent_block r2 = parent_block r1 ->
  convertible f2 i r2 = convertible f1 i r1.
Proof.
  intros M Eu Ep. unfold convertible. rewrite Eu, Ep.
  pose proof M as (E1 & E2 & E3 & E4 & E5 & E6 & E7). rewrite E6.
  f_equal.
  - destruct (users r1) as [|u [|]]; try done. by apply is_return_of_marked.
  - destruct (parent_block r1) as [b|]; [|done].
    destruct (blks f1 !! b) as [blk|]; [|done].
    destruct (next_of i (instructions blk)); [|done]. by apply is_return_of_marked.
Qed.

Lemma marked_refl f : marked f f.
Proof. repeat split. by left. Qed.

Lemma marked_trans f1 f2 f3 : marked f1 f2 -> marked f2 f3 -> marked f1 f3.
Proof.
  intros M12 M23.
  pose proof M12 as (E1 & [E2 E2l] & E3 & E4 & E5 & E6 & E7).
  pose proof M23 as (E1' & [E2' E2l'] & E3' & E4' & E5' & E6' & E7').
  repeat split; try congruence.
  intros i. destruct (E7' i) as [E|(r2 & Hr2 & Hr3 & C2)].
  - rewrite E. apply E7.
  - right. destruct (E7 i) as [E|(r1 & Hr1 & Hr2' & C1)].
    + exists r2. rewrite <- E. repeat split; try done.
      rewrite <- C2. symmetry. by apply convertible_marked.
    + exists r1. rewrite Hr2' in Hr2. injection Hr2 as <-.
      destruct (set_tail_call_fields r1) as (_ & _ & _ & _ & _ & Ei).
      rewrite Ei in Hr3. by repeat split.
Qed.

Lemma marked_ctx_refl c : marked_ctx c c.
Proof.
  split; [done|]. intros fr. destruct (funcs c !! fr); constructor. apply marked_refl.
Qed.

Lemma marked_ctx_trans a b c : marked_ctx a b -> marked_ctx b c -> marked_ctx a c.
Proof.
  intros (F1 & M1) (F2 & M2). split; [congruence|]. intros fr.
  specialize (M1 fr). specialize (M2 fr).
  destruct M1 as [f1 f2 M1|]; inversion M2; subst; constructor.
  by eapply marked_trans.
Qed.

Lemma marked_ctx_lookup c d fr f1 :
  marked_ctx c d -> funcs c !! fr = Some f1 ->
  exists f2, funcs d !! fr = Some f2 /\ marked f1 f2.
Proof.
  intros (_ & M) H. specialize (M fr). rewrite H in M. inversion M; subst. eauto.
Qed.

Lemma marked_ctx_diagnostic c d x :
  marked_ctx c d -> marked_ctx c (issue_diagnostic d x).
Proof. intros (F & M). by split. Qed.

Lemma marked_ctx_diagnostic_l c d x :
  marked_ctx c d -> marked_ctx (issue_diagnostic c x) d.
Proof. intros (F & M). by split. Qed.

(** Marking a convertible call. *)
Lemma marked_convert f i r :
  insts f !! i = Some r -> convertible f i r = true ->
  marked f (update_inst f i set_tail_call).
Proof.
  intros Hr C. repeat split. intros j. destruct (decide (j = i)) as [->|Hne].
  - right. exists r. rewrite lookup_update_inst. destruct (decide _); [|done].
    by rewrite Hr.
  - left. rewrite lookup_update_inst. by destruct (decide _).
Qed.

Lemma marked_ctx_set_func c d fr f1 f2 :
  marked_ctx c d -> marked f1 f2 -> marked_ctx (set_func c fr f1) (set_func d fr f2).
Proof.
  intros (F & M) M12. split; [done|]. intros fr'. simpl.
  destruct (decide (fr' = fr)) as [->|Hne].
  - rewrite !lookup_insert_eq. by constructor.
  - rewrite !lookup_insert_ne by done. apply M.
Qed.

Lemma set_func_same c fr f : funcs c !! fr = Some f -> funcs (set_func c fr f) = funcs c.
Proof. intros H. simpl. by apply insert_id. Qed.

Lemma function_instructions_marked f1 f2 :
  marked f1 f2 -> function_instructions f2 = function_instructions f1.
Proof.
  intros (_ & [E2 _] & _ & _ & _ & E6 & _). unfold function_instructions, get_block.
  by rewrite E2, E6.
Qed.

Lemma count_marked f1 f2 (b : bool) l rs1 :
  marked f1 f2 ->
  mapM (fun p : nat * nat => get_inst f1 p.2) l = Ok rs1 ->
  exists rs2,
    mapM (fun p : nat * nat => get_inst f2 p.2) l = Ok rs2 /\
    length (filter (fun r => b = true ∨ kind r ≠ IR_PARAMETER) rs2)
    = length (filter (fun r => b = true ∨ kind r ≠ IR_PARAMETER) rs1).
Proof.
  intros M. revert rs1. induction l as [|p l IH]; simpl; intros rs1 H.
  - inversion H. by exists [].
  - apply bind_Ok in H as (r1 & Hr1 & H). apply bind_Ok in H as (rs & Hrs & H).
    inversion H; subst. destruct (IH _ Hrs) as (rs2 & Hrs2 & El).
    apply of_option_Ok in Hr1. pose proof (marked_lookup _ _ p.2 M) as Hl.
    rewrite Hr1 in Hl. unfold get_inst at 1.
    destruct (insts f2 !! p.2) as [r2|]; [|done]. simpl. rewrite Hrs2. simpl.
    exists (r2 :: rs2). split; [done|].
    assert (Ek : kind r2 = kind r1).
    { destruct Hl as [->|[-> _]]; [done|]. apply set_tail_call_fields. }
    rewrite !filter_cons. rewrite Ek.
    destruct (decide (b = true ∨ kind r1 ≠ IR_PARAMETER)); simpl; by rewrite El.
Qed.

Lemma instruction_count_marked f1 f2 b n :
  marked f1 f2 -> instruction_count f1 b = Ok n -> instruction_count f2 b = Ok n.
Proof.
  intros M H. unfold instruction_count in *.
  rewrite (function_instructions_marked _ _ M).
  apply bind_Ok in H as (l & Hl & H). rewrite Hl. simpl.
  apply bind_Ok in H as (rs1 & Hrs1 & H).
  destruct (count_marked _ _ b _ _ M Hrs1) as (rs2 & Hrs2 & El).
  rewrite Hrs2. simpl. inversion H. by rewrite El.
Qed.

Lemma must_inline_marked ictx f1 f2 :
  marked f1 f2 -> must_inline ictx f2 = must_inline ictx f1.
Proof. intros (_ & _ & _ & _ & E & _). unfold must_inline. by rewrite E. Qed.

Lemma inline_requested_marked ictx f1 f2 b :
  marked f1 f2 -> inline_requested ictx f1 = Ok b -> inline_requested ictx f2 = Ok b.
Proof.
  intros M H. unfold inline_requested in *. rewrite (must_inline_marked _ _ _ M).
  destruct (must_inline ictx f1); [done|].
  apply bind_Ok in H as (n & Hn & H).
  by rewrite (instruction_count_marked _ _ _ _ M Hn).
Qed.

(** A step of the scan on a module and on the module with more calls
    marked: the same decision, the same not-inlinable set and the same
    result. *)
Lemma consider_instruction_sim c d ictx res fr inst c' ictx' res' go :
  marked_ctx c d ->
  consider_instruction c ictx res fr inst = Ok (c', ictx', res', go) ->
  marked_ctx c c' /\
  exists d', consider_instruction d ictx res fr inst = Ok (d', ictx', res', go) /\
             marked_ctx c' d'.
Proof.
  intros M H. unfold consider_instruction in *.
  apply bind_Ok in H as (f1 & Hf1 & H). apply of_option_Ok in Hf1.
  apply bind_Ok in H as (r1 & Hr1 & H). apply of_option_Ok in Hr1.
  destruct (marked_ctx_lookup _ _ _ _ M Hf1) as (f2 & Hf2 & M12).
  unfold get_func at 1. rewrite Hf2. simpl.
  pose proof (marked_lookup _ _ inst M12) as Hl. rewrite Hr1 in Hl.
  unfold get_inst at 1.
  destruct (insts f2 !! inst) as [r2|] eqn:Hr2; [|done]. simpl.
  assert (Ek : kind r2 = kind r1).
  { destruct Hl as [->|[-> _]]; [done|]. apply set_tail_call_fields. }
  rewrite Ek.
  destruct (decide (kind r1 ≠ IR_CALL)) as [Hk|Hk].
  { inversion H; subst. split; [apply marked_ctx_refl|].
    exists d. split; [|done].
    destruct Hl as [->|[-> _]]; [done|]. unfold set_tail_call.
    by destruct (data r1). }
  destruct (data r1) as [| | | | |n [callee_ref|ci] args tail| | | | | |] eqn:Hd1;
    try discriminate.
  2:{ inversion H; subst. split; [apply marked_ctx_refl|]. exists d.
      destruct Hl as [->|[-> _]]; [by rewrite Hd1|].
      unfold set_tail_call. rewrite Hd1. simpl. done. }
  assert (Hd2 : exists tail2, data r2 = Call n (callee_function callee_ref) args tail2 /\
                  (tail2 = tail \/
                   (tail = false /\ tail2 = true /\ convertible f1 inst r1 = true))).
  { destruct Hl as [->|[-> C]]; [eauto|].
    unfold set_tail_call. rewrite Hd1. simpl. exists true. split; [done|].
    destruct tail; auto. }
  destruct Hd2 as (tail2 & Hd2 & Htail). rewrite Hd2.
  apply bind_Ok in H as (cf1 & Hcf1 & H). apply of_option_Ok in Hcf1.
  destruct (marked_ctx_lookup _ _ _ _ M Hcf1) as (cf2 & Hcf2 & Mc).
  unfold get_func at 1. rewrite Hcf2. simpl.
  assert (Eext : is_extern cf2 = is_extern cf1) by apply Mc. rewrite Eext.
  destruct (is_extern cf1).
  { inversion H; subst. split; [apply marked_ctx_refl|]. by exists d. }
  destruct (decide (inst ∈ not_inlinable ictx)).
  { inversion H; subst. split; [apply marked_ctx_refl|]. by exists d. }
  apply bind_Ok in H as (requested & Hreq & H).
  rewrite (inline_requested_marked _ _ _ _ Mc Hreq). simpl.
  destruct requested.
  2:{ inversion H; subst. split; [apply marked_ctx_refl|]. by exists d. }
  destruct (decide (fr = callee_ref)) as [<-|Hne].
  2:{ inversion H; subst. split; [apply marked_ctx_refl|]. by exists d. }
  apply bind_Ok in H as ([[c1 i1] res1] & Hself & H). inversion H; subst. clear H.
  unfold self_recursive_call in *.
  rewrite (must_inline_marked _ _ _ M12).
  rewrite !opt_try_convert_to_tail_call_eq in *.
  unfold get_inst in *. rewrite Hr1 in Hself. rewrite Hr2. simpl in *.
  assert (Ec : convertible f2 inst r2 = convertible f1 inst r1).
  { apply convertible_marked; [done| |].
    - destruct Hl as [->|[-> _]]; [done|]. apply set_tail_call_fields.
    - destruct Hl as [->|[-> _]]; [done|]. apply set_tail_call_fields. }
  rewrite Ec.
  assert (Mown : marked (update_inst f1 inst set_tail_call) f2 ->
                 marked_ctx (set_func c fr (update_inst f1 inst set_tail_call)) d).
  { intros Mu. destruct M as (F & M). split; [done|]. intros fr'. simpl.
    destruct (decide (fr' = fr)) as [->|Hne].
    - rewrite lookup_insert_eq, Hf2. by constructor.
    - rewrite lookup_insert_ne by done. apply M. }
  assert (Mstep : convertible f1 inst r1 = true ->
                  marked_ctx c (set_func c fr (update_inst f1 inst set_tail_call))).
  { intros C. split; [done|]. intros fr'. simpl.
    destruct (decide (fr' = fr)) as [->|Hne].
    - rewrite lookup_insert_eq, Hf1. constructor. by eapply marked_convert.
    - rewrite lookup_insert_ne by done. destruct (funcs c !! fr'); constructor.
      apply marked_refl. }
  destruct tail.
  - (* already a tail call *)
    destruct Htail as [->|(? & _)]; [|discriminate].
    inversion Hself; subst. split; [apply marked_ctx_refl|]. by exists d.
  - destruct (must_inline ictx f1) eqn:Hmust.
    2:{ inversion Hself; subst. split; [apply marked_ctx_refl|]. exists d.
        by destruct tail2. }
    destruct (convertible f1 inst r1) eqn:C.
    + inversion Hself; subst. split; [by apply Mstep|].
      destruct Htail as [->|(_ & -> & _)].
      * exists (set_func d fr (update_inst f2 inst set_tail_call)). split; [done|].
        apply marked_ctx_set_func; [done|].
        destruct Hl as [->|[E _]].
        -- pose proof M12 as (E1 & [E2 E2l] & E3 & E4 & E5 & E6 & E7).
           repeat split; try done. intros j. rewrite !lookup_update_inst.
           destruct (decide (inst = j)) as [<-|Hj].
           ++ left. by rewrite Hr1, Hr2.
           ++ destruct (E7 j) as [Ej|(r & Ej1 & Ej2 & Cj)]; [by left|].
              right. exists r. repeat split; try done.
              rewrite <- Cj. apply convertible_marked; [|done|done].
              by eapply marked_convert.
        -- (* the record of the marked module is the marked record *)
           subst r2. unfold set_tail_call in Hd2. rewrite Hd1 in Hd2. simpl in Hd2.
           discriminate.
      * exists d. split; [done|].
        destruct Hl as [->|[E _]].
        { (* equal records: the flag of both is [false] *)
          congruence. }
        apply Mown.
        pose proof M12 as (E1 & [E2 E2l] & E3 & E4 & E5 & E6 & E7).
        repeat split; try done. intros j. rewrite lookup_update_inst.
        destruct (decide (inst = j)) as [<-|Hj].
        -- left. by rewrite Hr1, Hr2, E.
        -- destruct (E7 j) as [Ej|(r & Ej1 & Ej2 & Cj)]; [by left|].
           right. exists r. repeat split; try done.
           rewrite <- Cj. apply convertible_marked; [|done|done].
           by eapply marked_convert.
    + destruct Htail as [->|(_ & _ & ?)]; [|discriminate].
      inversion Hself; subst.
      split; [destruct (may_fail ictx); [apply marked_ctx_refl|
                                         apply marked_ctx_diagnostic, marked_ctx_refl]|].
      eexists. split; [reflexivity|].
      destruct (may_fail ictx); [done|].
      by apply marked_ctx_diagnostic, marked_ctx_diagnostic_l.
Qed.

Lemma scan_instructions_sim c d ictx res fr l c' ictx' res' found :
  marked_ctx c d ->
  scan_instructions c ictx res fr l = Ok (c', ictx', res', found) ->
  marked_ctx c c' /\
  exists d', scan_instructions d ictx res fr l = Ok (d', ictx', res', found) /\
             marked_ctx c' d'.
Proof.
  revert c d ictx res. induction l as [|i l IH]; simpl; intros c d ictx res M H.
  - inversion H; subst. split; [apply marked_ctx_refl|]. by exists d.
  - apply bind_Ok in H as ([[[c1 ictx1] res1] go] & H1 & H).
    destruct (consider_instruction_sim _ _ _ _ _ _ _ _ _ _ M H1) as (M1 & d1 & -> & Md).
    simpl. destruct go.
    + inversion H; subst. split; [done|]. by exists d1.
    + simpl in H. destruct (IH _ _ _ _ Md H) as (M2 & d2 & H2 & Md2).
      split; [by eapply marked_ctx_trans|]. by exists d2.
Qed.

Lemma scan_blocks_sim c d ictx res fr bs c' ictx' res' found :
  marked_ctx c d ->
  scan_blocks c ictx res fr bs = Ok (c', ictx', res', found) ->
  marked_ctx c c' /\
  exists d', scan_blocks d ictx res fr bs = Ok (d', ictx', res', found) /\
             marked_ctx c' d'.
Proof.
  revert c d ictx res. induction bs as [|b bs IH]; simpl; intros c d ictx res M H.
  - inversion H; subst. split; [apply marked_ctx_refl|]. by exists d.
  - apply bind_Ok in H as (f1 & Hf1 & H). apply of_option_Ok in Hf1.
    apply bind_Ok in H as (blk & Hblk & H).
    destruct (marked_ctx_lookup _ _ _ _ M Hf1) as (f2 & Hf2 & M12).
    unfold get_func. rewrite Hf2. simpl.
    assert (Eb : get_block f2 b = get_block f1 b).
    { unfold get_block. destruct M12 as (_ & _ & _ & _ & _ & -> & _). done. }
    rewrite Eb, Hblk. simpl.
    apply bind_Ok in H as ([[[c1 ictx1] res1] o] & H1 & H).
    destruct (scan_instructions_sim _ _ _ _ _ _ _ _ _ _ M H1) as (M1 & d1 & -> & Md).
    simpl. destruct o as [i|].
    + inversion H; subst. split; [done|]. by exists d1.
    + simpl in H. destruct (IH _ _ _ _ Md H) as (M2 & d2 & H2 & Md2).
      split; [by eapply marked_ctx_trans|]. by exists d2.
Qed.

(** The scan sets [failed] only. *)
Lemma consider_instruction_changed ctx ictx res fr inst s go :
  consider_instruction ctx ictx res fr inst = Ok (s, go) -> changed s.2 = changed res.
Proof.
  intros H.
  destruct (consider_instruction_inv _ _ _ _ _ _ _ H) as (f & r & _ & _ & Hcases).
  destruct Hcases as [[_ ->]|[(_ & n & args & _ & _ & _ & _ & [[_ ->]|[_ ->]])|(_ & -> & _)]];
    done.
Qed.

Lemma scan_instructions_changed ctx ictx res fr l s found :
  scan_instructions ctx ictx res fr l = Ok (s, found) -> changed s.2 = changed res.
Proof.
  revert ctx ictx res. induction l as [|i l IH]; simpl; intros ctx ictx res H.
  - by inversion H.
  - apply bind_Ok in H as ([s1 go] & H1 & H).
    apply consider_instruction_changed in H1. destruct go.
    + by inversion H; subst.
    + apply IH in H. congruence.
Qed.

Lemma scan_blocks_changed ctx ictx res fr bs s found :
  scan_blocks ctx ictx res fr bs = Ok (s, found) -> changed s.2 = changed res.
Proof.
  revert ctx ictx res. induction bs as [|b bs IH]; simpl; intros ctx ictx res H.
  - by inversion H.
  - apply bind_Ok in H as (f & _ & H). apply bind_Ok in H as (blk & _ & H).
    apply bind_Ok in H as ([s1 o] & H1 & H).
    apply scan_instructions_changed in H1. destruct o.
    + by inversion H; subst.
    + apply IH in H. congruence.
Qed.

Lemma inline_calls_again_changed fuel ctx ictx res fr block s :
  changed res = true ->
  inline_calls_again fuel ctx ictx res fr block = Ok s -> changed s.2 = true.
Proof.
  revert ctx ictx res block.
  induction fuel as [|fuel IH]; simpl; intros ctx ictx res block Hc H; [discriminate|].
  apply bind_Ok in H as (f & _ & H).
  apply bind_Ok in H as ([s1 found] & Hscan & H).
  apply scan_blocks_changed in Hscan.
  destruct found as [[b inst]|]; [|inversion H; subst; congruence].
  apply bind_Ok in H as ([[ctx2 ictx2] inlined] & _ & H). simpl in H.
  destruct inlined; (eapply IH; [|exact H]); simpl; congruence.
Qed.

(** A pass over a function that reports no change never reached
    [ir_inline_call]: the first call passed to it is not in the history,
    which is empty, and is inlined. *)
Lemma inline_calls_again_quiet fuel ctx ictx res fr block s :
  (forall e, e ∈ history ictx -> inlined_via e = None) ->
  inline_calls_again fuel ctx ictx res fr block = Ok s ->
  changed s.2 = false ->
  exists fuel' f,
    fuel = S fuel' /\ funcs ctx !! fr = Some f /\
    scan_blocks ctx ictx res fr
      (match block with
       | Some b => blocks_from b (blocks f)
       | None => []
       end) = Ok (s, None).
Proof.
  destruct fuel as [|fuel]; simpl; intros Hroot H Hc; [discriminate|].
  apply bind_Ok in H as (f & Hf & H). apply of_option_Ok in Hf.
  apply bind_Ok in H as ([s1 found] & Hscan & H).
  exists fuel, f. split; [done|]. split; [done|].
  destruct found as [[b inst]|]; [|by inversion H; subst].
  exfalso.
  apply bind_Ok in H as ([[ctx2 ictx2] inlined] & Hcall & H). simpl in H.
  destruct inlined.
  - apply inline_calls_again_changed in H; [congruence|done].
  - apply ir_inline_call_false in Hcall
      as (i & e & j & _ & _ & _ & _ & _ & _ & _ & _ & _ & _ & He & Hvia & _).
    apply scan_blocks_extends in Hscan as (Eh & _). rewrite Eh in He.
    apply list_elem_of_lookup_2 in He. apply Hroot in He. congruence.
Qed.

Lemma inline_calls_in_function_sim fuel c d ictx fr c' ictx' res' :
  marked_ctx c d ->
  inline_calls_in_function fuel c ictx fr = Ok (c', ictx', res') ->
  changed res' = false ->
  marked_ctx c c' /\
  exists d', inline_calls_in_function fuel d ictx fr = Ok (d', ictx', res') /\
             marked_ctx c' d'.
Proof.
  intros M H Hc. unfold inline_calls_in_function in *.
  apply bind_Ok in H as (f1 & Hf1 & H). apply of_option_Ok in Hf1.
  destruct (marked_ctx_lookup _ _ _ _ M Hf1) as (f2 & Hf2 & M12).
  unfold get_func at 1. rewrite Hf2. simpl.
  assert (Hroot : forall e, e ∈ history (with_history ictx []) -> inlined_via e = None).
  { intros e He. simpl in He. by apply elem_of_nil in He. }
  destruct (inline_calls_again_quiet _ _ _ _ _ _ _ Hroot H Hc)
    as (fuel' & f1' & -> & Hf1' & Hscan).
  assert (f1' = f1) by congruence. subst f1'.
  destruct (scan_blocks_sim _ _ _ _ _ _ _ _ _ _ M Hscan) as (M1 & d1 & Hd & Md).
  split; [done|]. exists d1. split; [|done].
  simpl. unfold get_func. rewrite Hf2. simpl.
  assert (Eb : blocks f2 = blocks f1) by apply M12.
  rewrite Eb, Hd. done.
Qed.

Lemma run_inliner_eq fuel ctx t mf :
  run_inliner fuel ctx t mf
  = do s <- foldM (run_step fuel) (ctx, mkInlineContext [] [] t mf, mkResult false false)
              (functions ctx);
    Ok (s.1.1, s.2).
Proof. reflexivity. Qed.

Lemma run_steps_changed fuel l s s' :
  changed s.2 = true -> foldM (run_step fuel) s l = Ok s' -> changed s'.2 = true.
Proof.
  revert s. induction l as [|fr l IH]; simpl; intros s Hc H.
  - by inversion H; subst.
  - apply bind_Ok in H as (s1 & H1 & H). eapply IH; [|exact H].
    unfold run_step in H1. apply bind_Ok in H1 as (s0 & _ & H1).
    inversion H1; subst; simpl. rewrite Hc. apply orb_true_r.
Qed.

Lemma run_steps_sim fuel l c d ictx res c' ictx' res' :
  marked_ctx c d ->
  foldM (run_step fuel) (c, ictx, res) l = Ok (c', ictx', res') ->
  changed res' = false ->
  marked_ctx c c' /\
  exists d', foldM (run_step fuel) (d, ictx, res) l = Ok (d', ictx', res') /\
             marked_ctx c' d'.
Proof.
  revert c d ictx res. induction l as [|fr l IH]; simpl; intros c d ictx res M H Hc.
  - inversion H; subst. split; [apply marked_ctx_refl|]. by exists d.
  - apply bind_Ok in H as ([[c1 ictx1] res1] & H1 & H).
    assert (Hc1 : changed res1 = false).
    { destruct (changed res1) eqn:E; [|done].
      apply run_steps_changed in H; [simpl in H; congruence|done]. }
    unfold run_step in H1 |- *. simpl in H1 |- *.
    apply bind_Ok in H1 as ([[c0 ictx0] res0] & H0 & H1).
    inversion H1; subst. clear H1. simpl in Hc1.
    apply orb_false_elim in Hc1 as [Hc0 _].
    destruct (inline_calls_in_function_sim _ _ _ _ _ _ _ _ M H0 Hc0) as (M0 & d0 & -> & Md).
    simpl. destruct (IH _ _ _ _ Md H Hc) as (M1 & d1 & Hd1 & Md1).
    split; [by eapply marked_ctx_trans|]. by exists d1.
Qed.

(** C8, counterexample: [f] calls [g], which calls itself.  The first
    run with threshold 0 unrolls [g] into [f] once and refuses the copy
    of the recursive call; the second run, its history empty again,
    inlines that copy and reports a change.  The lists are the
    instructions of the block of [f] after each run. *)
Lemma second_run_inlines_again :
  (do r1 <- run_inliner 4 Unrolling.ctx 0 true;
   do r2 <- run_inliner 4 r1.1 0 true;
   Ok (changed r1.2, instructions <$> (funcs r1.1 !! 1 ≫= fun f => blks f !! 100),
       changed r2.2, instructions <$> (funcs r2.1 !! 1 ≫= fun f => blks f !! 100)))
  = Ok (true, Some [1000; 1001; 11], true, Some [1003; 1004; 1001; 11]).
Proof. vm_compute. reflexivity. Qed.

(** C8 (as amended).  A run of the inliner that reports no change is
    followed by a run with the same threshold that reports no change
    either: the second run returns the same result, and the functions it
    leaves are those it was given up to the tail-call mark of calls that
    [opt_try_convert_to_tail_call] accepts. *)
Theorem unchanged_run_is_stable :
  forall fuel ctx t mf ctx' res,
    run_inliner fuel ctx t mf = Ok (ctx', res) ->
    changed res = false ->
    exists ctx'',
      run_inliner fuel ctx' t mf = Ok (ctx'', res) /\ marked_ctx ctx' ctx''.
Proof.
  intros fuel ctx t mf ctx' res H Hc. rewrite run_inliner_eq in *.
  apply bind_Ok in H as ([[c1 ictx1] res1] & H & E). inversion E; subst. clear E.
  simpl in Hc.
  destruct (run_steps_sim _ _ _ _ _ _ _ _ _ (marked_ctx_refl ctx) H Hc) as (M & _).
  destruct (run_steps_sim _ _ _ _ _ _ _ _ _ M H Hc) as (_ & d' & Hd & Md).
  exists d'. destruct M as (-> & _). rewrite Hd. by split.
Qed.

Lemma unchanged_run_is_stable_witness :
  exists ctx' res ctx'',
    run_inliner 1 TailRecursion.ctx 0 true = Ok (ctx', res) /\
    changed res = false /\
    run_inliner 1 ctx' 0 true = Ok (ctx'', res) /\ marked_ctx ctx' ctx''.
Proof.
  destruct (run_inliner 1 TailRecursion.ctx 0 true) as [[ctx' res]| |] eqn:E;
    vm_compute in E; try discriminate.
  assert (Hc : changed res = false) by (injection E as _ <-; reflexivity).
  destruct (unchanged_run_is_stable 1 TailRecursion.ctx 0 true ctx' res) as (ctx'' & H & M).
  - vm_compute. exact E.
  - exact Hc.
  - by exists ctx', res, ctx''.
Defined.

(** ** Termination of the pass: the measure *)

Lemma B_pos M r : 1 <= B M r.
Proof. destruct r; simpl; lia. Qed.

Lemma B_step M r : B M r <= B M (S r).
Proof.
  induction r as [|r IH]; [simpl; lia|].
  change (B M (S (S r))) with (1 + M * B M (S r)).
  change (B M (S r)) with (1 + M * B M r) at 1.
  apply Nat.add_le_mono_l, Nat.mul_le_mono_l, IH.
Qed.

Lemma B_mono M r r' : r <= r' -> B M r <= B M r'.
Proof.
  intros H. induction H as [|r' H IH]; [done|].
  etransitivity; [exact IH|apply B_step].
Qed.

(** *** [history_find] *)

Lemma history_find_acc h x i acc :
  history_find h x i acc
  = match history_find h x i None with
    | Some j => Some j
    | None => acc
    end.
Proof.
  revert i acc. induction h as [|e h IH]; intros i acc; simpl; [done|].
  destruct (decide (call e = x)).
  - rewrite (IH (S i) (Some i)).
    by destruct (history_find h x (S i) None).
  - apply IH.
Qed.

Lemma history_find_app h l x i acc :
  history_find (h ++ l) x i acc = history_find l x (i + length h) (history_find h x i acc).
Proof.
  revert i acc. induction h as [|e h IH]; intros i acc; simpl.
  - by rewrite Nat.add_0_r.
  - rewrite IH. f_equal. lia.
Qed.

Lemma history_find_Some h x i j :
  history_find h x i None = Some j ->
  i <= j /\ exists e, h !! (j - i) = Some e /\ call e = x.
Proof.
  revert i. induction h as [|e h IH]; intros i; simpl; [discriminate|].
  rewrite history_find_acc.
  destruct (history_find h x (S i) None) as [k|] eqn:E.
  - intros [= ->]. destruct (IH _ E) as (Hle & e' & He' & Hc).
    split; [lia|]. exists e'. split; [|done].
    replace (j - i) with (S (j - S i)) by lia. done.
  - destruct (decide (call e = x)); [|discriminate].
    intros [= ->]. split; [lia|]. exists e. by rewrite Nat.sub_diag.
Qed.

Lemma history_find_None h x i :
  history_find h x i None = None <-> forall e, e ∈ h -> call e <> x.
Proof.
  revert i. induction h as [|e h IH]; intros i; simpl.
  - split; [|done]. intros _ e He. by apply elem_of_nil in He.
  - rewrite history_find_acc. split.
    + destruct (history_find h x (S i) None) eqn:E; [discriminate|].
      destruct (decide (call e = x)); [discriminate|]. intros _ e' He'.
      apply elem_of_cons in He' as [->|He']; [done|]. by eapply IH.
    + intros H. rewrite (proj2 (IH (S i))).
      * rewrite decide_False; [done|]. apply H. by left.
      * intros e' He'. apply H. by right.
Qed.

Lemma history_find_lt h x j :
  history_find h x 0 None = Some j -> j < length h.
Proof.
  intros H. apply history_find_Some in H as (_ & e & He & _).
  rewrite Nat.sub_0_r in He. by apply lookup_lt_Some in He.
Qed.

(** The search in a history that was extended by [l]. *)
Lemma history_find_extended h l x :
  history_find (h ++ l) x 0 None
  = match history_find l x (length h) None with
    | Some j => Some j
    | None => history_find h x 0 None
    end.
Proof. rewrite history_find_app. simpl. apply history_find_acc. Qed.

(** *** Chains *)

Lemma chain_fuel h i f1 f2 :
  ordered h -> i < f1 -> i < f2 -> chain f1 h i = chain f2 h i.
Proof.
  intros Ho. revert i f2. induction f1 as [|f1 IH]; intros i f2 H1 H2; [lia|].
  destruct f2 as [|f2]; [lia|]. simpl.
  destruct (h !! i) as [e|] eqn:He; [|done]. f_equal.
  destruct (inlined_via e) as [j|] eqn:Hj; [|done].
  pose proof (Ho _ _ _ He Hj). apply IH; lia.
Qed.

Lemma chain_S fuel h i :
  chain (S fuel) h i
  = match h !! i with
    | None => []
    | Some e => e :: match inlined_via e with
                     | None => []
                     | Some j => chain fuel h j
                     end
    end.
Proof. reflexivity. Qed.

Lemma ancestry_unfold h i e :
  ordered h -> h !! i = Some e ->
  ancestry h i = e :: match inlined_via e with
                      | None => []
                      | Some j => ancestry h j
                      end.
Proof.
  intros Ho He. unfold ancestry. rewrite (chain_S i h i), He. f_equal.
  destruct (inlined_via e) as [j|] eqn:Hj; [|done].
  pose proof (Ho _ _ _ He Hj). apply chain_fuel; [done|lia|lia].
Qed.

Lemma ordered_app h l :
  ordered h ->
  (forall e j, e ∈ l -> inlined_via e = Some j -> j < length h) ->
  ordered (h ++ l).
Proof.
  intros Ho Hl i e j He Hj.
  destruct (decide (i < length h)) as [Hi|Hi].
  - rewrite lookup_app_l in He by done. eauto.
  - rewrite lookup_app_r in He by lia. apply list_elem_of_lookup_2 in He.
    pose proof (Hl _ _ He Hj). lia.
Qed.

Lemma chain_app fuel h l i :
  ordered h -> i < length h -> chain fuel (h ++ l) i = chain fuel h i.
Proof.
  intros Ho. revert i. induction fuel as [|fuel IH]; intros i Hi; simpl; [done|].
  rewrite lookup_app_l by done.
  destruct (h !! i) as [e|] eqn:He; [|done]. f_equal.
  destruct (inlined_via e) as [j|] eqn:Hj; [|done].
  pose proof (Ho _ _ _ He Hj). apply IH. lia.
Qed.

Lemma ancestry_app h l i :
  ordered h -> i < length h -> ancestry (h ++ l) i = ancestry h i.
Proof. intros. by apply chain_app. Qed.

(** The walk of lines 75-97 decides whether the callee is in the
    ancestry, and it ends. *)
Lemma history_walk_ancestry fuel h j f :
  ordered h -> j < length h -> j < fuel ->
  history_walk fuel h j f = Ok (bool_decide (Some f ∈ callee <$> ancestry h j)).
Proof.
  intros Ho. revert j. induction fuel as [|fuel IH]; intros j Hj Hf; [lia|].
  simpl. destruct (lookup_lt_is_Some_2 h j Hj) as [e He]. rewrite He. simpl.
  rewrite (ancestry_unfold _ _ _ Ho He). simpl.
  destruct (decide (callee e = Some f)) as [E|E].
  - rewrite bool_decide_eq_true_2; [done|]. rewrite E. by left.
  - destruct (inlined_via e) as [k|] eqn:Hk.
    + pose proof (Ho _ _ _ He Hk). rewrite IH by lia. f_equal.
      apply bool_decide_ext. rewrite elem_of_cons.
      split; [tauto | intros [?|?]; [congruence | done]].
    + rewrite bool_decide_eq_false_2; [done|].
      intros H%elem_of_cons. destruct H as [H|H]; [congruence|]. by apply elem_of_nil in H.
Qed.

(** ** What an inlining does to the calls of the caller *)

Lemma sub_refl g : sub g g.
Proof. intros x r H. by exists r. Qed.

Lemma sub_trans g1 g2 g3 : sub g1 g2 -> sub g2 g3 -> sub g1 g3.
Proof.
  intros H12 H23 x r3 H3. destruct (H23 _ _ H3) as (r2 & H2 & K2 & C2).
  destruct (H12 _ _ H2) as (r1 & H1 & K1 & C1).
  exists r1. repeat split; congruence.
Qed.

Lemma sub_insts g g' : insts g' = insts g -> sub g g'.
Proof. intros E x r H. rewrite E in H. by exists r. Qed.

Lemma sub_tracked n g g' : sub g g' -> tracked n g g'.
Proof.
  intros H x r' Hx. destruct (H _ _ Hx) as (r & Hr & K & C). split.
  - intros Hn. congruence.
  - intros Hk. exists r. repeat split; congruence.
Qed.

Lemma tracked_refl n g : tracked n g g.
Proof. apply sub_tracked, sub_refl. Qed.

Lemma tracked_trans n g1 g2 g3 : tracked n g1 g2 -> tracked n g2 g3 -> tracked n g1 g3.
Proof.
  intros H12 H23 x r3 H3. destruct (H23 _ _ H3) as (N23 & C23). split.
  - intros H1. destruct (insts g2 !! x) as [r2|] eqn:H2; [|by apply N23].
    by apply (H12 _ _ H2).
  - intros K3. destruct (C23 K3) as (r2 & H2 & K2 & E2).
    destruct (H12 _ _ H2) as (_ & C12). destruct (C12 K2) as (r1 & H1 & K1 & E1).
    exists r1. repeat split; congruence.
Qed.

Lemma tracked_mono n m g g' : n <= m -> tracked n g g' -> tracked m g g'.
Proof.
  intros Hle H x r' Hx. destruct (H _ _ Hx) as (Hn & Hc). split; [|done].
  intros Hnone. specialize (Hn Hnone). lia.
Qed.

Lemma sub_update_inst g i (f : IRInstruction -> IRInstruction) :
  (forall r, kind (f r) = kind r /\ callee_of (f r) = callee_of r) ->
  sub g (update_inst g i f).
Proof.
  intros Hf x r' Hx. rewrite lookup_update_inst in Hx.
  destruct (decide (i = x)) as [->|Hne]; [|by exists r'].
  destruct (insts g !! x) as [r|]; [|discriminate]. simpl in Hx. injection Hx as <-.
  exists r. split; [done|]. apply Hf.
Qed.

Lemma sub_update_block g b f : sub g (update_block g b f).
Proof. apply sub_insts, insts_update_block. Qed.

Lemma sub_delete g i : sub g (with_insts g (delete i (insts g))).
Proof. intros x r' Hx. simpl in Hx. apply lookup_delete_Some in Hx as [_ Hx]. by exists r'. Qed.

Lemma sub_users_only g g' : users_only g g' -> sub g g'.
Proof.
  intros H x r' Hx. destruct (users_only_lookup _ _ _ _ H Hx) as (r & Hr & C).
  exists r. split; [done|]. unfold core in C. inversion C as [[Ek Et Ef Ed Ei Ep]].
  split; [done|]. unfold callee_of. by rewrite Ed.
Qed.

Lemma sub_shrinks g g' : shrinks g g' -> sub g g'.
Proof.
  intros (H & _) x r' Hx. destruct (H _ _ Hx) as (r & Hr & C & _).
  exists r. split; [done|]. unfold core in C. inversion C as [[Ek Et Ef Ed Ei Ep]].
  split; [done|]. unfold callee_of. by rewrite Ed.
Qed.

Lemma callee_of_subst_data old new r :
  callee_of (set_data (subst_data old new (data r)) r) = callee_of r.
Proof.
  unfold callee_of. simpl. by destruct (data r) as [| | | | |n [f|i] args t|o| | | | |].
Qed.

Lemma sub_foldl {A} (step : IRFunction -> A -> IRFunction) (l : list A) g :
  (forall g0 a, sub g0 (step g0 a)) -> sub g (foldl step g l).
Proof.
  intros Hs. revert g. induction l as [|a l IH]; intros g; simpl; [apply sub_refl|].
  eapply sub_trans; [apply Hs|apply IH].
Qed.

Lemma sub_mark_used g a b : sub g (mark_used g a b).
Proof.
  apply sub_update_inst. intros r. by destruct (decide (b ∈ users r)).
Qed.

Lemma sub_ir_replace_uses g old new : sub g (ir_replace_uses g old new).
Proof.
  unfold ir_replace_uses. destruct (decide (old = new)); [apply sub_refl|].
  destruct (insts g !! old) as [r|]; [|apply sub_refl].
  eapply sub_trans; [|by apply sub_update_inst].
  apply sub_foldl. intros g0 u.
  eapply sub_trans; [|apply sub_mark_used].
  apply sub_update_inst. intros r0. split; [done|apply callee_of_subst_data].
Qed.

Lemma sub_ir_remove_use g a b : sub g (ir_remove_use g a b).
Proof. apply sub_update_inst. intros r. done. Qed.

Lemma sub_ir_remove g i g' : ir_remove g i = Ok g' -> sub g g'.
Proof. intros H. apply ir_remove_spec in H as (H & _). by apply sub_shrinks. Qed.

Lemma sub_remove_after_call g l g' : remove_after_call g l = Ok g' -> sub g g'.
Proof. intros H. apply remove_after_call_spec in H as (H & _). by apply sub_shrinks. Qed.

Lemma sub_fix_up_uses F table g g' : fix_up_uses F table g = Ok g' -> sub g g'.
Proof. intros H. by apply sub_users_only, (users_only_fix_up_uses F table). Qed.

Lemma sub_free_unused g call_ref table g' :
  free_unused g call_ref table = Ok g' -> sub g g'.
Proof.
  intros H x r' Hx. apply (free_unused_lookup_Some _ _ _ _ _ _ H) in Hx. by exists r'.
Qed.

Lemma sub_reparent g last_block call_block tail call_next :
  sub g (reparent g last_block call_block tail call_next).
Proof.
  unfold reparent. destruct (decide _); [|apply sub_refl].
  apply sub_foldl. intros g0 a0. apply sub_update_inst. intros r. done.
Qed.

Lemma sub_reattach g last_block lb tail call_next :
  sub g (reattach g last_block lb tail call_next).
Proof.
  unfold reattach. destruct (instructions_last lb); [|apply sub_refl].
  destruct tail; [apply sub_refl|apply sub_update_block].
Qed.

Lemma sub_ir_force_insert g b i g' :
  ir_force_insert_into_block g b i = Ok g' -> sub g g'.
Proof.
  intros H. apply ir_force_insert_into_block_inv in H as (r & blk & _ & _ & _ & ->).
  eapply sub_trans; [|apply sub_update_block]. by apply sub_update_inst.
Qed.

Lemma sub_None g g' x : sub g g' -> insts g !! x = None -> insts g' !! x = None.
Proof.
  intros H Hn. destruct (insts g' !! x) as [r'|] eqn:E; [|done].
  destruct (H _ _ E) as (r & Hr & _). congruence.
Qed.

(** A new instruction that is not a call. *)
Lemma tracked_insert n g k r :
  k < n -> kind r <> IR_CALL -> tracked n g (with_insts g (<[k := r]> (insts g))).
Proof.
  intros Hk Hr x r' Hx. simpl in Hx.
  destruct (decide (k = x)) as [->|Hne].
  - rewrite lookup_insert_eq in Hx. injection Hx as <-. split; [done|]. intros; done.
  - rewrite lookup_insert_ne in Hx by done. split; [congruence|]. intros K. by exists r'.
Qed.

(** An instruction is given a kind that is not that of a call. *)
Lemma tracked_update_inst n g i (f : IRInstruction -> IRInstruction) :
  (forall r, kind (f r) = IR_CALL -> kind r = IR_CALL /\ callee_of (f r) = callee_of r) ->
  tracked n g (update_inst g i f).
Proof.
  intros Hf x r' Hx. rewrite lookup_update_inst in Hx.
  destruct (decide (i = x)) as [->|Hne].
  - destruct (insts g !! x) as [r|] eqn:E; [|discriminate]. simpl in Hx.
    injection Hx as <-. split; [congruence|]. intros K. exists r.
    destruct (Hf _ K) as [K' C]. repeat split; congruence.
  - split; [congruence|]. intros K. by exists r'.
Qed.

Lemma tracked_allocate_skeleton n g first count nb fn :
  first + count <= n -> tracked n g (allocate_skeleton g first count nb fn).
Proof.
  intros Hn x r' Hx. rewrite allocate_skeleton_insts in Hx.
  destruct (decide (first <= x < first + count)).
  - injection Hx as <-. split; [lia|]. intros; done.
  - split; [congruence|]. intros K. by exists r'.
Qed.

Lemma tracked_two_updates n g i (f1 f2 : IRInstruction -> IRInstruction) :
  (forall r, kind (f2 (f1 r)) = IR_CALL ->
             kind r = IR_CALL /\ callee_of (f2 (f1 r)) = callee_of r) ->
  tracked n g (update_inst (update_inst g i f1) i f2).
Proof.
  intros Hf x r' Hx. rewrite !lookup_update_inst in Hx.
  destruct (decide (i = x)) as [->|Hne].
  - destruct (insts g !! x) as [r|] eqn:E; [|discriminate]. simpl in Hx.
    injection Hx as <-. split; [congruence|]. intros K. exists r.
    destruct (Hf _ K) as [K' C]. repeat split; congruence.
  - split; [congruence|]. intros K. by exists r'.
Qed.

Lemma kind_copy_common inst r : kind (copy_common inst r) = kind inst.
Proof. reflexivity. Qed.

Lemma classify_call k : classify k = KCall -> k = IR_CALL.
Proof. by destruct k. Qed.

(** The data of the copy of a call names the callee of the call. *)
Lemma copy_data_call F table bvec inst d :
  kind inst = IR_CALL ->
  copy_data F table bvec (kind inst) (data inst) = Ok d ->
  callee_of (set_data d inst) = callee_of inst.
Proof.
  intros K H. rewrite K in H. unfold copy_data in H. simpl in H.
  unfold callee_of. simpl.
  destruct (data inst) as [| | | | |n c args t| | | | | |]; try discriminate.
  apply bind_Ok in H as (c' & Hc & H). apply bind_Ok in H as (args' & _ & H).
  inversion H; subst. destruct c as [f|i]; simpl in Hc.
  - by inversion Hc.
  - apply bind_Ok in Hc as (i' & _ & Hc). by inversion Hc.
Qed.

Lemma record_origin_call inst copy idx h :
  kind inst = IR_CALL -> is_Some (callee_of inst) \/ callee_of inst = None ->
  (exists n c args t, data inst = Call n c args t) ->
  record_origin inst copy idx h = h ++ [mkEntry copy (callee_of inst) (Some idx)].
Proof.
  intros K _ (n & c & args & t & D). unfold record_origin, callee_of.
  rewrite decide_True by done. rewrite D. by destruct c.
Qed.

Lemma record_origin_other inst copy idx h :
  kind inst <> IR_CALL -> record_origin inst copy idx h = h.
Proof. intros K. unfold record_origin. by rewrite decide_False. Qed.

Lemma create_return_block_tracked cs b cs1 :
  create_return_block cs b = Ok cs1 ->
  cs_fresh cs <= cs_fresh cs1 /\ cs_history cs1 = cs_history cs /\
  tracked (cs_fresh cs1) (cs_caller cs) (cs_caller cs1).
Proof.
  unfold create_return_block. intros H. destruct b.
  - apply bind_Ok in H as (g2 & Hg2 & H). inversion H; subst; clear H. simpl_cs.
    split; [lia|]. split; [done|].
    apply ir_insert_into_block_inv, sub_ir_force_insert in Hg2.
    eapply tracked_trans; [|apply sub_tracked, Hg2].
    eapply tracked_trans; [apply sub_tracked, sub_insts; reflexivity|].
    apply (tracked_insert _ (with_blks (cs_caller cs) _)); [lia|done].
  - inversion H; subst; clear H. simpl_cs. split; [lia|]. split; [done|].
    apply sub_tracked, sub_insts. reflexivity.
Qed.

Lemma add_to_phi_and_branch_tracked n F call_ref b inst o copy cs cs2 :
  add_to_phi_and_branch F call_ref b inst o copy cs = Ok cs2 ->
  cs_fresh cs2 = cs_fresh cs /\ cs_history cs2 = cs_history cs /\
  tracked n (cs_caller cs) (cs_caller cs2).
Proof.
  unfold add_to_phi_and_branch. intros H.
  apply bind_Ok in H as (rb & _ & H).
  assert (T1 : tracked n (cs_caller cs)
                 (update_inst (cs_caller cs) copy
                    (fun r => set_data (Branch rb) (set_kind IR_BRANCH r)))).
  { apply tracked_update_inst. intros r K. discriminate. }
  destruct o as [v|].
  - apply bind_Ok in H as (phi & _ & H). apply bind_Ok in H as (v' & _ & H).
    apply bind_Ok in H as (pr & Hpr%of_option_Ok & H).
    destruct (data pr) as [| | | | | | | | | | |args] eqn:D; try discriminate.
    inversion H; subst; clear H. simpl_cs. split; [done|]. split; [done|].
    eapply tracked_trans; [exact T1|].
    intros x r' Hx. rewrite lookup_update_inst in Hx.
    destruct (decide (phi = x)) as [->|Hne].
    + rewrite Hpr in Hx. simpl in Hx. injection Hx as <-.
      split; [congruence|]. intros K. exists pr. split; [done|]. split; [done|].
      unfold callee_of. simpl. by rewrite D.
    + split; [congruence|]. intros K. by exists r'.
  - inversion H; subst; clear H. simpl_cs. split; [done|]. split; [done|]. exact T1.
Qed.

Lemma copy_instruction_tracked F bvec call_ref tail idx b blk cs ih cs' :
  copy_instruction F bvec call_ref tail idx b blk cs ih = Ok cs' ->
  step_tracked idx cs cs'.
Proof.
  intros H. apply copy_instruction_inv in H as (inst & Hinst & [[_ ->]|(Hk & copy & rc & Hcopy & Hrc & Hout)]).
  { split; [done|]. left. split; [done|apply tracked_refl]. }
  destruct Hout as [d dest g2 Hcl Hd Hdest Hins ->
                   |v v' dest g2 Hcl Ht Hd Hv Hdest Hins ->
                   |o Hcl Ht Hrb Hlb Hli Hd Hcs
                   |o cs1 cs2 dest g2 Hcl Ht Hd Hcreate Hadd Hdest Hins ->]; simpl_cs.
  - (* a plain copy *)
    split; [done|]. destruct (decide (kind inst = IR_CALL)) as [K|K].
    + right. exists copy, (callee_of inst). split.
      { apply record_origin_call; [done|destruct (callee_of inst); eauto|].
        rewrite K in Hd. unfold copy_data in Hd. simpl in Hd.
        destruct (data inst); try discriminate. eauto. }
      intros x r' Hx. simpl_cs. destruct (decide (x = copy)) as [->|Hne].
      * apply ir_force_insert_spec in Hins as (r0 & blk0 & Hr0 & _ & _ & Hnew & _).
        rewrite Hnew in Hx. injection Hx as <-.
        rewrite !lookup_update_inst, !decide_True, Hrc in Hr0 by done. simpl in Hr0.
        injection Hr0 as <-. split; [congruence|]. intros _. left. split; [done|].
        rewrite <- (copy_data_call _ _ _ _ _ K Hd). reflexivity.
      * rewrite (ir_force_insert_lookup _ _ _ _ _ Hins Hne) in Hx.
        rewrite !lookup_update_inst, !decide_False in Hx by done.
        split; [congruence|]. intros K'. right. split; [done|]. by exists r'.
    + left. rewrite record_origin_other by done. split; [done|].
      eapply tracked_trans; [|apply sub_tracked, (sub_ir_force_insert _ _ _ _ Hins)].
      apply tracked_two_updates. intros r K'. done.
  - (* the return of a tail call *)
    split; [done|]. left. split; [done|].
    eapply tracked_trans; [|apply sub_tracked, (sub_ir_force_insert _ _ _ _ Hins)].
    apply tracked_two_updates. intros r K'. simpl in K'.
    apply classify_return in Hcl. congruence.
  - (* the return that is dropped *)
    apply classify_return in Hcl.
    assert (T : tracked (cs_fresh cs) (cs_caller cs)
                  (update_inst (cs_caller cs) copy (copy_common inst))).
    { apply tracked_update_inst. intros r K'. rewrite kind_copy_common in K'. congruence. }
    destruct o as [v|].
    + destruct Hcs as (v' & _ & ->). simpl_cs. split; [done|]. left. by split.
    + subst cs'. simpl_cs. split; [done|]. left. by split.
  - (* a return that becomes a branch *)
    apply classify_return in Hcl.
    assert (T : forall n, tracked n (cs_caller cs)
                  (update_inst (cs_caller cs) copy (copy_common inst))).
    { intros n. apply tracked_update_inst. intros r K'. rewrite kind_copy_common in K'.
      congruence. }
    assert (H1 : cs_fresh cs <= cs_fresh cs1 /\ cs_history cs1 = cs_history cs /\
                 tracked (cs_fresh cs1) (cs_caller cs) (cs_caller cs1)).
    { destruct Hcreate as [(_ & _ & Hc)|(_ & ->)].
      - apply create_return_block_tracked in Hc as (Hf & Hh & Ht'). simpl_cs.
        split; [done|]. split; [done|]. eapply tracked_trans; [apply T|exact Ht'].
      - simpl_cs. split; [done|]. split; [done|]. apply T. }
    destruct H1 as (Hf1 & Hh1 & T1).
    destruct (add_to_phi_and_branch_tracked (cs_fresh cs1) _ _ _ _ _ _ _ _ Hadd)
      as (Hf2 & Hh2 & T2).
    unfold step_tracked. simpl_cs. split; [lia|]. left. split; [congruence|]. rewrite Hf2.
    eapply tracked_trans; [exact T1|]. eapply tracked_trans; [exact T2|].
    apply sub_tracked, (sub_ir_force_insert _ _ _ _ Hins).
Qed.

Lemma recorded_start idx n h0 g0 : recorded idx n h0 g0 [] g0.
Proof.
  split; [intros e He; by apply elem_of_nil in He|].
  intros x r' Hx. split; [congruence|]. intros K. simpl. by exists r'.
Qed.

Lemma recorded_mono idx n m h0 g0 l g :
  n <= m -> recorded idx n h0 g0 l g -> recorded idx m h0 g0 l g.
Proof.
  intros Hle (He & H). split; [done|]. intros x r' Hx.
  destruct (H _ _ Hx) as (Hn & Hc). split; [|done]. intros Hnone. specialize (Hn Hnone). lia.
Qed.

Lemma recorded_tracked idx n h0 g0 l g g' :
  recorded idx n h0 g0 l g -> tracked n g g' -> recorded idx n h0 g0 l g'.
Proof.
  intros (He & H) T. split; [done|]. intros x r' Hx.
  destruct (T _ _ Hx) as (Tn & Tc). split.
  - intros Hnone. destruct (insts g !! x) as [r|] eqn:E; [|by apply Tn].
    by apply (H _ _ E).
  - intros K. destruct (Tc K) as (r & Hr & Kr & Cr).
    destruct (H _ _ Hr) as (_ & Hc). specialize (Hc Kr).
    destruct (history_find l x (length h0) None) as [j|].
    + destruct Hc as (e & Hl & Hce). exists e. split; [done|]. congruence.
    + destruct Hc as (r0 & Hr0 & K0 & C0). exists r0. repeat split; congruence.
Qed.

Lemma tracked_recorded idx n h0 g0 g1 l g :
  tracked n g0 g1 -> recorded idx n h0 g1 l g -> recorded idx n h0 g0 l g.
Proof.
  intros T (He & H). split; [done|]. intros x r' Hx.
  destruct (H _ _ Hx) as (Hn & Hc). split.
  - intros Hnone. destruct (insts g1 !! x) as [r1|] eqn:E; [|by apply Hn].
    by apply (T _ _ E).
  - intros K. specialize (Hc K).
    destruct (history_find l x (length h0) None) as [j|]; [done|].
    destruct Hc as (r1 & Hr1 & K1 & C1). destruct (T _ _ Hr1) as (_ & Tc).
    destruct (Tc K1) as (r0 & Hr0 & K0 & C0). exists r0. repeat split; congruence.
Qed.

Lemma recorded_step idx n h0 g0 l g g' copy f :
  recorded idx n h0 g0 l g ->
  (forall x r', insts g' !! x = Some r' ->
     (insts g !! x = None -> x < n) /\
     (kind r' = IR_CALL ->
      (x = copy /\ callee_of r' = f) \/
      (x <> copy /\
       exists r, insts g !! x = Some r /\ kind r = IR_CALL /\ callee_of r = callee_of r'))) ->
  recorded idx n h0 g0 (l ++ [mkEntry copy f (Some idx)]) g'.
Proof.
  intros (He & H) Hstep. split.
  { intros e Hin. apply elem_of_app in Hin as [Hin|Hin]; [by apply He|].
    apply list_elem_of_singleton in Hin. by subst e. }
  intros x r' Hx. destruct (Hstep _ _ Hx) as (Sn & Sc). split.
  - intros Hnone. destruct (insts g !! x) as [r|] eqn:E; [|by apply Sn].
    by apply (H _ _ E).
  - intros K. rewrite history_find_app. simpl.
    destruct (Sc K) as [[-> Cf]|(Hne & r & Hr & Kr & Cr)].
    + rewrite decide_True by done.
      exists (mkEntry copy f (Some idx)). split; [|done].
      replace (length h0 + length l - length h0) with (length l) by lia.
      rewrite lookup_app_r by lia. by rewrite Nat.sub_diag.
    + rewrite decide_False by done.
      destruct (H _ _ Hr) as (_ & Hc). specialize (Hc Kr).
      destruct (history_find l x (length h0) None) as [j|] eqn:Hf.
      * destruct Hc as (e & Hl & Hce). exists e. split; [|congruence].
        rewrite lookup_app_l; [done|]. by apply lookup_lt_Some in Hl.
      * destruct Hc as (r0 & Hr0 & K0 & C0). exists r0. repeat split; congruence.
Qed.

(** The copy loop. *)
Lemma copy_loop_recorded F bvec call_ref tail idx steps cs cs' :
  foldM (copy_step F bvec call_ref tail idx) cs steps = Ok cs' ->
  cs_fresh cs <= cs_fresh cs' /\
  exists l,
    cs_history cs' = cs_history cs ++ l /\ length l <= length steps /\
    recorded idx (cs_fresh cs') (cs_history cs) (cs_caller cs) l (cs_caller cs').
Proof.
  revert cs'. induction steps as [|p steps IH] using rev_ind; intros cs' H.
  - simpl in H. inversion H; subst. split; [done|]. exists [].
    rewrite app_nil_r. split; [done|]. split; [done|]. apply recorded_start.
  - rewrite foldM_app in H. apply bind_Ok in H as (cs1 & H1 & H). simpl in H.
    apply bind_Ok in H as (cs2 & Hstep & H). inversion H; subst cs2; clear H.
    destruct (IH _ H1) as (Hf1 & l & Hh & Hlen & Hrec).
    unfold copy_step in Hstep. apply bind_Ok in Hstep as (blk & _ & Hstep).
    apply copy_instruction_tracked in Hstep as (Hf2 & [[Hh2 T]|(copy & f & Hh2 & Hs)]).
    + split; [lia|]. exists l. split; [congruence|]. rewrite length_app. simpl.
      split; [lia|]. eapply recorded_tracked; [|exact T].
      eapply recorded_mono; [exact Hf2|exact Hrec].
    + split; [lia|]. exists (l ++ [mkEntry copy f (Some idx)]).
      split; [by rewrite Hh2, Hh, app_assoc|]. rewrite !length_app. simpl.
      split; [lia|]. eapply recorded_step; [|exact Hs].
      eapply recorded_mono; [exact Hf2|exact Hrec].
Qed.

(** The whole of a successful transplantation. *)
Lemma transplanted_recorded ctx ictx fr g call_ref c callee_ref F args tail count hist idx
    ctx' ictx' :
  transplanted ctx ictx fr g call_ref c callee_ref F args tail count hist idx ctx' ictx' ->
  fresh ctx <= fresh ctx' /\
  functions ctx' = functions ctx /\
  (forall f, f <> fr -> f <> callee_ref -> funcs ctx' !! f = funcs ctx !! f) /\
  (exists F2, funcs ctx' !! callee_ref = (if decide (callee_ref = fr) then funcs ctx' !! fr
                                          else Some F2) /\ same_but_ids F F2) /\
  not_inlinable ictx' = not_inlinable ictx /\
  exists g' l,
    funcs ctx' !! fr = Some g' /\
    history ictx' = hist ++ l /\ length l <= cost F /\
    insts g' !! call_ref = None /\
    recorded idx (fresh ctx') hist g l g'.
Proof.
  intros [call_block cb before call_next F1 F2 table cs g3 g5 last_block lb g7 g10
            Hparent Hcb Hsplit HF1 HF2 Hcopy Hfix Hremove Hlast Hlbk Hafter Hfree -> ->].
  assert (Hsame : same_but_ids F F2).
  { eapply same_but_ids_trans; [by eapply enumerate_blocks_same|].
    by eapply map_parameters_same. }
  apply copy_instructions_flat in Hcopy as (steps & Hsteps & Hfold).
  apply copy_loop_recorded in Hfold as (Hfresh & l & Hh & Hlen & Hrec). simpl_cs.
  simpl. split; [lia|]. split; [done|]. split.
  { intros f Hf1 Hf2. by rewrite !lookup_insert_ne. }
  split.
  { exists F2. split; [|done]. destruct (decide (callee_ref = fr)) as [->|Hne]; [done|].
    rewrite lookup_insert_ne by done. by rewrite lookup_insert_eq. }
  split; [done|].
  eexists _, l. split; [apply lookup_insert_eq|]. split; [done|]. split.
  { unfold cost. rewrite <- (function_instructions_same _ _ Hsame), Hsteps. done. }
  (* the phases behind the loop take nothing but the call away *)
  set (g4 := match cs_return_value cs with
             | Some rv => ir_replace_uses (ir_remove_use g3 rv call_ref) call_ref rv
             | None => g3
             end) in *.
  assert (S34 : sub g3 g4).
  { unfold g4. destruct (cs_return_value cs); [|apply sub_refl].
    eapply sub_trans; [apply sub_ir_remove_use|apply sub_ir_replace_uses]. }
  assert (S57 : sub g5 g7).
  { destruct tail.
    - eapply sub_trans; [apply sub_reattach|]. by eapply sub_remove_after_call.
    - injection Hafter as <-. apply sub_reattach. }
  assert (S7 : sub g7 g10).
  { eapply sub_trans; [apply sub_reparent|].
    eapply sub_trans; [|exact (sub_free_unused _ _ _ _ Hfree)]. apply sub_insts. reflexivity. }
  split.
  - apply (sub_None _ _ _ S7), (sub_None _ _ _ S57).
    by apply ir_remove_spec in Hremove as (_ & _ & Hn & _).
  - eapply recorded_tracked; [|apply sub_tracked, S7].
    eapply recorded_tracked; [|apply sub_tracked, S57].
    eapply recorded_tracked; [|apply sub_tracked, (sub_ir_remove _ _ _ Hremove)].
    eapply recorded_tracked; [|apply sub_tracked, S34].
    eapply recorded_tracked; [|apply sub_tracked, (sub_fix_up_uses _ _ _ _ Hfix)].
    eapply tracked_recorded; [|exact Hrec].
    eapply tracked_trans; [apply sub_tracked, sub_update_block|].
    apply tracked_allocate_skeleton. lia.
Qed.

(** ** Sums over the handles *)

Lemma sum_le {A} (f g : A -> nat) (l : list A) :
  (forall x, x ∈ l -> f x <= g x) -> sum_list_with f l <= sum_list_with g l.
Proof.
  induction l as [|a l IH]; simpl; intros H; [done|].
  pose proof (H a ltac:(by left)). assert (sum_list_with f l <= sum_list_with g l).
  { apply IH. intros x Hx. apply H. by right. }
  lia.
Qed.

Lemma sum_ext {A} (f g : A -> nat) (l : list A) :
  (forall x, x ∈ l -> f x = g x) -> sum_list_with f l = sum_list_with g l.
Proof.
  induction l as [|a l IH]; simpl; intros H; [done|].
  rewrite (H a) by (by left). rewrite IH; [done|]. intros x Hx. apply H. by right.
Qed.

Lemma sum_plus {A} (f g : A -> nat) (l : list A) :
  sum_list_with (fun x => f x + g x) l = sum_list_with f l + sum_list_with g l.
Proof. induction l as [|a l IH]; simpl; [done|]. lia. Qed.

Lemma sum_zero {A} (f : A -> nat) (l : list A) :
  (forall x, x ∈ l -> f x = 0) -> sum_list_with f l = 0.
Proof.
  induction l as [|a l IH]; simpl; intros H; [done|].
  rewrite (H a) by (by left). rewrite IH; [done|]. intros x Hx. apply H. by right.
Qed.

Lemma sum_member {A} (f : A -> nat) (l : list A) (a : A) :
  a ∈ l -> f a <= sum_list_with f l.
Proof.
  induction l as [|b l IH]; intros H; [by apply elem_of_nil in H|].
  simpl. apply elem_of_cons in H as [->|H]; [lia|]. specialize (IH H). lia.
Qed.

(** The sum over the handles below [n'] of a function that is zero
    from [n] on. *)
Lemma sum_below (f : nat -> nat) (n n' : nat) :
  n <= n' ->
  sum_list_with (fun x => if decide (x < n) then f x else 0) (seq 0 n')
  = sum_list_with f (seq 0 n).
Proof.
  intros Hle. replace n' with (n + (n' - n)) by lia.
  rewrite seq_app, sum_list_with_app. rewrite (sum_zero _ (seq (0 + n) (n' - n))).
  - rewrite Nat.add_0_r. apply sum_ext.
    intros x Hx%elem_of_seq. by rewrite decide_True by lia.
  - intros x Hx%elem_of_seq. by rewrite decide_False by lia.
Qed.

(** One handle is taken out of a sum. *)
Lemma sum_without (f : nat -> nat) (c n : nat) :
  c < n ->
  sum_list_with (fun x => if decide (x = c) then 0 else f x) (seq 0 n) + f c
  = sum_list_with f (seq 0 n).
Proof.
  intros Hc. replace n with (c + S (n - S c)) by lia.
  rewrite !seq_app, !sum_list_with_app.
  change (seq (0 + c) (S (n - S c))) with (c :: seq (S c) (n - S c)).
  cbn [sum_list_with]. rewrite decide_True by done.
  rewrite (sum_ext _ f (seq 0 c)).
  2:{ intros x Hx%elem_of_seq. by rewrite decide_False by lia. }
  rewrite (sum_ext _ f (seq (S c) (n - S c))).
  2:{ intros x Hx%elem_of_seq. by rewrite decide_False by lia. }
  lia.
Qed.

(** The handles of a list weigh at most [b] each. *)
Lemma sum_indicator (L l : list nat) (b : nat) :
  NoDup l ->
  sum_list_with (fun x => if decide (x ∈ L) then b else 0) l <= length L * b.
Proof.
  intros Hl. induction L as [|a L IH].
  - rewrite sum_zero; [done|]. intros x _.
    destruct (decide (x ∈ [])) as [H|]; [by apply elem_of_nil in H|done].
  - change (length (a :: L) * b) with (b + length L * b).
    etransitivity.
    { apply (sum_le _ (fun x => (if decide (x = a) then b else 0)
                                + (if decide (x ∈ L) then b else 0))).
      intros x _. destruct (decide (x ∈ a :: L)) as [Hin|Hin]; [|lia].
      apply elem_of_cons in Hin as [->|Hin].
      - rewrite decide_True by done. lia.
      - rewrite (decide_True (P := x ∈ L)) by done. lia. }
    rewrite sum_plus. apply Nat.add_le_mono; [|exact IH].
    clear IH. induction Hl as [|x l Hx Hl IH]; [simpl; lia|].
    cbn [sum_list_with]. destruct (decide (x = a)) as [->|Hne]; [|lia].
    rewrite sum_zero; [lia|]. intros y Hy. rewrite decide_False; [done|]. by intros ->.
Qed.

(** ** The weight of the calls *)

Lemma weight_le N M g g' ictx ictx' x :
  (forall r', insts g' !! x = Some r' -> kind r' = IR_CALL ->
              exists r, insts g !! x = Some r /\ kind r = IR_CALL) ->
  (forall y, y ∈ not_inlinable ictx -> y ∈ not_inlinable ictx') ->
  history ictx' = history ictx ->
  weight N M g' ictx' x <= weight N M g ictx x.
Proof.
  intros Hg Hn Hh. unfold weight.
  destruct (insts g' !! x) as [r'|] eqn:E'; [|lia].
  destruct (decide (kind r' = IR_CALL /\ x ∉ not_inlinable ictx')) as [[K Hni]|]; [|lia].
  destruct (Hg _ eq_refl K) as (r & -> & Kr).
  rewrite decide_True by (split; [done|]; intros Hin; by apply Hni, Hn).
  by rewrite Hh.
Qed.

Lemma potential_le N M g g' ictx ictx' n :
  (forall x r', insts g' !! x = Some r' -> kind r' = IR_CALL ->
                exists r, insts g !! x = Some r /\ kind r = IR_CALL) ->
  (forall y, y ∈ not_inlinable ictx -> y ∈ not_inlinable ictx') ->
  history ictx' = history ictx ->
  potential N M g' ictx' n <= potential N M g ictx n.
Proof.
  intros Hg Hn Hh. apply sum_le. intros x _. apply weight_le; eauto.
Qed.

(** A call that is recorded as not inlinable no longer counts. *)
Lemma potential_refused N M g ictx n c r :
  insts g !! c = Some r -> kind r = IR_CALL -> c ∉ not_inlinable ictx -> c < n ->
  potential N M g (with_not_inlinable ictx (not_inlinable ictx ++ [c])) n
  < potential N M g ictx n.
Proof.
  intros Hc K Hni Hn. unfold potential.
  rewrite <- (sum_without (weight N M g ictx) c n Hn).
  assert (1 <= weight N M g ictx c).
  { unfold weight. rewrite Hc, decide_True by done. apply B_pos. }
  assert (sum_list_with (weight N M g (with_not_inlinable ictx (not_inlinable ictx ++ [c])))
            (seq 0 n)
          <= sum_list_with (fun x => if decide (x = c) then 0 else weight N M g ictx x)
               (seq 0 n)); [|lia].
  apply sum_le. intros x _. unfold weight. simpl.
  destruct (insts g !! x) as [rx|]; [|by destruct (decide (x = c))].
  destruct (decide (x = c)) as [->|Hne].
  - rewrite decide_False; [done|]. intros [_ Hx]. apply Hx, elem_of_app. right. by left.
  - destruct (decide (kind rx = IR_CALL /\ x ∉ not_inlinable ictx ++ [c])) as [[Kx Hx]|]; [|lia].
    rewrite decide_True; [done|]. split; [done|]. intros Hin. apply Hx, elem_of_app. by left.
Qed.

(** ** The invariant of the pass over a function *)

Lemma valid_set_func ctx fr g' c :
  is_Some (funcs ctx !! fr) -> valid ctx c -> valid (set_func ctx fr g') c.
Proof.
  intros Hfr (F & -> & HF). exists F. split; [done|]. simpl.
  destruct (decide (fr = F)) as [->|Hne]; [by rewrite lookup_insert_eq|].
  by rewrite lookup_insert_ne.
Qed.

Lemma valid_set_func_rev ctx fr g' c :
  is_Some (funcs ctx !! fr) -> valid (set_func ctx fr g') c -> valid ctx c.
Proof.
  intros Hfr (F & -> & HF). exists F. split; [done|]. simpl in HF.
  destruct (decide (fr = F)) as [->|Hne]; [done|].
  by rewrite lookup_insert_ne in HF.
Qed.

(** The function of the pass is replaced by one with fewer
    instructions; the history is the same. *)
Lemma pass_inv_sub N M fr ctx ictx ictx' g g' :
  pass_inv N M fr ctx ictx -> funcs ctx !! fr = Some g -> sub g g' ->
  history ictx' = history ictx ->
  pass_inv N M fr (set_func ctx fr g') ictx'.
Proof.
  intros [Hf Hc Hm Ho Hg Hca] Hfr Hsub Hh.
  assert (Hsome : is_Some (funcs ctx !! fr)) by eauto.
  split.
  - intros f g0 k H0 Hk. simpl in H0 |- *.
    destruct (decide (fr = f)) as [->|Hne].
    + rewrite lookup_insert_eq in H0. injection H0 as <-. destruct Hk as [r' Hr'].
      destruct (Hsub _ _ Hr') as (r & Hr & _). eapply Hf; eauto.
    + rewrite lookup_insert_ne in H0 by done. eapply Hf; eauto.
  - intros l Hl Hin. apply Hc; [done|]. intros c Hc'.
    eapply valid_set_func_rev; eauto.
  - intros F Fn HF Hne. simpl in HF. rewrite lookup_insert_ne in HF by done. eauto.
  - by rewrite Hh.
  - rewrite Hh. intros i e j He Hj. destruct (Hg _ _ _ He Hj) as (Hnd & Hv).
    split; [done|]. intros c Hc'. apply valid_set_func; auto.
  - rewrite Hh. intros g0 x r' i e H0 Hx K Hfind He. simpl in H0.
    rewrite lookup_insert_eq in H0. injection H0 as <-.
    destruct (Hsub _ _ Hx) as (r & Hr & Kr & Cr). rewrite Cr.
    eapply Hca; eauto. congruence.
Qed.

(** Only the diagnostics and the not-inlinable set change. *)
Lemma pass_inv_ext N M fr ctx ictx ctx' ictx' :
  pass_inv N M fr ctx ictx -> funcs ctx' = funcs ctx -> fresh ctx' = fresh ctx ->
  history ictx' = history ictx -> pass_inv N M fr ctx' ictx'.
Proof.
  intros [Hf Hc Hm Ho Hg Hca] Ef Efr Hh. split.
  - intros f g k. rewrite Ef, Efr. apply Hf.
  - intros l Hl Hin. apply Hc; [done|]. intros c Hc'.
    destruct (Hin c Hc') as (F & -> & HF). exists F. by rewrite <- Ef.
  - intros F Fn. rewrite Ef. apply Hm.
  - by rewrite Hh.
  - rewrite Hh. intros i e j He Hj. destruct (Hg _ _ _ He Hj) as (Hnd & Hv).
    split; [done|]. intros c Hc'. destruct (Hv c Hc') as (F & -> & HF).
    exists F. by rewrite Ef.
  - rewrite Hh, Ef. exact Hca.
Qed.

Lemma pot_ext N M fr ctx ictx ctx' :
  funcs ctx' = funcs ctx -> fresh ctx' = fresh ctx ->
  pot N M fr ctx' ictx = pot N M fr ctx ictx.
Proof. intros Ef Efr. unfold pot. by rewrite Ef, Efr. Qed.

Lemma set_tail_call_kind r :
  kind (set_tail_call r) = kind r /\ callee_of (set_tail_call r) = callee_of r.
Proof.
  unfold set_tail_call, callee_of. destruct r as [k t bf d i p us]; simpl.
  by destruct d as [| | | | |n [f|c] args tl| | | | | |].
Qed.

(** A step of the scan keeps the invariant and does not add to the
    potential. *)
Lemma consider_instruction_pass N M fr ctx ictx res inst s go :
  pass_inv N M fr ctx ictx ->
  consider_instruction ctx ictx res fr inst = Ok (s, go) ->
  pass_inv N M fr s.1.1 s.1.2 /\ pot N M fr s.1.1 s.1.2 <= pot N M fr ctx ictx.
Proof.
  intros Hinv H.
  destruct (consider_instruction_inv _ _ _ _ _ _ _ H) as (f & r & Hf & Hr & Hcases).
  destruct Hcases as [[_ ->]|[(_ & n & args & K & D & Hni & Hmust & [[_ ->]|[_ ->]])
                             |(_ & -> & _)]]; simpl; try (split; [done|lia]).
  - (* the call is marked as a tail call *)
    assert (Hsub : sub f (update_inst f inst set_tail_call)).
    { apply sub_update_inst. intros r0. apply set_tail_call_kind. }
    split; [by eapply pass_inv_sub|].
    unfold pot. simpl. rewrite lookup_insert_eq, Hf.
    apply potential_le; [|done|done].
    intros x r' Hx Kx. destruct (Hsub _ _ Hx) as (r0 & Hr0 & K0 & _).
    exists r0. split; [done|congruence].
  - (* the call is recorded as not inlinable *)
    split.
    + eapply pass_inv_ext; [exact Hinv| | |done]; by destruct (may_fail ictx).
    + rewrite (pot_ext _ _ _ ctx); [|by destruct (may_fail ictx)..].
      unfold pot. rewrite Hf. apply potential_le; [eauto|
        intros y Hy; simpl; apply elem_of_app; by left|done].
Qed.

Lemma scan_instructions_pass N M fr ctx ictx res l s found :
  pass_inv N M fr ctx ictx ->
  scan_instructions ctx ictx res fr l = Ok (s, found) ->
  pass_inv N M fr s.1.1 s.1.2 /\ pot N M fr s.1.1 s.1.2 <= pot N M fr ctx ictx /\
  forall i, found = Some i ->
    exists g r n callee_ref args tail callee_f,
      funcs s.1.1 !! fr = Some g /\ insts g !! i = Some r /\ kind r = IR_CALL /\
      data r = Call n (callee_function callee_ref) args tail /\ callee_ref <> fr /\
      funcs s.1.1 !! callee_ref = Some callee_f /\ i ∉ not_inlinable s.1.2.
Proof.
  revert ctx ictx res. induction l as [|i l IH]; simpl; intros ctx ictx res Hinv H.
  - inversion H; subst. split; [done|]. split; [done|]. intros; discriminate.
  - apply bind_Ok in H as ([s1 go] & H1 & H).
    destruct (consider_instruction_pass _ _ _ _ _ _ _ _ _ Hinv H1) as (Hinv1 & Hpot1).
    destruct go.
    + inversion H; subst. split; [done|]. split; [done|]. intros i0 [= <-].
      destruct (consider_instruction_inv _ _ _ _ _ _ _ H1) as (f & r & Hf & Hr & Hcases).
      destruct Hcases as [[? _]|[(? & _)|(_ & -> & n & cr & args & tl & cf & K & D & Hne
                                          & Hcf & _ & Hni & _)]]; try discriminate.
      simpl. eauto 15.
    + destruct (IH _ _ _ Hinv1 H) as (Hinv2 & Hpot2 & Hfound).
      split; [done|]. split; [lia|done].
Qed.

Lemma scan_blocks_pass N M fr ctx ictx res bs s found :
  pass_inv N M fr ctx ictx ->
  scan_blocks ctx ictx res fr bs = Ok (s, found) ->
  pass_inv N M fr s.1.1 s.1.2 /\ pot N M fr s.1.1 s.1.2 <= pot N M fr ctx ictx /\
  forall b i, found = Some (b, i) ->
    exists g r n callee_ref args tail callee_f,
      funcs s.1.1 !! fr = Some g /\ insts g !! i = Some r /\ kind r = IR_CALL /\
      data r = Call n (callee_function callee_ref) args tail /\ callee_ref <> fr /\
      funcs s.1.1 !! callee_ref = Some callee_f /\ i ∉ not_inlinable s.1.2.
Proof.
  revert ctx ictx res. induction bs as [|b bs IH]; simpl; intros ctx ictx res Hinv H.
  - inversion H; subst. split; [done|]. split; [done|]. intros; discriminate.
  - apply bind_Ok in H as (f & _ & H). apply bind_Ok in H as (blk & _ & H).
    apply bind_Ok in H as ([s1 o] & H1 & H).
    destruct (scan_instructions_pass _ _ _ _ _ _ _ _ _ Hinv H1) as (Hinv1 & Hpot1 & Hf1).
    destruct o as [i|].
    + inversion H; subst. split; [done|]. split; [done|]. intros b0 i0 [= <- <-]. eauto.
    + destruct (IH _ _ _ Hinv1 H) as (Hinv2 & Hpot2 & Hfound).
      split; [done|]. split; [lia|done].
Qed.

(** ** An inlining *)

(** The three ways in which [ir_inline_call] returns. *)
Lemma ir_inline_call_cases ctx ictx fr call_ref ctx' ictx' b g c n callee_ref args tail F :
  funcs ctx !! fr = Some g ->
  insts g !! call_ref = Some c ->
  data c = Call n (callee_function callee_ref) args tail ->
  funcs ctx !! callee_ref = Some F ->
  ir_inline_call ctx ictx fr call_ref = Ok (ctx', ictx', b) ->
  (b = false /\ ictx' = ictx /\ funcs ctx' = funcs ctx /\ fresh ctx' = fresh ctx) \/
  (b = true /\ ictx' = ictx /\ exists g', ir_remove g call_ref = Ok g' /\
                                          ctx' = set_func ctx fr g') \/
  (b = true /\ callee_ref <> fr /\
   exists count hist idx,
     transplanted ctx ictx fr g call_ref c callee_ref F args tail count hist idx ctx' ictx' /\
     ((history_find (history ictx) call_ref 0 None = Some idx /\ hist = history ictx /\
       exists e j, history ictx !! idx = Some e /\ inlined_via e = Some j /\
                   history_walk (length (history ictx)) (history ictx) j callee_ref
                   = Ok false) \/
      (history_find (history ictx) call_ref 0 None = None /\ idx = length (history ictx) /\
       hist = history ictx ++ [mkEntry call_ref (Some callee_ref) ROOT_INLINE_ENTRY]))).
Proof.
  intros Hg Hc Hd HF. unfold ir_inline_call.
  rewrite (get_func_Some _ _ _ Hg). simpl. rewrite (get_inst_Some _ _ _ Hc). simpl.
  rewrite Hd. destruct (decide (callee_ref = fr)) as [|Hne]; [discriminate|].
  rewrite (get_func_Some _ _ _ HF). simpl. intros H.
  apply bind_Ok in H as (count & Hcount & H).
  destruct (decide (count = 0)).
  { destruct (users c); [|discriminate].
    apply bind_Ok in H as (g' & Hg' & H). inversion H; subst. right. left.
    split; [done|]. split; [done|]. by exists g'. }
  destruct (history_find (history ictx) call_ref 0 None) as [i|] eqn:Hfind.
  - apply bind_Ok in H as (e & He%of_option_Ok & H).
    destruct (inlined_via e) as [j|] eqn:Hj; [|discriminate].
    apply bind_Ok in H as (cycle & Hwalk & H). destruct cycle.
    + inversion H; subst. left. split; [done|]. split; [done|].
      by destruct (may_fail ictx').
    + apply transplant_inv in H as [-> H]. right. right. split; [done|]. split; [done|].
      exists count, (history ictx), i. split; [done|]. left.
      split; [done|]. split; [done|]. by exists e, j.
  - apply transplant_inv in H as [-> H]. right. right. split; [done|]. split; [done|].
    eexists count, _, _. split; [exact H|]. right. done.
Qed.

(** The entries from the entry of the call that is inlined to the
    root are for different functions. *)
Lemma inlined_entry_good N M fr ctx ictx g call_ref c n callee_ref args tail F hist idx :
  pass_inv N M fr ctx ictx ->
  funcs ctx !! fr = Some g -> insts g !! call_ref = Some c -> kind c = IR_CALL ->
  data c = Call n (callee_function callee_ref) args tail ->
  funcs ctx !! callee_ref = Some F ->
  ((history_find (history ictx) call_ref 0 None = Some idx /\ hist = history ictx /\
    exists e j, history ictx !! idx = Some e /\ inlined_via e = Some j /\
                history_walk (length (history ictx)) (history ictx) j callee_ref
                = Ok false) \/
   (history_find (history ictx) call_ref 0 None = None /\ idx = length (history ictx) /\
    hist = history ictx ++ [mkEntry call_ref (Some callee_ref) ROOT_INLINE_ENTRY])) ->
  ordered hist /\ idx < length hist /\ good ctx hist idx /\
  length (ancestry hist idx) = dep (history ictx) call_ref /\
  (forall i e j, hist !! i = Some e -> inlined_via e = Some j -> good ctx hist j) /\
  (forall x, x <> call_ref ->
     history_find hist x 0 None = history_find (history ictx) x 0 None) /\
  exists l0, hist = history ictx ++ l0.
Proof.
  intros [Hf Hcnt Hm Ho Hgood Hca] Hg Hc K Hd HF [(Hfind & -> & e & j & He & Hj & Hwalk)
                                                 |(Hfind & -> & ->)].
  - pose proof (Ho _ _ _ He Hj) as Hlt.
    pose proof (lookup_lt_Some _ _ _ He) as Hidx.
    split; [done|]. split; [done|]. split; [|split; [|split; [done|split; [done|]]]].
    + unfold good. rewrite (ancestry_unfold _ _ _ Ho He), Hj. simpl.
      assert (callee e = Some callee_ref) as ->.
      { rewrite (Hca _ _ _ _ _ Hg Hc K Hfind He). unfold callee_of. by rewrite Hd. }
      destruct (Hgood _ _ _ He Hj) as (Hnd & Hv).
      rewrite history_walk_ancestry in Hwalk by (done || lia).
      injection Hwalk as Hwalk. apply bool_decide_eq_false in Hwalk.
      split; [by apply NoDup_cons|].
      intros c0 Hc0. apply elem_of_cons in Hc0 as [->|Hc0]; [|by apply Hv].
      exists callee_ref. split; [done|]. eauto.
    + unfold dep. by rewrite Hfind.
    + exists []. by rewrite app_nil_r.
  - set (root := mkEntry call_ref (Some callee_ref) ROOT_INLINE_ENTRY).
    assert (Ho' : ordered (history ictx ++ [root])).
    { apply ordered_app; [done|]. intros e j He%list_elem_of_singleton Hj. by subst e. }
    assert (Hroot : (history ictx ++ [root]) !! length (history ictx) = Some root).
    { rewrite lookup_app_r by lia. by rewrite Nat.sub_diag. }
    split; [done|]. split; [rewrite length_app; simpl; lia|].
    split; [|split; [|split; [|split]]].
    + unfold good. rewrite (ancestry_unfold _ _ _ Ho' Hroot). simpl. split.
      * apply NoDup_singleton.
      * intros c0 Hc0%list_elem_of_singleton. subst c0. exists callee_ref. eauto.
    + rewrite (ancestry_unfold _ _ _ Ho' Hroot). simpl. unfold dep. by rewrite Hfind.
    + intros i e j He Hj.
      destruct (decide (i < length (history ictx))) as [Hi|Hi].
      * rewrite lookup_app_l in He by done.
        destruct (Hgood _ _ _ He Hj) as (Hnd & Hv).
        pose proof (Ho _ _ _ He Hj). unfold good.
        rewrite ancestry_app by (done || lia). done.
      * rewrite lookup_app_r in He by lia. apply list_elem_of_lookup_2 in He.
        apply list_elem_of_singleton in He. by subst e.
    + intros x Hx. rewrite history_find_extended. simpl. by rewrite decide_False by done.
    + by exists [root].
Qed.

Lemma dep_app h l x :
  ordered h -> history_find l x (length h) None = None -> dep (h ++ l) x = dep h x.
Proof.
  intros Ho Hl. unfold dep. rewrite history_find_extended, Hl.
  destruct (history_find h x 0 None) as [i|] eqn:E; [|done].
  rewrite ancestry_app; [done|done|]. by apply history_find_lt in E.
Qed.

Lemma dep_new h l x j e idx :
  ordered h -> ordered (h ++ l) ->
  history_find l x (length h) None = Some j -> l !! (j - length h) = Some e ->
  inlined_via e = Some idx -> idx < length h ->
  dep (h ++ l) x = S (length (ancestry h idx)).
Proof.
  intros Ho Ho' Hl He Hvia Hidx. unfold dep. rewrite history_find_extended, Hl.
  apply history_find_Some in Hl as (Hle & _).
  assert (He' : (h ++ l) !! j = Some e) by (by rewrite lookup_app_r by lia).
  rewrite (ancestry_unfold _ _ _ Ho' He'), Hvia. simpl. by rewrite ancestry_app.
Qed.

Lemma cost_same F F2 : same_but_ids F F2 -> cost F2 = cost F.
Proof. intros H. unfold cost. by rewrite (function_instructions_same _ _ H). Qed.

Lemma same_but_ids_keys F F2 k :
  same_but_ids F F2 -> is_Some (insts F2 !! k) -> is_Some (insts F !! k).
Proof.
  intros (_ & _ & _ & _ & _ & H & _) [r Hr]. specialize (H k). rewrite Hr in H.
  destruct (insts F !! k); [eauto|discriminate].
Qed.

(** A successful transplantation keeps the invariant and lowers the
    potential. *)
Lemma transplanted_pass N M fr ctx ictx g call_ref c n callee_ref args tail F count hist idx
    ctx' ictx' :
  pass_inv N M fr ctx ictx ->
  funcs ctx !! fr = Some g -> insts g !! call_ref = Some c -> kind c = IR_CALL ->
  data c = Call n (callee_function callee_ref) args tail ->
  funcs ctx !! callee_ref = Some F -> callee_ref <> fr ->
  call_ref ∉ not_inlinable ictx ->
  transplanted ctx ictx fr g call_ref c callee_ref F args tail count hist idx ctx' ictx' ->
  ((history_find (history ictx) call_ref 0 None = Some idx /\ hist = history ictx /\
    exists e j, history ictx !! idx = Some e /\ inlined_via e = Some j /\
                history_walk (length (history ictx)) (history ictx) j callee_ref
                = Ok false) \/
   (history_find (history ictx) call_ref 0 None = None /\ idx = length (history ictx) /\
    hist = history ictx ++ [mkEntry call_ref (Some callee_ref) ROOT_INLINE_ENTRY])) ->
  pass_inv N M fr ctx' ictx' /\ pot N M fr ctx' ictx' < pot N M fr ctx ictx.
Proof.
  intros Hinv Hg Hc K Hd HF Hne Hni Htp Halt.
  destruct (inlined_entry_good _ _ _ _ _ _ _ _ _ _ _ _ _ _ _ Hinv Hg Hc K Hd HF Halt)
    as (Ho' & Hidx & Hgood_idx & Hdep & Hgood' & Hfind_same & l0 & Ehist).
  destruct (transplanted_recorded _ _ _ _ _ _ _ _ _ _ _ _ _ _ _ Htp)
    as (Hfresh & Hfuns & Hothers & (F2 & HF2 & Hsame) & Hni' & g' & l & Hg' & Hh' & Hlen
        & Hgone & Hentries & Hrec).
  rewrite decide_False in HF2 by done.
  destruct Hinv as [Hf Hcnt Hm Ho Hgood Hca].
  assert (Hdom : forall X, is_Some (funcs ctx' !! X) <-> is_Some (funcs ctx !! X)).
  { intros X. destruct (decide (X = fr)) as [->|H1]; [rewrite Hg', Hg; by split; eauto|].
    destruct (decide (X = callee_ref)) as [->|H2]; [rewrite HF2, HF; by split; eauto|].
    by rewrite Hothers. }
  assert (Hvalid : forall c0, valid ctx' c0 <-> valid ctx c0).
  { intros c0. split; intros (X & -> & HX); exists X; (split; [done|]); by apply Hdom. }
  assert (Hoh : ordered (history ictx')).
  { rewrite Hh'. apply ordered_app; [done|]. intros e j He Hj.
    rewrite (Hentries _ He) in Hj. injection Hj as <-. done. }
  assert (Hlift : forall j, j < length hist -> good ctx hist j -> good ctx' (history ictx') j).
  { intros j Hj (Hnd & Hv). unfold good. rewrite Hh', ancestry_app by done.
    split; [done|]. intros c0 Hc0. by apply Hvalid, Hv. }
  assert (Hd_le : length (ancestry hist idx) <= N).
  { destruct Hgood_idx as (Hnd & Hv). rewrite <- (length_fmap callee). by apply Hcnt. }
  split.
  - split.
    + (* the allocator *)
      intros f g0 k H0 Hk.
      destruct (decide (f = fr)) as [->|H1].
      { rewrite Hg' in H0. injection H0 as <-. destruct Hk as [r' Hr'].
        destruct (Hrec _ _ Hr') as (Hnew & _).
        destruct (insts g !! k) as [r|] eqn:E; [|by apply Hnew].
        assert (k < fresh ctx) by (apply (Hf fr g k Hg); rewrite E; eauto). lia. }
      destruct (decide (f = callee_ref)) as [->|H2].
      { rewrite HF2 in H0. injection H0 as <-.
        apply (same_but_ids_keys _ _ _ Hsame) in Hk.
        assert (k < fresh ctx) by (apply (Hf callee_ref F k HF Hk)). lia. }
      rewrite Hothers in H0 by done.
      assert (k < fresh ctx) by (apply (Hf f g0 k H0 Hk)). lia.
    + intros l1 Hl1 Hin. apply Hcnt; [done|]. intros c0 Hc0. by apply Hvalid, Hin.
    + intros X Xn HX HneX.
      destruct (decide (X = callee_ref)) as [->|H2].
      { rewrite HF2 in HX. injection HX as <-. rewrite (cost_same _ _ Hsame). eauto. }
      rewrite Hothers in HX by done. eauto.
    + done.
    + intros i e j He Hj. rewrite Hh' in He.
      destruct (decide (i < length hist)) as [Hi|Hi].
      * rewrite lookup_app_l in He by done.
        pose proof (Ho' _ _ _ He Hj). apply Hlift; [lia|]. eauto.
      * rewrite lookup_app_r in He by lia. apply list_elem_of_lookup_2 in He.
        rewrite (Hentries _ He) in Hj. injection Hj as <-. by apply Hlift.
    + intros g0 x r' i e H0 Hx K' Hfind' He'.
      rewrite Hg' in H0. injection H0 as <-.
      destruct (Hrec _ _ Hx) as (_ & Hc'). specialize (Hc' K').
      rewrite Hh' in Hfind', He'. rewrite history_find_extended in Hfind'.
      destruct (history_find l x (length hist) None) as [j|] eqn:Hfl.
      * injection Hfind' as <-. destruct Hc' as (e0 & He0 & Hce0).
        apply history_find_Some in Hfl as (Hle & _).
        rewrite lookup_app_r in He' by lia. congruence.
      * destruct Hc' as (r & Hr & Kr & Cr).
        assert (x <> call_ref) by (intros ->; congruence).
        rewrite Hfind_same in Hfind' by done.
        pose proof (history_find_lt _ _ _ Hfind') as Hi.
        rewrite Ehist, <- app_assoc, lookup_app_l in He' by done.
        rewrite <- Cr. eapply Hca; eauto.
  - (* the potential *)
    unfold pot. rewrite Hg', Hg. unfold potential.
    set (d := length (ancestry hist idx)) in *.
    set (w := weight N M g ictx).
    assert (Hwc : w call_ref = 1 + M * B M (N - d)).
    { unfold w, weight. rewrite Hc, decide_True by done. rewrite <- Hdep.
      fold d. replace (S N - d) with (S (N - d)) by lia. reflexivity. }
    assert (Hcall_lt : call_ref < fresh ctx) by (apply (Hf fr g call_ref Hg); eauto).
    assert (Hbound : forall x, x ∈ seq 0 (fresh ctx') ->
              weight N M g' ictx' x
              <= (if decide (x < fresh ctx)
                  then (if decide (x = call_ref) then 0 else w x) else 0)
                 + (if decide (x ∈ call <$> l) then B M (N - d) else 0)).
    { intros x _. unfold weight at 1.
      destruct (insts g' !! x) as [r'|] eqn:Hx; [|lia].
      destruct (decide (kind r' = IR_CALL /\ x ∉ not_inlinable ictx')) as [[K' Hnx]|]; [|lia].
      destruct (Hrec _ _ Hx) as (_ & Hc'). specialize (Hc' K').
      destruct (history_find l x (length hist) None) as [j|] eqn:Hfl.
      - destruct Hc' as (e0 & He0 & _).
        assert (Hin : x ∈ call <$> l).
        { apply history_find_Some in Hfl as (_ & e1 & He1 & Hcall).
          apply list_elem_of_fmap. exists e1. split; [done|].
          by eapply list_elem_of_lookup_2. }
        rewrite (decide_True (P := x ∈ call <$> l)) by done.
        rewrite Hh'. rewrite Hh' in Hoh.
        rewrite (dep_new hist l x j e0 idx Ho' Hoh Hfl He0); [|
          by apply Hentries, (list_elem_of_lookup_2 _ _ _ He0)|done].
        fold d. replace (S N - S d) with (N - d) by lia. lia.
      - destruct Hc' as (r & Hr & Kr & Cr).
        assert (Hxc : x <> call_ref) by (intros ->; congruence).
        assert (x < fresh ctx) by (apply (Hf fr g x Hg); eauto).
        rewrite decide_True by done. rewrite decide_False by done.
        unfold w, weight. rewrite Hr. rewrite Hni' in Hnx. rewrite decide_True by done.
        rewrite Hh', (dep_app hist l x Ho' Hfl).
        assert (dep hist x = dep (history ictx) x) as ->; [|lia].
        unfold dep. rewrite (Hfind_same x Hxc).
        destruct (history_find (history ictx) x 0 None) as [i|] eqn:E; [|done].
        rewrite Ehist, ancestry_app; [done|done|]. by apply history_find_lt in E. }
    eapply Nat.le_lt_trans; [apply (sum_le _ _ _ Hbound)|].
    rewrite sum_plus.
    rewrite (sum_below (fun x => if decide (x = call_ref) then 0 else w x)) by done.
    pose proof (sum_without w call_ref (fresh ctx) Hcall_lt) as Hsplit.
    pose proof (sum_indicator (call <$> l) (seq 0 (fresh ctx')) (B M (N - d))
                  (NoDup_seq _ _)) as Hind.
    rewrite length_fmap in Hind.
    assert (length l <= M) by (etransitivity; [exact Hlen|eauto]).
    assert (length l * B M (N - d) <= M * B M (N - d)) by (by apply Nat.mul_le_mono_r).
    fold w in Hsplit |- *. lia.
Qed.

(** Every return of [ir_inline_call] for a call that the scan passed
    on lowers the potential: the call is inlined, or it is recorded as
    not inlinable. *)
Lemma ir_inline_call_pass N M fr ctx ictx call_ref ctx' ictx' b g c n callee_ref args tail F :
  pass_inv N M fr ctx ictx ->
  funcs ctx !! fr = Some g -> insts g !! call_ref = Some c -> kind c = IR_CALL ->
  data c = Call n (callee_function callee_ref) args tail ->
  funcs ctx !! callee_ref = Some F -> callee_ref <> fr ->
  call_ref ∉ not_inlinable ictx ->
  ir_inline_call ctx ictx fr call_ref = Ok (ctx', ictx', b) ->
  let ictx2 := if b then ictx'
               else with_not_inlinable ictx' (not_inlinable ictx' ++ [call_ref]) in
  pass_inv N M fr ctx' ictx2 /\ pot N M fr ctx' ictx2 < pot N M fr ctx ictx.
Proof.
  intros Hinv Hg Hc K Hd HF Hne Hni H.
  assert (Hlt : call_ref < fresh ctx) by (apply (pi_fresh _ _ _ _ _ Hinv fr g); eauto).
  destruct (ir_inline_call_cases _ _ _ _ _ _ _ _ _ _ _ _ _ _ Hg Hc Hd HF H)
    as [(-> & -> & Ef & Efr)|[(-> & -> & g' & Hrem & ->)
                             |(-> & _ & count & hist & idx & Htp & Halt)]]; simpl.
  - split; [by eapply pass_inv_ext|].
    rewrite (pot_ext _ _ _ ctx) by done. unfold pot. rewrite Hg.
    by eapply potential_refused.
  - pose proof (sub_ir_remove _ _ _ Hrem) as Hsub.
    split; [by eapply pass_inv_sub|].
    unfold pot. simpl. rewrite lookup_insert_eq, Hg. unfold potential.
    rewrite <- (sum_without (weight N M g ictx) call_ref (fresh ctx) Hlt).
    assert (1 <= weight N M g ictx call_ref).
    { unfold weight. rewrite Hc, decide_True by done. apply B_pos. }
    assert (sum_list_with (weight N M g' ictx) (seq 0 (fresh ctx))
            <= sum_list_with (fun x => if decide (x = call_ref) then 0
                                       else weight N M g ictx x) (seq 0 (fresh ctx)));
      [|lia].
    apply sum_le. intros x _. destruct (decide (x = call_ref)) as [->|Hx].
    + unfold weight. apply ir_remove_spec in Hrem as (_ & _ & -> & _). done.
    + apply weight_le; [|done|done]. intros r' Hr' Kr'.
      destruct (Hsub _ _ Hr') as (r & Hr & Kr & _). exists r. split; [done|congruence].
  - by eapply transplanted_pass.
Qed.

(** ** No loop without fuel *)

Lemma ends_Ok {A} (a : A) : ends (Ok a).
Proof. done. Qed.

Lemma ends_Abort {A} : ends (@Abort A).
Proof. done. Qed.

Lemma ends_bind {A B} (m : result A) (k : A -> result B) :
  ends m -> (forall a, m = Ok a -> ends (k a)) -> ends (bind m k).
Proof. intros Hm Hk. destruct m as [a| |]; simpl; [by apply Hk|done|done]. Qed.

Lemma ends_of_option {A} (o : option A) : ends (of_option o).
Proof. by destruct o. Qed.

Lemma ends_mapM {A B} (f : A -> result B) (l : list A) :
  (forall a, ends (f a)) -> ends (mapM f l).
Proof.
  intros Hf. induction l as [|a l IH]; simpl; [done|].
  apply ends_bind; [apply Hf|intros]. apply ends_bind; [apply IH|done].
Qed.

Lemma ends_foldM {A S} (f : S -> A -> result S) (l : list A) (s : S) :
  (forall s a, ends (f s a)) -> ends (foldM f s l).
Proof.
  intros Hf. revert s. induction l as [|a l IH]; intros s; simpl; [done|].
  apply ends_bind; [apply Hf|intros; apply IH].
Qed.

Create HintDb ends.

#[local] Hint Resolve ends_Ok ends_Abort ends_of_option : ends.

Ltac ends_step :=
  match goal with
  | |- ends (Ok _) => apply ends_Ok
  | |- ends Abort => apply ends_Abort
  | |- ends (of_option _) => apply ends_of_option
  | |- ends (bind _ _) => apply ends_bind; [|intros]
  | |- ends (mapM _ _) => apply ends_mapM; intros
  | |- ends (foldM _ _ _) => apply ends_foldM; intros
  | |- ends (get_func _ _) => apply ends_of_option
  | |- ends (get_inst _ _) => apply ends_of_option
  | |- ends (get_block _ _) => apply ends_of_option
  | |- ends (match ?x with _ => _ end) => destruct x
  | |- ends _ => solve [auto with ends]
  end.

Ltac ends_tac := repeat ends_step.

Lemma ends_ir_remove f i : ends (ir_remove f i).
Proof. unfold ir_remove. ends_tac. Qed.
#[local] Hint Resolve ends_ir_remove : ends.

Lemma ends_ir_force_insert f b i : ends (ir_force_insert_into_block f b i).
Proof. unfold ir_force_insert_into_block. ends_tac. Qed.
#[local] Hint Resolve ends_ir_force_insert : ends.

Lemma ends_ir_insert f b i : ends (ir_insert_into_block f b i).
Proof. unfold ir_insert_into_block. ends_tac. Qed.
#[local] Hint Resolve ends_ir_insert : ends.

Lemma ends_function_instructions f : ends (function_instructions f).
Proof. unfold function_instructions. ends_tac. Qed.
#[local] Hint Resolve ends_function_instructions : ends.

Lemma ends_instruction_count f b : ends (instruction_count f b).
Proof. unfold instruction_count. ends_tac. Qed.
#[local] Hint Resolve ends_instruction_count : ends.

Lemma ends_enumerate_instructions F n l : ends (enumerate_instructions F n l).
Proof.
  revert F n. induction l as [|i l IH]; intros F n; simpl; [done|].
  apply ends_bind; [ends_tac|intros r _]. destruct (decide _); apply IH.
Qed.
#[local] Hint Resolve ends_enumerate_instructions : ends.

Lemma ends_enumerate_blocks F bid n bs : ends (enumerate_blocks F bid n bs).
Proof.
  revert F bid n. induction bs as [|b bs IH]; intros F bid n; simpl; [done|].
  apply ends_bind; [ends_tac|intros blk _].
  apply ends_bind; [ends_tac|intros [F1 n'] _]. apply IH.
Qed.
#[local] Hint Resolve ends_enumerate_blocks : ends.

Lemma ends_map_parameters F table args count psize param ps :
  ends (map_parameters F table args count psize param ps).
Proof.
  revert F table param. induction ps as [|p ps IH]; intros F table param; simpl; [done|].
  apply ends_bind; [ends_tac|intros _ _].
  apply ends_bind; [ends_tac|intros a _]. destruct (decide _); [apply IH|done].
Qed.
#[local] Hint Resolve ends_map_parameters : ends.

Lemma ends_MAP F table i : ends (MAP F table i).
Proof. unfold MAP. ends_tac. Qed.
#[local] Hint Resolve ends_MAP : ends.

Lemma ends_MAP_BLOCK F bvec b : ends (MAP_BLOCK F bvec b).
Proof. unfold MAP_BLOCK. ends_tac. Qed.
#[local] Hint Resolve ends_MAP_BLOCK : ends.

Lemma ends_map_callee F table c : ends (map_callee F table c).
Proof. unfold map_callee. ends_tac. Qed.
#[local] Hint Resolve ends_map_callee : ends.

Lemma ends_copy_data F table bvec k d : ends (copy_data F table bvec k d).
Proof. unfold copy_data. destruct (classify k), d; ends_tac. Qed.
#[local] Hint Resolve ends_copy_data : ends.

Lemma ends_create_return_block cs b : ends (create_return_block cs b).
Proof. unfold create_return_block. ends_tac. Qed.
#[local] Hint Resolve ends_create_return_block : ends.

Lemma ends_add_to_phi_and_branch F call_ref b inst o copy cs :
  ends (add_to_phi_and_branch F call_ref b inst o copy cs).
Proof. unfold add_to_phi_and_branch. ends_tac. Qed.
#[local] Hint Resolve ends_add_to_phi_and_branch : ends.

Lemma ends_copy_return F call_ref tail b blk ih inst copy cs :
  ends (copy_return F call_ref tail b blk ih inst copy cs).
Proof. unfold copy_return. ends_tac. Qed.
#[local] Hint Resolve ends_copy_return : ends.

Lemma ends_copy_instruction F bvec call_ref tail idx b blk cs ih :
  ends (copy_instruction F bvec call_ref tail idx b blk cs ih).
Proof. unfold copy_instruction. ends_tac. Qed.
#[local] Hint Resolve ends_copy_instruction : ends.

Lemma ends_copy_block F bvec call_ref tail idx cs b :
  ends (copy_block F bvec call_ref tail idx cs b).
Proof. unfold copy_block. ends_tac. Qed.
#[local] Hint Resolve ends_copy_block : ends.

Lemma ends_copy_instructions F bvec call_ref tail idx cs :
  ends (copy_instructions F bvec call_ref tail idx cs).
Proof. unfold copy_instructions. ends_tac. Qed.
#[local] Hint Resolve ends_copy_instructions : ends.

Lemma ends_fix_up_uses F table g : ends (fix_up_uses F table g).
Proof. unfold fix_up_uses. ends_tac. Qed.
#[local] Hint Resolve ends_fix_up_uses : ends.

Lemma ends_remove_after_call g l : ends (remove_after_call g l).
Proof. unfold remove_after_call. ends_tac. Qed.
#[local] Hint Resolve ends_remove_after_call : ends.

Lemma ends_free_unused g call_ref table : ends (free_unused g call_ref table).
Proof. unfold free_unused. ends_tac. Qed.
#[local] Hint Resolve ends_free_unused : ends.

Lemma ends_transplant ctx ictx fr g call_ref c callee_ref F args tail count hist idx :
  ends (transplant ctx ictx fr g call_ref c callee_ref F args tail count hist idx).
Proof. unfold transplant. ends_tac. Qed.
#[local] Hint Resolve ends_transplant : ends.

Lemma ends_opt_try_convert g i : ends (opt_try_convert_to_tail_call g i).
Proof. unfold opt_try_convert_to_tail_call. ends_tac. Qed.
#[local] Hint Resolve ends_opt_try_convert : ends.

Lemma ends_inline_requested ictx f : ends (inline_requested ictx f).
Proof. unfold inline_requested. ends_tac. Qed.
#[local] Hint Resolve ends_inline_requested : ends.

Lemma ends_self_recursive_call ctx ictx res fr f inst tail :
  ends (self_recursive_call ctx ictx res fr f inst tail).
Proof. unfold self_recursive_call. ends_tac. Qed.
#[local] Hint Resolve ends_self_recursive_call : ends.

Lemma ends_consider_instruction ctx ictx res fr inst :
  ends (consider_instruction ctx ictx res fr inst).
Proof. unfold consider_instruction. ends_tac. Qed.
#[local] Hint Resolve ends_consider_instruction : ends.

Lemma ends_scan_instructions ctx ictx res fr l : ends (scan_instructions ctx ictx res fr l).
Proof.
  revert ctx ictx res. induction l as [|i l IH]; intros ctx ictx res; simpl; [done|].
  apply ends_bind; [ends_tac|intros [s go] _]. destruct go; [done|apply IH].
Qed.
#[local] Hint Resolve ends_scan_instructions : ends.

Lemma ends_scan_blocks ctx ictx res fr bs : ends (scan_blocks ctx ictx res fr bs).
Proof.
  revert ctx ictx res. induction bs as [|b bs IH]; intros ctx ictx res; simpl; [done|].
  apply ends_bind; [ends_tac|intros f _]. apply ends_bind; [ends_tac|intros blk _].
  apply ends_bind; [ends_tac|intros [s o] _]. destruct o; [done|apply IH].
Qed.
#[local] Hint Resolve ends_scan_blocks : ends.

(** The walk over the history ends when the history is ordered. *)
Lemma ends_ir_inline_call ctx ictx fr call_ref :
  ordered (history ictx) -> ends (ir_inline_call ctx ictx fr call_ref).
Proof.
  intros Ho. unfold ir_inline_call.
  apply ends_bind; [ends_tac|intros g _]. apply ends_bind; [ends_tac|intros c _].
  destruct (data c) as [| | | | |n [callee_ref|] args tail| | | | | |]; try done.
  destruct (decide _); [done|].
  apply ends_bind; [ends_tac|intros F _]. apply ends_bind; [ends_tac|intros count _].
  destruct (decide _); [ends_tac|].
  destruct (history_find (history ictx) call_ref 0 None) as [i|]; [|ends_tac].
  apply ends_bind; [ends_tac|intros e He%of_option_Ok].
  destruct (inlined_via e) as [j|] eqn:Hj; [|done].
  pose proof (Ho _ _ _ He Hj). pose proof (lookup_lt_Some _ _ _ He).
  rewrite history_walk_ancestry by (done || lia). simpl.
  destruct (bool_decide _); ends_tac.
Qed.

(** ** The pass ends *)

(** More fuel does not change a result. *)
Lemma inline_calls_again_fuel fuel fuel' ctx ictx res fr block :
  fuel <= fuel' ->
  ends (inline_calls_again fuel ctx ictx res fr block) ->
  inline_calls_again fuel' ctx ictx res fr block
  = inline_calls_again fuel ctx ictx res fr block.
Proof.
  revert fuel' ctx ictx res block.
  induction fuel as [|fuel IH]; intros fuel' ctx ictx res block Hle He; [by destruct He|].
  destruct fuel' as [|fuel']; [lia|]. simpl in *.
  destruct (get_func ctx fr) as [f| |]; simpl in *; try done.
  destruct (scan_blocks ctx ictx res fr _) as [[s [[b inst]|]]| |]; simpl in *; try done.
  destruct (ir_inline_call s.1.1 s.1.2 fr inst) as [[s' inlined]| |]; simpl in *; try done.
  destruct inlined; apply IH; (lia || done).
Qed.

(** The rescan loop of a function ends when it is given more fuel than
    the potential, and it keeps the allocator above the instructions. *)
Lemma inline_calls_again_ends N M fr fuel ctx ictx res block :
  pass_inv N M fr ctx ictx -> pot N M fr ctx ictx < fuel ->
  ends (inline_calls_again fuel ctx ictx res fr block) /\
  forall s, inline_calls_again fuel ctx ictx res fr block = Ok s -> fresh_ok s.1.1.
Proof.
  revert ctx ictx res block.
  induction fuel as [|fuel IH]; intros ctx ictx res block Hinv Hpot; [lia|].
  simpl. destruct (get_func ctx fr) as [f| |] eqn:Hf; simpl; try done.
  2:{ unfold get_func in Hf. by destruct (funcs ctx !! fr). }
  pose proof (ends_scan_blocks ctx ictx res fr
                (match block with Some b => blocks_from b (blocks f) | None => [] end)) as Hs.
  destruct (scan_blocks ctx ictx res fr _) as [[s found]| |] eqn:Hscan; simpl; try done.
  destruct (scan_blocks_pass _ _ _ _ _ _ _ _ _ Hinv Hscan) as (Hinv1 & Hpot1 & Hfound).
  destruct found as [[b inst]|].
  2:{ split; [done|]. intros s0 [= <-]. apply Hinv1. }
  destruct (Hfound b inst eq_refl)
    as (g & r & n & callee_ref & args & tail & callee_f & Hg & Hr & K & D & Hne & Hcf & Hni).
  pose proof (ends_ir_inline_call s.1.1 s.1.2 fr inst (pi_ordered _ _ _ _ _ Hinv1)) as Hi.
  destruct (ir_inline_call s.1.1 s.1.2 fr inst) as [[[ctx' ictx'] inlined]| |] eqn:Hcall;
    simpl; try done.
  destruct (ir_inline_call_pass _ _ _ _ _ _ _ _ _ _ _ _ _ _ _ _ Hinv1 Hg Hr K D Hcf Hne Hni
              Hcall) as (Hinv2 & Hpot2).
  destruct inlined; simpl in Hinv2, Hpot2; apply IH; (done || lia).
Qed.

Lemma pass_inv_start fr ctx ictx :
  fresh_ok ctx ->
  pass_inv (module_size ctx) (module_cost ctx) fr ctx (with_history ictx []).
Proof.
  intros Hf. split; simpl.
  - done.
  - intros l Hl Hin. unfold module_size.
    rewrite <- (length_map_to_list (funcs ctx)).
    rewrite <- (length_fmap (fun p : nat * IRFunction => Some p.1)).
    apply submseteq_length, NoDup_submseteq; [done|].
    intros c Hc. destruct (Hin c Hc) as (F & -> & [Fn HF]).
    apply list_elem_of_fmap. exists (F, Fn). split; [done|]. by apply elem_of_map_to_list.
  - intros F Fn HF _. unfold module_cost.
    apply (sum_member (fun p : nat * IRFunction => cost p.2) _ (F, Fn)).
    by apply elem_of_map_to_list.
  - intros i e j He. by rewrite lookup_nil in He.
  - intros i e j He. by rewrite lookup_nil in He.
  - intros g x r i e _ _ _ Hfind. discriminate.
Qed.

Lemma inline_calls_in_function_ends ctx ictx fr :
  fresh_ok ctx ->
  exists fuel0,
    forall fuel, fuel0 <= fuel ->
      ends (inline_calls_in_function fuel ctx ictx fr) /\
      (forall s, inline_calls_in_function fuel ctx ictx fr = Ok s -> fresh_ok s.1.1) /\
      inline_calls_in_function fuel ctx ictx fr = inline_calls_in_function fuel0 ctx ictx fr.
Proof.
  intros Hf.
  pose proof (pass_inv_start fr ctx ictx Hf) as Hinv.
  set (N := module_size ctx) in *. set (M := module_cost ctx) in *.
  exists (S (pot N M fr ctx (with_history ictx []))). intros fuel Hle.
  unfold inline_calls_in_function.
  destruct (get_func ctx fr) as [f| |] eqn:Hg; simpl; try done.
  2:{ unfold get_func in Hg. by destruct (funcs ctx !! fr). }
  destruct (inline_calls_again_ends N M fr _ ctx (with_history ictx [])
              (mkResult false false) (head (blocks f)) Hinv
              (Nat.lt_succ_diag_r _)) as (He0 & Hfresh0).
  rewrite (inline_calls_again_fuel _ fuel _ _ _ _ _ Hle He0). done.
Qed.

Lemma run_steps_ends l :
  forall s, fresh_ok s.1.1 ->
    exists fuel0,
      forall fuel, fuel0 <= fuel ->
        ends (foldM (run_step fuel) s l) /\
        foldM (run_step fuel) s l = foldM (run_step fuel0) s l.
Proof.
  induction l as [|fr l IH]; intros s Hf.
  - exists 0. intros fuel _. by split.
  - destruct (inline_calls_in_function_ends s.1.1 s.1.2 fr Hf) as (f1 & H1).
    destruct (H1 f1 (le_n _)) as (He1 & Hfr1 & _).
    destruct (inline_calls_in_function f1 s.1.1 s.1.2 fr) as [s'| |] eqn:E1; [|..|done].
    + set (s1 := (s'.1.1, s'.1.2,
                  mkResult (changed s'.2 || changed s.2) (failed s'.2 || failed s.2))).
      destruct (IH s1 (Hfr1 _ eq_refl)) as (f2 & H2).
      exists (Nat.max f1 f2). intros fuel Hle.
      assert (Hstep : forall fu, f1 <= fu -> run_step fu s fr = Ok s1).
      { intros fu Hfu. unfold run_step. by destruct (H1 fu Hfu) as (_ & _ & ->). }
      simpl. rewrite !Hstep by lia. simpl.
      destruct (H2 fuel ltac:(lia)) as (He & Heq).
      destruct (H2 (Nat.max f1 f2) ltac:(lia)) as (_ & Heq').
      split; [done|congruence].
    + exists f1. intros fuel Hle. simpl. unfold run_step.
      destruct (H1 fuel Hle) as (_ & _ & ->). rewrite E1. by split.
Qed.

(** The pass never loops for ever: for every module whose allocator is
    above its instructions and for every threshold, from some amount of
    fuel on [run_inliner] is never out of fuel, and its outcome, a
    result or a stop at an assertion, is the same for every such amount.
    The rescan loop of a function is left when a scan passes no call on,
    and every call that a scan passes on is inlined or recorded as not
    inlinable. *)
Theorem inliner_terminates :
  forall ctx threshold may_fail,
    fresh_ok ctx ->
    exists fuel0,
      forall fuel, fuel0 <= fuel ->
        run_inliner fuel ctx threshold may_fail <> Diverge /\
        run_inliner fuel ctx threshold may_fail = run_inliner fuel0 ctx threshold may_fail.
Proof.
  intros ctx threshold may_fail Hf.
  destruct (run_steps_ends (functions ctx)
              (ctx, mkInlineContext [] [] threshold may_fail, mkResult false false) Hf)
    as (fuel0 & H).
  exists fuel0. intros fuel Hle. rewrite !run_inliner_eq.
  destruct (H fuel Hle) as (He & ->). split; [|reflexivity].
  destruct (H fuel0 (le_n _)) as (He0 & _).
  destruct (foldM (run_step fuel0) _ (functions ctx)); done.
Qed.

Lemma inliner_terminates_witness :
  exists fuel0,
    forall fuel, fuel0 <= fuel ->
      run_inliner fuel Unrolling.ctx 0 true <> Diverge /\
      run_inliner fuel Unrolling.ctx 0 true = run_inliner fuel0 Unrolling.ctx 0 true.
Proof.
  apply (inliner_terminates Unrolling.ctx 0 true).
  intros f g k Hg [r Hr]. apply elem_of_list_to_map_2 in Hg.
  repeat (apply elem_of_cons in Hg as [Hg|Hg];
          [injection Hg as -> ->; apply elem_of_list_to_map_2 in Hr;
           repeat (apply elem_of_cons in Hr as [Hr|Hr]; [injection Hr as -> _; simpl; lia|]);
           by apply elem_of_nil in Hr|]).
  by apply elem_of_nil in Hg.
Defined.

(** ** Equality of Glint types *)

(** A type is equal to itself: line 313. *)
Lemma Equal_same (a : Glint.Ty) : Glint.Equal a a = Ok true.
Proof. destruct a; simpl; by rewrite decide_True. Qed.

(** The loop over the members or parameters returns true exactly when
    every pair is equal. *)
Lemma all_equal_true (la lb : list Glint.Ty) :
  length la = length lb ->
  Glint.all_equal Glint.Equal la lb = Ok true <->
  Forall2 (fun x y => Glint.Equal x y = Ok true) la lb.
Proof.
  revert lb. induction la as [|x la IH]; intros [|y lb] Hlen; simpl in *; try discriminate.
  - split; [constructor|done].
  - injection Hlen as Hlen. specialize (IH lb Hlen). split.
    + intros H. apply bind_Ok in H as (e & He & H). destruct e; [|discriminate].
      constructor; [done|]. by apply IH.
    + intros H. inversion H as [|? ? ? ? Hxy Hrest]; subst. rewrite Hxy. simpl.
      by apply IH.
Qed.

Lemma struct_members_loop (pa pb : nat) (ma mb : list Glint.Ty) :
  pa <> pb -> length ma = length mb ->
  Glint.Equal (Glint.StructType pa false ma) (Glint.StructType pb false mb)
  = Glint.all_equal Glint.Equal ma mb.
Proof.
  intros Hne Hlen. simpl. rewrite decide_False by done.
  rewrite decide_False by (intros H; by apply H).
  clear Hlen. revert mb. induction ma as [|x ma IH]; intros [|y mb]; simpl; try done.
  destruct (Glint.Equal x y) as [[|]| |]; simpl; auto.
Qed.

Lemma struct_members_count (pa pb : nat) (ma mb : list Glint.Ty) :
  pa <> pb -> length ma <> length mb ->
  Glint.Equal (Glint.StructType pa false ma) (Glint.StructType pb false mb) = Ok false.
Proof.
  intros Hne Hlen. simpl. rewrite decide_False by done. by rewrite decide_True.
Qed.

(** C9.  [Type::Equal] on two types [a] and [b], an address standing
    for one object: two structs without declaration are equal exactly
    when they have as many members and the members are equal position
    by position; a struct with a declaration is equal to the same
    object only; two integer types are equal exactly when bit width
    and signedness agree; two pointers are equal exactly when their
    element types are; two checked arrays are equal exactly when their
    dimensions agree and their element types are equal. *)
Theorem type_equality :
  forall a b : Glint.Ty,
    (Glint.addr a = Glint.addr b -> a = b) ->
    (forall pa ma pb mb,
        a = Glint.StructType pa false ma -> b = Glint.StructType pb false mb ->
        (Glint.Equal a b = Ok true <->
         length ma = length mb /\
         Forall2 (fun x y => Glint.Equal x y = Ok true) ma mb)) /\
    (forall pa ma,
        a = Glint.StructType pa true ma \/ b = Glint.StructType pa true ma ->
        Glint.Equal a b = Ok (bool_decide (Glint.addr a = Glint.addr b))) /\
    (forall pa wa sa pb wb sb,
        a = Glint.IntegerType pa wa sa -> b = Glint.IntegerType pb wb sb ->
        Glint.Equal a b = Ok (bool_decide (wa = wb /\ sa = sb))) /\
    (forall pa ea pb eb,
        a = Glint.PointerType pa ea -> b = Glint.PointerType pb eb ->
        Glint.Equal a b = Glint.Equal ea eb) /\
    (forall pa ea da pb eb db,
        a = Glint.ArrayType pa ea (Some da) -> b = Glint.ArrayType pb eb (Some db) ->
        (Glint.Equal a b = Ok true <-> da = db /\ Glint.Equal ea eb = Ok true)).
Proof.
  intros a b Hobj. split; [|split; [|split; [|split]]].
  - (* structs without declaration *)
    intros pa ma pb mb -> ->. simpl in Hobj. destruct (decide (pa = pb)) as [->|Hne].
    + injection (Hobj eq_refl) as <-. split; [intros _|intros _; apply Equal_same].
      split; [done|]. clear Hobj. induction ma; constructor; [apply Equal_same|done].
    + destruct (decide (length ma = length mb)) as [E|E].
      * rewrite struct_members_loop by done. rewrite all_equal_true by done. tauto.
      * rewrite struct_members_count by done. split; [discriminate|tauto].
  - (* a struct with a declaration *)
    intros pa ma [-> | ->].
    + destruct (decide (pa = Glint.addr b)) as [E|E].
      * rewrite <- (Hobj E). rewrite Equal_same. by rewrite bool_decide_eq_true_2.
      * simpl Glint.addr. rewrite (bool_decide_eq_false_2 _ E).
        destruct b; simpl in *; by rewrite decide_False.
    + destruct (decide (Glint.addr a = pa)) as [E|E].
      * rewrite (Hobj E). rewrite Equal_same. by rewrite bool_decide_eq_true_2.
      * simpl Glint.addr. rewrite (bool_decide_eq_false_2 _ E).
        destruct a; simpl in *; rewrite decide_False by done; try done.
        by rewrite orb_true_r.
  - (* integers *)
    intros pa wa sa pb wb sb -> ->. simpl in *. destruct (decide (pa = pb)) as [->|Hne].
    + injection (Hobj eq_refl) as -> ->. by rewrite bool_decide_eq_true_2.
    + by rewrite bool_decide_and.
  - (* pointers *)
    intros pa ea pb eb -> ->. simpl in *. destruct (decide (pa = pb)) as [->|Hne]; [|done].
    injection (Hobj eq_refl) as ->. by rewrite Equal_same.
  - (* arrays *)
    intros pa ea da pb eb db -> ->. simpl in *. destruct (decide (pa = pb)) as [->|Hne].
    + injection (Hobj eq_refl) as -> ->. split; [intros _|done].
      split; [done|apply Equal_same].
    + destruct (decide (da = db)); [tauto|]. split; [discriminate|tauto].
Qed.

Lemma type_equality_witness :
  Glint.Equal (Glint.StructType 1 false
                 [Glint.IntegerType 2 32 true;
                  Glint.PointerType 3 (Glint.IntegerType 2 32 true)])
              (Glint.StructType 4 false
                 [Glint.IntegerType 5 32 true;
                  Glint.PointerType 6 (Glint.IntegerType 7 32 true)])
  = Ok true.
Proof.
  refine (proj2 (proj1 (type_equality
                          (Glint.StructType 1 false
                             [Glint.IntegerType 2 32 true;
                              Glint.PointerType 3 (Glint.IntegerType 2 32 true)])
                          (Glint.StructType 4 false
                             [Glint.IntegerType 5 32 true;
                              Glint.PointerType 6 (Glint.IntegerType 7 32 true)]) _)
                   _ _ _ _ eq_refl eq_refl) _).
  - simpl. discriminate.
  - split; [reflexivity|]. repeat constructor.
Defined.

(** ** Emission happens once for every node *)

Lemma emitted_kept_refl x s : emitted_kept x s s.
Proof. intros m nd H E. by exists nd. Qed.

Lemma emitted_kept_trans x s1 s2 s3 :
  emitted_kept x s1 s2 -> emitted_kept x s2 s3 -> emitted_kept x s1 s3.
Proof.
  intros H12 H23 m nd H E.
  destruct (H12 m nd H E) as (nd2 & H2 & E2 & I2).
  destruct (H23 m nd2 H2 E2) as (nd3 & H3 & E3 & I3).
  exists nd3. repeat split; try done. intros Hne. rewrite I3, I2; done.
Qed.

Lemma emitted_kept_nodes x s s' :
  Codegen.nodes s' = Codegen.nodes s -> emitted_kept x s s'.
Proof. intros E m nd H Em. rewrite E. by exists nd. Qed.

Lemma emitted_kept_weaken x s s' : emitted_kept None s s' -> emitted_kept x s s'.
Proof.
  intros H m nd Hm E. destruct (H m nd Hm E) as (nd' & H1 & H2 & H3).
  exists nd'. repeat split; try done. intros _. by apply H3.
Qed.

Lemma stable_weaken {A} x (c : Codegen.M A) : stable None c -> stable x c.
Proof. intros H s a s' Hc. eapply emitted_kept_weaken, H, Hc. Qed.

Lemma stable_ret {A} x (a : A) : stable x (Codegen.ret a).
Proof. intros s a' s' H. inversion H; subst. apply emitted_kept_refl. Qed.

Lemma stable_bind {A B} x (c : Codegen.M A) (k : A -> Codegen.M B) :
  stable x c -> (forall a, stable x (k a)) -> stable x (Codegen.bindM c k).
Proof.
  intros Hc Hk s b s' H. unfold Codegen.bindM in H.
  destruct (c s) as [[a s1]| |] eqn:E; try discriminate.
  eapply emitted_kept_trans; [eapply Hc, E|eapply Hk, H].
Qed.

Lemma stable_ice {A} x : stable x (@Codegen.ice A).
Proof. intros s a s' H. discriminate. Qed.

Lemma stable_out_of_fuel {A} x : stable x (@Codegen.out_of_fuel A).
Proof. intros s a s' H. discriminate. Qed.

Lemma stable_some {A} x (o : option A) : stable x (Codegen.some o).
Proof. destruct o; [apply stable_ret|apply stable_ice]. Qed.

Lemma stable_get x : stable x Codegen.get.
Proof. intros s a s' H. inversion H; subst. apply emitted_kept_refl. Qed.

Lemma stable_node x n : stable x (Codegen.node n).
Proof. apply stable_bind; [apply stable_get|intros; apply stable_some]. Qed.

Lemma stable_builder {A} x (c : Codegen.M A) : builder c -> stable x c.
Proof. intros H s a s' Hc. eapply emitted_kept_nodes, H, Hc. Qed.

Lemma builder_bind {A B} (c : Codegen.M A) (k : A -> Codegen.M B) :
  builder c -> (forall a, builder (k a)) -> builder (Codegen.bindM c k).
Proof.
  intros Hc Hk s b s' H. unfold Codegen.bindM in H.
  destruct (c s) as [[a s1]| |] eqn:E; try discriminate.
  rewrite (Hk _ _ _ _ H). eapply Hc, E.
Qed.

Lemma builder_ret {A} (a : A) : builder (Codegen.ret a).
Proof. intros s a' s' H. by inversion H. Qed.

Lemma builder_create i : builder (Codegen.create i).
Proof. intros s a s' H. by inversion H. Qed.

Lemma builder_ir_insert i : builder (Codegen.ir_insert i).
Proof.
  intros s a s' H. unfold Codegen.ir_insert in H.
  destruct (Codegen.ir_is_closed s (Codegen.block s)); [discriminate|].
  destruct (Codegen.code s !! i); by inversion H.
Qed.

Lemma builder_emit k ops bs imm callee t : builder (Codegen.emit k ops bs imm callee t).
Proof.
  apply builder_bind; [apply builder_create|intros i].
  apply builder_bind; [apply builder_ir_insert|intros; apply builder_ret].
Qed.

Lemma builder_set_instruction_type i t : builder (Codegen.set_instruction_type i t).
Proof.
  intros s a s' H. unfold Codegen.set_instruction_type in H.
  destruct (Codegen.code s !! i); by inversion H.
Qed.

Lemma builder_set_static_init a v : builder (Codegen.set_static_init a v).
Proof.
  intros s u s' H. unfold Codegen.set_static_init in H.
  destruct (Codegen.code s !! a); by inversion H.
Qed.

Lemma builder_ir_phi_argument p b v : builder (Codegen.ir_phi_argument p b v).
Proof.
  intros s u s' H. unfold Codegen.ir_phi_argument in H.
  destruct (Codegen.code s !! p); by inversion H.
Qed.

Lemma builder_ir_add_function_call_argument c v :
  builder (Codegen.ir_add_function_call_argument c v).
Proof.
  intros s u s' H. unfold Codegen.ir_add_function_call_argument in H.
  destruct (Codegen.code s !! c); by inversion H.
Qed.

Lemma builder_modify f :
  (forall s, Codegen.nodes (f s) = Codegen.nodes s) -> builder (Codegen.modify f).
Proof. intros Hf s u s' H. inversion H; subst. apply Hf. Qed.

Lemma builder_ir_load a : builder (Codegen.ir_load a).
Proof.
  unfold Codegen.ir_load. destruct a; simpl.
  - apply builder_bind; [apply builder_ret|intros; apply builder_emit].
  - intros s u s' H. discriminate.
Qed.

Lemma builder_ir_create_static d t n : builder (Codegen.ir_create_static d t n).
Proof.
  apply builder_bind; [apply builder_emit|intros r].
  apply builder_bind; [by apply builder_modify|intros; apply builder_ret].
Qed.

Lemma builder_instruction i : builder (Codegen.instruction i).
Proof.
  intros s a s' H. unfold Codegen.instruction, Codegen.bindM, Codegen.get in H.
  destruct (Codegen.code s !! i); by inversion H.
Qed.

Lemma builder_is_closed : builder Codegen.is_closed.
Proof. intros s a s' H. by inversion H. Qed.

Lemma builder_current_block : builder Codegen.current_block.
Proof. intros s a s' H. by inversion H. Qed.

Lemma builder_ir_block_create : builder Codegen.ir_block_create.
Proof. intros s a s' H. by inversion H. Qed.

Lemma builder_next_string_literal : builder Codegen.next_string_literal.
Proof. intros s a s' H. by inversion H. Qed.

(** The writes to a node. *)
Lemma stable_set_emitted x n : stable x (Codegen.set_emitted n).
Proof.
  intros s u s' H. inversion H; subst. intros m nd Hm E. simpl.
  destruct (decide (n = m)) as [->|Hne].
  - rewrite lookup_alter_eq, Hm. simpl. eexists. by repeat split.
  - rewrite lookup_alter_ne by done. by exists nd.
Qed.

Lemma stable_set_address x n v : stable x (Codegen.set_address n v).
Proof.
  intros s u s' H. inversion H; subst. intros m nd Hm E. simpl.
  destruct (decide (n = m)) as [->|Hne].
  - rewrite lookup_alter_eq, Hm. simpl. eexists. by repeat split.
  - rewrite lookup_alter_ne by done. by exists nd.
Qed.

Lemma stable_set_ir n v : stable (Some n) (Codegen.set_ir n v).
Proof.
  intros s u s' H. inversion H; subst. intros m nd Hm E. simpl.
  destruct (decide (n = m)) as [->|Hne].
  - rewrite lookup_alter_eq, Hm. simpl. eexists. by repeat split.
  - rewrite lookup_alter_ne by done. by exists nd.
Qed.

Lemma stable_foreach {A} x (l : list A) (body : A -> Codegen.M unit) :
  (forall a, stable x (body a)) -> stable x (Codegen.foreach l body).
Proof.
  intros Hb. induction l as [|a l IH]; simpl; [apply stable_ret|].
  apply stable_bind; [apply Hb|intros; apply IH].
Qed.

Create HintDb builder.

#[local] Hint Resolve builder_ret builder_create builder_ir_insert builder_emit
  builder_set_instruction_type builder_set_static_init builder_ir_phi_argument
  builder_ir_add_function_call_argument builder_ir_load builder_ir_create_static
  builder_instruction builder_is_closed builder_current_block builder_ir_block_create
  builder_next_string_literal : builder.

#[local] Hint Extern 1 (builder (Codegen.ir_immediate _ _)) =>
  unfold Codegen.ir_immediate : builder.
#[local] Hint Extern 1 (builder (Codegen.ir_store _ _)) =>
  unfold Codegen.ir_store : builder.
#[local] Hint Extern 1 (builder (Codegen.ir_binary _ _ _)) =>
  unfold Codegen.ir_binary : builder.
#[local] Hint Extern 1 (builder (Codegen.ir_unary _ _ _)) =>
  unfold Codegen.ir_unary : builder.
#[local] Hint Extern 1 (builder (Codegen.ir_branch _)) =>
  unfold Codegen.ir_branch : builder.
#[local] Hint Extern 1 (builder (Codegen.ir_branch_conditional _ _ _)) =>
  unfold Codegen.ir_branch_conditional : builder.
#[local] Hint Extern 1 (builder (Codegen.ir_return _)) =>
  unfold Codegen.ir_return : builder.
#[local] Hint Extern 1 (builder (Codegen.ir_phi _)) =>
  unfold Codegen.ir_phi : builder.
#[local] Hint Extern 1 (builder (Codegen.ir_funcref _)) =>
  unfold Codegen.ir_funcref : builder.
#[local] Hint Extern 1 (builder (Codegen.ir_stack_allocate _)) =>
  unfold Codegen.ir_stack_allocate : builder.
#[local] Hint Extern 1 (builder (Codegen.ir_block_attach _)) =>
  apply builder_modify; reflexivity : builder.
#[local] Hint Extern 1 (builder (Codegen.issue_diagnostic _)) =>
  apply builder_modify; reflexivity : builder.

Section Bodies.

Variable type_is_void : Codegen.CType -> bool.
Variable type_sizeof : Codegen.CType -> nat.
Variable is_lvalue : Codegen.NodeData -> bool.
Variables ce cl : nat -> Codegen.M unit.
Hypothesis stable_ce : forall n, stable None (ce n).
Hypothesis stable_cl : forall n, stable None (cl n).

Ltac stable_step :=
  match goal with
  | |- stable _ (Codegen.bindM _ _) => apply stable_bind; [|intros]
  | |- stable _ (Codegen.ret _) => apply stable_ret
  | |- stable _ Codegen.ice => apply stable_ice
  | |- stable _ (Codegen.some _) => apply stable_some
  | |- stable _ (Codegen.node _) => apply stable_node
  | |- stable _ Codegen.get => apply stable_get
  | |- stable _ (Codegen.set_ir _ _) => apply stable_set_ir
  | |- stable _ (Codegen.set_address _ _) => apply stable_set_address
  | |- stable _ (Codegen.foreach _ _) => apply stable_foreach; intros
  | |- stable _ (ce _) => apply stable_weaken, stable_ce
  | |- stable _ (cl _) => apply stable_weaken, stable_cl
  | |- stable _ (Codegen.unless_closed _) => unfold Codegen.unless_closed
  | |- stable _ (match ?d with _ => _ end) => destruct d
  | |- stable _ _ => apply stable_builder; solve [auto with builder]
  end.

Lemma stable_lvalue_body x lval nd :
  stable x (Codegen.lvalue_body ce cl lval nd).
Proof. unfold Codegen.lvalue_body. repeat stable_step. Qed.

Lemma stable_store_elements expr t size address index l :
  stable (Some expr) (Codegen.store_elements type_sizeof ce t size address index l).
Proof.
  revert address index. induction l as [|n l IH]; intros address index; simpl.
  - apply stable_ret.
  - repeat first [apply IH | stable_step].
Qed.

Lemma stable_block_children expr last l :
  stable (Some expr) (Codegen.block_children ce last l).
Proof.
  revert last. induction l as [|n l IH]; intros last; simpl.
  - apply stable_ret.
  - repeat first [apply IH | stable_step].
Qed.

Lemma stable_subscript expr lhs rhs :
  stable (Some expr) (Codegen.subscript type_sizeof is_lvalue ce cl expr lhs rhs).
Proof. unfold Codegen.subscript. repeat stable_step. Qed.

Lemma stable_expr_body expr nd :
  stable (Some expr)
        (Codegen.expr_body type_is_void type_sizeof is_lvalue ce cl expr nd).
Proof.
  unfold Codegen.expr_body.
  repeat first [ apply stable_subscript | apply stable_store_elements
               | apply stable_block_children | stable_step ].
Qed.

End Bodies.

Section Emission.

Variable type_is_void : Codegen.CType -> bool.
Variable type_sizeof : Codegen.CType -> nat.
Variable is_lvalue : Codegen.NodeData -> bool.

Abbreviation codegen_expr := (Codegen.codegen_expr type_is_void type_sizeof is_lvalue).
Abbreviation codegen_lvalue := (Codegen.codegen_lvalue type_is_void type_sizeof is_lvalue).

Lemma codegen_expr_S fuel n :
  codegen_expr (S fuel) n
  = Codegen.bindM (Codegen.node n)
      (fun nd =>
         if Codegen.emitted nd then Codegen.ret tt
         else Codegen.bindM (Codegen.set_emitted n)
                (fun _ => Codegen.expr_body type_is_void type_sizeof is_lvalue
                            (codegen_expr fuel) (codegen_lvalue fuel) n nd)).
Proof. reflexivity. Qed.

Lemma codegen_lvalue_S fuel n :
  codegen_lvalue (S fuel) n
  = Codegen.bindM (Codegen.node n)
      (fun nd =>
         match Codegen.address nd with
         | Some _ => Codegen.ret tt
         | None => Codegen.lvalue_body (codegen_expr fuel) (codegen_lvalue fuel) n nd
         end).
Proof. reflexivity. Qed.

Lemma node_Ok n s nd s' :
  Codegen.node n s = Ok (nd, s') <-> Codegen.nodes s !! n = Some nd /\ s' = s.
Proof.
  unfold Codegen.node, Codegen.bindM, Codegen.get, Codegen.some.
  destruct (Codegen.nodes s !! n); simpl; split.
  - intros H. inversion H. by subst.
  - intros [[= ->] ->]. done.
  - discriminate.
  - intros [? _]. discriminate.
Qed.

(** A call for a node that is marked returns at line 216: nothing is
    emitted and the state is the same. *)
Lemma codegen_expr_emitted fuel n s nd :
  Codegen.nodes s !! n = Some nd -> Codegen.emitted nd = true ->
  codegen_expr (S fuel) n s = Ok (tt, s).
Proof.
  intros Hn He. rewrite codegen_expr_S. unfold Codegen.bindM.
  rewrite (proj2 (node_Ok n s nd s) (conj Hn eq_refl)). by rewrite He.
Qed.

Lemma codegen_expr_unfold fuel n s u s' :
  codegen_expr (S fuel) n s = Ok (u, s') ->
  exists nd,
    Codegen.nodes s !! n = Some nd /\
    ((Codegen.emitted nd = true /\ s' = s) \/
     (Codegen.emitted nd = false /\
      exists s1,
        Codegen.set_emitted n s = Ok (tt, s1) /\
        Codegen.expr_body type_is_void type_sizeof is_lvalue
          (codegen_expr fuel) (codegen_lvalue fuel) n nd s1 = Ok (u, s'))).
Proof.
  rewrite codegen_expr_S. unfold Codegen.bindM at 1.
  destruct (Codegen.node n s) as [[nd s0]| |] eqn:Hn; try discriminate.
  apply node_Ok in Hn as [Hn ->]. intros H. exists nd. split; [done|].
  destruct (Codegen.emitted nd) eqn:He.
  - left. by inversion H.
  - right. split; [done|]. eexists. split; [reflexivity|]. exact H.
Qed.

Lemma stable_codegen fuel :
  (forall n, stable None (codegen_expr fuel n)) /\
  (forall n, stable None (codegen_lvalue fuel n)).
Proof.
  induction fuel as [|fuel [IHe IHl]].
  - split; intros n s a s' H; discriminate.
  - split; intros n s a s' H.
    + apply codegen_expr_unfold in H as (nd & Hn & [[_ ->]|(He & s1 & H1 & H2)]).
      { apply emitted_kept_refl. }
      pose proof (stable_set_emitted (Some n) n _ _ _ H1) as K1.
      pose proof (stable_expr_body type_is_void type_sizeof is_lvalue _ _ IHe IHl
                    n nd _ _ _ H2) as K2.
      pose proof (emitted_kept_trans _ _ _ _ K1 K2) as K.
      intros m ndm Hm Em. destruct (K m ndm Hm Em) as (nd' & H' & E' & I').
      exists nd'. repeat split; try done. intros _. apply I'.
      intros [= ->]. congruence.
    + rewrite codegen_lvalue_S in H. unfold Codegen.bindM at 1 in H.
      destruct (Codegen.node n s) as [[nd s0]| |] eqn:Hn; try discriminate.
      apply node_Ok in Hn as [Hn ->].
      destruct (Codegen.address nd).
      * inversion H; subst. apply emitted_kept_refl.
      * eapply (stable_lvalue_body _ _ IHe IHl None), H.
Qed.

(** C10.  A call of [codegen_expr] for a node that returns leaves the
    node marked as emitted; every node that was marked before the call
    is marked after it and has the [ir] it had, whatever the call
    emitted for other nodes; and a call for a marked node returns at
    once with the state as it was, so that nothing is emitted for
    that node a second time and its [ir] is not written again. *)
Theorem emission_is_idempotent :
  forall fuel n s s',
    codegen_expr fuel n s = Ok (tt, s') ->
    (exists nd', Codegen.nodes s' !! n = Some nd' /\ Codegen.emitted nd' = true) /\
    (forall m nd,
        Codegen.nodes s !! m = Some nd -> Codegen.emitted nd = true ->
        exists nd', Codegen.nodes s' !! m = Some nd' /\ Codegen.emitted nd' = true /\
                    Codegen.ir nd' = Codegen.ir nd) /\
    (forall fuel', codegen_expr (S fuel') n s' = Ok (tt, s')) /\
    (forall fuel' m nd,
        Codegen.nodes s !! m = Some nd -> Codegen.emitted nd = true ->
        codegen_expr (S fuel') m s = Ok (tt, s)).
Proof.
  intros fuel n s s' H.
  assert (Hmarked : exists nd', Codegen.nodes s' !! n = Some nd' /\
                                Codegen.emitted nd' = true).
  { destruct fuel as [|fuel]; [discriminate|].
    apply codegen_expr_unfold in H as (nd & Hn & [[He ->]|(He & s1 & H1 & H2)]).
    { by exists nd. }
    destruct (stable_codegen fuel) as [IHe IHl].
    pose proof (stable_expr_body type_is_void type_sizeof is_lvalue _ _ IHe IHl
                  n nd _ _ _ H2) as K2.
    inversion H1; subst. simpl in K2.
    destruct (K2 n (Codegen.mkNode (Codegen.node_data nd) (Codegen.node_type nd) true
                      (Codegen.ir nd) (Codegen.address nd)))
      as (nd' & H' & E' & _); [|done|by exists nd'].
    simpl. by rewrite lookup_alter_eq, Hn. }
  split; [done|]. split; [|split].
  - intros m nd Hm Em.
    destruct (proj1 (stable_codegen fuel) n _ _ _ H m nd Hm Em) as (nd' & H' & E' & I').
    exists nd'. repeat split; try done. by apply I'.
  - intros fuel'. destruct Hmarked as (nd' & Hn' & He').
    by eapply codegen_expr_emitted.
  - intros fuel' m nd Hm Em. by eapply codegen_expr_emitted.
Qed.

End Emission.

Lemma emission_is_idempotent_witness :
  exists s',
    Codegen.codegen_expr SharedOperand.type_is_void SharedOperand.type_sizeof
      SharedOperand.is_lvalue 2 2 SharedOperand.state = Ok (tt, s') /\
    Codegen.block_code s' !! 0 = Some [100; 101] /\
    (forall fuel',
        Codegen.codegen_expr SharedOperand.type_is_void SharedOperand.type_sizeof
          SharedOperand.is_lvalue (S fuel') 2 s' = Ok (tt, s')).
Proof.
  destruct (Codegen.codegen_expr SharedOperand.type_is_void SharedOperand.type_sizeof
              SharedOperand.is_lvalue 2 2 SharedOperand.state) as [[[] s']| |] eqn:E;
    vm_compute in E; try discriminate.
  exists s'. split; [reflexivity|]. split.
  - injection E as <-. vm_compute. reflexivity.
  - refine (proj1 (proj2 (proj2 (emission_is_idempotent SharedOperand.type_is_void
                                   SharedOperand.type_sizeof SharedOperand.is_lvalue
                                   2 2 SharedOperand.state s' _)))).
    vm_compute. exact E.
Defined.

(** * Further properties of the inliner *)

(** ** The search of the history *)

Lemma history_find_snoc (h : list history_entry) (e : history_entry) (c : inst_ref) :
  history_find (h ++ [e]) c 0 None
  = if decide (call e = c) then Some (length h) else history_find h c 0 None.
Proof. rewrite history_find_app. simpl. by destruct (decide (call e = c)). Qed.

(** The loop of lines 64-69 has no [break]: of several entries for a
    call it finds the last one, and it finds none only if the history
    has no entry for the call. *)
Theorem history_find_last (h : list history_entry) (c : inst_ref) :
  match history_find h c 0 None with
  | Some i =>
      (exists e, h !! i = Some e /\ call e = c) /\
      forall j e, i < j -> h !! j = Some e -> call e <> c
  | None => forall e, e ∈ h -> call e <> c
  end.
Proof.
  induction h as [|e h IH] using rev_ind.
  - simpl. intros e He. by apply elem_of_nil in He.
  - rewrite history_find_snoc. destruct (decide (call e = c)) as [Hc|Hc].
    + split.
      * exists e. split; [|done]. rewrite lookup_app_r by lia.
        by replace (length h - length h) with 0 by lia.
      * intros j e' Hj He'. apply lookup_lt_Some in He'.
        rewrite length_app in He'. simpl in He'. lia.
    + destruct (history_find h c 0 None) as [i|].
      * destruct IH as ((e0 & He0 & Hc0) & Hlast). split.
        -- exists e0. split; [|done]. rewrite lookup_app_l; [done|].
           by apply lookup_lt_Some in He0.
        -- intros j e' Hj He'. destruct (decide (j < length h)) as [Hlt|Hge].
           ++ rewrite lookup_app_l in He' by done. by apply (Hlast j).
           ++ rewrite lookup_app_r in He' by lia.
              destruct (j - length h) as [|k]; simpl in He'; [|done].
              by injection He' as <-.
      * intros e' [He'|He']%elem_of_app; [by apply IH|].
        apply list_elem_of_singleton in He' as ->. done.
Qed.

(** ** Counting instructions *)

Lemma filter_parameters_length (rs : list IRInstruction) :
  length (filter (fun r => false = true \/ kind r <> IR_PARAMETER) rs)
  <= length (filter (fun r => true = true \/ kind r <> IR_PARAMETER) rs) /\
  length (filter (fun r => true = true \/ kind r <> IR_PARAMETER) rs) = length rs /\
  (length (filter (fun r => false = true \/ kind r <> IR_PARAMETER) rs)
   = length (filter (fun r => true = true \/ kind r <> IR_PARAMETER) rs) <->
   forall r, r ∈ rs -> kind r <> IR_PARAMETER).
Proof.
  induction rs as [|r rs (IH1 & IH2 & IH3)]; simpl.
  - split; [done|]. split; [done|]. split; [|done]. intros _ r Hr.
    by apply elem_of_nil in Hr.
  - rewrite !filter_cons.
    destruct (decide (true = true \/ kind r <> IR_PARAMETER)) as [_|Ht]; [|by destruct Ht; left].
    destruct (decide (false = true \/ kind r <> IR_PARAMETER)) as [Hr|Hr]; simpl.
    + split; [apply le_n_S; exact IH1|]. split; [f_equal; exact IH2|]. split.
      * intros E r' [->|Hr']%elem_of_cons; [by destruct Hr|].
        injection E as E. by apply IH3.
      * intros H. f_equal. apply IH3. intros r' Hr'. apply H. by right.
    + split; [apply le_S; exact IH1|]. split; [f_equal; exact IH2|]. split.
      * intros E. exfalso.
        exact (Nat.nle_succ_diag_l _ (eq_ind _ (fun k => k <= _) IH1 _ E)).
      * intros H. exfalso. apply Hr. right. apply H. by left.
Qed.

(** [instruction_count] returns for the one value of
    [include_parameters] exactly when it does for the other.  The
    count without parameters is at most the count with them, and the
    two agree exactly when no instruction of the function is an
    [IR_PARAMETER]. *)
Theorem instruction_count_parameters (f : IRFunction) (n : nat) :
  instruction_count f true = Ok n ->
  exists m rs,
    instruction_count f false = Ok m /\ m <= n /\
    (do l <- function_instructions f; mapM (fun p => get_inst f p.2) l) = Ok rs /\
    n = length rs /\
    (m = n <-> forall r, r ∈ rs -> kind r <> IR_PARAMETER).
Proof.
  unfold instruction_count. intros H.
  apply bind_Ok in H as (l & Hl & H). apply bind_Ok in H as (rs & Hrs & H).
  injection H as <-. destruct (filter_parameters_length rs) as (H1 & H2 & H3).
  eexists _, rs. rewrite Hl. simpl. rewrite Hrs. simpl.
  split; [reflexivity|]. split; [exact H1|]. split; [done|].
  split; [exact H2|exact H3].
Qed.

Lemma instruction_count_parameters_witness :
  exists m, instruction_count MultiReturn.f false = Ok m /\ m <= 6.
Proof.
  destruct (instruction_count_parameters MultiReturn.f 6) as (m & rs & H1 & H2 & _);
    [vm_compute; reflexivity|].
  exists m. by split.
Defined.

(** ** A call to a function without instructions *)

(** Lines 52-58: a direct call to a function that has no instruction
    is inlined by removing it, provided nothing uses it: the call
    leaves the arena, every other instruction keeps everything but its
    users, no function other than the caller changes, nothing is
    allocated and the history is not touched.  If the call has a user,
    the assertion of line 55 stops the compiler. *)
Theorem call_to_empty_function (ctx : CodegenContext) (ictx : InlineContext)
    (fr callee_ref : func_ref) (g F : IRFunction) (call_ref : inst_ref)
    (c : IRInstruction) (n : nat) (args : list inst_ref) (tail : bool) :
  funcs ctx !! fr = Some g ->
  insts g !! call_ref = Some c ->
  data c = Call n (callee_function callee_ref) args tail ->
  callee_ref <> fr ->
  funcs ctx !! callee_ref = Some F ->
  instruction_count F true = Ok 0 ->
  (users c <> [] -> ir_inline_call ctx ictx fr call_ref = Abort) /\
  (users c = [] ->
   exists g',
     ir_inline_call ctx ictx fr call_ref = Ok (set_func ctx fr g', ictx, true) /\
     insts g' !! call_ref = None /\
     (forall h, h <> call_ref -> core <$> insts g' !! h = core <$> insts g !! h) /\
     blocks g' = blocks g /\
     fresh (set_func ctx fr g') = fresh ctx /\
     forall fr', fr' <> fr -> funcs (set_func ctx fr g') !! fr' = funcs ctx !! fr').
Proof.
  intros Hg Hc Hd Hne HF Hcount.
  assert (Hcall : ir_inline_call ctx ictx fr call_ref
                  = match users c with
                    | [] => do g' <- ir_remove g call_ref; Ok (set_func ctx fr g', ictx, true)
                    | _ :: _ => Abort
                    end).
  { unfold ir_inline_call, get_func, get_inst. rewrite Hg. simpl. rewrite Hc. simpl.
    rewrite Hd. rewrite decide_False by done. rewrite HF. simpl. rewrite Hcount. simpl.
    done. }
  split.
  - intros Hu. rewrite Hcall. by destruct (users c).
  - intros Hu. rewrite Hcall, Hu.
    destruct (ir_remove g call_ref) as [g'| |] eqn:Hrm.
    + exists g'. simpl. split; [done|].
      destruct (ir_remove_lookup _ _ _ Hrm) as (H1 & H2 & H3 & _).
      split; [done|]. split; [done|]. split; [done|]. split; [done|].
      intros fr' Hfr'. by apply lookup_insert_ne.
    + unfold ir_remove, get_inst in Hrm. rewrite Hc in Hrm. simpl in Hrm.
      by rewrite Hu in Hrm.
    + unfold ir_remove, get_inst in Hrm. rewrite Hc in Hrm. simpl in Hrm.
      by rewrite Hu in Hrm.
Qed.

(** ** The pass that runs before optimisation *)

Lemma inline_requested_negative (ictx : InlineContext) (F : IRFunction) (b : bool) :
  (threshold ictx < 0)%Z -> attr_forceinline F = false ->
  inline_requested ictx F = Ok b -> b = false.
Proof.
  unfold inline_requested, must_inline. intros Ht HF H. rewrite HF in H. simpl in H.
  destruct (threshold ictx =? 0)%Z eqn:E; [apply Z.eqb_eq in E; lia|].
  apply bind_Ok in H as (n & _ & H). injection H as <-. rewrite Z.geb_leb. apply Z.leb_gt. lia.
Qed.

Lemma consider_instruction_unforced ctx ictx res fr inst s go :
  (threshold ictx < 0)%Z ->
  (forall fr' f, funcs ctx !! fr' = Some f -> attr_forceinline f = false) ->
  consider_instruction ctx ictx res fr inst = Ok (s, go) ->
  go = false /\ s = (ctx, ictx, res).
Proof.
  intros Ht Hforce H.
  apply consider_instruction_inv in H as (f & r & Hf & Hr & [H|[H|H]]).
  - done.
  - destruct H as (_ & n & args & _ & _ & _ & Hmust & _). exfalso.
    unfold must_inline in Hmust. rewrite (Hforce _ _ Hf) in Hmust. simpl in Hmust.
    apply Z.eqb_eq in Hmust. lia.
  - destruct H as (_ & _ & n & callee_ref & args & tail & callee_f & _ & _ & _ & Hcf & _ & _
                   & Hreq).
    by apply inline_requested_negative in Hreq; [|done|exact (Hforce _ _ Hcf)].
Qed.

Lemma scan_instructions_idle ctx ictx res fr l s found :
  idle ctx ictx fr ->
  scan_instructions ctx ictx res fr l = Ok (s, found) ->
  found = None /\ s = (ctx, ictx, res).
Proof.
  intros Hidle. induction l as [|i l IH]; simpl; intros H.
  - by injection H as <- <-.
  - apply bind_Ok in H as ([s1 go] & Hc & H).
    destruct (Hidle _ _ _ _ Hc) as [-> ->]. simpl in H. by apply IH.
Qed.

Lemma scan_blocks_idle ctx ictx res fr bs s found :
  idle ctx ictx fr ->
  scan_blocks ctx ictx res fr bs = Ok (s, found) ->
  found = None /\ s = (ctx, ictx, res).
Proof.
  intros Hidle. induction bs as [|b bs IH]; simpl; intros H.
  - by injection H as <- <-.
  - apply bind_Ok in H as (f & _ & H). apply bind_Ok in H as (blk & _ & H).
    apply bind_Ok in H as ([s1 found1] & Hs & H).
    destruct (scan_instructions_idle _ _ _ _ _ _ _ Hidle Hs) as [-> ->].
    simpl in H. by apply IH.
Qed.

Lemma inline_calls_in_function_idle fuel ctx ictx fr s :
  idle ctx (with_history ictx []) fr ->
  inline_calls_in_function fuel ctx ictx fr = Ok s ->
  s = (ctx, with_history ictx [], mkResult false false).
Proof.
  unfold inline_calls_in_function. intros Hidle H.
  apply bind_Ok in H as (f & _ & H). destruct fuel as [|fuel]; [discriminate|].
  simpl in H. apply bind_Ok in H as (f' & _ & H).
  apply bind_Ok in H as ([s2 found] & Hscan & H).
  apply scan_blocks_idle in Hscan as [-> ->]; [|done]. by injection H as <-.
Qed.

Lemma run_inliner_unforced (fuel : nat) (ctx ctx' : CodegenContext) (t : Z) (mf : bool)
    (res : inline_result) :
  (t < 0)%Z ->
  (forall fr f, funcs ctx !! fr = Some f -> attr_forceinline f = false) ->
  run_inliner fuel ctx t mf = Ok (ctx', res) ->
  ctx' = ctx /\ res = mkResult false false.
Proof.
  intros Ht Hforce. rewrite run_inliner_eq. intros H.
  apply bind_Ok in H as (s & Hrun & H). injection H as <- <-.
  assert (Hs : s = (ctx, mkInlineContext [] [] t mf, mkResult false false));
    [|by rewrite Hs].
  revert Hrun.
  apply (foldM_invariant
           (fun s => s = (ctx, mkInlineContext [] [] t mf, mkResult false false)));
    [|done].
  intros s0 fr s1 _ -> Hstep. unfold run_step in Hstep. simpl in Hstep.
  apply bind_Ok in Hstep as (s' & Hs' & Hstep).
  apply inline_calls_in_function_idle in Hs' as ->; [by injection Hstep as <-|].
  intros res0 inst s2 go Hc. by eapply consider_instruction_unforced.
Qed.

Lemma call_to_empty_function_witness :
  exists g',
    ir_inline_call EmptyCallee.ctx EmptyCallee.ictx 2 20
    = Ok (set_func EmptyCallee.ctx 2 g', EmptyCallee.ictx, true) /\
    insts g' !! 20 = None.
Proof.
  destruct (call_to_empty_function EmptyCallee.ctx EmptyCallee.ictx 2 1 EmptyCallee.g
              EmptyCallee.f 20
              (inst IR_CALL (Call 0 (callee_function 1) [] false) 200 []) 0 [] false)
    as [_ H]; try reflexivity; [done|].
  destruct H as (g' & H1 & H2 & _); [reflexivity|].
  exists g'. split; [exact H1|exact H2].
Defined.

(** ** What the inliner leaves of a function *)

Lemma header_foldl {A} (h : IRFunction -> A -> IRFunction) (l : list A) (f : IRFunction) :
  (forall f0 x, header (h f0 x) = header f0) -> header (foldl h f l) = header f.
Proof.
  intros Hh. revert f. induction l as [|x l IH]; intros f; simpl; [done|].
  by rewrite IH, Hh.
Qed.

Lemma header_foldM {A} (h : IRFunction -> A -> result IRFunction) (l : list A)
    (f f' : IRFunction) :
  (forall f0 x f1, h f0 x = Ok f1 -> header f1 = header f0) ->
  foldM h f l = Ok f' -> header f' = header f.
Proof.
  intros Hh. apply (foldM_invariant (fun f0 => header f0 = header f)); [|done].
  intros f0 x f1 _ H0 H1. by rewrite (Hh _ _ _ H1).
Qed.

Lemma header_mark_used f usee user : header (mark_used f usee user) = header f.
Proof. done. Qed.

Lemma header_ir_remove_use f usee user : header (ir_remove_use f usee user) = header f.
Proof. done. Qed.

Lemma header_ir_unmark_usees f i : header (ir_unmark_usees f i) = header f.
Proof.
  unfold ir_unmark_usees. destruct (insts f !! i); [|done].
  by apply header_foldl.
Qed.

Lemma header_ir_replace_uses f old new : header (ir_replace_uses f old new) = header f.
Proof.
  unfold ir_replace_uses. destruct (decide (old = new)); [done|].
  destruct (insts f !! old); [|done].
  change (header (foldl (fun f' u =>
            mark_used (update_inst f' u (fun i => set_data (subst_data old new (data i)) i))
              new u) f (users i)) = header f).
  by apply header_foldl.
Qed.

Lemma header_ir_remove f i f' : ir_remove f i = Ok f' -> header f' = header f.
Proof.
  unfold ir_remove. intros H. apply bind_Ok in H as (r & _ & H).
  destruct (users r); [|discriminate]. injection H as <-.
  destruct (parent_block r); apply header_ir_unmark_usees.
Qed.

Lemma header_ir_force_insert f b i f' :
  ir_force_insert_into_block f b i = Ok f' -> header f' = header f.
Proof.
  unfold ir_force_insert_into_block. intros H. apply bind_Ok in H as (r & _ & H).
  apply bind_Ok in H as (blk & _ & H). destruct (parent_block r); [discriminate|].
  by injection H as <-.
Qed.

Lemma header_ir_insert f b i f' :
  ir_insert_into_block f b i = Ok f' -> header f' = header f.
Proof.
  unfold ir_insert_into_block. intros H. apply bind_Ok in H as (blk & _ & H).
  destruct (ir_is_closed f blk); [discriminate|]. by apply header_ir_force_insert in H.
Qed.

Lemma header_allocate_skeleton g first count new_blocks fn :
  header (allocate_skeleton g first count new_blocks fn) = header g.
Proof.
  unfold allocate_skeleton. rewrite header_foldl by done. by rewrite header_foldl.
Qed.

Lemma header_create_return_block cs b cs' :
  create_return_block cs b = Ok cs' -> header (cs_caller cs') = header (cs_caller cs).
Proof.
  unfold create_return_block. intros H. destruct b.
  - apply bind_Ok in H as (g2 & Hg2 & H). injection H as <-. simpl.
    by apply header_ir_insert in Hg2.
  - by injection H as <-.
Qed.

Lemma header_add_to_phi_and_branch F call_ref b inst o copy cs cs' :
  add_to_phi_and_branch F call_ref b inst o copy cs = Ok cs' ->
  header (cs_caller cs') = header (cs_caller cs).
Proof.
  unfold add_to_phi_and_branch. intros H. apply bind_Ok in H as (rb & _ & H).
  destruct o as [v|]; [|by injection H as <-].
  apply bind_Ok in H as (phi & _ & H). apply bind_Ok in H as (v' & _ & H).
  apply bind_Ok in H as (pr & _ & H). destruct (data pr); try discriminate.
  by injection H as <-.
Qed.

Lemma header_copy_return F call_ref tail b blk ih inst copy cs cs' ins :
  copy_return F call_ref tail b blk ih inst copy cs = Ok (cs', ins) ->
  header (cs_caller cs') = header (cs_caller cs).
Proof.
  unfold copy_return. intros H. destruct (data inst) as [| | | | | |o| | | | |];
    try discriminate.
  destruct tail.
  { destruct o as [v|]; [|discriminate]. apply bind_Ok in H as (v' & _ & H).
    by injection H as <- <-. }
  destruct (cs_return_block cs).
  { apply bind_Ok in H as (cs2 & H2 & H). injection H as <- <-.
    by apply header_add_to_phi_and_branch in H2. }
  destruct (decide _).
  { destruct o as [v|]; [|by injection H as <- <-].
    apply bind_Ok in H as (v' & _ & H). by injection H as <- <-. }
  apply bind_Ok in H as (cs1 & H1 & H). apply bind_Ok in H as (cs2 & H2 & H).
  injection H as <- <-. apply header_add_to_phi_and_branch in H2.
  apply header_create_return_block in H1. congruence.
Qed.

Lemma header_copy_instruction F bvec call_ref tail idx b blk cs ih cs' :
  copy_instruction F bvec call_ref tail idx b blk cs ih = Ok cs' ->
  header (cs_caller cs') = header (cs_caller cs).
Proof.
  unfold copy_instruction. intros H. apply bind_Ok in H as (inst & _ & H).
  destruct (decide (kind inst = IR_PARAMETER)); [by injection H as <-|].
  apply bind_Ok in H as (copy & _ & H). apply bind_Ok in H as (r0 & _ & H).
  apply bind_Ok in H as ([cs1 ins] & H1 & H).
  assert (Hcs1 : header (cs_caller cs1) = header (cs_caller cs)).
  { destruct (classify (kind inst));
      try (apply bind_Ok in H1 as (d & _ & H1); by injection H1 as <- <-).
    by apply header_copy_return in H1. }
  destruct ins; [|by injection H as <-].
  apply bind_Ok in H as (dest & _ & H). apply bind_Ok in H as (g & Hg & H).
  injection H as <-. simpl. apply header_ir_force_insert in Hg. congruence.
Qed.

Lemma header_copy_instructions F bvec call_ref tail idx cs cs' :
  copy_instructions F bvec call_ref tail idx cs = Ok cs' ->
  header (cs_caller cs') = header (cs_caller cs).
Proof.
  unfold copy_instructions.
  apply (foldM_invariant (fun cs0 => header (cs_caller cs0) = header (cs_caller cs)));
    [|done].
  intros cs0 b cs1 _ H0 H1. unfold copy_block in H1. apply bind_Ok in H1 as (blk & _ & H1).
  revert H1.
  apply (foldM_invariant (fun cs2 => header (cs_caller cs2) = header (cs_caller cs)));
    [|done].
  intros cs2 ih cs3 _ H2 H3. apply header_copy_instruction in H3. congruence.
Qed.

Lemma header_fix_up_uses F table g g' :
  fix_up_uses F table g = Ok g' -> header g' = header g.
Proof.
  unfold fix_up_uses. intros H. apply bind_Ok in H as (l & _ & H). revert H.
  apply header_foldM. intros f0 p f1 H. apply bind_Ok in H as (r & _ & H).
  apply bind_Ok in H as (copy & _ & H). revert H. apply header_foldM.
  intros f2 u f3 H. apply bind_Ok in H as (mu & _ & H). by injection H as <-.
Qed.

Lemma header_remove_after_call g l g' :
  remove_after_call g l = Ok g' -> header g' = header g.
Proof.
  unfold remove_after_call. apply header_foldM. intros f0 x f1 H.
  apply header_ir_remove in H. by rewrite H, header_ir_unmark_usees.
Qed.

Lemma header_reattach g5 last_block lb tail call_next :
  header (reattach g5 last_block lb tail call_next) = header g5.
Proof. unfold reattach. destruct (instructions_last lb); [|done]. by destruct tail. Qed.

Lemma header_reparent g7 last_block call_block tail call_next :
  header (reparent g7 last_block call_block tail call_next) = header g7.
Proof. unfold reparent. destruct (decide _); [|done]. by apply header_foldl. Qed.

Lemma header_free_unused g call_ref table g' :
  free_unused g call_ref table = Ok g' -> header g' = header g.
Proof.
  unfold free_unused. apply header_foldM. intros f0 x f1 H.
  by apply free_unused_step in H as [->|(r & _ & _ & ->)].
Qed.

(** The caller of an inlined call keeps its header, and the callee
    changes in its [id] fields only. *)
Lemma transplanted_header ctx ictx fr g call_ref c callee_ref F args tail count hist idx
    ctx' ictx' :
  callee_ref <> fr ->
  transplanted ctx ictx fr g call_ref c callee_ref F args tail count hist idx ctx' ictx' ->
  functions ctx' = functions ctx /\
  (exists g' F', funcs ctx' = <[fr := g']> (<[callee_ref := F']> (funcs ctx)) /\
                 header g' = header g /\ same_but_ids F F').
Proof.
  intros Hne [].
  assert (Hsame : same_but_ids F tp_F2).
  { eapply same_but_ids_trans; [by eapply enumerate_blocks_same|].
    by eapply map_parameters_same. }
  subst ctx'. simpl. split; [done|]. eexists _, tp_F2. split; [done|]. split; [|done].
  rewrite (header_free_unused _ _ _ _ tp_free).
  transitivity (header (reparent tp_g7 tp_last_block tp_call_block tail tp_call_next));
    [done|].
  rewrite header_reparent.
  assert (H7 : header tp_g7 = header tp_g5).
  { destruct tail.
    - apply header_remove_after_call in tp_after. by rewrite tp_after, header_reattach.
    - injection tp_after as <-. apply header_reattach. }
  rewrite H7. apply header_ir_remove in tp_remove. rewrite tp_remove.
  assert (H3 : header tp_g3 = header g).
  { apply header_fix_up_uses in tp_fix_up. rewrite tp_fix_up.
    apply header_copy_instructions in tp_copy. rewrite tp_copy. simpl.
    by rewrite header_allocate_skeleton. }
  destruct (cs_return_value tp_cs); [|done].
  by rewrite header_ir_replace_uses.
Qed.

(** ** Relations that every step of the pass over a function keeps *)

Section PassRelation.

Variable fr : func_ref.
Variable R : pass_state -> pass_state -> Prop.

Hypothesis R_refl : forall s, R s s.
Hypothesis R_trans : forall a b c, R a b -> R b c -> R a c.
Hypothesis R_consider : forall ctx ictx res inst s go,
    consider_instruction ctx ictx res fr inst = Ok (s, go) -> R (ctx, ictx, res) s.
Hypothesis R_inline : forall ctx ictx res inst ctx' ictx' b,
    ir_inline_call ctx ictx fr inst = Ok (ctx', ictx', b) ->
    R (ctx, ictx, res)
      (ctx',
       if b then ictx' else with_not_inlinable ictx' (not_inlinable ictx' ++ [inst]),
       if b then set_changed res else set_failed res).

Lemma scan_instructions_rel ctx ictx res l s found :
  scan_instructions ctx ictx res fr l = Ok (s, found) -> R (ctx, ictx, res) s.
Proof.
  revert ctx ictx res. induction l as [|i l IH]; simpl; intros ctx ictx res H.
  - injection H as <- _. apply R_refl.
  - apply bind_Ok in H as ([s1 go] & Hc & H). apply R_consider in Hc.
    destruct go; [by injection H as <- _|].
    destruct s1 as [[c1 i1] r1]. eapply R_trans; [exact Hc|]. by apply IH.
Qed.

Lemma scan_blocks_rel ctx ictx res bs s found :
  scan_blocks ctx ictx res fr bs = Ok (s, found) -> R (ctx, ictx, res) s.
Proof.
  revert ctx ictx res. induction bs as [|b bs IH]; simpl; intros ctx ictx res H.
  - injection H as <- _. apply R_refl.
  - apply bind_Ok in H as (f & _ & H). apply bind_Ok in H as (blk & _ & H).
    apply bind_Ok in H as ([s1 found1] & Hs & H). apply scan_instructions_rel in Hs.
    destruct found1; [by injection H as <- _|].
    destruct s1 as [[c1 i1] r1]. eapply R_trans; [exact Hs|]. by apply IH.
Qed.

Lemma inline_calls_again_rel fuel ctx ictx res block s :
  inline_calls_again fuel ctx ictx res fr block = Ok s -> R (ctx, ictx, res) s.
Proof.
  revert ctx ictx res block.
  induction fuel as [|fuel IH]; simpl; intros ctx ictx res block H; [discriminate|].
  apply bind_Ok in H as (f & _ & H). apply bind_Ok in H as ([s1 found] & Hs & H).
  apply scan_blocks_rel in Hs. destruct found as [[b inst]|]; [|by injection H as <-].
  apply bind_Ok in H as ([[c2 i2] inlined] & Hcall & H).
  destruct s1 as [[c1 i1] r1]. simpl in *.
  apply (R_inline _ _ r1) in Hcall. eapply R_trans; [exact Hs|].
  eapply R_trans; [exact Hcall|]. destruct inlined; by apply IH in H.
Qed.

End PassRelation.

(** *** Diagnostics *)

Lemma reports_refl s : reports s s.
Proof.
  split; [done|]. exists []. rewrite app_nil_r. split; [done|]. split; [done|].
  split; [done|]. intros _. split; [done|]. by left.
Qed.

Lemma reports_trans a b c : reports a b -> reports b c -> reports a c.
Proof.
  intros (Hm1 & l1 & Hd1 & Hf1 & Hp1 & Hs1) (Hm2 & l2 & Hd2 & Hf2 & Hp2 & Hs2).
  split; [congruence|]. exists (l1 ++ l2). rewrite Hd2, Hd1, app_assoc.
  split; [done|]. split; [auto|]. split.
  - intros Hm. rewrite Hp1 by done. rewrite Hp2 by congruence. done.
  - intros Hm. destruct (Hs1 Hm) as [Ha1 Hb1].
    destruct Hs2 as [Ha2 Hb2]; [congruence|]. split.
    + intros Hl. destruct l1 as [|d l1]; [apply Ha2; by simpl in Hl|].
      apply Hf2, Ha1. done.
    + intros Hc. destruct (Hb2 Hc) as [Hb|Hl2].
      * destruct (Hb1 Hb) as [?|Hl1]; [by left|]. right. by destruct l1.
      * right. destruct l1, l2; done.
Qed.

Lemma reports_consider fr ctx ictx res inst s go :
  consider_instruction ctx ictx res fr inst = Ok (s, go) -> reports (ctx, ictx, res) s.
Proof.
  intros H. apply consider_instruction_inv in H as (f & r & _ & _ & [H|[H|H]]).
  - destruct H as [_ ->]. apply reports_refl.
  - destruct H as (_ & n & args & _ & _ & _ & _ & [[_ ->]|[_ ->]]).
    + split; [done|]. exists []. simpl. rewrite app_nil_r. split; [done|].
      split; [done|]. split; [done|]. intros _. split; [done|]. by left.
    + split; [done|]. simpl. destruct (may_fail ictx) eqn:Hm.
      * exists []. rewrite app_nil_r. by repeat split.
      * exists [non_tail_recursive_diagnostic]. split; [done|]. split; [done|].
        split; [done|]. intros _. split; [done|]. by right.
  - destruct H as (_ & -> & _). apply reports_refl.
Qed.

Lemma ir_inline_call_diagnostics ctx ictx fr inst ctx' ictx' b :
  ir_inline_call ctx ictx fr inst = Ok (ctx', ictx', b) ->
  exists l, diagnostics ctx' = diagnostics ctx ++ l /\
            (b = true -> l = []) /\ (may_fail ictx = true -> l = []) /\
            (b = false -> may_fail ictx = false -> l <> []).
Proof.
  unfold ir_inline_call. intros H.
  apply bind_Ok in H as (g & Hg & H). apply bind_Ok in H as (c & Hc & H).
  destruct (data c) as [| | | | |n [callee_ref|] args tail| | | | | |]; try discriminate.
  destruct (decide (callee_ref = fr)); [discriminate|].
  apply bind_Ok in H as (F & HF & H). apply bind_Ok in H as (count & Hcount & H).
  destruct (decide (count = 0)).
  { destruct (users c); [|discriminate].
    apply bind_Ok in H as (g' & _ & H). injection H as <- <- <-.
    exists []. simpl. by rewrite app_nil_r. }
  assert (Htp : forall hist i,
             transplant ctx ictx fr g inst c callee_ref F args tail count hist i
             = Ok (ctx', ictx', b) ->
             exists l, diagnostics ctx' = diagnostics ctx ++ l /\
                       (b = true -> l = []) /\ (may_fail ictx = true -> l = []) /\
                       (b = false -> may_fail ictx = false -> l <> [])).
  { intros hist i Ht. apply transplant_context in Ht as (-> & _ & _ & _ & _ & Hd).
    exists []. rewrite app_nil_r. by repeat split. }
  destruct (history_find (history ictx) inst 0 None) as [i|]; [|by eapply Htp].
  apply bind_Ok in H as (e & He & H).
  destruct (inlined_via e) as [j|]; [|discriminate].
  apply bind_Ok in H as (cycle & Hwalk & H). destruct cycle; [|by eapply Htp].
  injection H as <- <- <-. destruct (may_fail ictx) eqn:Hm.
  - exists []. rewrite app_nil_r. by repeat split.
  - eexists [_]. simpl. by repeat split.
Qed.

Lemma reports_inline fr ctx ictx res inst ctx' ictx' b :
  ir_inline_call ctx ictx fr inst = Ok (ctx', ictx', b) ->
  reports (ctx, ictx, res)
    (ctx',
     if b then ictx' else with_not_inlinable ictx' (not_inlinable ictx' ++ [inst]),
     if b then set_changed res else set_failed res).
Proof.
  intros H. pose proof (ir_inline_call_context _ _ _ _ _ _ _ H) as (_ & _ & Hm & _).
  apply ir_inline_call_diagnostics in H as (l & Hd & Hb & Hp & Hs).
  split; [by destruct b|]. exists l. simpl. split; [done|]. destruct b; simpl.
  - rewrite Hb by done. by repeat split; auto.
  - split; [done|]. split; [done|]. intros Hmf. split; [done|]. intros _. right. auto.
Qed.

Lemma reports_inline_calls_again fr fuel ctx ictx res block s :
  inline_calls_again fuel ctx ictx res fr block = Ok s -> reports (ctx, ictx, res) s.
Proof.
  apply (inline_calls_again_rel fr reports reports_refl reports_trans).
  - intros. by eapply reports_consider.
  - intros. by eapply reports_inline.
Qed.

Lemma reports_run_step fuel s fr s' :
  run_step fuel s fr = Ok s' -> reports s s'.
Proof.
  unfold run_step, inline_calls_in_function. intros H.
  apply bind_Ok in H as (s1 & H1 & H). injection H as <-.
  apply bind_Ok in H1 as (f & _ & H1).
  apply reports_inline_calls_again in H1 as (Hm & l & Hd & _ & Hp & Hs).
  destruct s as [[c i] r], s1 as [[c1 i1] r1]. simpl in *.
  split; [done|]. exists l. simpl. split; [done|]. split.
  { intros ->. apply orb_true_r. }
  split; [done|]. intros Hmf. destruct (Hs Hmf) as [Ha Hb]. split.
  - intros Hl. rewrite (Ha Hl). done.
  - intros [H1|H2]%orb_true_iff; [|by left]. destruct (Hb H1) as [|]; [done|by right].
Qed.

Lemma reports_run fuel ctx t mf ctx' res :
  run_inliner fuel ctx t mf = Ok (ctx', res) ->
  exists l,
    diagnostics ctx' = diagnostics ctx ++ l /\
    (mf = true -> l = []) /\
    (mf = false -> (failed res = true <-> l <> [])).
Proof.
  rewrite run_inliner_eq. intros H. apply bind_Ok in H as (s & Hrun & H).
  injection H as <- <-.
  assert (Hrep : reports (ctx, mkInlineContext [] [] t mf, mkResult false false) s).
  { revert Hrun. apply foldM_invariant; [|apply reports_refl].
    intros s0 fr s1 _ H0 H1. eapply reports_trans; [exact H0|].
    by eapply reports_run_step. }
  destruct Hrep as (_ & l & Hd & _ & Hp & Hs). simpl in *.
  exists l. split; [done|]. split; [done|]. intros Hmf. destruct (Hs Hmf) as [Ha Hb].
  split; [|done]. intros Hf. by destruct (Hb Hf).
Qed.

(** [opt_inline] runs the inliner in permissive mode: whatever it
    inlines or gives up on, it issues no diagnostic. *)
Theorem opt_inline_is_silent (fuel : nat) (ctx ctx' : CodegenContext) (t : Z)
    (changed : bool) :
  opt_inline fuel ctx t = Ok (ctx', changed) -> diagnostics ctx' = diagnostics ctx.
Proof.
  unfold opt_inline. intros H. apply bind_Ok in H as ([c r] & Hrun & H).
  injection H as <- <-. apply reports_run in Hrun as (l & Hd & Hp & _).
  rewrite Hd, Hp by done. apply app_nil_r.
Qed.

Lemma opt_inline_is_silent_witness :
  exists ctx' changed,
    opt_inline 4 Unrolling.ctx 0 = Ok (ctx', changed) /\
    diagnostics ctx' = diagnostics Unrolling.ctx.
Proof.
  destruct (opt_inline 4 Unrolling.ctx 0) as [[ctx' changed]| |] eqn:E;
    [|vm_compute in E; discriminate E..].
  exists ctx', changed. split; [reflexivity|].
  exact (opt_inline_is_silent 4 Unrolling.ctx ctx' 0 changed E).
Defined.

(** [codegen_process_inline_calls] runs the inliner in strict mode: it
    only adds to the diagnostics, and it reports success exactly when
    it has added none. *)
Theorem process_inline_calls_reports (fuel : nat) (ctx ctx' : CodegenContext) (ok : bool) :
  codegen_process_inline_calls fuel ctx = Ok (ctx', ok) ->
  exists l, diagnostics ctx' = diagnostics ctx ++ l /\ (ok = true <-> l = []).
Proof.
  unfold codegen_process_inline_calls. intros H.
  apply bind_Ok in H as ([c r] & Hrun & H). injection H as <- <-.
  apply reports_run in Hrun as (l & Hd & _ & Hs). exists l. split; [done|].
  destruct (Hs eq_refl) as [Ha Hb]. simpl. destruct (failed r); simpl.
  - split; [done|]. intros Hl. by destruct Ha.
  - split; [|done]. intros _. destruct l; [done|]. by discriminate Hb.
Qed.

(** *** Functions *)

Lemma same_but_ids_header F F' : same_but_ids F F' -> header F' = header F.
Proof. intros (H1 & _ & H3 & H4 & H5 & _). unfold header. congruence. Qed.

Lemma keeps_functions_refl fr s : keeps_functions fr s s.
Proof.
  split; [done|]. split.
  - intros fr' _. destruct (funcs s.1.1 !! fr'); constructor. apply same_but_ids_refl.
  - by destruct (funcs s.1.1 !! fr); constructor.
Qed.

Lemma keeps_functions_trans fr a b c :
  keeps_functions fr a b -> keeps_functions fr b c -> keeps_functions fr a c.
Proof.
  intros (Hf1 & Ho1 & Hh1) (Hf2 & Ho2 & Hh2). split; [congruence|]. split.
  - intros fr' Hne. specialize (Ho1 fr' Hne). specialize (Ho2 fr' Hne).
    destruct Ho1 as [x y Hxy|]; inversion Ho2; subst; constructor.
    by eapply same_but_ids_trans.
  - destruct Hh1 as [x y Hxy|]; inversion Hh2; subst; constructor. congruence.
Qed.

(** A module in which only the function [fr] was replaced, by one
    with the same header. *)
Lemma keeps_functions_set_func fr ctx ictx res ctx' ictx' res' g g' :
  funcs ctx !! fr = Some g -> header g' = header g ->
  functions ctx' = functions ctx -> funcs ctx' = <[fr := g']> (funcs ctx) ->
  keeps_functions fr (ctx, ictx, res) (ctx', ictx', res').
Proof.
  intros Hg Hh Hf Hfs. split; [done|]. simpl. rewrite Hfs. split.
  - intros fr' Hne. rewrite lookup_insert_ne by done.
    destruct (funcs ctx !! fr'); constructor. apply same_but_ids_refl.
  - rewrite lookup_insert_eq, Hg. by constructor.
Qed.

Lemma keeps_functions_same fr ctx ictx res ctx' ictx' res' :
  functions ctx' = functions ctx -> funcs ctx' = funcs ctx ->
  keeps_functions fr (ctx, ictx, res) (ctx', ictx', res').
Proof.
  intros Hf Hfs. split; [done|]. simpl. rewrite Hfs.
  apply (keeps_functions_refl fr (ctx, ictx, res)).
Qed.

Lemma keeps_functions_consider fr ctx ictx res inst s go :
  consider_instruction ctx ictx res fr inst = Ok (s, go) ->
  keeps_functions fr (ctx, ictx, res) s.
Proof.
  intros H. apply consider_instruction_inv in H as (f & r & Hf & _ & [H|[H|H]]).
  - destruct H as [_ ->]. apply keeps_functions_refl.
  - destruct H as (_ & n & args & _ & _ & _ & _ & [[_ ->]|[_ ->]]).
    + apply (keeps_functions_set_func fr ctx ictx res _ _ _ f
               (update_inst f inst set_tail_call)); [exact Hf|reflexivity..].
    + apply keeps_functions_same; by destruct (may_fail ictx).
  - destruct H as (_ & -> & _). apply keeps_functions_refl.
Qed.

Lemma keeps_functions_inline fr ctx ictx res inst ctx' ictx' b :
  ir_inline_call ctx ictx fr inst = Ok (ctx', ictx', b) ->
  keeps_functions fr (ctx, ictx, res)
    (ctx',
     if b then ictx' else with_not_inlinable ictx' (not_inlinable ictx' ++ [inst]),
     if b then set_changed res else set_failed res).
Proof.
  unfold ir_inline_call. intros H.
  apply bind_Ok in H as (g & Hg%of_option_Ok & H). apply bind_Ok in H as (c & Hc & H).
  destruct (data c) as [| | | | |n [callee_ref|] args tail| | | | | |]; try discriminate.
  destruct (decide (callee_ref = fr)) as [|Hne]; [discriminate|].
  apply bind_Ok in H as (F & HF%of_option_Ok & H).
  apply bind_Ok in H as (count & Hcount & H).
  destruct (decide (count = 0)).
  { destruct (users c); [|discriminate].
    apply bind_Ok in H as (g' & Hrm & H). injection H as <- <- <-.
    apply (keeps_functions_set_func fr ctx ictx res _ _ _ g g'); [exact Hg| |done|done].
    by apply header_ir_remove in Hrm. }
  assert (Htp : forall hist i,
             transplant ctx ictx fr g inst c callee_ref F args tail count hist i
             = Ok (ctx', ictx', b) ->
             keeps_functions fr (ctx, ictx, res)
               (ctx',
                if b then ictx'
                else with_not_inlinable ictx' (not_inlinable ictx' ++ [inst]),
                if b then set_changed res else set_failed res)).
  { intros hist i Ht. apply transplant_inv in Ht as (-> & Ht).
    apply transplanted_header in Ht as (Hf & g' & F' & Hfs & Hh & Hsame); [|done].
    split; [done|]. simpl. rewrite Hfs. split.
    - intros fr' Hfr'. rewrite lookup_insert_ne by done.
      destruct (decide (fr' = callee_ref)) as [->|Hc'].
      + rewrite lookup_insert_eq, HF. by constructor.
      + rewrite lookup_insert_ne by done.
        destruct (funcs ctx !! fr'); constructor. apply same_but_ids_refl.
    - rewrite lookup_insert_eq, Hg. by constructor. }
  destruct (history_find (history ictx) inst 0 None) as [i|]; [|by eapply Htp].
  apply bind_Ok in H as (e & He & H).
  destruct (inlined_via e) as [j|]; [|discriminate].
  apply bind_Ok in H as (cycle & Hwalk & H). destruct cycle; [|by eapply Htp].
  injection H as <- <- <-. apply keeps_functions_same; by destruct (may_fail ictx).
Qed.

Lemma keeps_functions_inline_calls_in_function fr fuel ctx ictx s :
  inline_calls_in_function fuel ctx ictx fr = Ok s ->
  keeps_functions fr (ctx, ictx, mkResult false false) s.
Proof.
  unfold inline_calls_in_function. intros H. apply bind_Ok in H as (f & _ & H).
  apply (inline_calls_again_rel fr (keeps_functions fr)) in H.
  - exact H.
  - apply keeps_functions_refl.
  - apply keeps_functions_trans.
  - intros. by eapply keeps_functions_consider.
  - intros. by apply keeps_functions_inline.
Qed.

(** While the calls of a function are inlined, no other function
    changes in anything but the [id] fields of its instructions and
    blocks, which the numbering of a callee overwrites. *)
Theorem inlining_renumbers_other_functions (fuel : nat) (ctx : CodegenContext)
    (ictx : InlineContext) (fr : func_ref) (s : pass_state) :
  inline_calls_in_function fuel ctx ictx fr = Ok s ->
  forall fr' F, fr' <> fr -> funcs ctx !! fr' = Some F ->
    exists F', funcs s.1.1 !! fr' = Some F' /\ same_but_ids F F'.
Proof.
  intros H fr' F Hne HF.
  apply keeps_functions_inline_calls_in_function in H as (_ & Ho & _).
  specialize (Ho fr' Hne). simpl in Ho. rewrite HF in Ho. inversion Ho; subst. eauto.
Qed.

Lemma same_interface_refl ctx : same_interface ctx ctx.
Proof. split; [done|]. intros fr. by destruct (funcs ctx !! fr); constructor. Qed.

Lemma same_interface_trans a b c :
  same_interface a b -> same_interface b c -> same_interface a c.
Proof.
  intros [Hf1 H1] [Hf2 H2]. split; [congruence|]. intros fr.
  specialize (H1 fr). specialize (H2 fr).
  destruct H1; inversion H2; subst; constructor. congruence.
Qed.

Lemma keeps_functions_interface fr a b :
  keeps_functions fr a b -> same_interface a.1.1 b.1.1.
Proof.
  intros (Hf & Ho & Hh). split; [done|]. intros fr'.
  destruct (decide (fr' = fr)) as [->|Hne]; [done|].
  specialize (Ho fr' Hne). destruct Ho; constructor. by apply same_but_ids_header.
Qed.

(** The inliner neither adds nor removes a function, and it leaves
    every function its name, its parameters and its [extern] and
    [forceinline] attributes. *)
Theorem inliner_keeps_interface (fuel : nat) (ctx ctx' : CodegenContext) (t : Z)
    (mf : bool) (res : inline_result) :
  run_inliner fuel ctx t mf = Ok (ctx', res) ->
  functions ctx' = functions ctx /\
  forall fr,
    match funcs ctx !! fr, funcs ctx' !! fr with
    | Some f, Some f' =>
        name f' = name f /\ parameters f' = parameters f /\
        is_extern f' = is_extern f /\ attr_forceinline f' = attr_forceinline f
    | None, None => True
    | _, _ => False
    end.
Proof.
  rewrite run_inliner_eq. intros H. apply bind_Ok in H as (s & Hrun & H).
  injection H as <- <-.
  assert (Hi : same_interface ctx s.1.1).
  { revert Hrun.
    apply (foldM_invariant (fun s0 : pass_state => same_interface ctx s0.1.1));
      [|apply same_interface_refl].
    intros s0 fr s1 _ H0 H1. eapply same_interface_trans; [exact H0|].
    unfold run_step in H1. apply bind_Ok in H1 as (s2 & H2 & H1). injection H1 as <-.
    apply keeps_functions_inline_calls_in_function in H2.
    by apply keeps_functions_interface in H2. }
  destruct Hi as [Hf Hh]. split; [done|]. intros fr. specialize (Hh fr).
  destruct Hh as [f f' Hff|]; [|done]. unfold header in Hff. by injection Hff.
Qed.

Lemma inliner_keeps_interface_witness :
  exists ctx' res,
    run_inliner 4 Unrolling.ctx 0 true = Ok (ctx', res) /\
    functions ctx' = functions Unrolling.ctx.
Proof.
  destruct (run_inliner 4 Unrolling.ctx 0 true) as [[ctx' res]| |] eqn:E;
    [|vm_compute in E; discriminate E..].
  exists ctx', res. split; [reflexivity|].
  exact (proj1 (inliner_keeps_interface 4 Unrolling.ctx ctx' 0 true res E)).
Defined.

Lemma inlining_renumbers_other_functions_witness :
  exists s F',
    inline_calls_in_function 4 Unrolling.ctx (mkInlineContext [] [] 0 true) 1 = Ok s /\
    funcs s.1.1 !! 2 = Some F' /\ same_but_ids Unrolling.g F'.
Proof.
  destruct (inline_calls_in_function 4 Unrolling.ctx (mkInlineContext [] [] 0 true) 1)
    as [s| |] eqn:E; [|vm_compute in E; discriminate E..].
  destruct (inlining_renumbers_other_functions 4 Unrolling.ctx _ 1 s E 2 Unrolling.g)
    as (F' & HF' & Hsame); [done|reflexivity|].
  exists s, F'. split; [reflexivity|]. split; [exact HF'|exact Hsame].
Defined.

Lemma process_inline_calls_reports_witness :
  exists ctx' ok l,
    codegen_process_inline_calls 2 ForcedRecursion.ctx = Ok (ctx', ok) /\
    diagnostics ctx' = diagnostics ForcedRecursion.ctx ++ l /\ (ok = true <-> l = []).
Proof.
  destruct (codegen_process_inline_calls 2 ForcedRecursion.ctx) as [[ctx' ok]| |] eqn:E;
    [|vm_compute in E; discriminate E..].
  destruct (process_inline_calls_reports 2 ForcedRecursion.ctx ctx' ok E) as (l & Hd & Hl).
  exists ctx', ok, l. split; [reflexivity|]. split; [exact Hd|exact Hl].
Defined.

(** *** Functions without calls *)

Lemma idle_without_calls ctx ictx fr f :
  funcs ctx !! fr = Some f ->
  (forall i r, insts f !! i = Some r -> kind r <> IR_CALL) ->
  idle ctx ictx fr.
Proof.
  intros Hf Hleaf res inst s go H.
  apply consider_instruction_inv in H as (f0 & r & Hf0 & Hr & [H|[H|H]]).
  - done.
  - destruct H as (_ & n & args & Hk & _). rewrite Hf in Hf0. injection Hf0 as <-.
    by destruct (Hleaf _ _ Hr).
  - destruct H as (_ & _ & n & callee_ref & args & tail & callee_f & Hk & _).
    rewrite Hf in Hf0. injection Hf0 as <-. by destruct (Hleaf _ _ Hr).
Qed.

(** A function that holds no [IR_CALL] comes out of a run of the
    inliner with the instructions and blocks it had: nothing is
    inlined into it, and as a callee it changes in [id] fields
    only. *)
Theorem functions_without_calls_are_kept (fuel : nat) (ctx ctx' : CodegenContext) (t : Z)
    (mf : bool) (res : inline_result) (fr : func_ref) (f : IRFunction) :
  run_inliner fuel ctx t mf = Ok (ctx', res) ->
  funcs ctx !! fr = Some f ->
  (forall i r, insts f !! i = Some r -> kind r <> IR_CALL) ->
  exists f', funcs ctx' !! fr = Some f' /\ same_but_ids f f'.
Proof.
  rewrite run_inliner_eq. intros H Hf Hleaf. apply bind_Ok in H as (s & Hrun & H).
  injection H as <- <-. revert Hrun.
  apply (foldM_invariant
           (fun s0 : pass_state =>
              exists f', funcs s0.1.1 !! fr = Some f' /\ same_but_ids f f')).
  - intros s0 fr0 s1 _ (f0 & Hf0 & Hsame) H1. unfold run_step in H1.
    apply bind_Ok in H1 as (s2 & H2 & H1). injection H1 as <-. simpl.
    destruct (decide (fr0 = fr)) as [->|Hne].
    + apply inline_calls_in_function_idle in H2 as ->; [by exists f0|].
      apply (idle_without_calls _ _ _ f0 Hf0). intros i r' Hr' Hk.
      destruct (same_but_ids_inst _ _ _ _ Hsame Hr') as (r & Hr & _).
      destruct (same_but_ids_kind _ _ _ _ _ Hsame Hr Hr') as (Hk' & _).
      apply (Hleaf i r Hr). congruence.
    + apply keeps_functions_inline_calls_in_function in H2 as (_ & Ho & _).
      assert (Hfr : fr <> fr0) by congruence.
      specialize (Ho fr Hfr). simpl in Ho. rewrite Hf0 in Ho. inversion Ho; subst.
      eexists. split; [done|]. by eapply same_but_ids_trans.
  - exists f. split; [done|]. apply same_but_ids_refl.
Qed.

Lemma functions_without_calls_are_kept_witness :
  exists ctx' res f',
    run_inliner 4 MultiReturn.ctx 0 true = Ok (ctx', res) /\
    funcs ctx' !! 1 = Some f' /\ same_but_ids MultiReturn.f f'.
Proof.
  destruct (run_inliner 4 MultiReturn.ctx 0 true) as [[ctx' res]| |] eqn:E;
    [|vm_compute in E; discriminate E..].
  destruct (functions_without_calls_are_kept 4 MultiReturn.ctx ctx' 0 true res 1
              MultiReturn.f E) as (f' & Hf' & Hsame);
    [reflexivity|
    |exists ctx', res, f'; split; [reflexivity|]; split; [exact Hf'|exact Hsame]].
  clear E. intros i r Hr. unfold MultiReturn.f in Hr. cbn [insts list_to_map foldr] in Hr.
  repeat (rewrite lookup_insert in Hr;
          destruct (decide _) as [?|?] in Hr; [by injection Hr as <-|]).
  by rewrite lookup_empty in Hr.
Defined.

(** ** The only refusal is a cycle *)

Lemma history_walk_true fuel h j f :
  history_walk fuel h j f = Ok true -> exists a, ancestor h j a /\ callee a = Some f.
Proof.
  revert j. induction fuel as [|fuel IH]; simpl; intros j H; [discriminate|].
  apply bind_Ok in H as (e & He%of_option_Ok & H).
  destruct (decide (callee e = Some f)) as [Hc|Hc].
  - exists e. split; [by constructor|done].
  - destruct (inlined_via e) as [k|] eqn:Hk; [|discriminate].
    destruct (IH k H) as (a & Ha & Hca). exists a. split; [|done].
    by eapply ancestor_up.
Qed.

(** [ir_inline_call] returns false for one reason only: the call was
    copied into the caller by an earlier inlining, and the function it
    calls is the callee of one of the calls through which it came.
    Then nothing but the diagnostics has changed.  In particular a call
    that has no entry in the history is never refused. *)
Theorem refusal_means_cycle (ctx ctx' : CodegenContext) (ictx ictx' : InlineContext)
    (fr : func_ref) (call_ref : inst_ref) :
  ir_inline_call ctx ictx fr call_ref = Ok (ctx', ictx', false) ->
  ictx' = ictx /\ functions ctx' = functions ctx /\ funcs ctx' = funcs ctx /\
  fresh ctx' = fresh ctx /\
  exists g c n callee_ref args tail i e j a,
    funcs ctx !! fr = Some g /\ insts g !! call_ref = Some c /\
    data c = Call n (callee_function callee_ref) args tail /\
    history_find (history ictx) call_ref 0 None = Some i /\
    history ictx !! i = Some e /\ inlined_via e = Some j /\
    ancestor (history ictx) j a /\ callee a = Some callee_ref.
Proof.
  unfold ir_inline_call. intros H.
  apply bind_Ok in H as (g & Hg%of_option_Ok & H).
  apply bind_Ok in H as (c & Hc%of_option_Ok & H).
  destruct (data c) as [| | | | |n [callee_ref|] args tail| | | | | |] eqn:Hd;
    try discriminate.
  destruct (decide (callee_ref = fr)) as [|Hne]; [discriminate|].
  apply bind_Ok in H as (F & HF & H). apply bind_Ok in H as (count & Hcount & H).
  destruct (decide (count = 0)).
  { destruct (users c); [|discriminate]. apply bind_Ok in H as (g' & _ & H).
    discriminate. }
  destruct (history_find (history ictx) call_ref 0 None) as [i|] eqn:Hfind.
  - apply bind_Ok in H as (e & He%of_option_Ok & H).
    destruct (inlined_via e) as [j|] eqn:Hj; [|discriminate].
    apply bind_Ok in H as (cycle & Hwalk & H). destruct cycle.
    + injection H as <- <-. split; [done|].
      split; [by destruct (may_fail ictx)|]. split; [by destruct (may_fail ictx)|].
      split; [by destruct (may_fail ictx)|].
      destruct (history_walk_true _ _ _ _ Hwalk) as (a & Ha & Hca).
      exists g, c, n, callee_ref, args, tail, i, e, j, a. by repeat split.
    + by apply transplant_context in H as (? & _).
  - by apply transplant_context in H as (? & _).
Qed.

Lemma refusal_means_cycle_witness :
  exists ctx' ictx',
    ir_inline_call Cycle.ctx Cycle.ictx 1 1000 = Ok (ctx', ictx', false) /\
    ictx' = Cycle.ictx /\ funcs ctx' = funcs Cycle.ctx.
Proof.
  destruct (ir_inline_call Cycle.ctx Cycle.ictx 1 1000) as [[[ctx' ictx'] b]| |] eqn:E;
    [|vm_compute in E; discriminate E..].
  assert (Hb : b = false).
  { assert (Hres : (do r <- ir_inline_call Cycle.ctx Cycle.ictx 1 1000; Ok r.2) = Ok false)
      by (vm_compute; reflexivity).
    rewrite E in Hres. by injection Hres. }
  subst b. exists ctx', ictx'. split; [reflexivity|].
  destruct (refusal_means_cycle _ _ _ _ _ _ E) as (H1 & _ & H2 & _).
  split; [exact H1|exact H2].
Defined.

(** ** The history is a forest *)

Lemma inline_calls_again_inv N M fr fuel ctx ictx res block s :
  pass_inv N M fr ctx ictx ->
  inline_calls_again fuel ctx ictx res fr block = Ok s ->
  pass_inv N M fr s.1.1 s.1.2.
Proof.
  revert ctx ictx res block.
  induction fuel as [|fuel IH]; simpl; intros ctx ictx res block Hinv H; [discriminate|].
  apply bind_Ok in H as (f & _ & H). apply bind_Ok in H as ([s1 found] & Hscan & H).
  destruct (scan_blocks_pass _ _ _ _ _ _ _ _ _ Hinv Hscan) as (Hinv1 & _ & Hfound).
  destruct found as [[b inst]|]; [|by injection H as <-].
  destruct (Hfound b inst eq_refl)
    as (g & r & n & callee_ref & args & tail & callee_f & Hg & Hr & K & D & Hne & Hcf & Hni).
  apply bind_Ok in H as ([[ctx' ictx'] inlined] & Hcall & H).
  destruct (ir_inline_call_pass _ _ _ _ _ _ _ _ _ _ _ _ _ _ _ _ Hinv1 Hg Hr K D Hcf Hne Hni
              Hcall) as (Hinv2 & _).
  destruct inlined; simpl in Hinv2, H; by eapply IH.
Qed.

(** The history that the pass over a function leaves is a forest in
    which a function is never inlined into a copy of itself: an entry
    that was inlined via another one comes after it, so that the walk
    of lines 74-97 to the root ends, and the calls on the way from an
    entry that was inlined to its root are calls to pairwise different
    functions. *)
Theorem history_is_a_forest (fuel : nat) (ctx : CodegenContext) (ictx : InlineContext)
    (fr : func_ref) (s : pass_state) :
  fresh_ok ctx ->
  inline_calls_in_function fuel ctx ictx fr = Ok s ->
  forall i e j,
    history s.1.2 !! i = Some e -> inlined_via e = Some j ->
    j < i /\ NoDup (callee <$> ancestry (history s.1.2) j).
Proof.
  unfold inline_calls_in_function. intros Hfresh H i e j He Hj.
  apply bind_Ok in H as (f & _ & H).
  apply (inline_calls_again_inv (module_size ctx) (module_cost ctx)) in H;
    [|by apply pass_inv_start].
  split.
  - by apply (pi_ordered _ _ _ _ _ H i e j).
  - by destruct (pi_good _ _ _ _ _ H i e j He Hj).
Qed.

Lemma history_is_a_forest_witness :
  exists s,
    inline_calls_in_function 4 Unrolling.ctx (mkInlineContext [] [] 0 true) 1 = Ok s /\
    forall i e j, history s.1.2 !! i = Some e -> inlined_via e = Some j -> j < i.
Proof.
  destruct (inline_calls_in_function 4 Unrolling.ctx (mkInlineContext [] [] 0 true) 1)
    as [s| |] eqn:E; [|vm_compute in E; discriminate E..].
  exists s. split; [reflexivity|]. intros i e j He Hj.
  refine (proj1 (history_is_a_forest 4 Unrolling.ctx _ 1 s _ E i e j He Hj)).
  clear. intros f g k Hg [r Hr]. apply elem_of_list_to_map_2 in Hg.
  repeat (apply elem_of_cons in Hg as [Hg|Hg];
          [injection Hg as -> ->; apply elem_of_list_to_map_2 in Hr;
           repeat (apply elem_of_cons in Hr as [Hr|Hr]; [injection Hr as -> _; simpl; lia|]);
           by apply elem_of_nil in Hr|]).
  by apply elem_of_nil in Hg.
Defined.

(** ** A run that reports no change *)

#[local] Instance IRCallee_eq_dec : EqDecision IRCallee.
Proof. solve_decision. Defined.

#[local] Instance IRData_eq_dec : EqDecision IRData.
Proof. solve_decision. Defined.

#[local] Instance IRInstruction_eq_dec : EqDecision IRInstruction.
Proof. solve_decision. Defined.

Lemma only_self_calls_same c d : funcs d = funcs c -> only_self_calls c d.
Proof. intros E fr f1 f2 i r1 r2 H1 H2 Hr1 Hr2 Hne. rewrite E in H2. congruence. Qed.

Lemma only_self_calls_trans a b c :
  marked_ctx a b -> marked_ctx b c ->
  only_self_calls a b -> only_self_calls b c -> only_self_calls a c.
Proof.
  intros Mab Mbc Sab Sbc fr f1 f3 i r1 r3 H1 H3 Hr1 Hr3 Hne.
  destruct (marked_ctx_lookup _ _ _ _ Mab H1) as (f2 & H2 & M12).
  pose proof (marked_lookup _ _ i M12) as L. rewrite Hr1 in L.
  destruct (insts f2 !! i) as [r2|] eqn:Hr2; [|done].
  destruct (decide (r2 = r1)) as [->|Hne12].
  - by eapply (Sbc fr f2 f3 i r1 r3).
  - destruct (Sab fr f1 f2 i r1 r2 H1 H2 Hr1 Hr2 Hne12) as (Hk & n & args & Hd & ->).
    split; [done|]. exists n, args. split; [done|].
    destruct (decide (r3 = set_data (Call n (callee_function fr) args true) r1))
      as [->|Hne23]; [done|].
    destruct (Sbc fr f2 f3 i _ r3 H2 H3 Hr2 Hr3 Hne23) as (_ & n' & args' & Hd' & _).
    simpl in Hd'. discriminate.
Qed.

Lemma quiet_refl s : quiet s s.
Proof.
  intros Hc. split; [done|]. split; [apply marked_ctx_refl|by apply only_self_calls_same].
Qed.

Lemma quiet_trans a b c : quiet a b -> quiet b c -> quiet a c.
Proof.
  intros Hab Hbc Hc. destruct (Hbc Hc) as (Hb & Mbc & Sbc).
  destruct (Hab Hb) as (Ha & Mab & Sab). split; [done|].
  split; [by eapply marked_ctx_trans|by eapply only_self_calls_trans].
Qed.

Lemma quiet_consider fr ctx ictx res inst s go :
  consider_instruction ctx ictx res fr inst = Ok (s, go) -> quiet (ctx, ictx, res) s.
Proof.
  intros H. apply consider_instruction_inv in H as (f & r & Hf & Hr & [H|[H|H]]).
  - destruct H as [_ ->]. apply quiet_refl.
  - destruct H as (_ & n & args & Hk & Hd & _ & _ & [[Hconv ->]|[_ ->]]).
    + intros Hc. simpl in *. split; [done|].
      assert (C : convertible f inst r = true).
      { rewrite opt_try_convert_to_tail_call_eq in Hconv.
        rewrite (get_inst_Some _ _ _ Hr) in Hconv. simpl in Hconv.
        destruct (convertible f inst r); [done|]. discriminate. }
      split.
      * split; [done|]. intros fr'. simpl.
        destruct (decide (fr' = fr)) as [->|Hne].
        -- rewrite lookup_insert_eq, Hf. constructor. by eapply marked_convert.
        -- rewrite lookup_insert_ne by done. destruct (funcs ctx !! fr'); constructor.
           apply marked_refl.
      * intros fr' f1 f2 i r1 r2 H1 H2 Hr1 Hr2 Hne. simpl in H2.
        destruct (decide (fr' = fr)) as [->|Hfr].
        2:{ rewrite lookup_insert_ne in H2 by done. congruence. }
        rewrite lookup_insert_eq in H2. injection H2 as <-.
        assert (f1 = f) by congruence. subst f1.
        rewrite lookup_update_inst in Hr2.
        destruct (decide (inst = i)) as [->|Hi]; [|congruence].
        assert (r1 = r) by congruence. subst r1.
        rewrite Hr in Hr2. simpl in Hr2. injection Hr2 as <-.
        split; [done|]. exists n, args. split; [done|].
        unfold set_tail_call. by rewrite Hd.
    + intros Hc. simpl in *. split; [done|]. split.
      * destruct (may_fail ictx); [apply marked_ctx_refl|].
        apply marked_ctx_diagnostic, marked_ctx_refl.
      * apply only_self_calls_same. by destruct (may_fail ictx).
  - destruct H as (_ & -> & _). apply quiet_refl.
Qed.

(** A refused inlining leaves the functions as they are. *)
Lemma ir_inline_call_refused ctx ictx fr inst ctx' ictx' :
  ir_inline_call ctx ictx fr inst = Ok (ctx', ictx', false) ->
  funcs ctx' = funcs ctx /\ functions ctx' = functions ctx.
Proof.
  unfold ir_inline_call. intros H.
  apply bind_Ok in H as (g & Hg & H). apply bind_Ok in H as (c & Hc & H).
  destruct (data c) as [| | | | |n [callee_ref|] args tail| | | | | |]; try discriminate.
  destruct (decide (callee_ref = fr)); [discriminate|].
  apply bind_Ok in H as (F & HF & H). apply bind_Ok in H as (count & Hcount & H).
  destruct (decide (count = 0)).
  { destruct (users c); [|discriminate].
    apply bind_Ok in H as (g' & _ & H). discriminate. }
  destruct (history_find (history ictx) inst 0 None) as [i|].
  - apply bind_Ok in H as (e & He & H).
    destruct (inlined_via e) as [j|]; [|discriminate].
    apply bind_Ok in H as (cycle & Hwalk & H). destruct cycle.
    + injection H as <- _. by destruct (may_fail ictx).
    + apply transplant_context in H as (? & _). discriminate.
  - apply transplant_context in H as (? & _). discriminate.
Qed.

Lemma quiet_inline fr ctx ictx res inst ctx' ictx' b :
  ir_inline_call ctx ictx fr inst = Ok (ctx', ictx', b) ->
  quiet (ctx, ictx, res)
    (ctx',
     if b then ictx' else with_not_inlinable ictx' (not_inlinable ictx' ++ [inst]),
     if b then set_changed res else set_failed res).
Proof.
  intros H Hc. destruct b; [discriminate Hc|]. simpl in *.
  apply ir_inline_call_refused in H as (Ef & El). split; [done|]. split.
  - split; [done|]. intros fr'. rewrite Ef. destruct (funcs ctx !! fr'); constructor.
    apply marked_refl.
  - by apply only_self_calls_same.
Qed.

(** A run of the inliner that reports no change has inlined nothing:
    the module it leaves has the functions, blocks and instructions it
    had, and an instruction differs at most in that a direct call of a
    function to itself, which passes the test of the conversion, is now
    marked as a tail call. *)
Theorem unchanged_run_only_marks (fuel : nat) (ctx ctx' : CodegenContext) (t : Z)
    (mf : bool) (res : inline_result) :
  run_inliner fuel ctx t mf = Ok (ctx', res) ->
  changed res = false ->
  marked_ctx ctx ctx' /\ only_self_calls ctx ctx'.
Proof.
  rewrite run_inliner_eq. intros H Hch.
  apply bind_Ok in H as (s & Hrun & H). injection H as <- <-.
  assert (Q : quiet (ctx, mkInlineContext [] [] t mf, mkResult false false) s).
  { revert Hrun. apply foldM_invariant; [|apply quiet_refl].
    intros s0 fr s1 _ Q0 Hstep. unfold run_step in Hstep.
    apply bind_Ok in Hstep as (s' & Hpass & Hstep). injection Hstep as <-.
    unfold inline_calls_in_function in Hpass. apply bind_Ok in Hpass as (f & _ & Hpass).
    apply (inline_calls_again_rel fr quiet quiet_refl quiet_trans) in Hpass.
    2:{ intros. by eapply quiet_consider. }
    2:{ intros. by eapply quiet_inline. }
    intros Hc. simpl in Hc. apply orb_false_iff in Hc as [Hc' Hc0].
    destruct (Hpass Hc') as (_ & M' & S'). destruct (Q0 Hc0) as (Ha & M0 & S0).
    simpl in *. split; [done|].
    split; [by eapply marked_ctx_trans|by eapply only_self_calls_trans]. }
  by destruct (Q Hch) as (_ & M & S).
Qed.

Lemma unchanged_run_only_marks_witness :
  exists ctx' res, run_inliner 1 TailRecursion.ctx 0 true = Ok (ctx', res) /\
                   marked_ctx TailRecursion.ctx ctx' /\
                   only_self_calls TailRecursion.ctx ctx'.
Proof.
  destruct (run_inliner 1 TailRecursion.ctx 0 true) as [[ctx' res]| |] eqn:E;
    [|vm_compute in E; discriminate E..].
  exists ctx', res. split; [reflexivity|].
  apply (unchanged_run_only_marks 1 TailRecursion.ctx ctx' 0 true res E).
  assert (Hres : (do r <- run_inliner 1 TailRecursion.ctx 0 true; Ok (changed r.2))
                 = Ok false) by (vm_compute; reflexivity).
  rewrite E in Hres. simpl in Hres. by injection Hres.
Defined.

(** ** The pass that runs before optimisation *)

Lemma mapM_Ok {A B} (f : A -> result B) (l : list A) :
  (forall x, x ∈ l -> exists y, f x = Ok y) -> exists ys, mapM f l = Ok ys.
Proof.
  induction l as [|x l IH]; simpl; intros H; [eauto|].
  destruct (H x) as (y & ->); [by left|]. simpl.
  destruct IH as (ys & ->); [intros; apply H; by right|]. simpl. eauto.
Qed.

Lemma countable_count f b : countable f -> exists n, instruction_count f b = Ok n.
Proof.
  intros Hc. unfold instruction_count.
  destruct (mapM_Ok (fun b0 => do blk <- get_block f b0; Ok (pair b0 <$> instructions blk))
              (blocks f)) as (ls & Hls).
  { intros b0 Hb0. destruct (Hc b0 Hb0) as (blk & Hblk & _).
    rewrite (get_block_Some _ _ _ Hblk). simpl. eauto. }
  assert (Hl : function_instructions f = Ok (concat ls)).
  { unfold function_instructions. by rewrite Hls. }
  rewrite Hl. simpl.
  destruct (mapM_Ok (fun p : block_ref * inst_ref => get_inst f p.2) (concat ls))
    as (rs & ->); [|simpl; eauto].
  intros [b0 i] Hin. destruct (function_instructions_elem _ _ _ _ Hl Hin)
    as (Hb0 & blk & Hblk & Hi).
  destruct (Hc b0 Hb0) as (blk' & Hblk' & Hins).
  assert (blk' = blk) by congruence. subst blk'.
  destruct (Hins i Hi) as [r Hr]. exists r. simpl. by apply get_inst_Some.
Qed.

(** With a negative threshold and no [forceinline] function, the body of
    the scan returns for every instruction, and passes none on. *)
Lemma consider_instruction_returns ctx ictx res fr f b blk i :
  scannable ctx -> fr ∈ functions ctx -> funcs ctx !! fr = Some f ->
  b ∈ blocks f -> blks f !! b = Some blk -> i ∈ instructions blk ->
  (threshold ictx < 0)%Z ->
  (forall fr' f', funcs ctx !! fr' = Some f' -> attr_forceinline f' = false) ->
  consider_instruction ctx ictx res fr i = Ok (ctx, ictx, res, false).
Proof.
  intros Hs Hfr Hf Hb Hblk Hi Ht Hforce.
  destruct (Hs fr Hfr) as (f' & Hf' & Hc & Hcalls).
  assert (f' = f) by congruence. subst f'.
  destruct (Hc b Hb) as (blk' & Hblk' & Hins).
  assert (blk' = blk) by congruence. subst blk'.
  destruct (Hins i Hi) as [r Hr].
  assert (exists s go, consider_instruction ctx ictx res fr i = Ok (s, go))
    as (s & go & Hok).
  { unfold consider_instruction.
    rewrite (get_func_Some _ _ _ Hf). simpl. rewrite (get_inst_Some _ _ _ Hr). simpl.
    destruct (decide (kind r <> IR_CALL)) as [|Hk%dec_stable]; [eauto|].
    destruct (Hcalls b blk i r Hb Hblk Hi Hr Hk) as (n & c & args & tail & Hd & Hcallee).
    rewrite Hd. destruct c as [callee_ref|]; [|eauto].
    destruct (Hcallee callee_ref eq_refl) as (F & HF & HcF).
    rewrite (get_func_Some _ _ _ HF). simpl.
    destruct (is_extern F) eqn:Hext; [eauto|].
    destruct (decide (i ∈ not_inlinable ictx)); [eauto|].
    unfold inline_requested, must_inline. rewrite (Hforce _ _ HF). simpl.
    destruct (Z.eqb_spec (threshold ictx) 0); [lia|].
    destruct (countable_count F false (HcF eq_refl)) as (m & ->). simpl.
    destruct (Z.geb_spec (threshold ictx) (Z.of_nat m)); [lia|]. eauto. }
  rewrite Hok. by destruct (consider_instruction_unforced _ _ _ _ _ _ _ Ht Hforce Hok)
    as [-> ->].
Qed.

Lemma scan_instructions_returns ctx ictx res fr f b blk l :
  scannable ctx -> fr ∈ functions ctx -> funcs ctx !! fr = Some f ->
  b ∈ blocks f -> blks f !! b = Some blk -> l ⊆ instructions blk ->
  (threshold ictx < 0)%Z ->
  (forall fr' f', funcs ctx !! fr' = Some f' -> attr_forceinline f' = false) ->
  scan_instructions ctx ictx res fr l = Ok (ctx, ictx, res, None).
Proof.
  intros Hs Hfr Hf Hb Hblk Hl Ht Hforce.
  induction l as [|i l IH]; simpl; [done|].
  rewrite (consider_instruction_returns ctx ictx res fr f b blk i); try done.
  - simpl. apply IH. intros x Hx. apply Hl. by right.
  - apply Hl. by left.
Qed.

Lemma scan_blocks_returns ctx ictx res fr f bs :
  scannable ctx -> fr ∈ functions ctx -> funcs ctx !! fr = Some f ->
  bs ⊆ blocks f ->
  (threshold ictx < 0)%Z ->
  (forall fr' f', funcs ctx !! fr' = Some f' -> attr_forceinline f' = false) ->
  scan_blocks ctx ictx res fr bs = Ok (ctx, ictx, res, None).
Proof.
  intros Hs Hfr Hf Hbs Ht Hforce.
  induction bs as [|b bs IH]; simpl; [done|].
  assert (Hb : b ∈ blocks f) by (apply Hbs; by left).
  destruct (Hs fr Hfr) as (f' & Hf' & Hc & _).
  assert (f' = f) by congruence. subst f'.
  destruct (Hc b Hb) as (blk & Hblk & _).
  rewrite (get_func_Some _ _ _ Hf). simpl. rewrite (get_block_Some _ _ _ Hblk). simpl.
  rewrite (scan_instructions_returns ctx ictx res fr f b blk (instructions blk)); try done.
  simpl. apply IH. intros x Hx. apply Hbs. by right.
Qed.

Lemma blocks_from_subseteq b chain : blocks_from b chain ⊆ chain.
Proof.
  induction chain as [|x chain IH]; simpl; [done|].
  destruct (decide (x = b)); [done|]. intros y Hy. right. by apply IH.
Qed.

(** [codegen_process_inline_calls] runs the inliner with the threshold
    -1, with which only a callee marked [forceinline] is ever inlined:
    for a module of which every handle names an object and in which no
    function is marked, the pass returns, whatever fuel it has for its
    rescans; it returns the module as it was and reports success. *)
Theorem process_inline_calls_without_forceinline (fuel : nat) (ctx : CodegenContext) :
  scannable ctx ->
  (forall fr f, funcs ctx !! fr = Some f -> attr_forceinline f = false) ->
  codegen_process_inline_calls (S fuel) ctx = Ok (ctx, true).
Proof.
  intros Hs Hforce. unfold codegen_process_inline_calls. rewrite run_inliner_eq.
  set (ictx := mkInlineContext [] [] (-1) false).
  assert (Hrun : forall l, l ⊆ functions ctx ->
             foldM (run_step (S fuel)) (ctx, ictx, mkResult false false) l
             = Ok (ctx, ictx, mkResult false false)).
  { induction l as [|fr l IH]; intros Hl; simpl; [done|].
    assert (Hfr : fr ∈ functions ctx) by (apply Hl; by left).
    destruct (Hs fr Hfr) as (f & Hf & _).
    assert (Hstep : run_step (S fuel) (ctx, ictx, mkResult false false) fr
                    = Ok (ctx, ictx, mkResult false false)).
    { unfold run_step, inline_calls_in_function. simpl.
      rewrite (get_func_Some _ _ _ Hf). simpl.
      rewrite (scan_blocks_returns ctx (with_history ictx []) (mkResult false false) fr f);
        try done.
      destruct (head (blocks f)); [apply blocks_from_subseteq|].
      intros x Hx. by apply elem_of_nil in Hx. }
    rewrite Hstep. simpl. apply IH. intros x Hx. apply Hl. by right. }
  by rewrite Hrun.
Qed.

Lemma process_inline_calls_without_forceinline_witness :
  codegen_process_inline_calls 1 Unrolling.ctx = Ok (Unrolling.ctx, true).
Proof.
  apply (process_inline_calls_without_forceinline 0 Unrolling.ctx).
  - assert (Hf : countable Unrolling.f).
    { intros b Hb. apply list_elem_of_singleton in Hb as ->.
      exists (block [10; 11] 1). split; [reflexivity|]. intros i Hi.
      repeat (apply elem_of_cons in Hi as [->|Hi]; [eexists; reflexivity|]).
      by apply elem_of_nil in Hi. }
    assert (Hg : countable Unrolling.g).
    { intros b Hb. apply list_elem_of_singleton in Hb as ->.
      exists (block [20; 21; 22] 2). split; [reflexivity|]. intros i Hi.
      repeat (apply elem_of_cons in Hi as [->|Hi]; [eexists; reflexivity|]).
      by apply elem_of_nil in Hi. }
    intros fr Hfr.
    apply elem_of_cons in Hfr as [->|Hfr];
      [|apply elem_of_cons in Hfr as [->|Hfr]; [|by apply elem_of_nil in Hfr]].
    + exists Unrolling.f. split; [reflexivity|]. split; [exact Hf|].
      intros b blk i r Hb Hblk Hi Hr Hk. apply list_elem_of_singleton in Hb as ->.
      injection Hblk as <-.
      repeat (apply elem_of_cons in Hi as [->|Hi];
              [vm_compute in Hr; injection Hr as <-;
               first [ discriminate Hk
                     | eexists _, _, _, _; split; [reflexivity|];
                       intros callee_ref [= <-]; exists Unrolling.g;
                       split; [reflexivity|intros _; exact Hg] ]|]).
      by apply elem_of_nil in Hi.
    + exists Unrolling.g. split; [reflexivity|]. split; [exact Hg|].
      intros b blk i r Hb Hblk Hi Hr Hk. apply list_elem_of_singleton in Hb as ->.
      injection Hblk as <-.
      repeat (apply elem_of_cons in Hi as [->|Hi];
              [vm_compute in Hr; injection Hr as <-;
               first [ discriminate Hk
                     | eexists _, _, _, _; split; [reflexivity|];
                       intros callee_ref [= <-]; exists Unrolling.g;
                       split; [reflexivity|intros _; exact Hg] ]|]).
      by apply elem_of_nil in Hi.
  - intros fr f Hf. unfold Unrolling.ctx in Hf. simpl in Hf.
    destruct (decide (fr = 1)) as [->|]; [by injection Hf as <-|].
    destruct (decide (fr = 2)) as [->|]; [by injection Hf as <-|].
    by rewrite !lookup_insert_ne in Hf.
Defined.

(** ** [Type::Equal] is an equivalence *)

Section TyInduction.

Variable P : Glint.Ty -> Prop.
Hypothesis HBuiltin : forall p k, P (Glint.BuiltinType p k).
Hypothesis HFFI : forall p k, P (Glint.FFITy p k).
Hypothesis HNamed : forall p n, P (Glint.NamedType p n).
Hypothesis HEnum : forall p, P (Glint.EnumType p).
Hypothesis HPointer : forall p e, P e -> P (Glint.PointerType p e).
Hypothesis HReference : forall p e, P e -> P (Glint.ReferenceType p e).
Hypothesis HArray : forall p e s, P e -> P (Glint.ArrayType p e s).
Hypothesis HDynamicArray : forall p e, P e -> P (Glint.DynamicArrayType p e).
Hypothesis HFunc : forall p r ps, P r -> Forall P ps -> P (Glint.FuncType p r ps).
Hypothesis HStruct : forall p d ms, Forall P ms -> P (Glint.StructType p d ms).
Hypothesis HInteger : forall p w s, P (Glint.IntegerType p w s).

(** Induction over a type with the members and parameters as
    induction hypotheses. *)
Lemma Ty_nested_ind : forall t, P t.
Proof.
  fix IH 1. intros [p k|p k|p n|p|p e|p e|p e s|p e|p r ps|p d ms|p w s].
  - apply HBuiltin.
  - apply HFFI.
  - apply HNamed.
  - apply HEnum.
  - apply HPointer, IH.
  - apply HReference, IH.
  - apply HArray, IH.
  - apply HDynamicArray, IH.
  - apply HFunc; [apply IH|].
    induction ps as [|x ps IHps]; constructor; [apply IH | apply IHps].
  - apply HStruct.
    induction ms as [|x ms IHms]; constructor; [apply IH | apply IHms].
  - apply HInteger.
Qed.

End TyInduction.

(** The comparison of two function types as the loop over the
    parameters followed by the return types. *)
Lemma Equal_FuncType (pa pb : nat) (ra rb : Glint.Ty) (la lb : list Glint.Ty) :
  pa <> pb ->
  Glint.Equal (Glint.FuncType pa ra la) (Glint.FuncType pb rb lb)
  = if decide (length la ≠ length lb) then Ok false
    else do same <- Glint.all_equal Glint.Equal la lb;
         if same : bool then Glint.Equal ra rb else Ok false.
Proof.
  intros Hne. simpl. rewrite decide_False by done.
  destruct (decide (length la ≠ length lb)); [done|]. f_equal.
  clear. revert lb. induction la as [|x la IH]; intros [|y lb]; simpl; try done.
  destruct (Glint.Equal x y) as [[|]| |]; simpl; auto.
Qed.

(** The comparison of two structs. *)
Lemma Equal_StructType (pa pb : nat) (da db : bool) (ma mb : list Glint.Ty) :
  pa <> pb ->
  Glint.Equal (Glint.StructType pa da ma) (Glint.StructType pb db mb)
  = if da || db then Ok false
    else if decide (length ma ≠ length mb) then Ok false
         else Glint.all_equal Glint.Equal ma mb.
Proof.
  intros Hne. simpl. rewrite decide_False by done.
  destruct (da || db); [done|].
  destruct (decide (length ma ≠ length mb)); [done|].
  clear. revert mb. induction ma as [|x ma IH]; intros [|y mb]; simpl; try done.
  destruct (Glint.Equal x y) as [[|]| |]; simpl; auto.
Qed.

Lemma all_equal_sym (la lb : list Glint.Ty) :
  Forall (fun a => forall b, Glint.Equal a b = Glint.Equal b a) la ->
  Glint.all_equal Glint.Equal la lb = Glint.all_equal Glint.Equal lb la.
Proof.
  intros H. revert lb. induction H as [|x la Hx _ IH]; intros [|y lb]; simpl; try done.
  rewrite Hx. destruct (Glint.Equal y x) as [[|]| |]; simpl; auto.
Qed.

Lemma addr_eq_sym (p q : nat) (A : Type) (x y : A) :
  (if decide (p = q) then x else y) = if decide (q = p) then x else y.
Proof. repeat case_decide; congruence. Qed.

Lemma length_neq_sym (la lb : list Glint.Ty) (A : Type) (x y : A) :
  (if decide (length la ≠ length lb) then x else y)
  = if decide (length lb ≠ length la) then x else y.
Proof. repeat case_decide; congruence. Qed.

(** [Type::Equal] does not depend on the order of its arguments: it
    gives the same answer, or stops at the same assertion, for [a, b]
    and for [b, a]. *)
Theorem Equal_symmetric (a b : Glint.Ty) : Glint.Equal a b = Glint.Equal b a.
Proof.
  revert b. induction a as [p k|p k|p n|p|p e IH|p e IH|p e s IH|p e IH|p r ps IHr IHps
                           |p d ms IHms|p w s] using Ty_nested_ind;
    intros [q k'|q k'|q n'|q|q e'|q e'|q e' s'|q e'|q r' ps'|q d' ms'|q w' s'];
    try (simpl; destruct (decide (p = q)) as [->|Hpq];
         [by rewrite decide_True | by rewrite (decide_False (P := q = p)) by congruence]).
  all: try solve [simpl; rewrite (addr_eq_sym p q); case_decide; [done|];
                   f_equal; try f_equal; apply bool_decide_ext; naive_solver].
  all: try solve [simpl; rewrite (addr_eq_sym p q); case_decide; [done|]; apply IH].
  - simpl. rewrite (addr_eq_sym p q). case_decide; [done|].
    destruct s as [da|], s' as [db|]; simpl; try done.
    rewrite (addr_eq_sym da db). case_decide; [apply IH|done].
  - destruct (decide (p = q)) as [->|Hpq].
    { simpl. by rewrite !decide_True. }
    rewrite !Equal_FuncType by congruence.
    rewrite (length_neq_sym ps ps'). case_decide; [done|].
    rewrite (all_equal_sym ps ps' IHps).
    destruct (Glint.all_equal Glint.Equal ps' ps) as [[|]| |]; simpl; auto.
  - destruct (decide (p = q)) as [->|Hpq].
    { simpl. by rewrite !decide_True. }
    rewrite !Equal_StructType by congruence.
    rewrite (orb_comm d d'). destruct (d' || d); [done|].
    rewrite (length_neq_sym ms ms'). case_decide; [done|].
    apply (all_equal_sym ms ms' IHms).
Qed.

Lemma parts_self (t : Glint.Ty) : t ∈ GlintQueries.parts t.
Proof. destruct t; simpl; apply list_elem_of_here. Qed.

Lemma one_object_per_address_subseteq (l l' : list Glint.Ty) :
  l' ⊆ l -> GlintQueries.one_object_per_address l ->
  GlintQueries.one_object_per_address l'.
Proof. intros Hsub H x y Hx Hy. apply H; by apply Hsub. Qed.

Lemma parts_member (x : Glint.Ty) (l : list Glint.Ty) :
  x ∈ l -> GlintQueries.parts x ⊆ flat_map GlintQueries.parts l.
Proof.
  intros Hx y Hy. apply list_elem_of_In, in_flat_map. exists x.
  split; by apply list_elem_of_In.
Qed.

Ltac parts_sub :=
  let t := fresh "t" in
  let Ht := fresh "Ht" in
  intros t Ht; simpl in *;
  repeat first [rewrite elem_of_app in Ht | rewrite elem_of_cons in Ht];
  repeat first [rewrite elem_of_app | rewrite elem_of_cons]; tauto.

Ltac ne_addr :=
  repeat match goal with
         | N : ?p <> ?q, H : context [decide (?p = ?q)] |- _ =>
             rewrite (decide_False (P := p = q)) in H by exact N
         | N : ?p <> ?q |- context [decide (?p = ?q)] =>
             rewrite (decide_False (P := p = q)) by exact N
         end.

Lemma Equal_true_kind (a b : Glint.Ty) :
  Glint.addr a <> Glint.addr b ->
  Glint.Equal a b = Ok true -> Glint.kind a = Glint.kind b.
Proof.
  intros Hab H.
  destruct (decide (Glint.kind a = Glint.kind b)) as [|Hk]; [done|]. exfalso.
  destruct a; simpl in H; rewrite decide_False in H by done;
    rewrite decide_True in H by done; discriminate.
Qed.

Lemma all_equal_trans (la lb lc : list Glint.Ty) :
  Forall (fun a => forall b c,
            GlintQueries.one_object_per_address
              (GlintQueries.parts a ++ GlintQueries.parts b ++ GlintQueries.parts c) ->
            Glint.Equal a b = Ok true -> Glint.Equal b c = Ok true ->
            Glint.Equal a c = Ok true) la ->
  GlintQueries.one_object_per_address
    (flat_map GlintQueries.parts la ++ flat_map GlintQueries.parts lb
     ++ flat_map GlintQueries.parts lc) ->
  length la = length lb -> length lb = length lc ->
  Glint.all_equal Glint.Equal la lb = Ok true ->
  Glint.all_equal Glint.Equal lb lc = Ok true ->
  Glint.all_equal Glint.Equal la lc = Ok true.
Proof.
  intros H. revert lb lc.
  induction H as [|x la Hx _ IH]; intros [|y lb] [|z lc] Hone Hab Hbc H1 H2;
    simpl in *; try done.
  apply bind_Ok in H1 as (e1 & He1 & H1). destruct e1; [|discriminate].
  apply bind_Ok in H2 as (e2 & He2 & H2). destruct e2; [|discriminate].
  rewrite (Hx y z); [simpl|..|done|done].
  - apply (IH lb lc); [|lia|lia|done|done].
    eapply one_object_per_address_subseteq; [|exact Hone]. parts_sub.
  - eapply one_object_per_address_subseteq; [|exact Hone]. parts_sub.
Qed.

(** [Type::Equal] is transitive on types in which an address stands
    for one object: if it answers yes for [a, b] and for [b, c], it
    answers yes for [a, c]. *)
Theorem Equal_transitive (a b c : Glint.Ty) :
  GlintQueries.one_object_per_address
    (GlintQueries.parts a ++ GlintQueries.parts b ++ GlintQueries.parts c) ->
  Glint.Equal a b = Ok true -> Glint.Equal b c = Ok true -> Glint.Equal a c = Ok true.
Proof.
  revert b c.
  induction a as [p k|p k|p n|p|p e IH|p e IH|p e s IH|p e IH|p r ps IHr IHps
                 |p d ms IHms|p w s] using Ty_nested_ind; intros b c Hone Hab Hbc.
  all: match goal with |- Glint.Equal ?a _ = _ => set (x := a) in * end.
  all: assert (Hx : x ∈ GlintQueries.parts x ++ GlintQueries.parts b ++ GlintQueries.parts c)
         by (apply elem_of_app; left; apply parts_self).
  all: assert (Hb : b ∈ GlintQueries.parts x ++ GlintQueries.parts b ++ GlintQueries.parts c)
         by (apply elem_of_app; right; apply elem_of_app; left; apply parts_self).
  all: assert (Hc : c ∈ GlintQueries.parts x ++ GlintQueries.parts b ++ GlintQueries.parts c)
         by (apply elem_of_app; right; apply elem_of_app; right; apply parts_self).
  all: destruct (decide (Glint.addr x = Glint.addr b)) as [E|Nab];
         [by rewrite (Hone x b Hx Hb E)|].
  all: destruct (decide (Glint.addr b = Glint.addr c)) as [E|Nbc];
         [by rewrite <- (Hone b c Hb Hc E)|].
  all: destruct (decide (Glint.addr x = Glint.addr c)) as [E|Nac];
         [by rewrite (Hone x c Hx Hc E), Equal_same|].
  all: pose proof (Equal_true_kind x b Nab Hab) as Kab.
  all: pose proof (Equal_true_kind b c Nbc Hbc) as Kbc.
  all: clear Hx Hb Hc; subst x.
  all: destruct b; try discriminate Kab; destruct c; try discriminate Kbc; clear Kab Kbc.
  all: simpl in Nab, Nbc, Nac.
  - simpl in *. ne_addr.
    injection Hab as Hab%bool_decide_eq_true. injection Hbc as Hbc%bool_decide_eq_true. by rewrite bool_decide_eq_true_2 by congruence.
  - simpl in *. ne_addr.
    injection Hab as Hab%bool_decide_eq_true. injection Hbc as Hbc%bool_decide_eq_true. by rewrite bool_decide_eq_true_2 by congruence.
  - simpl in *. ne_addr.
    injection Hab as Hab%bool_decide_eq_true. done.
  - simpl in *. ne_addr.
    injection Hab as Hab%bool_decide_eq_true. done.
  - simpl in *. ne_addr.
    eapply IH; [|exact Hab|exact Hbc].
    eapply one_object_per_address_subseteq; [|exact Hone]. parts_sub.
  - simpl in *. ne_addr.
    eapply IH; [|exact Hab|exact Hbc].
    eapply one_object_per_address_subseteq; [|exact Hone]. parts_sub.
  - simpl in Hab, Hbc |- *. ne_addr.
    destruct s as [da|]; [|discriminate]. destruct size as [db|]; [|discriminate].
    destruct size0 as [dc|]; [|discriminate]. simpl in *.
    destruct (decide (da = db)) as [->|]; [|discriminate].
    destruct (decide (db = dc)) as [->|]; [|discriminate].
    eapply IH; [|exact Hab|exact Hbc].
    eapply one_object_per_address_subseteq; [|exact Hone]. parts_sub.
  - simpl in *. ne_addr.
    eapply IH; [|exact Hab|exact Hbc].
    eapply one_object_per_address_subseteq; [|exact Hone]. parts_sub.
  - rewrite Equal_FuncType in * by done.
    destruct (decide (length ps ≠ length params)) as [|L1%dec_stable]; [discriminate|].
    destruct (decide (length params ≠ length params0)) as [|L2%dec_stable]; [discriminate|].
    rewrite decide_False by congruence.
    apply bind_Ok in Hab as (e1 & He1 & Hab). destruct e1; [|discriminate].
    apply bind_Ok in Hbc as (e2 & He2 & Hbc). destruct e2; [|discriminate].
    rewrite (all_equal_trans ps params params0 IHps); [simpl|..|done|done|done|done].
    + eapply IHr; [|exact Hab|exact Hbc].
      eapply one_object_per_address_subseteq; [|exact Hone]. parts_sub.
    + eapply one_object_per_address_subseteq; [|exact Hone]. parts_sub.
  - rewrite Equal_StructType in * by done.
    destruct (d || decl) eqn:D1; [discriminate|].
    destruct (decl || decl0) eqn:D2; [discriminate|].
    apply orb_false_elim in D1 as [-> _]. apply orb_false_elim in D2 as [_ ->]. simpl.
    destruct (decide (length ms ≠ length members)) as [|L1%dec_stable]; [discriminate|].
    destruct (decide (length members ≠ length members0)) as [|L2%dec_stable];
      [discriminate|].
    rewrite decide_False by congruence.
    apply (all_equal_trans ms members members0 IHms); [|done|done|done|done].
    eapply one_object_per_address_subseteq; [|exact Hone]. parts_sub.
  - simpl in *. ne_addr.
    injection Hab as [H1 H2]%andb_true_iff. injection Hbc as [H3 H4]%andb_true_iff.
    apply bool_decide_eq_true in H1, H2, H3, H4.
    by rewrite !bool_decide_eq_true_2 by congruence.
Qed.

Lemma Equal_transitive_witness :
  let i := Glint.IntegerType 10 32 true in
  let a := Glint.PointerType 1 i in
  let b := Glint.PointerType 2 i in
  let c := Glint.PointerType 3 (Glint.IntegerType 11 32 true) in
  Glint.Equal a b = Ok true /\ Glint.Equal b c = Ok true /\ Glint.Equal a c = Ok true.
Proof.
  intros i a b c.
  assert (Hab : Glint.Equal a b = Ok true) by reflexivity.
  assert (Hbc : Glint.Equal b c = Ok true) by reflexivity.
  split; [done|]. split; [done|].
  apply (Equal_transitive a b c); [|done|done].
  intros x y Hx Hy. simpl in Hx, Hy.
  repeat (apply elem_of_cons in Hx as [->|Hx]); try (by apply elem_of_nil in Hx);
    repeat (apply elem_of_cons in Hy as [->|Hy]); try (by apply elem_of_nil in Hy);
    simpl; intros E; first [reflexivity | discriminate E].
Defined.

(** ** Stripping pointers and references *)

Lemma strip_indirections_kind (t : Glint.Ty) :
  Glint.kind (GlintQueries.strip_indirections t) <> Glint.Kind.Pointer /\
  Glint.kind (GlintQueries.strip_indirections t) <> Glint.Kind.Reference.
Proof. induction t; simpl; try done. Qed.

Lemma strip_pointers_kind (t : Glint.Ty) :
  Glint.kind (GlintQueries.strip_pointers t) <> Glint.Kind.Pointer.
Proof. induction t; simpl; try done. Qed.

Lemma strip_pointers_indirections (t : Glint.Ty) :
  Glint.kind (GlintQueries.strip_pointers t) <> Glint.Kind.Reference ->
  GlintQueries.strip_indirections t = GlintQueries.strip_pointers t.
Proof. induction t; simpl; try done. Qed.

Lemma strip_references_Ok (t t' : Glint.Ty) :
  GlintQueries.strip_references t = Ok t' ->
  Glint.kind t' <> Glint.Kind.Reference /\
  ((Glint.kind t <> Glint.Kind.Reference /\ t' = t) \/
   exists p, t = Glint.ReferenceType p t').
Proof.
  unfold GlintQueries.strip_references. intros H.
  destruct t as [| | | | |p e| | | | |]; simpl in H;
    try (injection H as <-; split; [done|left; done]).
  destruct (decide (Glint.kind e = Glint.Kind.Reference)) as [|Hk]; [done|].
  injection H as <-. split; [done|]. right. eauto.
Qed.

(** [strip_references] removes one reference.  It stops at its
    assertion exactly for a reference to a reference, and what it
    returns is no reference. *)
Theorem strip_references_spec (t : Glint.Ty) :
  (GlintQueries.strip_references t = Abort <->
   exists p q e, t = Glint.ReferenceType p (Glint.ReferenceType q e)) /\
  (forall t', GlintQueries.strip_references t = Ok t' ->
     Glint.kind t' <> Glint.Kind.Reference /\
     ((Glint.kind t <> Glint.Kind.Reference /\ t' = t) \/
      exists p, t = Glint.ReferenceType p t')) /\
  (Glint.kind t <> Glint.Kind.Reference -> GlintQueries.strip_references t = Ok t).
Proof.
  split; [|split].
  - unfold GlintQueries.strip_references. split.
    + destruct t as [| | | | |p e| | | | |]; simpl; try done.
      destruct e as [| | | | |q e| | | | |]; simpl; try done. eauto.
    + intros (p & q & e & ->). done.
  - apply strip_references_Ok.
  - intros Hk. unfold GlintQueries.strip_references.
    rewrite decide_False by done. simpl. by rewrite decide_False.
Qed.

(** [strip_pointers_and_references] never returns a pointer, but it
    returns a reference when one lies below a pointer; its result is
    the one of the loop of [callee_type], which removes pointers and
    references alike, exactly when it is no reference. *)
Theorem strip_pointers_and_references_spec (t t' : Glint.Ty) :
  GlintQueries.strip_pointers_and_references t = Ok t' ->
  Glint.kind t' <> Glint.Kind.Pointer /\
  (Glint.kind t' <> Glint.Kind.Reference <-> GlintQueries.strip_indirections t = t') /\
  (forall p q e,
      t = Glint.PointerType p (Glint.ReferenceType q e) -> t' = Glint.ReferenceType q e).
Proof.
  unfold GlintQueries.strip_pointers_and_references. intros H.
  apply bind_Ok in H as (ty & Hty & H). injection H as <-.
  destruct (strip_references_Ok t ty Hty) as (Hk & Hshape). split; [apply strip_pointers_kind|]. split.
  - split.
    + intros Hr. destruct Hshape as [[_ ->]|[p ->]].
      * by apply strip_pointers_indirections.
      * simpl. by apply strip_pointers_indirections.
    + intros <-. apply strip_indirections_kind.
  - intros p q e ->. destruct Hshape as [[_ ->]|[p' [=]]]. done.
Qed.

Lemma strip_pointers_and_references_spec_witness :
  let u := Glint.IntegerType 3 8 false in
  let t := Glint.ReferenceType 1 (Glint.PointerType 2 u) in
  Glint.kind u <> Glint.Kind.Pointer /\ GlintQueries.strip_indirections t = u.
Proof.
  intros u t.
  destruct (strip_pointers_and_references_spec t u) as (H1 & H2 & _); [reflexivity|].
  split; [exact H1|]. by apply H2.
Defined.

(** ** Signedness *)


(** ** The translation does not rewrite the tree *)

Lemma tree_kept_refl s : tree_kept s s.
Proof. intros m. by destruct (Codegen.nodes s !! m); constructor. Qed.

Lemma tree_kept_trans s1 s2 s3 : tree_kept s1 s2 -> tree_kept s2 s3 -> tree_kept s1 s3.
Proof.
  intros H12 H23 m. specialize (H12 m). specialize (H23 m).
  destruct H12 as [x y [Hd Ht]|]; inversion H23 as [y' z [Hd' Ht']|]; subst; constructor.
  split; congruence.
Qed.

Lemma tree_kept_nodes s s' : Codegen.nodes s' = Codegen.nodes s -> tree_kept s s'.
Proof. intros E m. rewrite E. by destruct (Codegen.nodes s !! m); constructor. Qed.

Lemma keeps_tree_ret {A} (a : A) : keeps_tree (Codegen.ret a).
Proof. intros s a' s' H. inversion H; subst. apply tree_kept_refl. Qed.

Lemma keeps_tree_bind {A B} (c : Codegen.M A) (k : A -> Codegen.M B) :
  keeps_tree c -> (forall a, keeps_tree (k a)) -> keeps_tree (Codegen.bindM c k).
Proof.
  intros Hc Hk s b s' H. unfold Codegen.bindM in H.
  destruct (c s) as [[a s1]| |] eqn:E; try discriminate.
  eapply tree_kept_trans; [eapply Hc, E|eapply Hk, H].
Qed.

Lemma keeps_tree_ice {A} : keeps_tree (@Codegen.ice A).
Proof. intros s a s' H. discriminate. Qed.

Lemma keeps_tree_some {A} (o : option A) : keeps_tree (Codegen.some o).
Proof. destruct o; [apply keeps_tree_ret|apply keeps_tree_ice]. Qed.

Lemma keeps_tree_get : keeps_tree Codegen.get.
Proof. intros s a s' H. inversion H; subst. apply tree_kept_refl. Qed.

Lemma keeps_tree_node n : keeps_tree (Codegen.node n).
Proof. apply keeps_tree_bind; [apply keeps_tree_get|intros; apply keeps_tree_some]. Qed.

Lemma keeps_tree_builder {A} (c : Codegen.M A) : builder c -> keeps_tree c.
Proof. intros H s a s' Hc. eapply tree_kept_nodes, H, Hc. Qed.

(** The three writes to a node: [emitted], [ir] and [address]. *)
Lemma keeps_tree_update_node n f :
  (forall nd, Codegen.node_data (f nd) = Codegen.node_data nd /\
              Codegen.node_type (f nd) = Codegen.node_type nd) ->
  keeps_tree (Codegen.update_node n f).
Proof.
  intros Hf s u s' H. inversion H; subst. intros m. simpl.
  destruct (decide (n = m)) as [->|Hne].
  - rewrite lookup_alter_eq. destruct (Codegen.nodes s !! m); constructor. apply Hf.
  - rewrite lookup_alter_ne by done. by destruct (Codegen.nodes s !! m); constructor.
Qed.

Lemma keeps_tree_set_emitted n : keeps_tree (Codegen.set_emitted n).
Proof. by apply keeps_tree_update_node. Qed.

Lemma keeps_tree_set_ir n v : keeps_tree (Codegen.set_ir n v).
Proof. by apply keeps_tree_update_node. Qed.

Lemma keeps_tree_set_address n v : keeps_tree (Codegen.set_address n v).
Proof. by apply keeps_tree_update_node. Qed.

Lemma keeps_tree_foreach {A} (l : list A) (body : A -> Codegen.M unit) :
  (forall a, keeps_tree (body a)) -> keeps_tree (Codegen.foreach l body).
Proof.
  intros Hb. induction l as [|a l IH]; simpl; [apply keeps_tree_ret|].
  apply keeps_tree_bind; [apply Hb|intros; apply IH].
Qed.

Ltac builder_step :=
  first
    [ apply builder_ret | apply builder_create | apply builder_ir_insert
    | apply builder_emit | apply builder_set_instruction_type
    | apply builder_set_static_init | apply builder_ir_phi_argument
    | apply builder_ir_add_function_call_argument | apply builder_ir_load
    | apply builder_ir_create_static | apply builder_instruction
    | apply builder_is_closed | apply builder_current_block
    | apply builder_ir_block_create | apply builder_next_string_literal
    | apply builder_modify; reflexivity
    | progress unfold Codegen.ir_immediate, Codegen.ir_store, Codegen.ir_binary,
        Codegen.ir_unary, Codegen.ir_branch, Codegen.ir_branch_conditional,
        Codegen.ir_return, Codegen.ir_phi, Codegen.ir_funcref,
        Codegen.ir_stack_allocate, Codegen.ir_block_attach, Codegen.issue_diagnostic ].

Section TreeBodies.

Variable type_is_void : Codegen.CType -> bool.
Variable type_sizeof : Codegen.CType -> nat.
Variable is_lvalue : Codegen.NodeData -> bool.
Variables ce cl : nat -> Codegen.M unit.
Hypothesis keeps_tree_ce : forall n, keeps_tree (ce n).
Hypothesis keeps_tree_cl : forall n, keeps_tree (cl n).

Ltac tree_step :=
  match goal with
  | |- keeps_tree (Codegen.bindM _ _) => apply keeps_tree_bind; [|intros]
  | |- keeps_tree (Codegen.ret _) => apply keeps_tree_ret
  | |- keeps_tree Codegen.ice => apply keeps_tree_ice
  | |- keeps_tree (Codegen.some _) => apply keeps_tree_some
  | |- keeps_tree (Codegen.node _) => apply keeps_tree_node
  | |- keeps_tree Codegen.get => apply keeps_tree_get
  | |- keeps_tree (Codegen.set_ir _ _) => apply keeps_tree_set_ir
  | |- keeps_tree (Codegen.set_address _ _) => apply keeps_tree_set_address
  | |- keeps_tree (Codegen.foreach _ _) => apply keeps_tree_foreach; intros
  | |- keeps_tree (ce _) => apply keeps_tree_ce
  | |- keeps_tree (cl _) => apply keeps_tree_cl
  | |- keeps_tree (Codegen.unless_closed _) => unfold Codegen.unless_closed
  | |- keeps_tree (match ?d with _ => _ end) => destruct d
  | |- keeps_tree _ => apply keeps_tree_builder; solve [repeat builder_step]
  end.

Lemma keeps_tree_lvalue_body lval nd : keeps_tree (Codegen.lvalue_body ce cl lval nd).
Proof. unfold Codegen.lvalue_body. repeat tree_step. Qed.

Lemma keeps_tree_store_elements t size address index l :
  keeps_tree (Codegen.store_elements type_sizeof ce t size address index l).
Proof.
  revert address index. induction l as [|n l IH]; intros address index; simpl.
  - apply keeps_tree_ret.
  - repeat first [apply IH | tree_step].
Qed.

Lemma keeps_tree_block_children last l :
  keeps_tree (Codegen.block_children ce last l).
Proof.
  revert last. induction l as [|n l IH]; intros last; simpl.
  - apply keeps_tree_ret.
  - repeat first [apply IH | tree_step].
Qed.

Lemma keeps_tree_subscript expr lhs rhs :
  keeps_tree (Codegen.subscript type_sizeof is_lvalue ce cl expr lhs rhs).
Proof. unfold Codegen.subscript. repeat tree_step. Qed.

Lemma keeps_tree_expr_body expr nd :
  keeps_tree (Codegen.expr_body type_is_void type_sizeof is_lvalue ce cl expr nd).
Proof.
  unfold Codegen.expr_body.
  repeat first [ apply keeps_tree_subscript | apply keeps_tree_store_elements
               | apply keeps_tree_block_children | tree_step ].
Qed.

End TreeBodies.

Section Tree.

Variable type_is_void : Codegen.CType -> bool.
Variable type_sizeof : Codegen.CType -> nat.
Variable is_lvalue : Codegen.NodeData -> bool.

Lemma keeps_tree_codegen fuel :
  (forall n, keeps_tree (Codegen.codegen_expr type_is_void type_sizeof is_lvalue fuel n)) /\
  (forall n, keeps_tree (Codegen.codegen_lvalue type_is_void type_sizeof is_lvalue fuel n)).
Proof.
  induction fuel as [|fuel [IHe IHl]].
  - split; intros n s a s' H; discriminate.
  - split; intros n.
    + rewrite codegen_expr_S. apply keeps_tree_bind; [apply keeps_tree_node|].
      intros nd. destruct (Codegen.emitted nd); [apply keeps_tree_ret|].
      apply keeps_tree_bind; [apply keeps_tree_set_emitted|intros _].
      by apply keeps_tree_expr_body.
    + rewrite codegen_lvalue_S. apply keeps_tree_bind; [apply keeps_tree_node|].
      intros nd. destruct (Codegen.address nd); [apply keeps_tree_ret|].
      by apply keeps_tree_lvalue_body.
Qed.

(** [codegen_expr] and [codegen_lvalue] write the fields [emitted],
    [ir] and [address] of nodes and nothing else of the tree: after a
    call that returns, the tree has the nodes it had, each with its
    kind, its children and its type. *)
Theorem codegen_keeps_the_tree :
  forall fuel n s s',
    Codegen.codegen_expr type_is_void type_sizeof is_lvalue fuel n s = Ok (tt, s') \/
    Codegen.codegen_lvalue type_is_void type_sizeof is_lvalue fuel n s = Ok (tt, s') ->
    forall m,
      match Codegen.nodes s !! m, Codegen.nodes s' !! m with
      | Some nd, Some nd' =>
          Codegen.node_data nd' = Codegen.node_data nd /\
          Codegen.node_type nd' = Codegen.node_type nd
      | None, None => True
      | _, _ => False
      end.
Proof.
  intros fuel n s s' H m. destruct (keeps_tree_codegen fuel) as [He Hl].
  assert (K : tree_kept s s') by (destruct H as [H|H]; [eapply He|eapply Hl]; exact H).
  specialize (K m). by destruct K.
Qed.

End Tree.

Lemma codegen_keeps_the_tree_witness :
  exists s' nd,
    Codegen.codegen_expr SharedOperand.type_is_void SharedOperand.type_sizeof
      SharedOperand.is_lvalue 2 2 SharedOperand.state = Ok (tt, s') /\
    Codegen.nodes s' !! 2 = Some nd /\
    Codegen.node_data nd = Codegen.NODE_BINARY Codegen.TK_PLUS 1 1.
Proof.
  destruct (Codegen.codegen_expr SharedOperand.type_is_void SharedOperand.type_sizeof
              SharedOperand.is_lvalue 2 2 SharedOperand.state) as [[[] s']| |] eqn:E;
    [|vm_compute in E; discriminate E..].
  pose proof (codegen_keeps_the_tree SharedOperand.type_is_void SharedOperand.type_sizeof
                SharedOperand.is_lvalue 2 2 SharedOperand.state s' (or_introl E) 2) as K.
  change (Codegen.nodes SharedOperand.state !! 2) with (Some SharedOperand.sum) in K.
  destruct (Codegen.nodes s' !! 2) as [nd|] eqn:Hn; simpl in K; [|contradiction].
  exists s', nd. split; [reflexivity|]. split; [exact Hn|]. exact (proj1 K).
Defined.
